(** * asteroid-shooter: the dynamic asteroid population system

    A shallow embedding of the spawning, density-control and damage code of
    the game (the listing with the proactive density controller, plus the
    places where the older listings differ), and the properties its
    specification states about it.

    Number model.  JavaScript numbers are embedded as real numbers [R]:
    [Math.sqrt], [Math.cos], [Math.sin] and [Math.floor] are the functions of
    the same name on the reals, so rounding, overflow and NaN are outside the
    model.  Integer-valued quantities that the code only counts with (hit
    points, vertex counts, loop indices) are [Z] or [nat].

    Randomness.  [Math.random()] reads the next element of an injected stream
    of samples; every function that draws threads the number of samples
    consumed so far through the world (field [cursor]). *)

From Stdlib Require Import Reals Lra Lia ZArith.
From stdpp Require Import base decidable option list gmap.

Open Scope R_scope.

#[global] Instance Rlt_decision (a b : R) : Decision (a < b) := Rlt_dec a b.
#[global] Instance Rle_decision (a b : R) : Decision (a <= b) := Rle_dec a b.
#[global] Instance Rgt_decision (a b : R) : Decision (a > b) := Rgt_dec a b.
#[global] Instance Rge_decision (a b : R) : Decision (a >= b) := Rge_dec a b.
#[global] Instance Req_decision : EqDecision R := Req_dec_T.

(** ** The engine functions the game calls

    These belong to the Phaser library, not to the repository; each is
    written out from the library's published source so that the game code
    below can be read against it. *)

Module Phaser.

(** [Phaser.Math.FloatBetween(min, max)], with [u] the value of
    [Math.random()]. *)
Definition FloatBetween (min max u : R) : R := u * (max - min) + min.

(** [Phaser.Math.Between(min, max)]:
    [Math.floor(Math.random() * (max - min + 1) + min)]. *)
Definition Between (min max u : R) : Z := Zfloor (u * (max - min + 1) + min).

(** [Phaser.Utils.Array.GetRandom(array)]: the element at index
    [Math.floor(Math.random() * array.length)], or null. *)
Definition GetRandom {A} (array : list A) (u : R) : option A :=
  array !! Z.to_nat (Zfloor (u * INR (length array))).

(** [Phaser.Math.Distance.Between(x1, y1, x2, y2)]. *)
Definition DistanceBetween (x1 y1 x2 y2 : R) : R :=
  let dx := x1 - x2 in
  let dy := y1 - y2 in
  sqrt (dx * dx + dy * dy).

(** [Phaser.Geom.Rectangle]. *)
Record Rectangle := mkRectangle { x : R; y : R; width : R; height : R }.

Definition left (r : Rectangle) : R := x r.
Definition top (r : Rectangle) : R := y r.
Definition right (r : Rectangle) : R := x r + width r.
Definition bottom (r : Rectangle) : R := y r + height r.

(** [Phaser.Geom.Rectangle.Contains(rect, x, y)]: closed on all four
    sides, and empty when the rectangle has no area. *)
Definition Contains (rect : Rectangle) (px py : R) : bool :=
  if bool_decide (width rect <= 0) || bool_decide (height rect <= 0) then false
  else bool_decide (x rect <= px) && bool_decide (x rect + width rect >= px)
       && bool_decide (y rect <= py) && bool_decide (y rect + height rect >= py).

(** [Math.atan2(y, x)]. *)
Definition atan2 (py px : R) : R :=
  if bool_decide (0 < px) then atan (py / px)
  else if bool_decide (px < 0) then
    (if bool_decide (0 <= py) then atan (py / px) + PI else atan (py / px) - PI)
  else if bool_decide (0 < py) then PI / 2
  else if bool_decide (py < 0) then - PI / 2
  else 0.

(** [Phaser.Math.Angle.Between(x1, y1, x2, y2)]. *)
Definition AngleBetween (x1 y1 x2 y2 : R) : R := atan2 (y2 - y1) (x2 - x1).

(** [Vector2.length()] and [Vector2.angle()] (the latter in [0, 2 PI)). *)
Definition vecLength (v : R * R) : R := sqrt (fst v * fst v + snd v * snd v).
Definition vecAngle (v : R * R) : R :=
  let angle := atan2 (snd v) (fst v) in
  if bool_decide (angle < 0) then angle + 2 * PI else angle.

(** [Phaser.Math.RadToDeg]. *)
Definition RadToDeg (radians : R) : R := radians * (180 / PI).

(** [Phaser.Math.Angle.ShortestBetween(angle1, angle2)], in degrees. *)
Definition ShortestBetween (angle1 angle2 : R) : R :=
  let difference := angle2 - angle1 in
  if bool_decide (difference = 0) then 0
  else
    let times := IZR (Zfloor ((difference - -180) / 360)) in
    difference - times * 360.

(** [physics.velocityFromRotation(rotation, speed, vec)]. *)
Definition velocityFromRotation (rotation speed : R) : R * R :=
  (cos rotation * speed, sin rotation * speed).

End Phaser.

(** ** Constants *)

Inductive CategoryName := XS | SM | MD.

#[global] Instance CategoryName_eq_dec : EqDecision CategoryName.
Proof. solve_decision. Defined.

Record Category := mkCategory {
  minSize : R;
  maxSize : R;
  hp : Z;
  breakInto : option CategoryName;
  breakCount : Z
}.

(** [ASTEROID_CATEGORIES]; the keys [XS], [S], [M] of the source are the
    constructors [XS], [SM], [MD]. *)
Definition ASTEROID_CATEGORIES (name : CategoryName) : Category :=
  match name with
  | XS => mkCategory 10 15 1 None 0
  | SM => mkCategory 16 24 2 None 0
  | MD => mkCategory 25 40 3 None 0
  end.

Definition ACTIVE_ASTEROID_CATEGORIES : list CategoryName := [XS; SM; MD].

Definition ASTEROID_JAGGEDNESS : R := 0.4.
Definition ASTEROID_MIN_VERTICES : R := 6.
Definition ASTEROID_MAX_VERTICES : R := 11.
Definition ASTEROID_MIN_SPEED : R := 30.
Definition ASTEROID_MAX_SPEED : R := 80.
Definition ASTEROID_MAX_ROTATION_SPEED : R := 60.
Definition ASTEROID_BOUNCE : R := 0.8.
Definition SPAWN_BUFFER : R := 100.
Definition CLEANUP_BUFFER : R := 400.
Definition SPAWN_CHECK_RADIUS_MULTIPLIER : R := 1.2.
Definition SPAWN_MAX_RETRIES : nat := 15.
Definition ASTEROID_HIT_FILL_COLOR : Z := 16777215.
Definition ASTEROID_HIT_FILL_ALPHA : R := 0.4.
Definition ASTEROID_HIT_DURATION : Z := 100.
Definition ASTEROID_INITIAL_COUNT : nat := 20.
Definition PLAYER_INITIAL_SAFE_ZONE_RADIUS : R := 150.
Definition PLAYER_SPEED_THRESHOLD_FOR_BIAS : R := 50.
Definition SPAWN_BIAS_STRENGTH : R := 0.6.
Definition PROACTIVE_GENERATION_RADIUS_MULTIPLIER : R := 2.5.
Definition TARGET_ASTEROIDS_PER_QUADRANT : Z := 4.
Definition PROACTIVE_INNER_BUFFER : R := SPAWN_BUFFER * 1.5.
Definition BULLET_CLEANUP_BUFFER : R := 50.

(** The repository holds four listings of the game.  Only the newest has the
    density controller; the older ones differ from it, for the code modelled
    here, in the angular perturbation of the polygon generator and in the
    guard of the flash-revert callback. *)
Inductive Listing :=
  | MainFirst      (* src/main.js, first listing *)
  | MainSecond     (* src/main.js, second listing *)
  | Proactive      (* the unnamed file, first listing: the newest *)
  | Biased.        (* the unnamed file, second listing *)

(** The factor of [angleStep] in [generateAsteroidPoints]. *)
Definition angleVariation (l : Listing) : R :=
  match l with
  | MainFirst => 0.15
  | MainSecond => 0.2
  | Proactive => 0.3
  | Biased => 0.2
  end.

(** Whether the flash-revert callback also tests [getData('hitPoints') > 0]. *)
Definition revertChecksHp (l : Listing) : bool :=
  match l with
  | MainFirst => false
  | _ => true
  end.

(** ** Data model *)

(** A vertex of an outline, [{x, y}]. *)
Record Point := mkPoint { p_x : R; p_y : R }.

(** The arcade-physics body of an asteroid, as far as the game sets it. *)
Record Body := mkBody {
  velocity : R * R;
  angularVelocity : R;
  circle : R;          (* setCircle(colliderRadius) *)
  offset : R * R;      (* setOffset *)
  bounce : R           (* setBounce *)
}.

(** What a Graphics object currently shows: nothing, or an outline, stroked
    and possibly filled with (color, alpha). *)
Inductive Gfx :=
  | Blank
  | Drawn (outline : list Point) (fill : option (Z * R)).

(** An asteroid game object.  [a_x], [a_y], [a_active], [a_body] are the
    object's [x], [y], [active], [body]; the [d_] fields are the entries of
    its data bag ([getData]/[setData]), [None] standing for [undefined]. *)
Record Asteroid := mkAsteroid {
  a_x : R;
  a_y : R;
  a_active : bool;
  a_body : option Body;
  d_category : option CategoryName;
  d_hitPoints : option Z;
  d_visualSize : option R;
  d_points : option (list Point);
  d_isHit : option bool;
  a_gfx : Gfx
}.

Record Bullet := mkBullet {
  b_x : R;
  b_y : R;
  b_active : bool;
  b_body : bool
}.

(** The player container: position, [active], and the velocity of its body
    when it has one. *)
Record Player := mkPlayer {
  pl_x : R;
  pl_y : R;
  pl_active : bool;
  pl_body : option (R * R)
}.

(** A pending [scene.time.delayedCall(ASTEROID_HIT_DURATION, ...)]: the
    closure captures the asteroid object and its [points] array; the listing
    records which version of the closure body was scheduled. *)
Record FlashRevert := mkFlashRevert {
  fr_listing : Listing;
  fr_asteroid : nat;
  fr_points : list Point
}.

(** The module-level state of the game together with the scene it runs in.
    Game objects live in a heap indexed by handle, so that a closure or a
    collision callback can still hold an object that has left its group. *)
Record World := mkWorld {
  heap : gmap nat Asteroid;
  asteroidsGroup : list nat;             (* children, in insertion order *)
  bulletHeap : gmap nat Bullet;
  bulletsGroup : list nat;
  nextHandle : nat;
  timers : list FlashRevert;
  explosions : list (R * R);             (* particleEmitter.emitParticleAt *)
  cursor : nat;                          (* Math.random() draws so far *)
  player : option Player;
  camera : option Phaser.Rectangle;      (* scene.cameras.main.worldView *)
  scale : R * R;                         (* scene.scale.width, .height *)
  particleEmitter : bool
}.

(** What the game does not decide: the samples of [Math.random()], and
    whether the physics group manages to attach a body to a new object. *)
Record Env := mkEnv {
  random : nat -> R;
  attachBody : nat -> bool
}.

Definition set_heap (f : gmap nat Asteroid -> gmap nat Asteroid) (w : World) : World :=
  mkWorld (f (heap w)) (asteroidsGroup w) (bulletHeap w) (bulletsGroup w)
          (nextHandle w) (timers w) (explosions w) (cursor w) (player w)
          (camera w) (scale w) (particleEmitter w).

Definition set_asteroidsGroup (f : list nat -> list nat) (w : World) : World :=
  mkWorld (heap w) (f (asteroidsGroup w)) (bulletHeap w) (bulletsGroup w)
          (nextHandle w) (timers w) (explosions w) (cursor w) (player w)
          (camera w) (scale w) (particleEmitter w).

Definition set_bulletHeap (f : gmap nat Bullet -> gmap nat Bullet) (w : World) : World :=
  mkWorld (heap w) (asteroidsGroup w) (f (bulletHeap w)) (bulletsGroup w)
          (nextHandle w) (timers w) (explosions w) (cursor w) (player w)
          (camera w) (scale w) (particleEmitter w).

Definition set_bulletsGroup (f : list nat -> list nat) (w : World) : World :=
  mkWorld (heap w) (asteroidsGroup w) (bulletHeap w) (f (bulletsGroup w))
          (nextHandle w) (timers w) (explosions w) (cursor w) (player w)
          (camera w) (scale w) (particleEmitter w).

Definition set_nextHandle (f : nat -> nat) (w : World) : World :=
  mkWorld (heap w) (asteroidsGroup w) (bulletHeap w) (bulletsGroup w)
          (f (nextHandle w)) (timers w) (explosions w) (cursor w) (player w)
          (camera w) (scale w) (particleEmitter w).

Definition set_timers (f : list FlashRevert -> list FlashRevert) (w : World) : World :=
  mkWorld (heap w) (asteroidsGroup w) (bulletHeap w) (bulletsGroup w)
          (nextHandle w) (f (timers w)) (explosions w) (cursor w) (player w)
          (camera w) (scale w) (particleEmitter w).

Definition set_explosions (f : list (R * R) -> list (R * R)) (w : World) : World :=
  mkWorld (heap w) (asteroidsGroup w) (bulletHeap w) (bulletsGroup w)
          (nextHandle w) (timers w) (f (explosions w)) (cursor w) (player w)
          (camera w) (scale w) (particleEmitter w).

Definition set_cursor (f : nat -> nat) (w : World) : World :=
  mkWorld (heap w) (asteroidsGroup w) (bulletHeap w) (bulletsGroup w)
          (nextHandle w) (timers w) (explosions w) (f (cursor w)) (player w)
          (camera w) (scale w) (particleEmitter w).

(** ** A state monad over the world *)

Definition M (A : Type) : Type := World -> A * World.

Definition ret {A} (a : A) : M A := fun w => (a, w).

Definition bind {A B} (m : M A) (k : A -> M B) : M B :=
  fun w => let '(a, w') := m w in k a w'.

Definition get : M World := fun w => (w, w).

Definition modify (f : World -> World) : M unit := fun w => (tt, f w).

Declare Scope game_scope.
Delimit Scope game_scope with game.
Notation "x <- c1 ;; c2" := (bind c1 (fun x => c2))
  (at level 100, c1 at next level, right associativity) : game_scope.
Notation "c1 ;;; c2" := (bind c1 (fun _ => c2))
  (at level 100, right associativity) : game_scope.
Open Scope game_scope.

(** [Math.random()]. *)
Definition rand (env : Env) : M R :=
  fun w => (random env (cursor w), set_cursor S w).

(** ** Game-object primitives (engine behaviour the game relies on) *)

(** [scene.add.graphics()]: a fresh, active, empty Graphics object at the
    origin. *)
Definition newGraphics : Asteroid :=
  mkAsteroid 0 0 true None None None None None None Blank.

Definition addGraphics : M nat :=
  fun w =>
    let h := nextHandle w in
    (h, set_nextHandle S (set_heap (insert h newGraphics) w)).

(** Update of the object behind a handle; nothing happens for a handle that
    names no object. *)
Definition update (h : nat) (f : Asteroid -> Asteroid) : M unit :=
  modify (set_heap (fun hp => match hp !! h with
                              | Some a => <[h := f a]> hp
                              | None => hp
                              end)).

Definition with_position (px py : R) (a : Asteroid) : Asteroid :=
  mkAsteroid px py (a_active a) (a_body a) (d_category a) (d_hitPoints a)
             (d_visualSize a) (d_points a) (d_isHit a) (a_gfx a).

Definition with_body (b : option Body) (a : Asteroid) : Asteroid :=
  mkAsteroid (a_x a) (a_y a) (a_active a) b (d_category a) (d_hitPoints a)
             (d_visualSize a) (d_points a) (d_isHit a) (a_gfx a).

Definition with_category (c : CategoryName) (a : Asteroid) : Asteroid :=
  mkAsteroid (a_x a) (a_y a) (a_active a) (a_body a) (Some c) (d_hitPoints a)
             (d_visualSize a) (d_points a) (d_isHit a) (a_gfx a).

Definition with_hitPoints (n : Z) (a : Asteroid) : Asteroid :=
  mkAsteroid (a_x a) (a_y a) (a_active a) (a_body a) (d_category a) (Some n)
             (d_visualSize a) (d_points a) (d_isHit a) (a_gfx a).

Definition with_visualSize (s : R) (a : Asteroid) : Asteroid :=
  mkAsteroid (a_x a) (a_y a) (a_active a) (a_body a) (d_category a) (d_hitPoints a)
             (Some s) (d_points a) (d_isHit a) (a_gfx a).

Definition with_points (ps : list Point) (a : Asteroid) : Asteroid :=
  mkAsteroid (a_x a) (a_y a) (a_active a) (a_body a) (d_category a) (d_hitPoints a)
             (d_visualSize a) (Some ps) (d_isHit a) (a_gfx a).

Definition with_isHit (b : bool) (a : Asteroid) : Asteroid :=
  mkAsteroid (a_x a) (a_y a) (a_active a) (a_body a) (d_category a) (d_hitPoints a)
             (d_visualSize a) (d_points a) (Some b) (a_gfx a).

Definition with_gfx (g : Gfx) (a : Asteroid) : Asteroid :=
  mkAsteroid (a_x a) (a_y a) (a_active a) (a_body a) (d_category a) (d_hitPoints a)
             (d_visualSize a) (d_points a) (d_isHit a) g.

(** [GameObject.destroy()]: the object becomes inactive and loses its body
    and its data bag. *)
Definition destroyed (a : Asteroid) : Asteroid :=
  mkAsteroid (a_x a) (a_y a) false None None None None None None (a_gfx a).

(** [asteroidsGroup.add(obj)]: the object joins the group's children and the
    physics group gives it a body with the group's defaults, when the engine
    manages to. *)
Definition groupBody : Body := mkBody (0, 0) 0 0 (0, 0) ASTEROID_BOUNCE.

Definition groupAdd (env : Env) (h : nat) : M unit :=
  modify (set_asteroidsGroup (fun g => g ++ [h])) ;;;
  if attachBody env h then update h (with_body (Some groupBody)) else ret tt.

(** [asteroidsGroup.remove(obj, true, true)] and [obj.destroy()] on an
    asteroid: either way the object leaves the group and is destroyed. *)
Definition destroyAsteroid (h : nat) : M unit :=
  modify (set_asteroidsGroup (filter (fun h' => h' <> h))) ;;;
  update h destroyed.

Definition destroyBullet (b : nat) : M unit :=
  modify (set_bulletsGroup (filter (fun b' => b' <> b))) ;;;
  modify (set_bulletHeap (fun hp => match hp !! b with
                                    | Some bl => <[b := mkBullet (b_x bl) (b_y bl) false false]> hp
                                    | None => hp
                                    end)).

(** [children.iterate(callback)]: the callback runs on each child in order
    until it returns [false]. *)
Fixpoint iterate {St} (callback : nat -> St -> bool * St) (entries : list nat) (s : St) : St :=
  match entries with
  | [] => s
  | e :: rest =>
      let '(continue, s') := callback e s in
      if continue then iterate callback rest s' else s'
  end.

(** [value || fallback] on a number that may be undefined: zero is falsy. *)
Definition orElse (value : option R) (fallback : R) : R :=
  match value with
  | Some v => if bool_decide (v = 0) then fallback else v
  | None => fallback
  end.

(** ** Polygon generator *)

(** The [for] loop of [generateAsteroidPoints], from index [i] on. *)
Fixpoint generatePointsFrom (env : Env) (variation angleStep radiusMin radiusMax : R)
    (i remaining : nat) (points : list Point) : M (list Point) :=
  match remaining with
  | O => ret points
  | S remaining' =>
      let baseAngle := INR i * angleStep in
      u <- rand env ;;
      let angle := baseAngle
                   + Phaser.FloatBetween (- angleStep * variation) (angleStep * variation) u in
      u <- rand env ;;
      let radius := Phaser.FloatBetween radiusMin radiusMax u in
      generatePointsFrom env variation angleStep radiusMin radiusMax (S i) remaining'
        (points ++ [mkPoint (cos angle * radius) (sin angle * radius)])
  end.

(** [generateAsteroidPoints(avgRadius, numVertices)]; the listing selects the
    angular perturbation (0.3 in the newest listing). *)
Definition generateAsteroidPoints (env : Env) (l : Listing) (avgRadius : R) (numVertices : Z)
    : M (list Point) :=
  let angleStep := (PI * 2) / IZR numVertices in
  let radiusMin := avgRadius * (1 - ASTEROID_JAGGEDNESS) in
  let radiusMax := avgRadius * (1 + ASTEROID_JAGGEDNESS) in
  generatePointsFrom env (angleVariation l) angleStep radiusMin radiusMax
    0 (Z.to_nat numVertices) [].

(** [drawAsteroidShape(graphics, points, fillStyle = null, fillAlpha = 1.0)]. *)
Definition drawAsteroidShape (graphics : nat) (points : option (list Point))
    (fillStyle : option Z) (fillAlpha : R) : M unit :=
  match points with
  | None => ret tt
  | Some ps =>
      if (length ps <? 3)%nat then ret tt
      else update graphics
             (with_gfx (Drawn ps (match fillStyle with
                                  | Some color => Some (color, fillAlpha)
                                  | None => None
                                  end)))
  end.

(** ** Spatial overlap oracle *)

(** The callback handed to [asteroidsGroup.children.iterate] by
    [spawnAsteroidInView]: the exact distance test only.  The iteration
    state is the local variable [overlaps]. *)
Definition overlapCallbackExact (w : World) (visualSize : R) (category : Category)
    (spawnX spawnY : R) (h : nat) (overlaps : bool) : bool * bool :=
  match heap w !! h with
  | None => (true, overlaps)
  | Some existingAsteroid =>
      if negb (bool_decide (is_Some (a_body existingAsteroid)))
         || negb (a_active existingAsteroid)
      then (true, overlaps)
      else
        let existingSize := orElse (d_visualSize existingAsteroid) (minSize category) in
        let requiredDist := (visualSize + existingSize) * SPAWN_CHECK_RADIUS_MULTIPLIER in
        let currentDist :=
          Phaser.DistanceBetween spawnX spawnY (a_x existingAsteroid) (a_y existingAsteroid) in
        if bool_decide (currentDist < requiredDist) then (false, true)
        else (true, overlaps)
  end.

(** The callback of [spawnAsteroid] and [spawnAsteroidInRegion]: a coarse
    per-axis test first, then the exact one. *)
Definition overlapCallback (w : World) (visualSize : R) (category : Category)
    (spawnX spawnY : R) (h : nat) (overlaps : bool) : bool * bool :=
  match heap w !! h with
  | None => (true, overlaps)
  | Some existingAsteroid =>
      if negb (bool_decide (is_Some (a_body existingAsteroid)))
         || negb (a_active existingAsteroid)
      then (true, overlaps)
      else
        let checkDist :=
          (visualSize + orElse (d_visualSize existingAsteroid) (minSize category))
          * SPAWN_CHECK_RADIUS_MULTIPLIER * 1.5 in
        if bool_decide (Rabs (a_x existingAsteroid - spawnX) > checkDist)
           || bool_decide (Rabs (a_y existingAsteroid - spawnY) > checkDist)
        then (true, overlaps)
        else
          let existingSize := orElse (d_visualSize existingAsteroid) (minSize category) in
          let requiredDist := (visualSize + existingSize) * SPAWN_CHECK_RADIUS_MULTIPLIER in
          let currentDist :=
            Phaser.DistanceBetween spawnX spawnY (a_x existingAsteroid) (a_y existingAsteroid) in
          if bool_decide (currentDist < requiredDist) then (false, true)
          else (true, overlaps)
  end.

(** The oracle as the spawners use it: [let overlaps = false], then the
    iteration over the group's children. *)
Definition overlapsExact (w : World) (visualSize : R) (category : Category)
    (spawnX spawnY : R) : bool :=
  iterate (overlapCallbackExact w visualSize category spawnX spawnY) (asteroidsGroup w) false.

Definition overlaps (w : World) (visualSize : R) (category : Category)
    (spawnX spawnY : R) : bool :=
  iterate (overlapCallback w visualSize category spawnX spawnY) (asteroidsGroup w) false.

(** ** Entity creation *)

(** The five [setData] calls that end every spawner. *)
Definition storeData (h : nat) (categoryName : CategoryName) (initialHp : Z)
    (visualSize : R) (points : list Point) : M unit :=
  update h (with_category categoryName) ;;;
  update h (with_hitPoints initialHp) ;;;
  update h (with_visualSize visualSize) ;;;
  update h (with_points points) ;;;
  update h (with_isHit false).

(** [asteroidGraphics.body], read after [asteroidsGroup.add]. *)
Definition bodyOf (w : World) (h : nat) : option Body :=
  match heap w !! h with
  | Some a => a_body a
  | None => None
  end.

(** The block [// --- Create the Asteroid ---] that ends each of the three
    spawners, written once: they repeat it verbatim except for the velocity
    they give the body, which is the parameter [drawVelocity] here.  The
    value is the handle of the new asteroid, or [None] when the physics
    group attached no body and the object was destroyed again. *)
Definition createAsteroid (env : Env) (drawVelocity : M (R * R))
    (categoryName : CategoryName) (visualSize : R) (initialHp : Z) (numVertices : Z)
    (spawnX spawnY : R) : M (option nat) :=
  points <- generateAsteroidPoints env Proactive visualSize numVertices ;;
  asteroidGraphics <- addGraphics ;;
  drawAsteroidShape asteroidGraphics (Some points) None 1 ;;;
  groupAdd env asteroidGraphics ;;;
  update asteroidGraphics (with_position spawnX spawnY) ;;;
  w <- get ;;
  match bodyOf w asteroidGraphics with
  | Some _ =>
      let colliderRadius := visualSize * 0.9 in
      v <- drawVelocity ;;
      u <- rand env ;;
      let spin := Phaser.FloatBetween (- ASTEROID_MAX_ROTATION_SPEED)
                                      ASTEROID_MAX_ROTATION_SPEED u in
      update asteroidGraphics
        (with_body (Some (mkBody v spin colliderRadius
                                 (- colliderRadius, - colliderRadius)
                                 ASTEROID_BOUNCE))) ;;;
      storeData asteroidGraphics categoryName initialHp visualSize points ;;;
      ret (Some asteroidGraphics)
  | None =>
      destroyAsteroid asteroidGraphics ;;;
      ret None
  end.

(** The velocity of a proactively spawned asteroid: random direction, speed
    from [Between(ASTEROID_MIN_SPEED * 0.8, ASTEROID_MAX_SPEED * 1.1)]. *)
Definition regionVelocity (env : Env) : M (R * R) :=
  u <- rand env ;;
  let angle := Phaser.FloatBetween 0 (PI * 2) u in
  u <- rand env ;;
  let speed := IZR (Phaser.Between (ASTEROID_MIN_SPEED * 0.8) (ASTEROID_MAX_SPEED * 1.1) u) in
  ret (Phaser.velocityFromRotation angle speed).

(** The velocity of an edge-spawned asteroid: towards a random point of the
    view, speed from [Between(ASTEROID_MIN_SPEED, ASTEROID_MAX_SPEED)]. *)
Definition edgeVelocity (env : Env) (worldView : Phaser.Rectangle) (spawnX spawnY : R)
    : M (R * R) :=
  u <- rand env ;;
  let targetX := Phaser.FloatBetween (Phaser.left worldView) (Phaser.right worldView) u in
  u <- rand env ;;
  let targetY := Phaser.FloatBetween (Phaser.top worldView) (Phaser.bottom worldView) u in
  let angle := Phaser.AngleBetween spawnX spawnY targetX targetY in
  u <- rand env ;;
  let speed := IZR (Phaser.Between ASTEROID_MIN_SPEED ASTEROID_MAX_SPEED u) in
  ret (Phaser.velocityFromRotation angle speed).

(** The velocity of a startup asteroid: random direction, speed from
    [Between(ASTEROID_MIN_SPEED * 0.5, ASTEROID_MAX_SPEED * 0.8)]. *)
Definition viewVelocity (env : Env) : M (R * R) :=
  u <- rand env ;;
  let angle := Phaser.FloatBetween 0 (PI * 2) u in
  u <- rand env ;;
  let speed := IZR (Phaser.Between (ASTEROID_MIN_SPEED * 0.5) (ASTEROID_MAX_SPEED * 0.8) u) in
  ret (Phaser.velocityFromRotation angle speed).

(** ** Region-constrained spawn *)

(** The retry loop of [spawnAsteroidInRegion] with [budget] iterations left.
    It yields the accepted candidate, if any, and the number of candidates
    it sampled. *)
Fixpoint regionRetry (env : Env) (worldView regionBounds : Phaser.Rectangle)
    (visualSize : R) (category : Category) (budget : nat) : M (option (R * R) * nat) :=
  match budget with
  | O => ret (None, O)
  | S budget' =>
      u <- rand env ;;
      let spawnX := Phaser.FloatBetween (Phaser.left regionBounds) (Phaser.right regionBounds) u in
      u <- rand env ;;
      let spawnY := Phaser.FloatBetween (Phaser.top regionBounds) (Phaser.bottom regionBounds) u in
      if Phaser.Contains worldView spawnX spawnY then
        r <- regionRetry env worldView regionBounds visualSize category budget' ;;
        ret (fst r, S (snd r))
      else
        w <- get ;;
        if negb (overlaps w visualSize category spawnX spawnY) then
          ret (Some (spawnX, spawnY), 1%nat)
        else
          r <- regionRetry env worldView regionBounds visualSize category budget' ;;
          ret (fst r, S (snd r))
  end.

(** [spawnAsteroidInRegion(scene, regionBounds)]: the handle of the created
    asteroid, or [None] for [null]. *)
Definition spawnAsteroidInRegion (env : Env) (regionBounds : Phaser.Rectangle)
    : M (option nat) :=
  w0 <- get ;;
  match camera w0 with
  | None => ret None
  | Some worldView =>
      u <- rand env ;;
      match Phaser.GetRandom ACTIVE_ASTEROID_CATEGORIES u with
      | None => ret None
      | Some categoryName =>
          let category := ASTEROID_CATEGORIES categoryName in
          u <- rand env ;;
          let visualSize := IZR (Phaser.Between (minSize category) (maxSize category) u) in
          let initialHp := hp category in
          u <- rand env ;;
          let numVertices := Phaser.Between ASTEROID_MIN_VERTICES ASTEROID_MAX_VERTICES u in
          r <- regionRetry env worldView regionBounds visualSize category
                 SPAWN_MAX_RETRIES ;;
          match fst r with
          | None => ret None
          | Some (spawnX, spawnY) =>
              createAsteroid env (regionVelocity env) categoryName visualSize initialHp
                numVertices spawnX spawnY
          end
      end
  end.

(** ** Off-screen edge spawn *)

(** The four edge weights [Top, Right, Bottom, Left] for a player heading of
    [degPlayerAngle] degrees. *)
Definition edgeWeights (degPlayerAngle : R) : list R :=
  let diffRight := Phaser.ShortestBetween degPlayerAngle 0 in
  let diffDown := Phaser.ShortestBetween degPlayerAngle 90 in
  let diffLeft := Phaser.ShortestBetween degPlayerAngle 180 in
  let diffUp := Phaser.ShortestBetween degPlayerAngle (-90) in
  let biasAmount := 1.0 + SPAWN_BIAS_STRENGTH * 4 in
  [ if bool_decide (Rabs diffUp <= 45) then 1.0 * biasAmount else 1.0;
    if bool_decide (Rabs diffRight <= 45) then 1.0 * biasAmount else 1.0;
    if bool_decide (Rabs diffDown <= 45) then 1.0 * biasAmount else 1.0;
    if bool_decide (Rabs diffLeft <= 45) then 1.0 * biasAmount else 1.0 ].

(** The weighted selection loop: the first index whose weight exceeds what
    is left of the threshold, else the edge chosen before. *)
Fixpoint pickWeighted (weights : list R) (i : Z) (randomThreshold : R) (edge : Z) : Z :=
  match weights with
  | [] => edge
  | wt :: rest =>
      if bool_decide (randomThreshold < wt) then i
      else pickWeighted rest (i + 1)%Z (randomThreshold - wt) edge
  end.

(** The edge [spawnAsteroid] spawns on: uniform, unless the player moves
    faster than the threshold. *)
Definition chooseEdge (env : Env) : M Z :=
  u <- rand env ;;
  let edge := Phaser.Between 0 3 u in
  w <- get ;;
  match player w with
  | Some pl =>
      match pl_body pl with
      | Some playerVelocity =>
          let playerSpeed := Phaser.vecLength playerVelocity in
          if bool_decide (playerSpeed > PLAYER_SPEED_THRESHOLD_FOR_BIAS) then
            let playerVelAngle := Phaser.vecAngle playerVelocity in
            let degPlayerAngle := Phaser.RadToDeg playerVelAngle in
            let weights := edgeWeights degPlayerAngle in
            let totalWeight := foldl Rplus 0 weights in
            u <- rand env ;;
            let randomThreshold := u * totalWeight in
            ret (pickWeighted weights 0%Z randomThreshold edge)
          else ret edge
      | None => ret edge
      end
  | None => ret edge
  end.

(** The [switch (edge)] of the retry loop.  It has no default case; an edge
    outside 0..3 is produced neither by [Between(0, 3)] nor by the selection
    loop, and the model leaves both coordinates at 0 there. *)
Definition edgeCandidate (env : Env) (worldView : Phaser.Rectangle) (edge : Z)
    (visualSize : R) : M (R * R) :=
  match edge with
  | 0%Z =>
      u <- rand env ;;
      let spawnX := Phaser.FloatBetween (Phaser.left worldView - SPAWN_BUFFER)
                                        (Phaser.right worldView + SPAWN_BUFFER) u in
      u <- rand env ;;
      let spawnY := Phaser.top worldView - SPAWN_BUFFER - u * visualSize in
      ret (spawnX, spawnY)
  | 1%Z =>
      u <- rand env ;;
      let spawnX := Phaser.right worldView + SPAWN_BUFFER + u * visualSize in
      u <- rand env ;;
      let spawnY := Phaser.FloatBetween (Phaser.top worldView - SPAWN_BUFFER)
                                        (Phaser.bottom worldView + SPAWN_BUFFER) u in
      ret (spawnX, spawnY)
  | 2%Z =>
      u <- rand env ;;
      let spawnX := Phaser.FloatBetween (Phaser.left worldView - SPAWN_BUFFER)
                                        (Phaser.right worldView + SPAWN_BUFFER) u in
      u <- rand env ;;
      let spawnY := Phaser.bottom worldView + SPAWN_BUFFER + u * visualSize in
      ret (spawnX, spawnY)
  | 3%Z =>
      u <- rand env ;;
      let spawnX := Phaser.left worldView - SPAWN_BUFFER - u * visualSize in
      u <- rand env ;;
      let spawnY := Phaser.FloatBetween (Phaser.top worldView - SPAWN_BUFFER)
                                        (Phaser.bottom worldView + SPAWN_BUFFER) u in
      ret (spawnX, spawnY)
  | _ => ret (0, 0)
  end.

(** The retry loop of [spawnAsteroid]. *)
Fixpoint edgeRetry (env : Env) (worldView : Phaser.Rectangle) (edge : Z)
    (visualSize : R) (category : Category) (budget : nat) : M (option (R * R)) :=
  match budget with
  | O => ret None
  | S budget' =>
      candidate <- edgeCandidate env worldView edge visualSize ;;
      w <- get ;;
      if negb (overlaps w visualSize category (fst candidate) (snd candidate)) then
        ret (Some candidate)
      else edgeRetry env worldView edge visualSize category budget'
  end.

(** [spawnAsteroid(scene)]. *)
Definition spawnAsteroid (env : Env) : M unit :=
  w0 <- get ;;
  match camera w0 with
  | None => ret tt
  | Some worldView =>
      u <- rand env ;;
      match Phaser.GetRandom ACTIVE_ASTEROID_CATEGORIES u with
      | None => ret tt
      | Some categoryName =>
          let category := ASTEROID_CATEGORIES categoryName in
          u <- rand env ;;
          let visualSize := IZR (Phaser.Between (minSize category) (maxSize category) u) in
          let initialHp := hp category in
          u <- rand env ;;
          let numVertices := Phaser.Between ASTEROID_MIN_VERTICES ASTEROID_MAX_VERTICES u in
          edge <- chooseEdge env ;;
          found <- edgeRetry env worldView edge visualSize category SPAWN_MAX_RETRIES ;;
          match found with
          | None => ret tt
          | Some (spawnX, spawnY) =>
              _ <- createAsteroid env (edgeVelocity env worldView spawnX spawnY) categoryName visualSize initialHp
                     numVertices spawnX spawnY ;;
              ret tt
          end
      end
  end.

(** ** In-view scatter spawn (startup only) *)

(** The retry loop of [spawnAsteroidInView]. *)
Fixpoint viewRetry (env : Env) (spawnAreaWidth spawnAreaHeight playerStartX playerStartY : R)
    (visualSize : R) (category : Category) (budget : nat) : M (option (R * R)) :=
  match budget with
  | O => ret None
  | S budget' =>
      let margin := visualSize in
      u <- rand env ;;
      let spawnX := Phaser.FloatBetween margin (spawnAreaWidth - margin) u in
      u <- rand env ;;
      let spawnY := Phaser.FloatBetween margin (spawnAreaHeight - margin) u in
      let distFromPlayer := Phaser.DistanceBetween spawnX spawnY playerStartX playerStartY in
      if bool_decide (distFromPlayer < PLAYER_INITIAL_SAFE_ZONE_RADIUS) then
        viewRetry env spawnAreaWidth spawnAreaHeight playerStartX playerStartY
                  visualSize category budget'
      else
        w <- get ;;
        if negb (overlapsExact w visualSize category spawnX spawnY) then
          ret (Some (spawnX, spawnY))
        else
          viewRetry env spawnAreaWidth spawnAreaHeight playerStartX playerStartY
                    visualSize category budget'
  end.

(** [spawnAsteroidInView(scene)]. *)
Definition spawnAsteroidInView (env : Env) : M unit :=
  w0 <- get ;;
  match camera w0 with
  | None => ret tt
  | Some _ =>
      let spawnAreaWidth := fst (scale w0) in
      let spawnAreaHeight := snd (scale w0) in
      let playerStartX := spawnAreaWidth / 2 in
      let playerStartY := spawnAreaHeight / 2 in
      u <- rand env ;;
      match Phaser.GetRandom ACTIVE_ASTEROID_CATEGORIES u with
      | None => ret tt
      | Some categoryName =>
          let category := ASTEROID_CATEGORIES categoryName in
          u <- rand env ;;
          let visualSize := IZR (Phaser.Between (minSize category) (maxSize category) u) in
          let initialHp := hp category in
          u <- rand env ;;
          let numVertices := Phaser.Between ASTEROID_MIN_VERTICES ASTEROID_MAX_VERTICES u in
          found <- viewRetry env spawnAreaWidth spawnAreaHeight playerStartX playerStartY
                     visualSize category (SPAWN_MAX_RETRIES * 2) ;;
          match found with
          | None => spawnAsteroid env
          | Some (spawnX, spawnY) =>
              _ <- createAsteroid env (viewVelocity env) categoryName visualSize initialHp
                     numVertices spawnX spawnY ;;
              ret tt
          end
      end
  end.

(** The startup loop of [create]: [count] calls of [spawnAsteroidInView]
    ([ASTEROID_INITIAL_COUNT] of them in the game). *)
Fixpoint initialSpawning (env : Env) (count : nat) : M unit :=
  match count with
  | O => ret tt
  | S count' => spawnAsteroidInView env ;;; initialSpawning env count'
  end.

(** ** Density controller *)

Inductive QuadrantName := TopLeft | TopRight | BottomLeft | BottomRight.

Record Quadrant := mkQuadrant { name : QuadrantName; bounds : Phaser.Rectangle }.

(** The generation window, centred on the player. *)
Definition genBoundsOf (worldView : Phaser.Rectangle) (pl : Player) : Phaser.Rectangle :=
  let viewWidth := Phaser.width worldView in
  let viewHeight := Phaser.height worldView in
  let genRadiusX := viewWidth * PROACTIVE_GENERATION_RADIUS_MULTIPLIER * 0.5 in
  let genRadiusY := viewHeight * PROACTIVE_GENERATION_RADIUS_MULTIPLIER * 0.5 in
  Phaser.mkRectangle (pl_x pl - genRadiusX) (pl_y pl - genRadiusY)
                     (genRadiusX * 2) (genRadiusY * 2).

(** The view grown by [PROACTIVE_INNER_BUFFER]: asteroids in it are not
    counted. *)
Definition innerBoundsOf (worldView : Phaser.Rectangle) : Phaser.Rectangle :=
  let viewWidth := Phaser.width worldView in
  let viewHeight := Phaser.height worldView in
  Phaser.mkRectangle (Phaser.left worldView - PROACTIVE_INNER_BUFFER)
                     (Phaser.top worldView - PROACTIVE_INNER_BUFFER)
                     (viewWidth + PROACTIVE_INNER_BUFFER * 2)
                     (viewHeight + PROACTIVE_INNER_BUFFER * 2).

(** The [quadrants] array. *)
Definition quadrantsOf (worldView : Phaser.Rectangle) (pl : Player) : list Quadrant :=
  let viewWidth := Phaser.width worldView in
  let viewHeight := Phaser.height worldView in
  let genRadiusX := viewWidth * PROACTIVE_GENERATION_RADIUS_MULTIPLIER * 0.5 in
  let genRadiusY := viewHeight * PROACTIVE_GENERATION_RADIUS_MULTIPLIER * 0.5 in
  let genBounds := genBoundsOf worldView pl in
  let quadWidth := genRadiusX in
  let quadHeight := genRadiusY in
  [ mkQuadrant TopLeft
      (Phaser.mkRectangle (Phaser.left genBounds) (Phaser.top genBounds) quadWidth quadHeight);
    mkQuadrant TopRight
      (Phaser.mkRectangle (pl_x pl) (Phaser.top genBounds) quadWidth quadHeight);
    mkQuadrant BottomLeft
      (Phaser.mkRectangle (Phaser.left genBounds) (pl_y pl) quadWidth quadHeight);
    mkQuadrant BottomRight
      (Phaser.mkRectangle (pl_x pl) (pl_y pl) quadWidth quadHeight) ].

(** The inner [for] loop of the counting callback: [asteroidCounts[i]++] for
    the first quadrant, from index [i] on, that contains the point, then
    [break]. *)
Fixpoint countInFirst (quadrants : list Quadrant) (i : nat) (px py : R)
    (asteroidCounts : list Z) : list Z :=
  match quadrants with
  | [] => asteroidCounts
  | q :: rest =>
      if Phaser.Contains (bounds q) px py then alter Z.succ i asteroidCounts
      else countInFirst rest (S i) px py asteroidCounts
  end.

(** The counting callback; the iteration state is [asteroidCounts]. *)
Definition countCallback (w : World) (innerBounds genBounds : Phaser.Rectangle)
    (quadrants : list Quadrant) (h : nat) (asteroidCounts : list Z) : bool * list Z :=
  match heap w !! h with
  | None => (true, asteroidCounts)
  | Some asteroid =>
      if negb (a_active asteroid) || negb (bool_decide (is_Some (a_body asteroid)))
      then (true, asteroidCounts)
      else if Phaser.Contains innerBounds (a_x asteroid) (a_y asteroid)
      then (true, asteroidCounts)
      else if Phaser.Contains genBounds (a_x asteroid) (a_y asteroid)
      then (true, countInFirst quadrants 0 (a_x asteroid) (a_y asteroid) asteroidCounts)
      else (true, asteroidCounts)
  end.

(** The loop [for (j = 0; j < needed; j++) spawnAsteroidInRegion(...)] for
    quadrant [i].  The value lists the calls issued, each with the index of
    its quadrant, the rectangle passed and what the call returned. *)
Fixpoint requestSpawns (env : Env) (i : nat) (region : Phaser.Rectangle) (needed : nat)
    : M (list (nat * Phaser.Rectangle * option nat)) :=
  match needed with
  | O => ret []
  | S needed' =>
      r <- spawnAsteroidInRegion env region ;;
      rest <- requestSpawns env i region needed' ;;
      ret ((i, region, r) :: rest)
  end.

(** The final loop over the quadrants, from index [i] on. *)
Fixpoint populateQuadrants (env : Env) (quadrants : list Quadrant)
    (asteroidCounts : list Z) (i : nat)
    : M (list (nat * Phaser.Rectangle * option nat)) :=
  match quadrants with
  | [] => ret []
  | q :: rest =>
      here <- match asteroidCounts !! i with
              | Some count =>
                  let needed := (TARGET_ASTEROIDS_PER_QUADRANT - count)%Z in
                  if (0 <? needed)%Z then requestSpawns env i (bounds q) (Z.to_nat needed)
                  else ret []
              | None => ret []
              end ;;
      there <- populateQuadrants env rest asteroidCounts (S i) ;;
      ret (here ++ there)
  end.

(** The per-quadrant counts one tick computes. *)
Definition countAsteroids (w : World) (worldView : Phaser.Rectangle) (pl : Player) : list Z :=
  iterate (countCallback w (innerBoundsOf worldView) (genBoundsOf worldView pl)
                         (quadrantsOf worldView pl))
          (asteroidsGroup w) [0%Z; 0%Z; 0%Z; 0%Z].

(** [checkAndPopulateDistantAreas(scene)].  ([asteroidsGroup] always exists
    in the model, so its part of the opening guard is not represented.) *)
Definition checkAndPopulateDistantAreas (env : Env)
    : M (list (nat * Phaser.Rectangle * option nat)) :=
  w <- get ;;
  match camera w, player w with
  | Some worldView, Some pl =>
      match pl_body pl with
      | None => ret []
      | Some _ =>
          let asteroidCounts := countAsteroids w worldView pl in
          populateQuadrants env (quadrantsOf worldView pl) asteroidCounts 0
      end
  | _, _ => ret []
  end.

(** ** Damage, collisions and cleanup *)

(** JavaScript truthiness of the [isHit] entry. *)
Definition truthy (b : option bool) : bool :=
  match b with
  | Some true => true
  | _ => false
  end.

(** [handleBulletAsteroidCollision(bullet, asteroid)].  The listing only
    decides which closure body the scheduled revert carries. *)
Definition handleBulletAsteroidCollision (l : Listing) (bullet asteroid : nat) : M unit :=
  w <- get ;;
  match bulletHeap w !! bullet, heap w !! asteroid with
  | Some b, Some a =>
      if negb (b_active b) || negb (a_active a) || negb (bool_decide (is_Some (a_body a)))
      then ret tt
      else
        destroyBullet bullet ;;;
        let points := d_points a in
        let isHit := d_isHit a in
        match d_hitPoints a with
        | None => destroyAsteroid asteroid
        | Some currentHp =>
            let currentHp := (currentHp - 1)%Z in
            update asteroid (with_hitPoints currentHp) ;;;
            if (currentHp <=? 0)%Z then
              (if particleEmitter w
               then modify (set_explosions (fun e => e ++ [(a_x a, a_y a)]))
               else ret tt) ;;;
              destroyAsteroid asteroid
            else
              match points with
              | Some pts =>
                  if negb (truthy isHit) then
                    update asteroid (with_isHit true) ;;;
                    drawAsteroidShape asteroid (Some pts)
                      (Some ASTEROID_HIT_FILL_COLOR) ASTEROID_HIT_FILL_ALPHA ;;;
                    modify (set_timers (fun ts => ts ++ [mkFlashRevert l asteroid pts]))
                  else ret tt
              | None => ret tt
              end
        end
  | _, _ => ret tt
  end.

(** The guard of the revert closure: [asteroid && asteroid.active], and in
    all listings but the first also [asteroid.getData('hitPoints') > 0]. *)
Definition revertGuard (l : Listing) (a : Asteroid) : bool :=
  a_active a
  && (if revertChecksHp l
      then match d_hitPoints a with
           | Some n => (0 <? n)%Z
           | None => false
           end
      else true).

(** The body of the closure passed to [delayedCall]. *)
Definition flashRevert (t : FlashRevert) : M unit :=
  w <- get ;;
  match heap w !! fr_asteroid t with
  | Some a =>
      if revertGuard (fr_listing t) a then
        drawAsteroidShape (fr_asteroid t) (Some (fr_points t)) None 1 ;;;
        update (fr_asteroid t) (with_isHit false)
      else ret tt
  | None => ret tt
  end.

(** The clock firing the [i]-th pending callback: it leaves the pending list
    and its body runs. *)
Definition fireTimer (i : nat) : M unit :=
  w <- get ;;
  match timers w !! i with
  | Some t => modify (set_timers (delete i)) ;;; flashRevert t
  | None => ret tt
  end.

(** [handlePlayerAsteroidCollision(playerGameObject, asteroidGameObject)],
    called with the player object. *)
Definition handlePlayerAsteroidCollision (asteroidGameObject : nat) : M unit :=
  w <- get ;;
  match player w, heap w !! asteroidGameObject with
  | Some pl, Some a =>
      if negb (pl_active pl) || negb (a_active a) || negb (bool_decide (is_Some (a_body a)))
      then ret tt
      else
        (if particleEmitter w
         then modify (set_explosions (fun e => e ++ [(a_x a, a_y a)]))
         else ret tt) ;;;
        destroyAsteroid asteroidGameObject
  | _, _ => ret tt
  end.

(** The view grown by [buffer] on every side. *)
Definition cleanupBoundsOf (worldView : Phaser.Rectangle) (buffer : R) : Phaser.Rectangle :=
  Phaser.mkRectangle (Phaser.left worldView - buffer) (Phaser.top worldView - buffer)
                     (Phaser.width worldView + buffer * 2)
                     (Phaser.height worldView + buffer * 2).

(** [cleanupOutOfBoundsAsteroids(camera)]; the iteration state is the world. *)
Definition cleanupOutOfBoundsAsteroids : M unit :=
  w0 <- get ;;
  match camera w0 with
  | None => ret tt
  | Some worldView =>
      let cleanupBounds := cleanupBoundsOf worldView CLEANUP_BUFFER in
      modify (iterate (fun h w =>
                match heap w !! h with
                | Some asteroid =>
                    if bool_decide (is_Some (a_body asteroid))
                       && negb (Phaser.Contains cleanupBounds (a_x asteroid) (a_y asteroid))
                    then (true, snd (destroyAsteroid h w))
                    else (true, w)
                | None => (true, w)
                end) (asteroidsGroup w0))
  end.

(** [cleanupOutOfBoundsBullets(camera)]. *)
Definition cleanupOutOfBoundsBullets : M unit :=
  w0 <- get ;;
  match camera w0 with
  | None => ret tt
  | Some worldView =>
      let cleanupBounds := cleanupBoundsOf worldView BULLET_CLEANUP_BUFFER in
      modify (iterate (fun b w =>
                match bulletHeap w !! b with
                | Some bullet =>
                    if b_body bullet
                       && negb (Phaser.Contains cleanupBounds (b_x bullet) (b_y bullet))
                    then (true, snd (destroyBullet b w))
                    else (true, w)
                | None => (true, w)
                end) (bulletsGroup w0))
  end.

(** [shootBullet(scene)], with [tip] the world position of the ship's nose
    as the engine's transform matrix gives it. *)
Definition shootBullet (env : Env) (tip : R * R) : M unit :=
  w <- get ;;
  match player w with
  | Some pl =>
      if negb (pl_active pl) || negb (bool_decide (is_Some (pl_body pl))) then ret tt
      else
        let b := nextHandle w in
        modify (set_nextHandle S) ;;;
        modify (set_bulletsGroup (fun g => g ++ [b])) ;;;
        modify (set_bulletHeap (insert b (mkBullet (fst tip) (snd tip) true (attachBody env b)))) ;;;
        if attachBody env b then ret tt else destroyBullet b
  | None => ret tt
  end.

(** ** What the engine does between calls of the game code *)

(** The physics step moving one asteroid: new position and velocities. *)
Definition moved (px py : R) (v : R * R) (spin : R) (a : Asteroid) : Asteroid :=
  mkAsteroid px py (a_active a)
             (match a_body a with
              | Some b => Some (mkBody v spin (circle b) (offset b) (bounce b))
              | None => None
              end)
             (d_category a) (d_hitPoints a) (d_visualSize a) (d_points a) (d_isHit a)
             (a_gfx a).

Definition moveAsteroid (h : nat) (px py : R) (v : R * R) (spin : R) : M unit :=
  update h (moved px py v spin).

(** The player moving and the camera following (or the window resizing). *)
Definition moveView (pl : Player) (worldView : Phaser.Rectangle) (size : R * R) : M unit :=
  modify (fun w =>
    mkWorld (heap w) (asteroidsGroup w) (bulletHeap w) (bulletsGroup w)
            (nextHandle w) (timers w) (explosions w) (cursor w) (Some pl)
            (Some worldView) size (particleEmitter w)).

(** The world at the start of [create], before the initial spawning. *)
Definition startWorld (gameWidth gameHeight : R) (worldView : Phaser.Rectangle) : World :=
  mkWorld ∅ [] ∅ [] 0 [] [] 0
          (Some (mkPlayer (gameWidth / 2) (gameHeight / 2) true (Some (0, 0))))
          (Some worldView) (gameWidth, gameHeight) true.

(** One step of the running game: a call of one of its entry points by the
    engine (timers, collision callbacks, the frame update), or the engine
    moving things. *)
Inductive step (env : Env) : World -> World -> Prop :=
  | step_spawnInView w :
      step env w (snd (spawnAsteroidInView env w))
  | step_spawn w :
      step env w (snd (spawnAsteroid env w))
  | step_density w :
      step env w (snd (checkAndPopulateDistantAreas env w))
  | step_bulletHit w l bullet asteroid :
      step env w (snd (handleBulletAsteroidCollision l bullet asteroid w))
  | step_playerHit w asteroid :
      step env w (snd (handlePlayerAsteroidCollision asteroid w))
  | step_timer w i :
      step env w (snd (fireTimer i w))
  | step_cleanupAsteroids w :
      step env w (snd (cleanupOutOfBoundsAsteroids w))
  | step_cleanupBullets w :
      step env w (snd (cleanupOutOfBoundsBullets w))
  | step_shoot w tip :
      step env w (snd (shootBullet env tip w))
  | step_moveAsteroid w h px py v spin :
      step env w (snd (moveAsteroid h px py v spin w))
  | step_moveView w pl worldView size :
      step env w (snd (moveView pl worldView size w)).

Inductive reachable (env : Env) : World -> Prop :=
  | reachable_start gameWidth gameHeight worldView :
      reachable env (startWorld gameWidth gameHeight worldView)
  | reachable_step w w' :
      reachable env w -> step env w w' -> reachable env w'.

(** Every sample of [Math.random()] lies in [0, 1). *)
Definition uniformSamples (env : Env) : Prop :=
  forall n : nat, 0 <= random env n < 1.

(** An asteroid is live when it is a child of the group and active. *)
Definition live (w : World) (h : nat) (a : Asteroid) : Prop :=
  h ∈ asteroidsGroup w /\ heap w !! h = Some a /\ a_active a = true.

(** ** Vocabulary of the specification *)

(** A circle: centre and radius. *)
Record Circle := mkCircle { c_x : R; c_y : R; radius : R }.

(** A circle standing in the group as a live asteroid of that size. *)
Definition asteroidOf (c : Circle) : Asteroid :=
  mkAsteroid (c_x c) (c_y c) true (Some groupBody) None None (Some (radius c)) None None Blank.

(** A world whose group holds exactly the given asteroids, in order. *)
Definition worldWith (asteroids : list Asteroid) : World :=
  mkWorld (map_seq 0 asteroids) (seq 0 (length asteroids)) ∅ [] (length asteroids)
          [] [] 0 None None (0, 0) true.

(** [overlaps(A, Bs)]: the oracle asked about candidate circle [A] (spawned
    with category [category]) against the circles [Bs] as live asteroids. *)
Definition overlapsCircles (A : Circle) (category : Category) (Bs : list Circle) : bool :=
  overlaps (worldWith (asteroidOf <$> Bs)) (radius A) category (c_x A) (c_y A).

(** Euclidean distance between the centres of two circles. *)
Definition centreDistance (A B : Circle) : R :=
  sqrt ((c_x A - c_x B) * (c_x A - c_x B) + (c_y A - c_y B) * (c_y A - c_y B)).

(** The asteroid behind handle [h] is an active one with a body whose centre
    is closer to [(px, py)] than the required distance for a candidate of
    size [visualSize]. *)
Definition tooClose (w : World) (visualSize : R) (category : Category) (px py : R)
    (h : nat) : Prop :=
  exists a, heap w !! h = Some a /\ a_active a = true /\ is_Some (a_body a)
    /\ Phaser.DistanceBetween px py (a_x a) (a_y a)
       < (visualSize + orElse (d_visualSize a) (minSize category))
         * SPAWN_CHECK_RADIUS_MULTIPLIER.

(** The point at parameter [t] on the segment from [p] to [q]. *)
Definition along (p q : Point) (t : R) : Point :=
  mkPoint ((1 - t) * p_x p + t * p_x q) ((1 - t) * p_y p + t * p_y q).

(** A closed ring of vertices, edge [i] joining vertex [i] to vertex
    [(i + 1) mod n], is a simple polygon when two different edges meet only
    if they are consecutive, and then only in the vertex they share. *)
Definition simplePolygon (pts : list Point) : Prop :=
  forall (i j : nat) (p q p' q' : Point) (s t : R),
    (i < j < length pts)%nat ->
    pts !! i = Some p -> pts !! ((i + 1) mod length pts)%nat = Some q ->
    pts !! j = Some p' -> pts !! ((j + 1) mod length pts)%nat = Some q' ->
    0 <= s <= 1 -> 0 <= t <= 1 ->
    along p q s = along p' q' t ->
    (j = S i /\ s = 1 /\ t = 0)
    \/ (i = 0%nat /\ S j = length pts /\ s = 0 /\ t = 1).

(** Distance of a point from the origin. *)
Definition norm (p : Point) : R := sqrt (p_x p * p_x p + p_y p * p_y p).

(** The angle and the radius [generateAsteroidPoints] gives vertex [k] when
    its first draw is sample number [c] of the stream. *)
Definition vertexAngle (env : Env) (l : Listing) (numVertices : Z) (c k : nat) : R :=
  let angleStep := (PI * 2) / IZR numVertices in
  INR k * angleStep
  + Phaser.FloatBetween (- angleStep * angleVariation l) (angleStep * angleVariation l)
                        (random env (c + 2 * k)).

Definition vertexRadius (env : Env) (avgRadius : R) (c k : nat) : R :=
  Phaser.FloatBetween (avgRadius * (1 - ASTEROID_JAGGEDNESS))
                      (avgRadius * (1 + ASTEROID_JAGGEDNESS))
                      (random env (c + 2 * k + 1)).

(** The point at angle [theta] and distance [rho] from the origin. *)
Definition polar (theta rho : R) : Point := mkPoint (cos theta * rho) (sin theta * rho).

(** The world after [k] more samples of the stream have been consumed. *)
Definition advance (k : nat) (w : World) : World := set_cursor (fun c => (c + k)%nat) w.

(** The [i]-th candidate position the retry loop of [spawnAsteroidInRegion]
    samples when the loop starts at sample number [c] of the stream. *)
Definition regionCandidate (env : Env) (regionBounds : Phaser.Rectangle) (c i : nat) : R * R :=
  (Phaser.FloatBetween (Phaser.left regionBounds) (Phaser.right regionBounds)
                       (random env (c + 2 * i)),
   Phaser.FloatBetween (Phaser.top regionBounds) (Phaser.bottom regionBounds)
                       (random env (c + 2 * i + 1))).

(** A candidate is rejected when it lies in the view or the oracle reports
    an overlap. *)
Definition rejected (w : World) (worldView : Phaser.Rectangle) (visualSize : R)
    (category : Category) (p : R * R) : bool :=
  Phaser.Contains worldView (fst p) (snd p) || overlaps w visualSize category (fst p) (snd p).

(** What the three draws that open every spawner yield when the first of
    them is sample number [c] of the stream: category, size, vertex count. *)
Definition drawnCategory (env : Env) (c : nat) : option CategoryName :=
  Phaser.GetRandom ACTIVE_ASTEROID_CATEGORIES (random env c).

Definition drawnSize (env : Env) (category : Category) (c : nat) : R :=
  IZR (Phaser.Between (minSize category) (maxSize category) (random env (c + 1))).

Definition drawnVertices (env : Env) (c : nat) : Z :=
  Phaser.Between ASTEROID_MIN_VERTICES ASTEROID_MAX_VERTICES (random env (c + 2)).

(** ** The lifecycle invariant *)

(** The data every spawner stores on a new asteroid: the hit points of its
    category and an outline of 6 to 11 points. *)
Definition freshlySpawned (a : Asteroid) : Prop :=
  exists cn pts,
    d_category a = Some cn
    /\ d_hitPoints a = Some (hp (ASTEROID_CATEGORIES cn))
    /\ (1 <= hp (ASTEROID_CATEGORIES cn) <= 3)%Z
    /\ d_points a = Some pts
    /\ (6 <= length pts <= 11)%nat.

(** Positive hit points and a stored outline of 6 to 11 points. *)
Definition goodData (a : Asteroid) : Prop :=
  (exists n, d_hitPoints a = Some n /\ (0 < n)%Z)
  /\ (exists pts, d_points a = Some pts /\ (6 <= length pts <= 11)%nat).

(** Handles of the group have been allocated, and every active asteroid
    object is a child of the group and carries good data. *)
Definition lifecycleInvariant (w : World) : Prop :=
  (forall h, h ∈ asteroidsGroup w -> (h < nextHandle w)%nat)
  /\ (forall h a, heap w !! h = Some a -> a_active a = true ->
                  h ∈ asteroidsGroup w /\ goodData a).

(** The three ways a spawner can leave the world: no spot found (only
    samples were consumed), an asteroid created, or an object created and
    destroyed again for want of a body. *)
Inductive spawnOutcome (w w' : World) : Prop :=
  | outcome_no_spot (k : nat) :
      w' = advance k w -> spawnOutcome w w'
  | outcome_spawned (a : Asteroid) (k : nat) :
      w' = set_heap (insert (nextHandle w) a)
             (set_asteroidsGroup (fun g => g ++ [nextHandle w])
                (set_nextHandle S (advance k w))) ->
      a_active a = true -> is_Some (a_body a) -> freshlySpawned a ->
      spawnOutcome w w'
  | outcome_body_missing (a : Asteroid) (k : nat) :
      w' = set_heap (insert (nextHandle w) a)
             (set_asteroidsGroup
                (fun g => filter (fun h' => h' <> nextHandle w) (g ++ [nextHandle w]))
                (set_nextHandle S (advance k w))) ->
      a_active a = false ->
      spawnOutcome w w'.

(** ** Quadrant populations *)

(** Quadrant [i] holds a point when its rectangle contains the point and no
    earlier quadrant's rectangle does: the four rectangles share their
    borders, and a point on a shared border belongs to the first of the
    quadrants that meet there. *)
Definition holds (quadrants : list Quadrant) (i : nat) (px py : R) : bool :=
  match quadrants !! i with
  | Some q =>
      Phaser.Contains (bounds q) px py
      && forallb (fun q' => negb (Phaser.Contains (bounds q') px py)) (take i quadrants)
  | None => false
  end.

(** The child [h] of the group counts for quadrant [i]: it is an active
    asteroid with a body, outside the inner-exclusion rectangle, and the
    quadrant holds its position. *)
Definition countsFor (w : World) (worldView : Phaser.Rectangle) (pl : Player)
    (i : nat) (h : nat) : bool :=
  match heap w !! h with
  | Some a =>
      a_active a && bool_decide (is_Some (a_body a))
      && negb (Phaser.Contains (innerBoundsOf worldView) (a_x a) (a_y a))
      && holds (quadrantsOf worldView pl) i (a_x a) (a_y a)
  | None => false
  end.

(** The number of live asteroids quadrant [i] contains outside the
    inner-exclusion rectangle. *)
Definition quadrantPopulation (w : World) (worldView : Phaser.Rectangle) (pl : Player)
    (i : nat) : nat :=
  length (filter (fun h => countsFor w worldView pl i h = true) (asteroidsGroup w)).

(** The calls of a tick's log that were issued for quadrant [i]. *)
Definition requestsFor (i : nat) (log : list (nat * Phaser.Rectangle * option nat))
    : list (nat * Phaser.Rectangle * option nat) :=
  filter (fun c => fst (fst c) = i) log.

(** ** A concrete environment and startup world

    A sample stream that always yields 1/2, with an engine that always
    attaches a body, and the game started in an 800 x 600 window. *)
Definition halfEnv : Env := mkEnv (fun _ => 1 / 2) (fun _ => true).

Definition window : Phaser.Rectangle := Phaser.mkRectangle 0 0 800 600.

Definition startup : World := startWorld 800 600 window.

(** The scene of a world is the startup scene: the 800 x 600 window, seen
    whole, and the player at rest in its middle. *)
Definition startupScene (w : World) : Prop :=
  camera w = Some window /\ scale w = (800, 600)
  /\ player w = Some (mkPlayer (800 / 2) (600 / 2) true (Some (0, 0))).


(** ** The rest of the frame loop: shooting and the background grid *)

Definition GRID_SIZE : R := 50.
Definition BULLET_COOLDOWN : R := 300.

(** [handleShooting(scene, time)].  The module variable [lastFiredTime] is
    threaded beside the world: the value is its content after the call. *)
Definition handleShooting (env : Env) (tip : R * R) (spaceKeyIsDown : bool) (time : R)
    (lastFiredTime : R) : M R :=
  if spaceKeyIsDown && bool_decide (time > lastFiredTime + BULLET_COOLDOWN) then
    shootBullet env tip ;;; ret time
  else ret lastFiredTime.

(** What one frame feeds to [handleShooting]: the clock, the state of the
    space key, and where the ship's nose is. *)
Record Frame := mkFrame { f_time : R; f_spaceKeyIsDown : bool; f_tip : R * R }.

(** [handleShooting] over consecutive frames. *)
Fixpoint shootingOver (env : Env) (frames : list Frame) (lastFiredTime : R) : M R :=
  match frames with
  | [] => ret lastFiredTime
  | f :: rest =>
      lastFiredTime' <- handleShooting env (f_tip f) (f_spaceKeyIsDown f) (f_time f)
                          lastFiredTime ;;
      shootingOver env rest lastFiredTime'
  end.

(** A call [gridGraphics.lineBetween(x1, y1, x2, y2)]. *)
Record Line := mkLine { l_x1 : R; l_y1 : R; l_x2 : R; l_y2 : R }.

(** The loop [for (let x = start; x < end; x += GRID_SIZE) lineBetween(...)],
    run for at most [fuel] iterations; [line] is the call made for [x]. *)
Fixpoint gridLoop (fuel : nat) (x endX : R) (line : R -> Line) : list Line :=
  match fuel with
  | O => []
  | S fuel' =>
      if bool_decide (x < endX) then line x :: gridLoop fuel' (x + GRID_SIZE) endX line
      else []
  end.

(** [drawVisibleGrid(camera)]: [None] when the function returns at its
    guard, else the lines drawn after [gridGraphics.clear()], the vertical
    ones first. *)
Definition drawVisibleGrid (fuel : nat) (gridGraphics : bool)
    (camera : option Phaser.Rectangle) : option (list Line) :=
  if negb gridGraphics then None
  else
    match camera with
    | None => None
    | Some worldView =>
        let startX := IZR (Zfloor (Phaser.left worldView / GRID_SIZE)) * GRID_SIZE in
        let startY := IZR (Zfloor (Phaser.top worldView / GRID_SIZE)) * GRID_SIZE in
        let endX := IZR (Zceil (Phaser.right worldView / GRID_SIZE)) * GRID_SIZE in
        let endY := IZR (Zceil (Phaser.bottom worldView / GRID_SIZE)) * GRID_SIZE in
        Some (gridLoop fuel startX endX
                (fun x => mkLine x (Phaser.top worldView) x (Phaser.bottom worldView))
              ++ gridLoop fuel startY endY
                   (fun y => mkLine (Phaser.left worldView) y (Phaser.right worldView) y))
    end.

(** The number of iterations the loop from [Math.floor(lo / GRID_SIZE)] to
    [Math.ceil(hi / GRID_SIZE)] makes. *)
Definition gridSteps (lo hi : R) : nat :=
  Z.to_nat (Zceil (hi / GRID_SIZE) - Zfloor (lo / GRID_SIZE)).

(** ** Vocabulary of the further properties *)

(** The call that led from [w] to [w'] created asteroid [a]: the group has
    grown by the handle allocated in [w], and the handle names [a]. *)
Definition spawnedBy (w w' : World) (a : Asteroid) : Prop :=
  asteroidsGroup w' = asteroidsGroup w ++ [nextHandle w]
  /\ heap w' !! nextHandle w = Some a.

(** The point lies beyond one edge of the view: at least [SPAWN_BUFFER] and
    less than [SPAWN_BUFFER + size] away from it, and along the edge within
    the view grown by [SPAWN_BUFFER]. *)
Definition beyondEdge (worldView : Phaser.Rectangle) (size px py : R) : Prop :=
  (Phaser.top worldView - SPAWN_BUFFER - size < py <= Phaser.top worldView - SPAWN_BUFFER
   /\ Phaser.left worldView - SPAWN_BUFFER <= px <= Phaser.right worldView + SPAWN_BUFFER)
  \/ (Phaser.right worldView + SPAWN_BUFFER <= px < Phaser.right worldView + SPAWN_BUFFER + size
      /\ Phaser.top worldView - SPAWN_BUFFER <= py <= Phaser.bottom worldView + SPAWN_BUFFER)
  \/ (Phaser.bottom worldView + SPAWN_BUFFER <= py < Phaser.bottom worldView + SPAWN_BUFFER + size
      /\ Phaser.left worldView - SPAWN_BUFFER <= px <= Phaser.right worldView + SPAWN_BUFFER)
  \/ (Phaser.left worldView - SPAWN_BUFFER - size < px <= Phaser.left worldView - SPAWN_BUFFER
      /\ Phaser.top worldView - SPAWN_BUFFER <= py <= Phaser.bottom worldView + SPAWN_BUFFER).

(** The body of asteroid [a] is the one the spawners set up: a circle of
    0.9 times the visual size centred on the object, the group's bounce, a
    spin of at most [ASTEROID_MAX_ROTATION_SPEED] either way, and a speed
    between [minSpeed] and [maxSpeed]. *)
Definition spawnBody (a : Asteroid) (minSpeed maxSpeed : R) : Prop :=
  exists b s,
    a_body a = Some b /\ d_visualSize a = Some s
    /\ circle b = s * 0.9 /\ offset b = (- (s * 0.9), - (s * 0.9))
    /\ bounce b = ASTEROID_BOUNCE
    /\ - ASTEROID_MAX_ROTATION_SPEED <= angularVelocity b <= ASTEROID_MAX_ROTATION_SPEED
    /\ minSpeed <= Phaser.vecLength (velocity b) <= maxSpeed.

(** The asteroid behind [h] as a target of the overlap oracle: a child of
    the group that is active and has a body. *)
Definition solid (w : World) (h : nat) (b : Asteroid) : Prop :=
  h ∈ asteroidsGroup w /\ heap w !! h = Some b /\ a_active b = true /\ is_Some (a_body b).

(** The number of revert callbacks pending for asteroid [h]. *)
Definition pendingReverts (w : World) (h : nat) : nat :=
  length (filter (fun t => fr_asteroid t = h) (timers w)).

(** A second concrete environment: the sample stream that always yields 0,
    with an engine that always attaches a body. *)
Definition zeroEnv : Env := mkEnv (fun _ => 0) (fun _ => true).

(** The world after the bullets of a list have hit asteroid [h] one after
    the other ([handleBulletAsteroidCollision] called once per bullet). *)
Definition volley (l : Listing) (h : nat) (bullets : list nat) (w : World) : World :=
  foldl (fun w' bullet => snd (handleBulletAsteroidCollision l bullet h w')) w bullets.

(** A concrete firing range: one asteroid of three hit points with a
    six-point outline, not flashing, and three live bullets. *)
Definition hexagon : list Point :=
  [mkPoint 1 0; mkPoint 0 1; mkPoint (-1) 1; mkPoint (-1) 0; mkPoint 0 (-1); mkPoint 1 (-1)].

Definition rock : Asteroid :=
  mkAsteroid 0 0 true (Some groupBody) (Some MD) (Some 3%Z) (Some 30) (Some hexagon)
             (Some false) (Drawn hexagon None).

Definition shot : Bullet := mkBullet 0 0 true true.

Definition firingRange : World :=
  mkWorld {[0%nat := rock]} [0%nat]
          (<[1%nat := shot]> (<[2%nat := shot]> {[3%nat := shot]})) [1%nat; 2%nat; 3%nat]
          4 [] [] 0
          (Some (mkPlayer 400 300 true (Some (0, 0)))) (Some window) (800, 600) true.








(** The top-left quadrant of the generation window at startup: the window
    is 800 x 600 and the player in its middle, so that the generation
    window is 2000 x 1500 around (400, 300). *)
Definition startupTopLeft : Phaser.Rectangle := Phaser.mkRectangle (-600) (-450) 1000 750.

(** From [w] to [w'] at most [n] asteroids were created, each active, with
    a body and out of the view, on handles allocated in between; the
    objects allocated before are as they were, and nothing else has
    changed but the allocator and the sample cursor. *)
Definition grownBy (worldView : Phaser.Rectangle) (n : nat) (w w' : World) : Prop :=
  exists new,
    asteroidsGroup w' = asteroidsGroup w ++ new
    /\ (length new <= n)%nat
    /\ (forall h, (h < nextHandle w)%nat -> heap w' !! h = heap w !! h)
    /\ (nextHandle w <= nextHandle w')%nat
    /\ (forall h, h ∈ new ->
          (nextHandle w <= h < nextHandle w')%nat
          /\ exists a, heap w' !! h = Some a /\ a_active a = true /\ is_Some (a_body a)
                       /\ Phaser.Contains worldView (a_x a) (a_y a) = false)
    /\ timers w' = timers w /\ explosions w' = explosions w
    /\ bulletHeap w' = bulletHeap w /\ bulletsGroup w' = bulletsGroup w
    /\ player w' = player w /\ camera w' = camera w /\ scale w' = scale w
    /\ particleEmitter w' = particleEmitter w.

(** The child [h] of the group is an asteroid the density controller has to
    count: active, with a body, outside the inner-exclusion rectangle and
    inside the generation window. *)
Definition inRing (w : World) (worldView : Phaser.Rectangle) (pl : Player) (h : nat) : bool :=
  match heap w !! h with
  | Some a =>
      a_active a && bool_decide (is_Some (a_body a))
      && negb (Phaser.Contains (innerBoundsOf worldView) (a_x a) (a_y a))
      && Phaser.Contains (genBoundsOf worldView pl) (a_x a) (a_y a)
  | None => false
  end.

(** The outline data of asteroid [a] is what [createAsteroid] stores for
    size [visualSize] and [numVertices] vertices: the points
    [generateAsteroidPoints] returns from some point of the sample stream
    on, stored under [points] and drawn as a plain outline. *)
Definition madeOutline (env : Env) (visualSize : R) (numVertices : Z) (a : Asteroid) : Prop :=
  exists W : World,
    d_points a = Some (fst (generateAsteroidPoints env Proactive visualSize numVertices W))
    /\ a_gfx a
       = (if (length (fst (generateAsteroidPoints env Proactive visualSize numVertices W))
              <? 3)%nat
          then Blank
          else Drawn (fst (generateAsteroidPoints env Proactive visualSize numVertices W))
                     None).






(** The hit flags and the pending reverts agree: every pending revert
    belongs to an object that has been created; no asteroid has two of
    them pending; and an active asteroid is marked hit exactly when a
    revert is pending for it. *)
Definition flashInvariant (w : World) : Prop :=
  (forall t, t ∈ timers w -> (fr_asteroid t < nextHandle w)%nat)
  /\ (forall h, (pendingReverts w h <= 1)%nat)
  /\ (forall h a, heap w !! h = Some a -> a_active a = true ->
                  (truthy (d_isHit a) = true <-> pendingReverts w h = 1%nat)).

(** The asteroid group holds each child once, and every child is an active
    asteroid object. *)
Definition asteroidGroupInvariant (w : World) : Prop :=
  NoDup (asteroidsGroup w)
  /\ (forall h, h ∈ asteroidsGroup w -> exists a, heap w !! h = Some a /\ a_active a = true).

(** The bullet group holds each child once; its children are the active
    bullet objects, all of them created before. *)
Definition bulletGroupInvariant (w : World) : Prop :=
  NoDup (bulletsGroup w)
  /\ (forall b, b ∈ bulletsGroup w ->
                (b < nextHandle w)%nat
                /\ exists bl, bulletHeap w !! b = Some bl /\ b_active bl = true)
  /\ (forall b bl, bulletHeap w !! b = Some bl -> b_active bl = true -> b ∈ bulletsGroup w).

(** Nothing about the bullets has changed from [w] to [w'], and no handle
    has been given back. *)
Definition bulletsKept (w w' : World) : Prop :=
  bulletHeap w' = bulletHeap w /\ bulletsGroup w' = bulletsGroup w
  /\ (nextHandle w <= nextHandle w')%nat.

(** ** The frame function *)

Definition SHIP_SPEED : R := 250.
Definition PLAYER_ANGULAR_VELOCITY : R := 250.

(** The keys [handlePlayerMovement] reads: the cursor keys and W, A, D. *)
Record Keys := mkKeys {
  cursorLeft : bool; keyA : bool;
  cursorRight : bool; keyD : bool;
  cursorUp : bool; keyW : bool
}.

(** What [handlePlayerMovement] sets on the player's body. *)
Record Steering := mkSteering { st_angularVelocity : R; st_acceleration : R * R }.

(** [handlePlayerMovement(scene)], with [rotation] the player's rotation:
    the value is what the body's angular velocity and acceleration are set
    to, [None] when the function returns at its guard. *)
Definition handlePlayerMovement (keys : Keys) (rotation : R) : M (option Steering) :=
  w <- get ;;
  match player w with
  | Some pl =>
      match pl_body pl with
      | Some _ =>
          let turn :=
            if cursorLeft keys || keyA keys then - PLAYER_ANGULAR_VELOCITY
            else if cursorRight keys || keyD keys then PLAYER_ANGULAR_VELOCITY
            else 0 in
          let thrust :=
            if cursorUp keys || keyW keys
            then Phaser.velocityFromRotation rotation SHIP_SPEED
            else (0, 0) in
          ret (Some (mkSteering turn thrust))
      | None => ret None
      end
  | None => ret None
  end.

(** The scene's [update(time, delta)].  The value is what the frame set on
    the player's body, the content of [lastFiredTime] after it, and the
    grid lines it drew. *)
Module Scene.
Definition update (env : Env) (fuel : nat) (gridGraphics : bool) (keys : Keys)
    (rotation : R) (frame : Frame) (lastFiredTime : R)
    : M (option Steering * R * option (list Line)) :=
  steering <- handlePlayerMovement keys rotation ;;
  lastFiredTime' <- handleShooting env (f_tip frame) (f_spaceKeyIsDown frame)
                      (f_time frame) lastFiredTime ;;
  w <- get ;;
  let grid := drawVisibleGrid fuel gridGraphics (camera w) in
  cleanupOutOfBoundsAsteroids ;;;
  cleanupOutOfBoundsBullets ;;;
  ret (steering, lastFiredTime', grid).
End Scene.

(** ** Edge bias *)

(** The velocity [v] points towards edge [edge] of the view (0 the top
    edge, 1 the right, 2 the bottom, 3 the left; y grows downwards): it is
    within 45 degrees of the direction of that edge. *)
Definition headsFor (v : R * R) (edge : nat) : bool :=
  match edge with
  | 0%nat => bool_decide (snd v < 0) && bool_decide (Rabs (fst v) <= - snd v)
  | 1%nat => bool_decide (0 < fst v) && bool_decide (Rabs (snd v) <= fst v)
  | 2%nat => bool_decide (0 < snd v) && bool_decide (Rabs (fst v) <= snd v)
  | 3%nat => bool_decide (fst v < 0) && bool_decide (Rabs (snd v) <= - fst v)
  | _ => false
  end.

(** The weight of an edge for a player moving with velocity [v]. *)
Definition edgeWeight (v : R * R) (edge : nat) : R :=
  if headsFor v edge then 1 + SPAWN_BIAS_STRENGTH * 4 else 1.

(** The weights of the edges before [edge], added up. *)
Definition weightBefore (v : R * R) (edge : nat) : R :=
  foldr Rplus 0 (edgeWeight v <$> seq 0 edge).

(** The startup scene with the player cruising to the right. *)
Definition cruising : World :=
  snd (moveView (mkPlayer 400 300 true (Some (100, 0))) window (800, 600) startup).

(** ** The state of a live asteroid *)

(** An asteroid whose body, data and drawing fit together: it has a body;
    its category is stored with a size in the category's range and hit
    points between 1 and the category's [hp]; its outline has 6 to 11
    points; and it shows that outline, filled with the hit colour exactly
    when [isHit] is set. *)
Definition wellFormed (a : Asteroid) : Prop :=
  is_Some (a_body a)
  /\ exists cn s n pts flag,
       d_category a = Some cn
       /\ d_visualSize a = Some s
       /\ minSize (ASTEROID_CATEGORIES cn) <= s <= maxSize (ASTEROID_CATEGORIES cn)
       /\ d_hitPoints a = Some n /\ (1 <= n <= hp (ASTEROID_CATEGORIES cn))%Z
       /\ d_points a = Some pts /\ (6 <= length pts <= 11)%nat
       /\ d_isHit a = Some flag
       /\ a_gfx a = Drawn pts (if flag
                               then Some (ASTEROID_HIT_FILL_COLOR, ASTEROID_HIT_FILL_ALPHA)
                               else None).

(** Every active asteroid object is well formed, and a pending revert of
    an active asteroid holds the asteroid's stored outline. *)
Definition dataInvariant (w : World) : Prop :=
  (forall h a, heap w !! h = Some a -> a_active a = true -> wellFormed a)
  /\ (forall t a, t ∈ timers w -> heap w !! fr_asteroid t = Some a -> a_active a = true ->
                  d_points a = Some (fr_points t)).

(** * Properties of the embedding *)

Lemma distance_ge_abs_x (x1 y1 x2 y2 : R) :
  Rabs (x2 - x1) <= Phaser.DistanceBetween x1 y1 x2 y2.
Proof.
  unfold Phaser.DistanceBetween. cbv zeta.
  rewrite <- (sqrt_Rsqr_abs (x2 - x1)).
  apply sqrt_le_1_alt.
  pose proof (Rle_0_sqr (y1 - y2)). unfold Rsqr in *. nra.
Qed.

Lemma distance_ge_abs_y (x1 y1 x2 y2 : R) :
  Rabs (y2 - y1) <= Phaser.DistanceBetween x1 y1 x2 y2.
Proof.
  unfold Phaser.DistanceBetween. cbv zeta.
  rewrite <- (sqrt_Rsqr_abs (y2 - y1)).
  apply sqrt_le_1_alt.
  pose proof (Rle_0_sqr (x1 - x2)). unfold Rsqr in *. nra.
Qed.

Lemma distance_nonneg (x1 y1 x2 y2 : R) : 0 <= Phaser.DistanceBetween x1 y1 x2 y2.
Proof. unfold Phaser.DistanceBetween. apply sqrt_pos. Qed.

(** A pair the coarse test skips is a pair the exact test clears. *)
Lemma coarse_skip_is_clear (visualSize existingSize ex ey spawnX spawnY : R) :
  Rabs (ex - spawnX) > (visualSize + existingSize) * SPAWN_CHECK_RADIUS_MULTIPLIER * 1.5
  \/ Rabs (ey - spawnY) > (visualSize + existingSize) * SPAWN_CHECK_RADIUS_MULTIPLIER * 1.5 ->
  ~ Phaser.DistanceBetween spawnX spawnY ex ey
    < (visualSize + existingSize) * SPAWN_CHECK_RADIUS_MULTIPLIER.
Proof.
  intros Hskip Hlt.
  pose proof (distance_ge_abs_x spawnX spawnY ex ey) as Hx.
  pose proof (distance_ge_abs_y spawnX spawnY ex ey) as Hy.
  pose proof (distance_nonneg spawnX spawnY ex ey) as H0.
  unfold SPAWN_CHECK_RADIUS_MULTIPLIER in *.
  destruct Hskip; lra.
Qed.

Lemma overlapCallback_exact (w : World) (visualSize : R) (category : Category)
    (spawnX spawnY : R) (h : nat) (acc : bool) :
  overlapCallback w visualSize category spawnX spawnY h acc
  = overlapCallbackExact w visualSize category spawnX spawnY h acc.
Proof.
  unfold overlapCallback, overlapCallbackExact.
  destruct (heap w !! h) as [a|]; [|reflexivity].
  destruct (negb _ || negb _); [reflexivity|].
  cbv zeta.
  destruct (bool_decide (Rabs (a_x a - spawnX) > _) || bool_decide (Rabs (a_y a - spawnY) > _)) eqn:Hskip;
    [|reflexivity].
  rewrite bool_decide_eq_false_2; [reflexivity|].
  apply coarse_skip_is_clear.
  apply orb_true_iff in Hskip. destruct Hskip as [H|H]; apply bool_decide_eq_true in H; auto.
Qed.

Lemma iterate_ext {St} (f g : nat -> St -> bool * St) (l : list nat) (s : St) :
  (forall h s', f h s' = g h s') -> iterate f l s = iterate g l s.
Proof.
  intros Hfg. revert s. induction l as [|e l IH]; intros s; simpl; [reflexivity|].
  rewrite Hfg. destruct (g e s) as [c s']. destruct c; auto.
Qed.

Lemma overlaps_exact w visualSize category spawnX spawnY :
  overlaps w visualSize category spawnX spawnY = overlapsExact w visualSize category spawnX spawnY.
Proof. apply iterate_ext. intros. apply overlapCallback_exact. Qed.
Lemma iterate_overlapExact w visualSize category px py (l : list nat) (acc : bool) :
  iterate (overlapCallbackExact w visualSize category px py) l acc = true
  <-> acc = true \/ exists h, h ∈ l /\ tooClose w visualSize category px py h.
Proof.
  revert acc. induction l as [|e l IH]; intros acc; simpl.
  - split; [auto|]. intros [H|(h & Hin & _)]; [assumption|]. inversion Hin.
  - unfold overlapCallbackExact at 1.
    destruct (heap w !! e) as [a|] eqn:Hlook.
    + destruct (negb (bool_decide (is_Some (a_body a))) || negb (a_active a)) eqn:Hguard.
      * rewrite IH. split; (intros [H|(h & Hin & Hclose)]; [left; assumption|right]).
        -- exists h. split; [right; assumption|assumption].
        -- exists h. split; [|assumption].
           apply elem_of_cons in Hin. destruct Hin as [->|Hin]; [|assumption].
           destruct Hclose as (a' & Ha' & Hact & Hbody & _).
           rewrite Hlook in Ha'. injection Ha' as <-.
           apply orb_true_iff in Hguard. destruct Hguard as [Hg|Hg].
           ++ apply negb_true_iff, bool_decide_eq_false in Hg. contradiction.
           ++ rewrite Hact in Hg. discriminate.
      * apply orb_false_iff in Hguard. destruct Hguard as [Hb Ha].
        apply negb_false_iff in Hb, Ha. apply bool_decide_eq_true in Hb.
        cbv zeta.
        destruct (bool_decide (Phaser.DistanceBetween px py (a_x a) (a_y a) < _)) eqn:Hd.
        -- apply bool_decide_eq_true in Hd. split; [intros _|reflexivity].
           right. exists e. split; [left|]. exists a. auto.
        -- apply bool_decide_eq_false in Hd.
           rewrite IH. split; (intros [H|(h & Hin & Hclose)]; [left; assumption|right]).
           ++ exists h. split; [right; assumption|assumption].
           ++ exists h. split; [|assumption].
              apply elem_of_cons in Hin. destruct Hin as [->|Hin]; [|assumption].
              destruct Hclose as (a' & Ha' & _ & _ & Hlt).
              rewrite Hlook in Ha'. injection Ha' as <-. contradiction.
    + rewrite IH. split; (intros [H|(h & Hin & Hclose)]; [left; assumption|right]).
      * exists h. split; [right; assumption|assumption].
      * exists h. split; [|assumption].
        apply elem_of_cons in Hin. destruct Hin as [->|Hin]; [|assumption].
        destruct Hclose as (a' & Ha' & _). rewrite Hlook in Ha'. discriminate.
Qed.

Lemma overlaps_iff w visualSize category px py :
  overlaps w visualSize category px py = true
  <-> exists h, h ∈ asteroidsGroup w /\ tooClose w visualSize category px py h.
Proof.
  rewrite overlaps_exact. unfold overlapsExact. rewrite iterate_overlapExact.
  split; [intros [H|H]; [discriminate|assumption]|auto].
Qed.

Lemma overlaps_false_iff w visualSize category px py :
  overlaps w visualSize category px py = false
  <-> forall h, h ∈ asteroidsGroup w -> ~ tooClose w visualSize category px py h.
Proof.
  rewrite <- not_true_iff_false, overlaps_iff. split.
  - intros H h Hin Hc. apply H. eauto.
  - intros H (h & Hin & Hc). exact (H h Hin Hc).
Qed.

Lemma orElse_nonzero (v fallback : R) : v <> 0 -> orElse (Some v) fallback = v.
Proof. intros Hv. unfold orElse. rewrite bool_decide_eq_false_2; auto. Qed.

Lemma heap_worldWith (l : list Asteroid) (h : nat) : heap (worldWith l) !! h = l !! h.
Proof. unfold worldWith. simpl. apply lookup_map_seq_0. Qed.

Lemma overlapsCircles_single (A B : Circle) (category : Category) :
  overlapsCircles A category [B] = true
  <-> centreDistance A B
      < (radius A + orElse (Some (radius B)) (minSize category)) * SPAWN_CHECK_RADIUS_MULTIPLIER.
Proof.
  unfold overlapsCircles. rewrite overlaps_iff. unfold tooClose. split.
  - intros (h & Hin & a & Hlook & _ & _ & Hlt).
    rewrite heap_worldWith in Hlook.
    apply list_elem_of_singleton in Hin. subst h.
    injection Hlook as <-. exact Hlt.
  - intros Hlt. exists 0%nat. split; [apply list_elem_of_singleton; reflexivity|].
    exists (asteroidOf B). rewrite heap_worldWith.
    split; [reflexivity|]. split; [reflexivity|]. split; [simpl; eauto|exact Hlt].
Qed.

Lemma centreDistance_sym (A B : Circle) : centreDistance A B = centreDistance B A.
Proof. unfold centreDistance. f_equal. ring. Qed.
Lemma mul3_nonpos (a b c : R) : 0 <= a -> 0 <= b -> c <= 0 -> a * b * c <= 0.
Proof.
  intros Ha Hb Hc. replace (a * b * c) with (- (a * b * (- c))) by ring.
  assert (0 <= a * b * (- c)); [|lra].
  apply Rmult_le_pos; [apply Rmult_le_pos|]; lra.
Qed.

Lemma mul3_nonneg (a b c : R) : 0 <= a -> 0 <= b -> 0 <= c -> 0 <= a * b * c.
Proof. intros. apply Rmult_le_pos; [apply Rmult_le_pos|]; lra. Qed.

Lemma mul3_zero (a b c : R) : a * b * c = 0 -> 0 < b -> c <> 0 -> a = 0.
Proof.
  intros H Hb Hc.
  apply Rmult_integral in H. destruct H as [H|H]; [|contradiction].
  apply Rmult_integral in H. destruct H as [H|H]; [assumption|lra].
Qed.

(** Two segments from the origin's point of view: the first spans the
    angles [a1 < a2], the second [b1 < b2], each less than a half turn, the
    second not before the first and ending at most one turn after the first
    begins.  They can only meet where the first ends and the second begins,
    or where the second ends and the first begins. *)
Lemma cones_meet_at_ends (a1 a2 b1 b2 ra1 ra2 rb1 rb2 s t : R) :
  a1 < a2 < a1 + PI -> b1 < b2 < b1 + PI -> a2 <= b1 -> b2 <= a1 + 2 * PI ->
  0 < ra1 -> 0 < ra2 -> 0 < rb1 -> 0 < rb2 ->
  0 <= s <= 1 -> 0 <= t <= 1 ->
  (1 - s) * (cos a1 * ra1) + s * (cos a2 * ra2)
  = (1 - t) * (cos b1 * rb1) + t * (cos b2 * rb2) ->
  (1 - s) * (sin a1 * ra1) + s * (sin a2 * ra2)
  = (1 - t) * (sin b1 * rb1) + t * (sin b2 * rb2) ->
  (a2 = b1 /\ s = 1 /\ t = 0) \/ (b2 = a1 + 2 * PI /\ s = 0 /\ t = 1).
Proof.
  intros Ha Hb Hab Hba Hra1 Hra2 Hrb1 Hrb2 Hs Ht Hx Hy.
  pose proof PI_RGT_0 as Hpi.
  assert (Hcross : forall psi,
    (1 - s) * ra1 * sin (a1 - psi) + s * ra2 * sin (a2 - psi)
    = (1 - t) * rb1 * sin (b1 - psi) + t * rb2 * sin (b2 - psi)).
  { intros psi. rewrite !sin_minus.
    transitivity (cos psi * ((1 - s) * (sin a1 * ra1) + s * (sin a2 * ra2))
                  - sin psi * ((1 - s) * (cos a1 * ra1) + s * (cos a2 * ra2))); [ring|].
    rewrite Hx, Hy. ring. }
  destruct (Rle_dec (b2 - PI) a2) as [Hcase|Hcase].
  - (* the separating direction is a2 *)
    specialize (Hcross a2).
    replace (a2 - a2) with 0 in Hcross by ring. rewrite sin_0 in Hcross.
    assert (Hs1 : sin (a1 - a2) < 0) by (apply sin_lt_0_var; lra).
    assert (Hb1 : 0 <= sin (b1 - a2)) by (apply sin_ge_0; lra).
    assert (Hb2 : 0 <= sin (b2 - a2)) by (apply sin_ge_0; lra).
    assert (Hz1 : (1 - s) * ra1 * sin (a1 - a2) <= 0) by (apply mul3_nonpos; lra).
    assert (Hz2 : 0 <= (1 - t) * rb1 * sin (b1 - a2)) by (apply mul3_nonneg; lra).
    assert (Hz3 : 0 <= t * rb2 * sin (b2 - a2)) by (apply mul3_nonneg; lra).
    assert (E1 : (1 - s) * ra1 * sin (a1 - a2) = 0) by lra.
    assert (E2 : (1 - t) * rb1 * sin (b1 - a2) = 0) by lra.
    assert (E3 : t * rb2 * sin (b2 - a2) = 0) by lra.
    assert (Es : s = 1) by (apply mul3_zero in E1; lra).
    destruct (Req_dec a2 b1) as [Eab|Nab].
    + destruct (Req_dec t 0) as [Et|Nt]; [left; auto|].
      exfalso.
      assert (0 < sin (b2 - a2)) by (apply sin_gt_0; lra).
      apply mul3_zero in E3; lra.
    + exfalso.
      assert (0 < sin (b1 - a2)) by (apply sin_gt_0; lra).
      assert (Et : t = 1) by (apply mul3_zero in E2; lra).
      subst s t.
      assert (Eb2 : b2 = a2 + PI).
      { destruct (Req_dec b2 (a2 + PI)) as [|N]; [assumption|].
        assert (0 < sin (b2 - a2)) by (apply sin_gt_0; lra).
        apply mul3_zero in E3; lra. }
      subst b2. rewrite cos_plus, cos_PI, sin_PI in Hx. rewrite sin_plus, cos_PI, sin_PI in Hy.
      pose proof (sin2_cos2 a2) as Hone. unfold Rsqr in Hone.
      assert (Hc : cos a2 * (ra2 + rb2) = 0) by lra.
      assert (Hsn : sin a2 * (ra2 + rb2) = 0) by lra.
      assert (Hc0 : cos a2 = 0) by (apply Rmult_integral in Hc; destruct Hc; lra).
      assert (Hs0 : sin a2 = 0) by (apply Rmult_integral in Hsn; destruct Hsn; lra).
      rewrite Hc0, Hs0 in Hone. lra.
  - (* the separating direction is b2 - PI *)
    specialize (Hcross (b2 - PI)).
    replace (b2 - (b2 - PI)) with PI in Hcross by ring. rewrite sin_PI in Hcross.
    assert (Hb1 : 0 < sin (b1 - (b2 - PI))) by (apply sin_gt_0; lra).
    assert (Ha2 : sin (a2 - (b2 - PI)) < 0) by (apply sin_lt_0_var; lra).
    assert (Ha1 : sin (a1 - (b2 - PI)) <= 0).
    { destruct (Req_dec (a1 - (b2 - PI)) (- PI)) as [E|N].
      - rewrite E, sin_neg, sin_PI. lra.
      - left. apply sin_lt_0_var; lra. }
    assert (Hz1 : (1 - s) * ra1 * sin (a1 - (b2 - PI)) <= 0) by (apply mul3_nonpos; lra).
    assert (Hz2 : s * ra2 * sin (a2 - (b2 - PI)) <= 0) by (apply mul3_nonpos; lra).
    assert (Hz3 : 0 <= (1 - t) * rb1 * sin (b1 - (b2 - PI))) by (apply mul3_nonneg; lra).
    assert (E1 : (1 - s) * ra1 * sin (a1 - (b2 - PI)) = 0) by lra.
    assert (E2 : s * ra2 * sin (a2 - (b2 - PI)) = 0) by lra.
    assert (E3 : (1 - t) * rb1 * sin (b1 - (b2 - PI)) = 0) by lra.
    assert (Et : t = 1) by (apply mul3_zero in E3; lra).
    assert (Es : s = 0) by (apply mul3_zero in E2; lra).
    right. split; [|auto].
    subst s t.
    destruct (Req_dec (a1 - (b2 - PI)) (- PI)) as [E|N]; [lra|].
    exfalso.
    assert (sin (a1 - (b2 - PI)) < 0) by (apply sin_lt_0_var; lra).
    apply mul3_zero in E1; lra.
Qed.
Lemma angles_monotone (theta : nat -> R) (n : nat) :
  (forall k, (S k < n)%nat -> theta k < theta (S k)) ->
  forall a b, (a <= b)%nat -> (b < n)%nat -> theta a <= theta b.
Proof.
  intros Hstep a b Hab. induction Hab as [|b Hab IH]; intros Hb; [lra|].
  specialize (IH ltac:(lia)). specialize (Hstep b Hb). lra.
Qed.

Lemma angles_strict (theta : nat -> R) (n : nat) :
  (forall k, (S k < n)%nat -> theta k < theta (S k)) ->
  forall a b, (a < b)%nat -> (b < n)%nat -> theta a < theta b.
Proof.
  intros Hstep a b Hab Hb.
  pose proof (angles_monotone theta n Hstep (S a) b Hab Hb) as H1.
  specialize (Hstep a ltac:(lia)). lra.
Qed.

(** A ring of vertices around the origin, at positive distances and at
    strictly increasing angles that gain less than a half turn from each
    vertex to the next and close after exactly one turn, is a simple
    polygon. *)
Lemma star_ring_simple (pts : list Point) (theta rho : nat -> R) :
  (forall k, (k < length pts)%nat -> pts !! k = Some (polar (theta k) (rho k))) ->
  (forall k, (k < length pts)%nat -> 0 < rho k) ->
  (forall k, (S k < length pts)%nat -> theta k < theta (S k) < theta k + PI) ->
  theta (length pts - 1)%nat < theta 0%nat + 2 * PI < theta (length pts - 1)%nat + PI ->
  simplePolygon pts.
Proof.
  intros Hpts Hrho Hgap Hclose i j p q p' q' s t Hij Hp Hq Hp' Hq' Hs Ht Heq.
  set (n := length pts) in *.
  assert (Hstep : forall k, (S k < n)%nat -> theta k < theta (S k)).
  { intros k Hk. apply Hgap. exact Hk. }
  pose proof (angles_monotone theta n Hstep) as Hmono.
  pose proof (angles_strict theta n Hstep) as Hstrict.
  assert (Hi1 : ((i + 1) mod n = S i)%nat) by (rewrite Nat.mod_small; lia).
  rewrite Hi1 in Hq.
  rewrite (Hpts i) in Hp by lia. injection Hp as <-.
  rewrite (Hpts (S i)) in Hq by lia. injection Hq as <-.
  rewrite (Hpts j) in Hp' by lia. injection Hp' as <-.
  unfold along, polar in Heq. simpl in Heq. injection Heq as Hx Hy.
  destruct (decide (S j = n)) as [Hlast|Hnot].
  - (* the second edge is the closing one *)
    assert (Hj1 : ((j + 1) mod n = 0)%nat).
    { replace (j + 1)%nat with n by lia. apply Nat.Div0.mod_same. }
    rewrite Hj1 in Hq'. rewrite (Hpts 0%nat) in Hq' by lia. injection Hq' as <-.
    simpl in Hx, Hy.
    replace (n - 1)%nat with j in Hclose by lia.
    assert (Hc : cos (theta 0%nat + 2 * PI) = cos (theta 0%nat)).
    { rewrite cos_plus, cos_2PI, sin_2PI. ring. }
    assert (Hsn : sin (theta 0%nat + 2 * PI) = sin (theta 0%nat)).
    { rewrite sin_plus, cos_2PI, sin_2PI. ring. }
    rewrite <- Hc in Hx. rewrite <- Hsn in Hy.
    destruct (cones_meet_at_ends (theta i) (theta (S i)) (theta j) (theta 0%nat + 2 * PI)
                (rho i) (rho (S i)) (rho j) (rho 0%nat) s t) as [(E & Es & Et)|(E & Es & Et)];
      try assumption.
    + apply Hgap. lia.
    + apply Hmono; lia.
    + pose proof (Hmono 0%nat i ltac:(lia) ltac:(lia)). lra.
    + apply Hrho; lia.
    + apply Hrho; lia.
    + apply Hrho; lia.
    + apply Hrho; lia.
    + left. split; [|auto].
      destruct (decide (j = S i)) as [|Hne]; [assumption|exfalso].
      pose proof (Hstrict (S i) j ltac:(lia) ltac:(lia)). lra.
    + right. split; [|auto].
      destruct (decide (i = 0%nat)) as [|Hne]; [assumption|exfalso].
      pose proof (Hstrict 0%nat i ltac:(lia) ltac:(lia)). lra.
  - assert (Hj1 : ((j + 1) mod n = S j)%nat) by (rewrite Nat.mod_small; lia).
    rewrite Hj1 in Hq'. rewrite (Hpts (S j)) in Hq' by lia. injection Hq' as <-.
    simpl in Hx, Hy.
    assert (Hend : theta (S j) < theta i + 2 * PI).
    { pose proof (Hmono (S j) (n - 1)%nat ltac:(lia) ltac:(lia)).
      pose proof (Hmono 0%nat i ltac:(lia) ltac:(lia)). lra. }
    destruct (cones_meet_at_ends (theta i) (theta (S i)) (theta j) (theta (S j))
                (rho i) (rho (S i)) (rho j) (rho (S j)) s t) as [(E & Es & Et)|(E & Es & Et)];
      try assumption.
    + apply Hgap. lia.
    + apply Hgap. lia.
    + apply Hmono; lia.
    + lra.
    + apply Hrho; lia.
    + apply Hrho; lia.
    + apply Hrho; lia.
    + apply Hrho; lia.
    + left. split; [|auto].
      destruct (decide (j = S i)) as [|Hne]; [assumption|exfalso].
      pose proof (Hstrict (S i) j ltac:(lia) ltac:(lia)). lra.
    + exfalso. lra.
Qed.
Lemma advance_advance (a b : nat) (w : World) : advance a (advance b w) = advance (b + a) w.
Proof. unfold advance, set_cursor. simpl. f_equal. lia. Qed.

Lemma advance_0 (w : World) : advance 0 w = w.
Proof. destruct w. unfold advance, set_cursor. simpl. f_equal. lia. Qed.

Lemma rand_eq (env : Env) (w : World) : rand env w = (random env (cursor w), advance 1 w).
Proof. unfold rand, advance, set_cursor. f_equal. f_equal. lia. Qed.

Lemma cursor_advance (k : nat) (w : World) : cursor (advance k w) = (cursor w + k)%nat.
Proof. reflexivity. Qed.

Lemma generatePointsFrom_eq (env : Env) (variation angleStep radiusMin radiusMax : R)
    (remaining : nat) :
  forall (i : nat) (points : list Point) (w : World),
    generatePointsFrom env variation angleStep radiusMin radiusMax i remaining points w
    = (points ++
       map (fun k =>
              polar (INR (i + k) * angleStep
                     + Phaser.FloatBetween (- angleStep * variation) (angleStep * variation)
                                           (random env (cursor w + 2 * k)))
                    (Phaser.FloatBetween radiusMin radiusMax
                                         (random env (cursor w + 2 * k + 1))))
           (seq 0 remaining),
       advance (2 * remaining) w).
Proof.
  induction remaining as [|n IH]; intros i points w.
  - simpl. rewrite app_nil_r, advance_0. reflexivity.
  - cbn [generatePointsFrom]. unfold bind at 1. rewrite rand_eq.
    unfold bind at 1. rewrite rand_eq.
    rewrite IH. rewrite !advance_advance. f_equal; [|f_equal; lia].
    rewrite <- app_assoc. f_equal. cbn [seq map app].
    rewrite !cursor_advance.
    f_equal.
    + unfold polar. repeat (f_equal; try lia).
    + rewrite <- seq_shift, map_map. apply map_ext. intros k.
      unfold polar. repeat (f_equal; try lia).
Qed.

Lemma generateAsteroidPoints_eq (env : Env) (l : Listing) (avgRadius : R) (numVertices : Z)
    (w : World) :
  generateAsteroidPoints env l avgRadius numVertices w
  = (map (fun k => polar (vertexAngle env l numVertices (cursor w) k)
                         (vertexRadius env avgRadius (cursor w) k))
         (seq 0 (Z.to_nat numVertices)),
     advance (2 * Z.to_nat numVertices) w).
Proof.
  unfold generateAsteroidPoints. cbv zeta. rewrite generatePointsFrom_eq.
  reflexivity.
Qed.

Lemma generateAsteroidPoints_length env l avgRadius numVertices w :
  length (fst (generateAsteroidPoints env l avgRadius numVertices w)) = Z.to_nat numVertices.
Proof. rewrite generateAsteroidPoints_eq. simpl. rewrite length_map, length_seq. reflexivity. Qed.

Lemma generateAsteroidPoints_lookup env l avgRadius numVertices w (k : nat) :
  (k < Z.to_nat numVertices)%nat ->
  fst (generateAsteroidPoints env l avgRadius numVertices w) !! k
  = Some (polar (vertexAngle env l numVertices (cursor w) k)
                (vertexRadius env avgRadius (cursor w) k)).
Proof.
  intros Hk. rewrite generateAsteroidPoints_eq. simpl.
  rewrite list_lookup_fmap. rewrite lookup_seq_lt by assumption. reflexivity.
Qed.
Lemma FloatBetween_bounds (min max u : R) :
  0 <= u < 1 -> min <= max ->
  min <= Phaser.FloatBetween min max u <= max.
Proof. intros Hu Hm. unfold Phaser.FloatBetween. split; nra. Qed.

Lemma norm_polar (theta rho : R) : 0 <= rho -> norm (polar theta rho) = rho.
Proof.
  intros Hrho. unfold norm, polar. simpl.
  replace (cos theta * rho * (cos theta * rho) + sin theta * rho * (sin theta * rho))
    with (((sin theta)² + (cos theta)²) * (rho * rho)) by (unfold Rsqr; ring).
  rewrite sin2_cos2, Rmult_1_l. apply sqrt_square. assumption.
Qed.

Lemma angleVariation_bounds (l : Listing) : 0 < angleVariation l <= 0.3.
Proof. destruct l; simpl; lra. Qed.

Lemma vertexRadius_bounds (env : Env) (avgRadius : R) (c k : nat) :
  uniformSamples env -> 0 < avgRadius ->
  avgRadius * 0.6 <= vertexRadius env avgRadius c k <= avgRadius * 1.4.
Proof.
  intros Hu Havg. unfold vertexRadius, ASTEROID_JAGGEDNESS.
  pose proof (FloatBetween_bounds (avgRadius * (1 - 0.4)) (avgRadius * (1 + 0.4))
                (random env (c + 2 * k + 1)) (Hu _) ltac:(lra)).
  lra.
Qed.

Lemma vertexAngle_offset (env : Env) (l : Listing) (numVertices : Z) (c k : nat) :
  uniformSamples env -> (0 < numVertices)%Z ->
  Rabs (vertexAngle env l numVertices c k - INR k * (PI * 2 / IZR numVertices))
  <= angleVariation l * (PI * 2 / IZR numVertices).
Proof.
  intros Hu Hn. unfold vertexAngle. cbv zeta.
  set (angleStep := PI * 2 / IZR numVertices).
  assert (Hstep : 0 < angleStep).
  { unfold angleStep. apply Rdiv_lt_0_compat; [pose proof PI_RGT_0; lra|].
    apply IZR_lt. assumption. }
  pose proof (angleVariation_bounds l) as Hv.
  assert (Hvs : 0 <= angleStep * angleVariation l) by nra.
  pose proof (FloatBetween_bounds (- angleStep * angleVariation l) (angleStep * angleVariation l)
                (random env (c + 2 * k)) (Hu _) ltac:(lra)) as Hfb.
  apply Rabs_le. lra.
Qed.
Lemma Rabs_le_between (a b : R) : Rabs a <= b -> - b <= a <= b.
Proof. unfold Rabs. destruct (Rcase_abs a); lra. Qed.

Section GeneratorAngles.
Variables (env : Env) (l : Listing) (numVertices : Z) (c : nat).
Hypothesis Hu : uniformSamples env.
Hypothesis Hn : (6 <= numVertices <= 11)%Z.

Let angleStep := PI * 2 / IZR numVertices.
Let theta := vertexAngle env l numVertices c.

Lemma angleStep_pos : 0 < angleStep.
Proof.
  unfold angleStep. apply Rdiv_lt_0_compat; [pose proof PI_RGT_0; lra|].
  apply IZR_lt. lia.
Qed.

Lemma angleStep_turn : IZR numVertices * angleStep = 2 * PI.
Proof.
  unfold angleStep. field. apply not_0_IZR. lia.
Qed.

Lemma angleStep_small : 2 * angleStep < PI.
Proof.
  pose proof angleStep_turn as Ht. pose proof angleStep_pos as Hp.
  assert (6 <= IZR numVertices) by (apply IZR_le; lia).
  pose proof PI_RGT_0. nra.
Qed.

Lemma theta_near (k : nat) :
  INR k * angleStep - 0.3 * angleStep <= theta k <= INR k * angleStep + 0.3 * angleStep.
Proof.
  pose proof (vertexAngle_offset env l numVertices c k Hu ltac:(lia)) as Hoff.
  fold angleStep in Hoff. fold theta in Hoff.
  apply Rabs_le_between in Hoff.
  pose proof (angleVariation_bounds l). pose proof angleStep_pos. nra.
Qed.

Lemma theta_gap (k : nat) : theta k < theta (S k) < theta k + PI.
Proof.
  pose proof (theta_near k) as H1. pose proof (theta_near (S k)) as H2.
  rewrite S_INR in H2.
  pose proof angleStep_pos. pose proof angleStep_small. split; nra.
Qed.

Lemma theta_close :
  theta (Z.to_nat numVertices - 1)%nat < theta 0%nat + 2 * PI
  < theta (Z.to_nat numVertices - 1)%nat + PI.
Proof.
  pose proof (theta_near 0%nat) as H1.
  pose proof (theta_near (Z.to_nat numVertices - 1)%nat) as H2.
  assert (HN : INR (Z.to_nat numVertices - 1) = IZR numVertices - 1).
  { rewrite minus_INR by lia. rewrite INR_IZR_INZ, Z2Nat.id by lia. simpl. lra. }
  rewrite HN in H2. simpl in H1.
  pose proof angleStep_turn. pose proof angleStep_pos. pose proof angleStep_small.
  split; nra.
Qed.
End GeneratorAngles.
Lemma bind_eq {A B} (m : M A) (k : A -> M B) (w : World) :
  bind m k w = k (fst (m w)) (snd (m w)).
Proof. unfold bind. destruct (m w). reflexivity. Qed.

Lemma update_hit (h : nat) (f : Asteroid -> Asteroid) (w : World) (a : Asteroid) :
  heap w !! h = Some a ->
  update h f w = (tt, set_heap (insert h (f a)) w).
Proof.
  intros Hl. unfold update, modify, set_heap. rewrite Hl. reflexivity.
Qed.

Lemma update_miss (h : nat) (f : Asteroid -> Asteroid) (w : World) :
  heap w !! h = None -> update h f w = (tt, w).
Proof.
  intros Hl. unfold update, modify, set_heap. rewrite Hl. destruct w; reflexivity.
Qed.

Ltac world_cbn :=
  cbn [heap asteroidsGroup bulletHeap bulletsGroup nextHandle timers explosions cursor
       player camera scale particleEmitter
       set_heap set_asteroidsGroup set_bulletHeap set_bulletsGroup set_nextHandle
       set_timers set_explosions set_cursor advance fst snd].

Ltac solve_lookup := world_cbn; rewrite ?lookup_insert_eq; reflexivity.

Ltac run_update :=
  match goal with
  | |- context [update ?h ?f ?w] => erewrite (update_hit h f w) by solve_lookup
  end; cbn [fst snd].

Ltac step_update := rewrite bind_eq; run_update.

Lemma world_eq (w w' : World) :
  heap w = heap w' -> asteroidsGroup w = asteroidsGroup w' ->
  bulletHeap w = bulletHeap w' -> bulletsGroup w = bulletsGroup w' ->
  nextHandle w = nextHandle w' -> timers w = timers w' ->
  explosions w = explosions w' -> cursor w = cursor w' -> player w = player w' ->
  camera w = camera w' -> scale w = scale w' -> particleEmitter w = particleEmitter w' ->
  w = w'.
Proof. destruct w, w'. simpl. intros. subst. reflexivity. Qed.

Ltac solve_world_eq :=
  apply world_eq; world_cbn; rewrite ?insert_insert_eq; try reflexivity; try lia.

Lemma storeData_eq (h : nat) cn ihp vs pts (w : World) (a : Asteroid) :
  heap w !! h = Some a ->
  storeData h cn ihp vs pts w
  = (tt, set_heap (insert h (with_isHit false (with_points pts (with_visualSize vs
                     (with_hitPoints ihp (with_category cn a)))))) w).
Proof.
  intros Hl. unfold storeData.
  rewrite bind_eq. erewrite update_hit by exact Hl. cbn [fst snd].
  do 3 step_update. run_update.
  f_equal. solve_world_eq.
Qed.

Lemma groupAdd_eq (env : Env) (h : nat) (w : World) (a : Asteroid) :
  heap w !! h = Some a ->
  groupAdd env h w
  = (tt, if attachBody env h
         then set_heap (insert h (with_body (Some groupBody) a))
                (set_asteroidsGroup (fun g => g ++ [h]) w)
         else set_asteroidsGroup (fun g => g ++ [h]) w).
Proof.
  intros Hl. unfold groupAdd. rewrite bind_eq. unfold modify. cbn [fst snd].
  destruct (attachBody env h); [|reflexivity].
  erewrite update_hit by (world_cbn; exact Hl). reflexivity.
Qed.

Lemma createAsteroid_attached env dv cn vs ihp nv x y w :
  attachBody env (nextHandle w) = true ->
  (forall w0, exists v k, dv w0 = (v, advance k w0)) ->
  exists a k,
    createAsteroid env dv cn vs ihp nv x y w
    = (Some (nextHandle w),
       set_heap (insert (nextHandle w) a)
         (set_asteroidsGroup (fun g => g ++ [nextHandle w])
            (set_nextHandle S (advance k w))))
    /\ a_x a = x /\ a_y a = y /\ a_active a = true /\ is_Some (a_body a)
    /\ d_category a = Some cn /\ d_hitPoints a = Some ihp /\ d_visualSize a = Some vs
    /\ d_points a = Some (fst (generateAsteroidPoints env Proactive vs nv w))
    /\ d_isHit a = Some false.
Proof.
  intros Hatt Hdv. unfold createAsteroid.
  rewrite bind_eq, generateAsteroidPoints_eq. cbn [fst snd].
  set (pts := map _ _).
  rewrite bind_eq. unfold addGraphics. cbn [fst snd].
  set (h := nextHandle w) in *.
  replace (nextHandle (advance (2 * Z.to_nat nv) w)) with h by reflexivity.
  rewrite bind_eq.
  assert (Hdraw : exists g,
    drawAsteroidShape h (Some pts) None 1
      (set_nextHandle S (set_heap (insert h newGraphics) (advance (2 * Z.to_nat nv) w)))
    = (tt, set_heap (insert h (with_gfx g newGraphics))
             (set_nextHandle S (set_heap (insert h newGraphics) (advance (2 * Z.to_nat nv) w))))).
  { unfold drawAsteroidShape. destruct (length pts <? 3)%nat.
    - exists Blank. unfold ret. f_equal. solve_world_eq.
    - eexists. erewrite update_hit by solve_lookup. reflexivity. }
  destruct Hdraw as [g ->]. cbn [fst snd].
  rewrite bind_eq. erewrite groupAdd_eq by solve_lookup. rewrite Hatt. cbn [fst snd].
  step_update.
  rewrite bind_eq. unfold get. cbn [fst snd].
  unfold bodyOf. 
  match goal with |- context [heap ?W !! h] =>
    replace (heap W !! h) with (Some (with_position x y (with_body (Some groupBody) (with_gfx g newGraphics))))
      by (symmetry; solve_lookup) end.
  cbn [a_body with_position with_body].
  rewrite bind_eq.
  match goal with |- context [dv ?W] => destruct (Hdv W) as (v & k & ->) end.
  cbn [fst snd]. rewrite bind_eq, rand_eq. cbn [fst snd].
  step_update.
  rewrite bind_eq. erewrite storeData_eq by solve_lookup. cbn [fst snd].
  unfold ret.
  eexists. exists (2 * Z.to_nat nv + k + 1)%nat. split.
  - f_equal. solve_world_eq.
  - cbn. repeat split; eauto.
Qed.
Lemma createAsteroid_detached env dv cn vs ihp nv x y w :
  attachBody env (nextHandle w) = false ->
  exists a,
    createAsteroid env dv cn vs ihp nv x y w
    = (None,
       set_heap (insert (nextHandle w) a)
         (set_asteroidsGroup (fun g => filter (fun h' => h' <> nextHandle w) (g ++ [nextHandle w]))
            (set_nextHandle S (advance (2 * Z.to_nat nv) w))))
    /\ a_active a = false.
Proof.
  intros Hatt. unfold createAsteroid.
  rewrite bind_eq, generateAsteroidPoints_eq. cbn [fst snd].
  set (pts := map _ _).
  rewrite bind_eq. unfold addGraphics. cbn [fst snd].
  set (h := nextHandle w) in *.
  replace (nextHandle (advance (2 * Z.to_nat nv) w)) with h by reflexivity.
  rewrite bind_eq.
  assert (Hdraw : exists g,
    drawAsteroidShape h (Some pts) None 1
      (set_nextHandle S (set_heap (insert h newGraphics) (advance (2 * Z.to_nat nv) w)))
    = (tt, set_heap (insert h (with_gfx g newGraphics))
             (set_nextHandle S (set_heap (insert h newGraphics) (advance (2 * Z.to_nat nv) w))))).
  { unfold drawAsteroidShape. destruct (length pts <? 3)%nat.
    - exists Blank. unfold ret. f_equal. solve_world_eq.
    - eexists. erewrite update_hit by solve_lookup. reflexivity. }
  destruct Hdraw as [g ->]. cbn [fst snd].
  rewrite bind_eq. erewrite groupAdd_eq by solve_lookup. rewrite Hatt. cbn [fst snd].
  step_update.
  rewrite bind_eq. unfold get. cbn [fst snd].
  unfold bodyOf.
  match goal with |- context [heap ?W !! h] =>
    replace (heap W !! h) with (Some (with_position x y (with_gfx g newGraphics)))
      by (symmetry; solve_lookup) end.
  cbn [a_body with_position with_gfx newGraphics].
  rewrite bind_eq. unfold destroyAsteroid. rewrite bind_eq. unfold modify at 1. cbn [fst snd].
  run_update. unfold ret.
  eexists. split.
  - f_equal. solve_world_eq.
  - reflexivity.
Qed.

Lemma filter_fresh (h : nat) (g : list nat) :
  h ∉ g -> filter (fun h' => h' <> h) (g ++ [h]) = g.
Proof.
  intros Hn. rewrite filter_app. 
  rewrite (filter_cons_False _ h []) by (intros H; apply H; reflexivity).
  rewrite filter_nil, app_nil_r.
  induction g as [|e g IH]; [reflexivity|].
  apply not_elem_of_cons in Hn. destruct Hn as [Hne Hn].
  rewrite filter_cons_True by auto. rewrite IH by assumption. reflexivity.
Qed.

Section RegionRetry.
Variables (env : Env) (worldView regionBounds : Phaser.Rectangle).
Variables (visualSize : R) (category : Category).

Lemma regionRetry_spec (budget : nat) :
  forall w : World,
    let r := regionRetry env worldView regionBounds visualSize category budget w in
    snd r = advance (2 * snd (fst r)) w
    /\ (snd (fst r) <= budget)%nat
    /\ match fst (fst r) with
       | Some p =>
           (1 <= snd (fst r))%nat
           /\ p = regionCandidate env regionBounds (cursor w) (snd (fst r) - 1)
           /\ rejected w worldView visualSize category p = false
       | None =>
           snd (fst r) = budget
           /\ forall i, (i < budget)%nat ->
                rejected w worldView visualSize category
                         (regionCandidate env regionBounds (cursor w) i) = true
       end.
Proof.
  induction budget as [|b IH]; intros w.
  - cbn. rewrite advance_0. repeat split; [lia|]. intros i Hi. lia.
  - cbn [regionRetry]. cbv zeta.
    rewrite bind_eq, rand_eq. cbn [fst snd].
    rewrite bind_eq, rand_eq. cbn [fst snd].
    rewrite advance_advance. change (1 + 1)%nat with 2%nat.
    replace (cursor (advance 1 w)) with (cursor w + 1)%nat by reflexivity.
    set (spawnX := Phaser.FloatBetween _ _ (random env (cursor w))).
    set (spawnY := Phaser.FloatBetween _ _ (random env (cursor w + 1))).
    assert (Hcand0 : regionCandidate env regionBounds (cursor w) 0 = (spawnX, spawnY)).
    { unfold regionCandidate, spawnX, spawnY. repeat (f_equal; try lia). }
    assert (Hshift : forall i, regionCandidate env regionBounds (cursor (advance 2 w)) i
                               = regionCandidate env regionBounds (cursor w) (S i)).
    { intros i. unfold regionCandidate. rewrite cursor_advance. repeat (f_equal; try lia). }
    specialize (IH (advance 2 w)). cbv zeta in IH.
    destruct IH as (Hw & Hle & Hres).
    destruct (Phaser.Contains worldView spawnX spawnY) eqn:Hview.
    + rewrite bind_eq. unfold ret. cbn [fst snd].
      rewrite Hw, advance_advance.
      split; [f_equal; lia|]. split; [lia|].
      destruct (fst (fst (regionRetry env worldView regionBounds visualSize category b
                            (advance 2 w)))) as [p|].
      * destruct Hres as (H1 & Hp & Hrej). split; [lia|]. split.
        -- rewrite Hp, Hshift. f_equal. lia.
        -- exact Hrej.
      * destruct Hres as (Ht & Hall). split; [lia|].
        intros [|i] Hi.
        -- rewrite Hcand0. unfold rejected. cbn [fst snd]. rewrite Hview. reflexivity.
        -- rewrite <- Hshift. apply Hall. lia.
    + rewrite bind_eq. unfold get. cbn [fst snd].
      change (overlaps (advance 2 w) visualSize category spawnX spawnY)
        with (overlaps w visualSize category spawnX spawnY).
      destruct (overlaps w visualSize category spawnX spawnY) eqn:Hov; cbn [negb].
      * rewrite bind_eq. unfold ret. cbn [fst snd].
        rewrite Hw, advance_advance.
        split; [f_equal; lia|]. split; [lia|].
        destruct (fst (fst (regionRetry env worldView regionBounds visualSize category b
                              (advance 2 w)))) as [p|].
        -- destruct Hres as (H1 & Hp & Hrej). split; [lia|]. split.
           ++ rewrite Hp, Hshift. f_equal. lia.
           ++ exact Hrej.
        -- destruct Hres as (Ht & Hall). split; [lia|].
           intros [|i] Hi.
           ++ rewrite Hcand0. unfold rejected. cbn [fst snd]. rewrite Hview, Hov. reflexivity.
           ++ rewrite <- Hshift. apply Hall. lia.
      * unfold ret. cbn [fst snd]. split; [reflexivity|]. split; [lia|].
        split; [lia|]. split.
        -- rewrite <- Hcand0. reflexivity.
        -- unfold rejected. cbn [fst snd]. rewrite Hview, Hov. reflexivity.
Qed.
End RegionRetry.
Lemma destroyBullet_eq (b : nat) (w : World) :
  destroyBullet b w
  = (tt, set_bulletHeap (fun hp => match hp !! b with
                                   | Some bl => <[b := mkBullet (b_x bl) (b_y bl) false false]> hp
                                   | None => hp
                                   end)
           (set_bulletsGroup (filter (fun b' => b' <> b)) w)).
Proof. unfold destroyBullet. rewrite bind_eq. unfold modify. reflexivity. Qed.

Lemma destroyAsteroid_hit (h : nat) (w : World) (a : Asteroid) :
  heap w !! h = Some a ->
  destroyAsteroid h w
  = (tt, set_heap (insert h (destroyed a))
           (set_asteroidsGroup (filter (fun h' => h' <> h)) w)).
Proof.
  intros Hl. unfold destroyAsteroid. rewrite bind_eq. unfold modify at 1. cbn [fst snd].
  erewrite update_hit by (world_cbn; exact Hl). reflexivity.
Qed.

(** The revert closure does nothing when its guard fails. *)
Lemma flashRevert_guard_fails (t : FlashRevert) (w : World) (a : Asteroid) :
  heap w !! fr_asteroid t = Some a -> revertGuard (fr_listing t) a = false ->
  flashRevert t w = (tt, w).
Proof.
  intros Hl Hg. unfold flashRevert. rewrite bind_eq. unfold get. cbn [fst snd].
  rewrite Hl, Hg. reflexivity.
Qed.

Lemma flashRevert_no_object (t : FlashRevert) (w : World) :
  heap w !! fr_asteroid t = None -> flashRevert t w = (tt, w).
Proof.
  intros Hl. unfold flashRevert. rewrite bind_eq. unfold get. cbn [fst snd].
  rewrite Hl. reflexivity.
Qed.

Lemma revertGuard_inactive (l : Listing) (a : Asteroid) :
  a_active a = false -> revertGuard l a = false.
Proof. intros H. unfold revertGuard. rewrite H. reflexivity. Qed.

Lemma revertGuard_no_hp (l : Listing) (a : Asteroid) :
  revertChecksHp l = true ->
  (forall n, d_hitPoints a = Some n -> (n <= 0)%Z) ->
  revertGuard l a = false.
Proof.
  intros Hl Hhp. unfold revertGuard. rewrite Hl.
  destruct (d_hitPoints a) as [n|]; [|apply andb_false_r].
  specialize (Hhp n eq_refl).
  replace (0 <? n)%Z with false by (symmetry; apply Z.ltb_ge; lia).
  apply andb_false_r.
Qed.

(** In the first listing of src/main.js the guard is [asteroid.active]
    alone; the hit points are not read. *)
Lemma revertGuard_first_listing (a : Asteroid) :
  revertGuard MainFirst a = a_active a.
Proof. unfold revertGuard. cbn [revertChecksHp]. apply andb_true_r. Qed.

(** A hit that the asteroid survives while it is already flashing. *)
Lemma hit_while_flashing (l : Listing) (bullet asteroid : nat) (w : World)
    (b : Bullet) (a : Asteroid) (n : Z) :
  bulletHeap w !! bullet = Some b -> heap w !! asteroid = Some a ->
  b_active b = true -> a_active a = true -> is_Some (a_body a) ->
  d_hitPoints a = Some n -> (1 < n)%Z -> d_isHit a = Some true ->
  handleBulletAsteroidCollision l bullet asteroid w
  = (tt, set_heap (insert asteroid (with_hitPoints (n - 1) a)) (snd (destroyBullet bullet w))).
Proof.
  intros Hb Ha Hba Haa Hbody Hhp Hn Hhit.
  unfold handleBulletAsteroidCollision. rewrite bind_eq. unfold get. cbn [fst snd].
  rewrite Hb, Ha, Hba, Haa. rewrite bool_decide_eq_true_2 by assumption. cbn [negb orb].
  rewrite bind_eq, destroyBullet_eq. cbn [fst snd]. rewrite Hhp.
  rewrite bind_eq. erewrite update_hit by (world_cbn; exact Ha). cbn [fst snd].
  replace (n - 1 <=? 0)%Z with false by (symmetry; apply Z.leb_gt; lia).
  rewrite Hhit. cbn [truthy negb].
  destruct (d_points a); reflexivity.
Qed.
Lemma Between_range (lo hi : Z) (u : R) :
  0 <= u < 1 -> (lo <= hi)%Z ->
  (lo <= Phaser.Between (IZR lo) (IZR hi) u <= hi)%Z.
Proof.
  intros Hu Hle. unfold Phaser.Between.
  assert (Hr : IZR lo <= IZR hi) by (apply IZR_le; assumption).
  split.
  - apply Zfloor_lub. nra.
  - pose proof (Zfloor_bound (u * (IZR hi - IZR lo + 1) + IZR lo)) as [Hfl _].
    assert (Hlt : IZR (Zfloor (u * (IZR hi - IZR lo + 1) + IZR lo)) < IZR (hi + 1)).
    { rewrite plus_IZR. simpl. nra. }
    apply lt_IZR in Hlt. lia.
Qed.

Lemma GetRandom_active (u : R) :
  0 <= u < 1 -> exists cn, Phaser.GetRandom ACTIVE_ASTEROID_CATEGORIES u = Some cn.
Proof.
  intros Hu. unfold Phaser.GetRandom, ACTIVE_ASTEROID_CATEGORIES. simpl length.
  replace (INR 3) with 3 by (simpl; lra).
  assert (H0 : (0 <= Zfloor (u * 3))%Z) by (apply Zfloor_lub; lra).
  assert (H3 : (Zfloor (u * 3) < 3)%Z).
  { pose proof (Zfloor_bound (u * 3)) as [Hfl _].
    apply lt_IZR. lra. }
  apply lookup_lt_is_Some. simpl. lia.
Qed.

Lemma drawnSize_range (env : Env) (cn : CategoryName) (c : nat) :
  uniformSamples env ->
  minSize (ASTEROID_CATEGORIES cn) <= drawnSize env (ASTEROID_CATEGORIES cn) c
  <= maxSize (ASTEROID_CATEGORIES cn).
Proof.
  intros Hu. unfold drawnSize.
  destruct cn; simpl.
  - pose proof (Between_range 10 15 _ (Hu (c + 1)%nat) ltac:(lia)) as [H1 H2].
    apply IZR_le in H1, H2. lra.
  - pose proof (Between_range 16 24 _ (Hu (c + 1)%nat) ltac:(lia)) as [H1 H2].
    apply IZR_le in H1, H2. lra.
  - pose proof (Between_range 25 40 _ (Hu (c + 1)%nat) ltac:(lia)) as [H1 H2].
    apply IZR_le in H1, H2. lra.
Qed.

Lemma drawnVertices_range (env : Env) (c : nat) :
  uniformSamples env -> (6 <= drawnVertices env c <= 11)%Z.
Proof.
  intros Hu. unfold drawnVertices, ASTEROID_MIN_VERTICES, ASTEROID_MAX_VERTICES.
  apply (Between_range 6 11). apply Hu. lia.
Qed.

Lemma hp_positive (cn : CategoryName) : (1 <= hp (ASTEROID_CATEGORIES cn) <= 3)%Z.
Proof. destruct cn; simpl; lia. Qed.

Lemma regionVelocity_advances (env : Env) (w : World) :
  exists v k, regionVelocity env w = (v, advance k w).
Proof.
  unfold regionVelocity. rewrite bind_eq, rand_eq. cbn [fst snd].
  rewrite bind_eq, rand_eq. cbn [fst snd]. unfold ret. rewrite advance_advance.
  eauto.
Qed.

Lemma viewVelocity_advances (env : Env) (w : World) :
  exists v k, viewVelocity env w = (v, advance k w).
Proof.
  unfold viewVelocity. rewrite bind_eq, rand_eq. cbn [fst snd].
  rewrite bind_eq, rand_eq. cbn [fst snd]. unfold ret. rewrite advance_advance.
  eauto.
Qed.

Lemma edgeVelocity_advances (env : Env) worldView px py (w : World) :
  exists v k, edgeVelocity env worldView px py w = (v, advance k w).
Proof.
  unfold edgeVelocity. rewrite bind_eq, rand_eq. cbn [fst snd].
  rewrite bind_eq, rand_eq. cbn [fst snd].
  rewrite bind_eq, rand_eq. cbn [fst snd]. unfold ret. rewrite !advance_advance.
  eauto.
Qed.

(** [spawnAsteroidInRegion] once its camera guard and its three opening
    draws are evaluated. *)
Lemma spawnAsteroidInRegion_eq (env : Env) (regionBounds worldView : Phaser.Rectangle)
    (w : World) (cn : CategoryName) :
  camera w = Some worldView -> drawnCategory env (cursor w) = Some cn ->
  let category := ASTEROID_CATEGORIES cn in
  let visualSize := drawnSize env category (cursor w) in
  let r := regionRetry env worldView regionBounds visualSize category SPAWN_MAX_RETRIES
             (advance 3 w) in
  spawnAsteroidInRegion env regionBounds w
  = match fst (fst r) with
    | None => (None, snd r)
    | Some (spawnX, spawnY) =>
        createAsteroid env (regionVelocity env) cn visualSize (hp category)
          (drawnVertices env (cursor w)) spawnX spawnY (snd r)
    end.
Proof.
  intros Hcam Hcat category visualSize r.
  unfold spawnAsteroidInRegion. rewrite bind_eq. unfold get. cbn [fst snd].
  rewrite Hcam. rewrite bind_eq, rand_eq. cbn [fst snd].
  unfold drawnCategory in Hcat. rewrite Hcat.
  rewrite bind_eq, rand_eq. cbn [fst snd].
  rewrite bind_eq, rand_eq. cbn [fst snd].
  rewrite !advance_advance. change (1 + 1 + 1)%nat with 3%nat.
  rewrite bind_eq.
  replace (cursor (advance 1 w)) with (cursor w + 1)%nat by reflexivity.
  replace (cursor (advance (1 + 1) w)) with (cursor w + 2)%nat by reflexivity.
  fold category. fold (drawnSize env category (cursor w)). fold visualSize.
  fold r. fold (drawnVertices env (cursor w)).
  destruct (fst (fst r)) as [[spawnX spawnY]|]; reflexivity.
Qed.
Lemma regionCandidate_inside (env : Env) (regionBounds : Phaser.Rectangle) (c i : nat) :
  uniformSamples env -> 0 <= Phaser.width regionBounds -> 0 <= Phaser.height regionBounds ->
  Phaser.left regionBounds <= fst (regionCandidate env regionBounds c i)
    <= Phaser.right regionBounds
  /\ Phaser.top regionBounds <= snd (regionCandidate env regionBounds c i)
     <= Phaser.bottom regionBounds.
Proof.
  intros Hu Hw Hh. unfold regionCandidate. cbn [fst snd]. split.
  - apply FloatBetween_bounds; [apply Hu|]. unfold Phaser.left, Phaser.right. lra.
  - apply FloatBetween_bounds; [apply Hu|]. unfold Phaser.top, Phaser.bottom. lra.
Qed.

(** When each of the candidates the loop samples is rejected, the region
    spawner uses up its retry budget and returns [null], having only
    consumed samples. *)
Lemma region_spawn_all_rejected (env : Env) (regionBounds worldView : Phaser.Rectangle)
    (w : World) (cn : CategoryName) :
  camera w = Some worldView -> drawnCategory env (cursor w) = Some cn ->
  (forall i, (i < SPAWN_MAX_RETRIES)%nat ->
     rejected w worldView (drawnSize env (ASTEROID_CATEGORIES cn) (cursor w))
              (ASTEROID_CATEGORIES cn)
              (regionCandidate env regionBounds (cursor w + 3) i) = true) ->
  regionRetry env worldView regionBounds (drawnSize env (ASTEROID_CATEGORIES cn) (cursor w))
              (ASTEROID_CATEGORIES cn) SPAWN_MAX_RETRIES (advance 3 w)
  = ((None, SPAWN_MAX_RETRIES), advance (3 + 2 * SPAWN_MAX_RETRIES) w)
  /\ spawnAsteroidInRegion env regionBounds w
     = (None, advance (3 + 2 * SPAWN_MAX_RETRIES) w).
Proof.
  intros Hcam Hcat Hrej.
  pose proof (regionRetry_spec env worldView regionBounds
                (drawnSize env (ASTEROID_CATEGORIES cn) (cursor w))
                (ASTEROID_CATEGORIES cn) SPAWN_MAX_RETRIES (advance 3 w)) as Hspec.
  cbv zeta in Hspec. destruct Hspec as (Hw & Hle & Hres).
  rewrite (spawnAsteroidInRegion_eq env regionBounds worldView w cn Hcam Hcat).
  cbv zeta.
  destruct (regionRetry env worldView regionBounds
              (drawnSize env (ASTEROID_CATEGORIES cn) (cursor w))
              (ASTEROID_CATEGORIES cn) SPAWN_MAX_RETRIES (advance 3 w))
    as [[found tried] w'] eqn:Hrun.
  cbn [fst snd] in *.
  destruct found as [p|].
  - exfalso. destruct Hres as (H1 & Hp & Hok).
    rewrite cursor_advance in Hp.
    specialize (Hrej (tried - 1)%nat ltac:(lia)). rewrite <- Hp in Hrej.
    change (rejected (advance 3 w) worldView (drawnSize env (ASTEROID_CATEGORIES cn) (cursor w))
              (ASTEROID_CATEGORIES cn) p)
      with (rejected w worldView (drawnSize env (ASTEROID_CATEGORIES cn) (cursor w))
              (ASTEROID_CATEGORIES cn) p) in Hok.
    congruence.
  - destruct Hres as (-> & _). rewrite Hw, advance_advance. split; reflexivity.
Qed.
Lemma Contains_false_outside (rect : Phaser.Rectangle) (px py : R) :
  0 < Phaser.width rect -> 0 < Phaser.height rect ->
  Phaser.Contains rect px py = false ->
  px < Phaser.left rect \/ Phaser.right rect < px
  \/ py < Phaser.top rect \/ Phaser.bottom rect < py.
Proof.
  intros Hw Hh. unfold Phaser.Contains, Phaser.left, Phaser.right, Phaser.top, Phaser.bottom.
  rewrite (bool_decide_eq_false_2 (Phaser.width rect <= 0)) by lra.
  rewrite (bool_decide_eq_false_2 (Phaser.height rect <= 0)) by lra.
  cbn [orb]. intros Hc.
  destruct (Rlt_dec px (Phaser.x rect)) as [|H1]; [auto|].
  destruct (Rlt_dec (Phaser.x rect + Phaser.width rect) px) as [|H2]; [auto|].
  destruct (Rlt_dec py (Phaser.y rect)) as [|H3]; [auto|].
  destruct (Rlt_dec (Phaser.y rect + Phaser.height rect) py) as [|H4]; [auto|].
  exfalso. rewrite !bool_decide_eq_true_2 in Hc by lra. discriminate.
Qed.

Lemma Contains_true_inside (rect : Phaser.Rectangle) (px py : R) :
  Phaser.Contains rect px py = true ->
  0 < Phaser.width rect /\ 0 < Phaser.height rect
  /\ Phaser.left rect <= px <= Phaser.right rect
  /\ Phaser.top rect <= py <= Phaser.bottom rect.
Proof.
  unfold Phaser.Contains, Phaser.left, Phaser.right, Phaser.top, Phaser.bottom.
  destruct (bool_decide (Phaser.width rect <= 0)) eqn:Hw; [discriminate|].
  destruct (bool_decide (Phaser.height rect <= 0)) eqn:Hh; [discriminate|].
  cbn [orb]. intros Hc.
  apply bool_decide_eq_false in Hw, Hh.
  apply andb_true_iff in Hc. destruct Hc as [Hc H4].
  apply andb_true_iff in Hc. destruct Hc as [Hc H3].
  apply andb_true_iff in Hc. destruct Hc as [H1 H2].
  apply bool_decide_eq_true in H1, H2, H3, H4. lra.
Qed.

Lemma Contains_inside_true (rect : Phaser.Rectangle) (px py : R) :
  0 < Phaser.width rect -> 0 < Phaser.height rect ->
  Phaser.left rect <= px <= Phaser.right rect ->
  Phaser.top rect <= py <= Phaser.bottom rect ->
  Phaser.Contains rect px py = true.
Proof.
  unfold Phaser.Contains, Phaser.left, Phaser.right, Phaser.top, Phaser.bottom.
  intros Hw Hh Hx Hy.
  rewrite (bool_decide_eq_false_2 (Phaser.width rect <= 0)) by lra.
  rewrite (bool_decide_eq_false_2 (Phaser.height rect <= 0)) by lra.
  rewrite !bool_decide_eq_true_2 by lra. reflexivity.
Qed.

(** The first candidate lying in the view costs one unit of budget and the
    loop goes on with the next samples. *)
Lemma regionRetry_in_view (env : Env) (worldView regionBounds : Phaser.Rectangle)
    (visualSize : R) (category : Category) (budget : nat) (w : World) :
  Phaser.Contains worldView (fst (regionCandidate env regionBounds (cursor w) 0))
                  (snd (regionCandidate env regionBounds (cursor w) 0)) = true ->
  regionRetry env worldView regionBounds visualSize category (S budget) w
  = (fst (fst (regionRetry env worldView regionBounds visualSize category budget
                 (advance 2 w))),
     S (snd (fst (regionRetry env worldView regionBounds visualSize category budget
                    (advance 2 w)))),
     snd (regionRetry env worldView regionBounds visualSize category budget (advance 2 w))).
Proof.
  intros Hview. cbn [regionRetry]. cbv zeta.
  rewrite bind_eq, rand_eq. cbn [fst snd].
  rewrite bind_eq, rand_eq. cbn [fst snd].
  rewrite advance_advance. change (1 + 1)%nat with 2%nat.
  unfold regionCandidate in Hview. cbn [fst snd] in Hview.
  replace (cursor w + 2 * 0)%nat with (cursor w) in Hview by lia.
  replace (cursor (advance 1 w)) with (cursor w + 1)%nat by reflexivity.
  rewrite Hview. rewrite bind_eq. reflexivity.
Qed.

(** What a call of [spawnAsteroidInRegion] can do to the world. *)
Lemma spawnAsteroidInRegion_outcome (env : Env) (regionBounds worldView : Phaser.Rectangle)
    (w : World) :
  camera w = Some worldView -> uniformSamples env ->
  nextHandle w ∉ asteroidsGroup w ->
  let r := spawnAsteroidInRegion env regionBounds w in
  match fst r with
  | Some h =>
      exists a cn i,
        h = nextHandle w
        /\ asteroidsGroup (snd r) = asteroidsGroup w ++ [h]
        /\ heap (snd r) = <[h := a]> (heap w)
        /\ nextHandle (snd r) = S (nextHandle w)
        /\ a_active a = true /\ is_Some (a_body a)
        /\ (a_x a, a_y a) = regionCandidate env regionBounds (cursor w + 3) i
        /\ (i < SPAWN_MAX_RETRIES)%nat
        /\ rejected w worldView (drawnSize env (ASTEROID_CATEGORIES cn) (cursor w))
                    (ASTEROID_CATEGORIES cn) (a_x a, a_y a) = false
        /\ drawnCategory env (cursor w) = Some cn
        /\ d_category a = Some cn
        /\ d_hitPoints a = Some (hp (ASTEROID_CATEGORIES cn))
        /\ d_visualSize a = Some (drawnSize env (ASTEROID_CATEGORIES cn) (cursor w))
        /\ (exists pts, d_points a = Some pts
                        /\ length pts = Z.to_nat (drawnVertices env (cursor w)))
        /\ d_isHit a = Some false
  | None =>
      asteroidsGroup (snd r) = asteroidsGroup w
      /\ (nextHandle w <= nextHandle (snd r))%nat
      /\ (forall h a, heap (snd r) !! h = Some a -> a_active a = true ->
                      heap w !! h = Some a)
  end
  /\ timers (snd r) = timers w /\ explosions (snd r) = explosions w
  /\ camera (snd r) = camera w /\ player (snd r) = player w
  /\ bulletHeap (snd r) = bulletHeap w /\ bulletsGroup (snd r) = bulletsGroup w
  /\ scale (snd r) = scale w /\ particleEmitter (snd r) = particleEmitter w.
Proof.
  intros Hcam Hu Hfresh r.
  destruct (GetRandom_active (random env (cursor w)) (Hu _)) as [cn Hcn].
  subst r. rewrite (spawnAsteroidInRegion_eq env regionBounds worldView w cn Hcam Hcn).
  cbv zeta.
  pose proof (regionRetry_spec env worldView regionBounds
                (drawnSize env (ASTEROID_CATEGORIES cn) (cursor w))
                (ASTEROID_CATEGORIES cn) SPAWN_MAX_RETRIES (advance 3 w)) as Hspec.
  cbv zeta in Hspec. destruct Hspec as (Hw & Hle & Hres).
  destruct (regionRetry env worldView regionBounds
              (drawnSize env (ASTEROID_CATEGORIES cn) (cursor w))
              (ASTEROID_CATEGORIES cn) SPAWN_MAX_RETRIES (advance 3 w))
    as [[found tried] w'] eqn:Hrun.
  cbn [fst snd] in *. subst w'.
  destruct found as [[px py]|]; cbn [fst snd].
  - destruct Hres as (H1 & Hp & Hok).
    destruct (attachBody env (nextHandle w)) eqn:Hatt.
    + destruct (createAsteroid_attached env (regionVelocity env) cn
                  (drawnSize env (ASTEROID_CATEGORIES cn) (cursor w))
                  (hp (ASTEROID_CATEGORIES cn)) (drawnVertices env (cursor w)) px py
                  (advance (2 * tried) (advance 3 w)) Hatt (regionVelocity_advances env))
        as (a & k & -> & Hx & Hy & Hact & Hbody & Hc & Hhp & Hvs & Hpts & Hhit).
      cbn [fst snd]. world_cbn.
      split; [|repeat split; reflexivity].
      exists a, cn, (tried - 1)%nat.
      split; [reflexivity|]. split; [reflexivity|]. split; [reflexivity|].
      split; [reflexivity|]. split; [assumption|]. split; [assumption|].
      split; [rewrite Hx, Hy; exact Hp|]. split; [lia|].
      split; [rewrite Hx, Hy; exact Hok|]. split; [assumption|].
      split; [assumption|]. split; [assumption|]. split; [assumption|].
      split; [|assumption].
      eexists. split; [exact Hpts|]. apply generateAsteroidPoints_length.
    + destruct (createAsteroid_detached env (regionVelocity env) cn
                  (drawnSize env (ASTEROID_CATEGORIES cn) (cursor w))
                  (hp (ASTEROID_CATEGORIES cn)) (drawnVertices env (cursor w)) px py
                  (advance (2 * tried) (advance 3 w)) Hatt)
        as (a & -> & Hina).
      cbn [fst snd]. world_cbn.
      split; [|repeat split; reflexivity].
      split; [apply filter_fresh; assumption|]. split; [lia|].
      intros h a' Hl Ha'.
      destruct (decide (h = nextHandle w)) as [->|Hne].
      * rewrite lookup_insert_eq in Hl. injection Hl as <-. congruence.
      * rewrite lookup_insert_ne in Hl by auto. exact Hl.
  - world_cbn. split; [|repeat split; reflexivity].
    split; [reflexivity|]. split; [lia|]. intros h a Hl _. exact Hl.
Qed.
Lemma createAsteroid_outcome env dv cn nv x y vs (w : World) (k0 : nat) :
  uniformSamples env -> (6 <= nv <= 11)%Z ->
  (forall w0, exists v k, dv w0 = (v, advance k w0)) ->
  spawnOutcome w (snd (createAsteroid env dv cn vs (hp (ASTEROID_CATEGORIES cn)) nv x y
                         (advance k0 w))).
Proof.
  intros Hu Hnv Hdv.
  destruct (attachBody env (nextHandle w)) eqn:Hatt.
  - destruct (createAsteroid_attached env dv cn vs (hp (ASTEROID_CATEGORIES cn)) nv x y
                (advance k0 w) Hatt Hdv)
      as (a & k & -> & Hx & Hy & Hact & Hbody & Hc & Hhp & Hvs & Hpts & Hhit).
    cbn [snd]. apply (outcome_spawned w _ a (k0 + k)).
    + rewrite advance_advance. reflexivity.
    + assumption.
    + assumption.
    + exists cn. eexists. split; [assumption|]. split; [assumption|].
      split; [apply hp_positive|]. split; [exact Hpts|].
      rewrite generateAsteroidPoints_length. lia.
  - destruct (createAsteroid_detached env dv cn vs (hp (ASTEROID_CATEGORIES cn)) nv x y
                (advance k0 w) Hatt) as (a & -> & Hina).
    cbn [snd]. apply (outcome_body_missing w _ a (k0 + 2 * Z.to_nat nv)).
    + rewrite advance_advance. reflexivity.
    + assumption.
Qed.

Lemma spawnAsteroidInRegion_spawnOutcome (env : Env) (regionBounds : Phaser.Rectangle)
    (w : World) :
  uniformSamples env ->
  spawnOutcome w (snd (spawnAsteroidInRegion env regionBounds w)).
Proof.
  intros Hu.
  destruct (camera w) as [worldView|] eqn:Hcam.
  - destruct (GetRandom_active (random env (cursor w)) (Hu _)) as [cn Hcn].
    rewrite (spawnAsteroidInRegion_eq env regionBounds worldView w cn Hcam Hcn).
    cbv zeta.
    pose proof (regionRetry_spec env worldView regionBounds
                  (drawnSize env (ASTEROID_CATEGORIES cn) (cursor w))
                  (ASTEROID_CATEGORIES cn) SPAWN_MAX_RETRIES (advance 3 w)) as Hspec.
    cbv zeta in Hspec. destruct Hspec as (Hw & _).
    destruct (regionRetry env worldView regionBounds
                (drawnSize env (ASTEROID_CATEGORIES cn) (cursor w))
                (ASTEROID_CATEGORIES cn) SPAWN_MAX_RETRIES (advance 3 w))
      as [[found tried] w'] eqn:Hrun.
    cbn [fst snd] in *. subst w'. rewrite advance_advance.
    destruct found as [[px py]|]; cbn [fst snd].
    + apply createAsteroid_outcome;
        [assumption|apply drawnVertices_range; assumption|apply regionVelocity_advances].
    + eapply outcome_no_spot. reflexivity.
  - unfold spawnAsteroidInRegion. rewrite bind_eq. unfold get. cbn [fst snd].
    rewrite Hcam. unfold ret. cbn [snd]. apply (outcome_no_spot w w 0).
    symmetry. apply advance_0.
Qed.

Lemma edgeCandidate_advances (env : Env) worldView edge visualSize (w : World) :
  exists k, snd (edgeCandidate env worldView edge visualSize w) = advance k w.
Proof.
  unfold edgeCandidate.
  assert (Htwo : forall (f : R -> R -> R * R),
    snd ((u <- rand env ;; u' <- rand env ;; ret (f u u')) w) = advance 2 w).
  { intros f. rewrite bind_eq, rand_eq. cbn [fst snd].
    rewrite bind_eq, rand_eq. cbn [fst snd]. unfold ret. cbn [snd].
    rewrite advance_advance. reflexivity. }
  destruct edge as [|[p|p|]|p].
  - exists 2%nat.
    apply (Htwo (fun u u' => (Phaser.FloatBetween (Phaser.left worldView - SPAWN_BUFFER)
                                (Phaser.right worldView + SPAWN_BUFFER) u,
                              Phaser.top worldView - SPAWN_BUFFER - u' * visualSize))).
  - destruct p as [[|p|]|[p|p|]|];
      try (exists 0%nat; unfold ret; cbn [snd]; symmetry; apply advance_0).
    + exists 2%nat.
      apply (Htwo (fun u u' => (Phaser.left worldView - SPAWN_BUFFER - u * visualSize,
                                Phaser.FloatBetween (Phaser.top worldView - SPAWN_BUFFER)
                                  (Phaser.bottom worldView + SPAWN_BUFFER) u'))).
  - destruct p as [|p|]; try (exists 0%nat; unfold ret; cbn [snd]; symmetry; apply advance_0).
    + exists 2%nat.
      apply (Htwo (fun u u' => (Phaser.FloatBetween (Phaser.left worldView - SPAWN_BUFFER)
                                  (Phaser.right worldView + SPAWN_BUFFER) u,
                                Phaser.bottom worldView + SPAWN_BUFFER + u' * visualSize))).
  - exists 2%nat.
    apply (Htwo (fun u u' => (Phaser.right worldView + SPAWN_BUFFER + u * visualSize,
                              Phaser.FloatBetween (Phaser.top worldView - SPAWN_BUFFER)
                                (Phaser.bottom worldView + SPAWN_BUFFER) u'))).
  - exists 0%nat. unfold ret. cbn [snd]. symmetry. apply advance_0.
Qed.
Lemma edgeRetry_advances (env : Env) worldView edge visualSize category (budget : nat) :
  forall w, exists k,
    snd (edgeRetry env worldView edge visualSize category budget w) = advance k w.
Proof.
  induction budget as [|b IH]; intros w.
  - exists 0%nat. cbn. symmetry. apply advance_0.
  - cbn [edgeRetry]. rewrite bind_eq.
    destruct (edgeCandidate_advances env worldView edge visualSize w) as [k Hk].
    rewrite Hk. rewrite bind_eq. unfold get. cbn [fst snd].
    destruct (negb _).
    + exists k. reflexivity.
    + destruct (IH (advance k w)) as [k' Hk']. exists (k + k')%nat.
      rewrite Hk', advance_advance. reflexivity.
Qed.

Lemma viewRetry_advances (env : Env) sw sh px py visualSize category (budget : nat) :
  forall w, exists k,
    snd (viewRetry env sw sh px py visualSize category budget w) = advance k w.
Proof.
  induction budget as [|b IH]; intros w.
  - exists 0%nat. cbn. symmetry. apply advance_0.
  - cbn [viewRetry]. cbv zeta.
    rewrite bind_eq, rand_eq. cbn [fst snd].
    rewrite bind_eq, rand_eq. cbn [fst snd]. rewrite advance_advance.
    destruct (IH (advance (1 + 1) w)) as [k' Hk'].
    destruct (bool_decide _).
    + exists (1 + 1 + k')%nat. rewrite Hk', advance_advance. reflexivity.
    + rewrite bind_eq. unfold get. cbn [fst snd].
      destruct (negb _).
      * exists (1 + 1)%nat. reflexivity.
      * exists (1 + 1 + k')%nat. rewrite Hk', advance_advance. reflexivity.
Qed.

Lemma chooseEdge_advances (env : Env) (w : World) :
  exists k, snd (chooseEdge env w) = advance k w.
Proof.
  unfold chooseEdge. rewrite bind_eq, rand_eq. cbn [fst snd].
  rewrite bind_eq. unfold get. cbn [fst snd].
  change (player (advance 1 w)) with (player w).
  destruct (player w) as [pl|]; [|exists 1%nat; reflexivity].
  destruct (pl_body pl) as [v|]; [|exists 1%nat; reflexivity].
  destruct (bool_decide _); [|exists 1%nat; reflexivity].
  rewrite bind_eq, rand_eq. cbn [fst snd]. rewrite advance_advance.
  exists (1 + 1)%nat. reflexivity.
Qed.

(** [spawnAsteroid] once its camera guard and its opening draws are
    evaluated. *)
Lemma spawnAsteroid_eq (env : Env) (worldView : Phaser.Rectangle) (w : World)
    (cn : CategoryName) :
  camera w = Some worldView -> drawnCategory env (cursor w) = Some cn ->
  let category := ASTEROID_CATEGORIES cn in
  let visualSize := drawnSize env category (cursor w) in
  let e := chooseEdge env (advance 3 w) in
  let r := edgeRetry env worldView (fst e) visualSize category SPAWN_MAX_RETRIES (snd e) in
  spawnAsteroid env w
  = match fst r with
    | None => (tt, snd r)
    | Some (spawnX, spawnY) =>
        (tt, snd (createAsteroid env (edgeVelocity env worldView spawnX spawnY) cn visualSize
                    (hp category) (drawnVertices env (cursor w)) spawnX spawnY (snd r)))
    end.
Proof.
  intros Hcam Hcat category visualSize e r.
  unfold spawnAsteroid. rewrite bind_eq. unfold get. cbn [fst snd].
  rewrite Hcam. rewrite bind_eq, rand_eq. cbn [fst snd].
  unfold drawnCategory in Hcat. rewrite Hcat.
  rewrite bind_eq, rand_eq. cbn [fst snd].
  rewrite bind_eq, rand_eq. cbn [fst snd].
  rewrite !advance_advance. change (1 + 1 + 1)%nat with 3%nat.
  rewrite bind_eq. fold e. rewrite bind_eq.
  replace (cursor (advance 1 w)) with (cursor w + 1)%nat by reflexivity.
  replace (cursor (advance (1 + 1) w)) with (cursor w + 2)%nat by reflexivity.
  fold category. fold (drawnSize env category (cursor w)). fold visualSize.
  fold r. fold (drawnVertices env (cursor w)).
  destruct (fst r) as [[spawnX spawnY]|]; [|reflexivity].
  rewrite bind_eq. reflexivity.
Qed.

Lemma spawnAsteroid_spawnOutcome (env : Env) (w : World) :
  uniformSamples env -> spawnOutcome w (snd (spawnAsteroid env w)).
Proof.
  intros Hu.
  destruct (camera w) as [worldView|] eqn:Hcam.
  - destruct (GetRandom_active (random env (cursor w)) (Hu _)) as [cn Hcn].
    rewrite (spawnAsteroid_eq env worldView w cn Hcam Hcn). cbv zeta.
    destruct (chooseEdge_advances env (advance 3 w)) as [k1 Hk1].
    rewrite Hk1.
    destruct (edgeRetry_advances env worldView (fst (chooseEdge env (advance 3 w)))
                (drawnSize env (ASTEROID_CATEGORIES cn) (cursor w))
                (ASTEROID_CATEGORIES cn) SPAWN_MAX_RETRIES (advance k1 (advance 3 w)))
      as [k2 Hk2].
    destruct (edgeRetry env worldView (fst (chooseEdge env (advance 3 w)))
                (drawnSize env (ASTEROID_CATEGORIES cn) (cursor w))
                (ASTEROID_CATEGORIES cn) SPAWN_MAX_RETRIES (advance k1 (advance 3 w)))
      as [found w'] eqn:Hrun.
    cbn [fst snd] in *. subst w'. rewrite !advance_advance.
    destruct found as [[px py]|]; cbn [fst snd].
    + apply createAsteroid_outcome;
        [assumption|apply drawnVertices_range; assumption|apply edgeVelocity_advances].
    + eapply outcome_no_spot. reflexivity.
  - unfold spawnAsteroid. rewrite bind_eq. unfold get. cbn [fst snd].
    rewrite Hcam. unfold ret. cbn [snd]. apply (outcome_no_spot w w 0).
    symmetry. apply advance_0.
Qed.

Lemma spawnOutcome_advance (k : nat) (w w' : World) :
  spawnOutcome (advance k w) w' -> spawnOutcome w w'.
Proof.
  intros [k' ->|a k' -> Ha Hb Hf|a k' -> Ha].
  - apply (outcome_no_spot w _ (k + k')). apply advance_advance.
  - apply (outcome_spawned w _ a (k + k')); try assumption.
    rewrite advance_advance. reflexivity.
  - apply (outcome_body_missing w _ a (k + k')); try assumption.
    rewrite advance_advance. reflexivity.
Qed.

(** [spawnAsteroidInView] once its camera guard and its opening draws are
    evaluated: the in-view loop, then creation at the spot found or the
    fall-back to [spawnAsteroid]. *)
Lemma spawnAsteroidInView_eq (env : Env) (worldView : Phaser.Rectangle) (w : World)
    (cn : CategoryName) :
  camera w = Some worldView -> drawnCategory env (cursor w) = Some cn ->
  let category := ASTEROID_CATEGORIES cn in
  let visualSize := drawnSize env category (cursor w) in
  let r := viewRetry env (fst (scale w)) (snd (scale w)) (fst (scale w) / 2)
             (snd (scale w) / 2) visualSize category (SPAWN_MAX_RETRIES * 2) (advance 3 w) in
  spawnAsteroidInView env w
  = match fst r with
    | None => spawnAsteroid env (snd r)
    | Some (spawnX, spawnY) =>
        (tt, snd (createAsteroid env (viewVelocity env) cn visualSize
                    (hp category) (drawnVertices env (cursor w)) spawnX spawnY (snd r)))
    end.
Proof.
  intros Hcam Hcat category visualSize r.
  unfold spawnAsteroidInView. rewrite bind_eq. unfold get. cbn [fst snd].
  rewrite Hcam. cbv zeta. rewrite bind_eq, rand_eq. cbn [fst snd].
  unfold drawnCategory in Hcat. rewrite Hcat.
  rewrite bind_eq, rand_eq. cbn [fst snd].
  rewrite bind_eq, rand_eq. cbn [fst snd].
  rewrite !advance_advance. change (1 + 1 + 1)%nat with 3%nat.
  rewrite bind_eq.
  replace (cursor (advance 1 w)) with (cursor w + 1)%nat by reflexivity.
  replace (cursor (advance (1 + 1) w)) with (cursor w + 2)%nat by reflexivity.
  fold category. fold (drawnSize env category (cursor w)). fold visualSize.
  fold r. fold (drawnVertices env (cursor w)).
  destruct (fst r) as [[spawnX spawnY]|]; [|reflexivity].
  rewrite bind_eq. reflexivity.
Qed.

Lemma spawnAsteroidInView_spawnOutcome (env : Env) (w : World) :
  uniformSamples env -> spawnOutcome w (snd (spawnAsteroidInView env w)).
Proof.
  intros Hu.
  destruct (camera w) as [worldView|] eqn:Hcam.
  - destruct (GetRandom_active (random env (cursor w)) (Hu _)) as [cn Hcn].
    rewrite (spawnAsteroidInView_eq env worldView w cn Hcam Hcn). cbv zeta.
    destruct (viewRetry_advances env (fst (scale w)) (snd (scale w)) (fst (scale w) / 2)
                (snd (scale w) / 2) (drawnSize env (ASTEROID_CATEGORIES cn) (cursor w))
                (ASTEROID_CATEGORIES cn) (SPAWN_MAX_RETRIES * 2) (advance 3 w)) as [k Hk].
    destruct (viewRetry env (fst (scale w)) (snd (scale w)) (fst (scale w) / 2)
                (snd (scale w) / 2) (drawnSize env (ASTEROID_CATEGORIES cn) (cursor w))
                (ASTEROID_CATEGORIES cn) (SPAWN_MAX_RETRIES * 2) (advance 3 w))
      as [found w'] eqn:Hrun.
    cbn [fst snd] in *. subst w'. rewrite !advance_advance.
    destruct found as [[px py]|]; cbn [fst snd].
    + apply createAsteroid_outcome;
        [assumption|apply drawnVertices_range; assumption|apply viewVelocity_advances].
    + apply (spawnOutcome_advance (3 + k)). apply spawnAsteroid_spawnOutcome. assumption.
  - unfold spawnAsteroidInView. rewrite bind_eq. unfold get. cbn [fst snd].
    rewrite Hcam. unfold ret. cbn [snd]. apply (outcome_no_spot w w 0).
    symmetry. apply advance_0.
Qed.
Lemma invariant_frame (w w' : World) :
  heap w' = heap w -> asteroidsGroup w' = asteroidsGroup w ->
  (nextHandle w <= nextHandle w')%nat ->
  lifecycleInvariant w -> lifecycleInvariant w'.
Proof.
  intros Hh Hg Hn [Ha Hb]. split.
  - intros h Hin. rewrite Hg in Hin. specialize (Ha h Hin). lia.
  - intros h a Hl Hact. rewrite Hh in Hl. rewrite Hg. apply (Hb h a Hl Hact).
Qed.

Lemma invariant_modify_object (w w' : World) (h : nat) (a a' : Asteroid) :
  lifecycleInvariant w -> heap w !! h = Some a ->
  heap w' = <[h := a']> (heap w) -> asteroidsGroup w' = asteroidsGroup w ->
  (nextHandle w <= nextHandle w')%nat ->
  (a_active a' = true -> a_active a = true /\ (goodData a -> goodData a')) ->
  lifecycleInvariant w'.
Proof.
  intros [Ha Hb] Hl Hh Hg Hn Hgood. split.
  - intros h' Hin. rewrite Hg in Hin. specialize (Ha h' Hin). lia.
  - intros h' x Hl' Hact. rewrite Hh in Hl'. rewrite Hg.
    destruct (decide (h' = h)) as [->|Hne].
    + rewrite lookup_insert_eq in Hl'. injection Hl' as <-.
      destruct (Hgood Hact) as [Hact' Hgd].
      destruct (Hb h a Hl Hact') as [Hin Hga]. split; [assumption|auto].
    + rewrite lookup_insert_ne in Hl' by auto. apply (Hb h' x Hl' Hact).
Qed.

Lemma invariant_destroy_object (w w' : World) (h : nat) (a' : Asteroid) :
  lifecycleInvariant w ->
  heap w' = <[h := a']> (heap w) -> a_active a' = false ->
  asteroidsGroup w' = filter (fun h' => h' <> h) (asteroidsGroup w) ->
  (nextHandle w <= nextHandle w')%nat ->
  lifecycleInvariant w'.
Proof.
  intros [Ha Hb] Hh Hina Hg Hn. split.
  - intros h' Hin. rewrite Hg in Hin. apply list_elem_of_filter in Hin.
    destruct Hin as [_ Hin]. specialize (Ha h' Hin). lia.
  - intros h' x Hl' Hact. rewrite Hh in Hl'. rewrite Hg.
    destruct (decide (h' = h)) as [->|Hne].
    + rewrite lookup_insert_eq in Hl'. injection Hl' as <-. congruence.
    + rewrite lookup_insert_ne in Hl' by auto.
      destruct (Hb h' x Hl' Hact) as [Hin Hgd]. split; [|assumption].
      apply list_elem_of_filter. split; assumption.
Qed.

Lemma freshlySpawned_good (a : Asteroid) : freshlySpawned a -> goodData a.
Proof.
  intros (cn & pts & _ & Hhp & Hrange & Hpts & Hlen). split.
  - eexists. split; [exact Hhp|lia].
  - exists pts. split; assumption.
Qed.

Lemma invariant_fresh (w : World) :
  lifecycleInvariant w -> nextHandle w ∉ asteroidsGroup w.
Proof. intros [Ha _] Hin. specialize (Ha _ Hin). lia. Qed.

Lemma invariant_spawnOutcome (w w' : World) :
  lifecycleInvariant w -> spawnOutcome w w' -> lifecycleInvariant w'.
Proof.
  intros Hinv Hout. pose proof (invariant_fresh w Hinv) as Hfresh.
  destruct Hinv as [Ha Hb].
  destruct Hout as [k ->|a k -> Hact Hbody Hf|a k -> Hina].
  - split; world_cbn; assumption.
  - split; world_cbn.
    + intros h Hin. apply elem_of_app in Hin. destruct Hin as [Hin|Hin].
      * specialize (Ha h Hin). lia.
      * apply list_elem_of_singleton in Hin. lia.
    + intros h x Hl Hx.
      destruct (decide (h = nextHandle w)) as [->|Hne].
      * rewrite lookup_insert_eq in Hl. injection Hl as <-.
        split; [apply elem_of_app; right; apply list_elem_of_singleton; reflexivity|].
        apply freshlySpawned_good. assumption.
      * rewrite lookup_insert_ne in Hl by auto.
        destruct (Hb h x Hl Hx) as [Hin Hgd]. split; [|assumption].
        apply elem_of_app. left. assumption.
  - split; world_cbn.
    + rewrite filter_fresh by assumption. intros h Hin. specialize (Ha h Hin). lia.
    + rewrite filter_fresh by assumption. intros h x Hl Hx.
      destruct (decide (h = nextHandle w)) as [->|Hne].
      * rewrite lookup_insert_eq in Hl. injection Hl as <-. congruence.
      * rewrite lookup_insert_ne in Hl by auto. apply (Hb h x Hl Hx).
Qed.
Lemma drawAsteroidShape_hit (h : nat) (pts : list Point) fillStyle fillAlpha (w : World)
    (a : Asteroid) :
  heap w !! h = Some a ->
  exists g, drawAsteroidShape h (Some pts) fillStyle fillAlpha w
            = (tt, set_heap (insert h (with_gfx g a)) w).
Proof.
  intros Hl. unfold drawAsteroidShape. destruct (length pts <? 3)%nat.
  - exists (a_gfx a). unfold ret. f_equal. apply world_eq; world_cbn; try reflexivity.
    rewrite insert_id; [reflexivity|]. rewrite Hl. destruct a; reflexivity.
  - eexists. erewrite update_hit by exact Hl. reflexivity.
Qed.

(** The three things a bullet hit can do to the asteroids: nothing (a guard
    fails), destroy the asteroid (its hit points are missing or reach zero),
    or leave it active with one hit point less and its outline data as it
    was. *)
Lemma handleBulletAsteroidCollision_cases (l : Listing) (bullet asteroid : nat) (w : World) :
  let w' := snd (handleBulletAsteroidCollision l bullet asteroid w) in
  (heap w' = heap w /\ asteroidsGroup w' = asteroidsGroup w
   /\ nextHandle w' = nextHandle w /\ timers w' = timers w)
  \/ (exists a a',
        heap w !! asteroid = Some a /\ a_active a = true
        /\ (forall n, d_hitPoints a = Some n -> (n - 1 <= 0)%Z)
        /\ heap w' = <[asteroid := a']> (heap w) /\ a_active a' = false
        /\ asteroidsGroup w' = filter (fun h' => h' <> asteroid) (asteroidsGroup w)
        /\ nextHandle w' = nextHandle w /\ timers w' = timers w)
  \/ (exists a a' n,
        heap w !! asteroid = Some a /\ a_active a = true
        /\ d_hitPoints a = Some n /\ (1 < n)%Z
        /\ heap w' = <[asteroid := a']> (heap w) /\ a_active a' = true
        /\ d_hitPoints a' = Some (n - 1)%Z /\ d_points a' = d_points a
        /\ asteroidsGroup w' = asteroidsGroup w
        /\ nextHandle w' = nextHandle w).
Proof.
  cbv zeta. unfold handleBulletAsteroidCollision. rewrite bind_eq. unfold get. cbn [fst snd].
  destruct (bulletHeap w !! bullet) as [b|]; [|left; repeat split; reflexivity].
  destruct (heap w !! asteroid) as [a|] eqn:Ha; [|left; repeat split; reflexivity].
  destruct (negb (b_active b) || negb (a_active a) || negb (bool_decide (is_Some (a_body a))))
    eqn:Hguard; [left; repeat split; reflexivity|].
  apply orb_false_iff in Hguard. destruct Hguard as [Hguard _].
  apply orb_false_iff in Hguard. destruct Hguard as [_ Hact].
  apply negb_false_iff in Hact.
  rewrite bind_eq, destroyBullet_eq. cbn [fst snd].
  set (wb := set_bulletHeap _ _).
  assert (Hab : heap wb !! asteroid = Some a) by exact Ha.
  destruct (d_hitPoints a) as [n|] eqn:Hhp.
  - rewrite bind_eq. erewrite update_hit by exact Hab. cbn [fst snd].
    destruct (n - 1 <=? 0)%Z eqn:Hn.
    + apply Z.leb_le in Hn. right. left.
      rewrite bind_eq.
      assert (Hex : exists e, snd ((if particleEmitter w
                     then modify (set_explosions (fun e => e ++ [(a_x a, a_y a)]))
                     else ret tt)
                    (set_heap (insert asteroid (with_hitPoints (n - 1) a)) wb))
                = set_explosions e (set_heap (insert asteroid (with_hitPoints (n - 1) a)) wb)).
      { destruct (particleEmitter w).
        - eexists. reflexivity.
        - exists (fun e => e). unfold ret. cbn [snd]. apply world_eq; reflexivity. }
      destruct Hex as [e ->].
      erewrite destroyAsteroid_hit by solve_lookup. cbn [snd]. world_cbn.
      exists a. eexists. split; [reflexivity|]. split; [assumption|].
      split; [intros n' Hn'; rewrite Hhp in Hn'; injection Hn' as <-; assumption|].
      split; [rewrite insert_insert_eq; reflexivity|].
      split; [reflexivity|]. repeat split; reflexivity.
    + apply Z.leb_gt in Hn. right. right.
      destruct (d_points a) as [pts|] eqn:Hpts.
      * destruct (negb (truthy (d_isHit a))).
        -- rewrite bind_eq. erewrite update_hit by solve_lookup. cbn [fst snd].
           rewrite bind_eq.
           match goal with |- context [drawAsteroidShape asteroid (Some pts) ?f ?al ?W] =>
             destruct (drawAsteroidShape_hit asteroid pts f al W
                         (with_isHit true (with_hitPoints (n - 1) a)) ltac:(solve_lookup))
               as [g ->] end.
           cbn [fst snd]. unfold modify. cbn [snd]. world_cbn.
           exists a. eexists. exists n. split; [reflexivity|]. split; [assumption|].
           split; [exact Hhp|]. split; [lia|].
           split; [rewrite !insert_insert_eq; reflexivity|].
           cbn. repeat split; auto.
        -- unfold ret. cbn [snd]. world_cbn.
           exists a. eexists. exists n. split; [reflexivity|]. split; [assumption|].
           split; [exact Hhp|]. split; [lia|].
           split; [reflexivity|]. cbn. repeat split; auto.
      * unfold ret. cbn [snd]. world_cbn.
        exists a. eexists. exists n. split; [reflexivity|]. split; [assumption|].
        split; [exact Hhp|]. split; [lia|].
        split; [reflexivity|]. cbn. repeat split; auto.
  - right. left. erewrite destroyAsteroid_hit by exact Hab. cbn [snd]. world_cbn.
    exists a. eexists. split; [reflexivity|]. split; [assumption|].
    split; [intros n' Hn'; rewrite Hhp in Hn'; discriminate|].
    split; [reflexivity|]. repeat split; reflexivity.
Qed.
Lemma invariant_update (w : World) (h : nat) (f : Asteroid -> Asteroid) :
  lifecycleInvariant w ->
  (forall a, a_active (f a) = true -> a_active a = true /\ (goodData a -> goodData (f a))) ->
  lifecycleInvariant (snd (update h f w)).
Proof.
  intros Hinv Hf. destruct (heap w !! h) as [a|] eqn:Hl.
  - rewrite (update_hit h f w a Hl). cbn [snd].
    apply (invariant_modify_object w _ h a (f a)); try assumption; try reflexivity.
    apply Hf.
  - rewrite (update_miss h f w Hl). assumption.
Qed.

Lemma invariant_destroyAsteroid (w : World) (h : nat) :
  lifecycleInvariant w -> lifecycleInvariant (snd (destroyAsteroid h w)).
Proof.
  intros Hinv. destruct (heap w !! h) as [a|] eqn:Hl.
  - rewrite (destroyAsteroid_hit h w a Hl). cbn [snd].
    apply (invariant_destroy_object w _ h (destroyed a)); try assumption; reflexivity.
  - unfold destroyAsteroid. rewrite bind_eq. unfold modify at 1. cbn [fst snd].
    rewrite update_miss by exact Hl. cbn [snd].
    destruct Hinv as [Ha Hb]. split; world_cbn.
    + intros h' Hin. apply list_elem_of_filter in Hin. destruct Hin as [_ Hin]. auto.
    + intros h' x Hl' Hact. destruct (Hb h' x Hl' Hact) as [Hin Hgd]. split; [|assumption].
      apply list_elem_of_filter. split; [|assumption]. intros ->. congruence.
Qed.

Lemma iterate_preserves {St} (P : St -> Prop) (cb : nat -> St -> bool * St) (l : list nat) :
  (forall h s, P s -> P (snd (cb h s))) ->
  forall s, P s -> P (iterate cb l s).
Proof.
  intros Hcb. induction l as [|e l IH]; intros s Hs; simpl; [assumption|].
  specialize (Hcb e s Hs). destruct (cb e s) as [c s']. cbn [snd] in Hcb.
  destruct c; auto.
Qed.

Lemma invariant_cleanupAsteroids (w : World) :
  lifecycleInvariant w -> lifecycleInvariant (snd (cleanupOutOfBoundsAsteroids w)).
Proof.
  intros Hinv. unfold cleanupOutOfBoundsAsteroids. rewrite bind_eq. unfold get. cbn [fst snd].
  destruct (camera w) as [worldView|]; [|assumption].
  unfold modify. cbn [snd].
  apply iterate_preserves; [|assumption].
  intros h s Hs. destruct (heap s !! h) as [a|]; [|assumption].
  destruct (_ && _); [|assumption]. cbn [snd].
  apply invariant_destroyAsteroid. assumption.
Qed.

Lemma destroyBullet_frame (b : nat) (w : World) :
  heap (snd (destroyBullet b w)) = heap w
  /\ asteroidsGroup (snd (destroyBullet b w)) = asteroidsGroup w
  /\ nextHandle (snd (destroyBullet b w)) = nextHandle w.
Proof. rewrite destroyBullet_eq. repeat split; reflexivity. Qed.

Lemma invariant_cleanupBullets (w : World) :
  lifecycleInvariant w -> lifecycleInvariant (snd (cleanupOutOfBoundsBullets w)).
Proof.
  intros Hinv. unfold cleanupOutOfBoundsBullets. rewrite bind_eq. unfold get. cbn [fst snd].
  destruct (camera w) as [worldView|]; [|assumption].
  unfold modify. cbn [snd].
  apply iterate_preserves; [|assumption].
  intros b s Hs. destruct (bulletHeap s !! b) as [bl|]; [|assumption].
  destruct (_ && _); [|assumption]. cbn [snd].
  destruct (destroyBullet_frame b s) as (H1 & H2 & H3).
  apply (invariant_frame s); try assumption. lia.
Qed.

Lemma invariant_shootBullet (env : Env) (tip : R * R) (w : World) :
  lifecycleInvariant w -> lifecycleInvariant (snd (shootBullet env tip w)).
Proof.
  intros Hinv. unfold shootBullet. rewrite bind_eq. unfold get. cbn [fst snd].
  destruct (player w) as [pl|]; [|assumption].
  destruct (_ || _); [assumption|].
  rewrite !bind_eq. unfold modify. cbn [fst snd].
  destruct (attachBody env (nextHandle w)).
  - unfold ret. cbn [snd]. apply (invariant_frame w); try assumption; try reflexivity.
    world_cbn. lia.
  - match goal with |- lifecycleInvariant (snd (destroyBullet ?b ?W)) =>
      destruct (destroyBullet_frame b W) as (H1 & H2 & H3) end.
    apply (invariant_frame w); try assumption.
    rewrite H3. world_cbn. lia.
Qed.

Lemma invariant_playerHit (asteroid : nat) (w : World) :
  lifecycleInvariant w -> lifecycleInvariant (snd (handlePlayerAsteroidCollision asteroid w)).
Proof.
  intros Hinv. unfold handlePlayerAsteroidCollision. rewrite bind_eq. unfold get.
  cbn [fst snd].
  destruct (player w) as [pl|]; [|assumption].
  destruct (heap w !! asteroid) as [a|]; [|assumption].
  destruct (_ || _); [assumption|].
  rewrite bind_eq.
  apply invariant_destroyAsteroid.
  destruct (particleEmitter w).
  - unfold modify. cbn [snd]. apply (invariant_frame w); try assumption; reflexivity.
  - assumption.
Qed.

Lemma goodData_with_gfx (g : Gfx) (a : Asteroid) : goodData a -> goodData (with_gfx g a).
Proof. intros H. exact H. Qed.

Lemma invariant_drawAsteroidShape (h : nat) points fillStyle fillAlpha (w : World) :
  lifecycleInvariant w ->
  lifecycleInvariant (snd (drawAsteroidShape h points fillStyle fillAlpha w)).
Proof.
  intros Hinv. unfold drawAsteroidShape. destruct points as [ps|]; [|assumption].
  destruct (length ps <? 3)%nat; [assumption|].
  apply invariant_update; [assumption|]. intros a Ha. split; [exact Ha|auto].
Qed.

Lemma invariant_flashRevert (t : FlashRevert) (w : World) :
  lifecycleInvariant w -> lifecycleInvariant (snd (flashRevert t w)).
Proof.
  intros Hinv. unfold flashRevert. rewrite bind_eq. unfold get. cbn [fst snd].
  destruct (heap w !! fr_asteroid t) as [a|]; [|assumption].
  destruct (revertGuard (fr_listing t) a); [|assumption].
  rewrite bind_eq. apply invariant_update.
  - apply invariant_drawAsteroidShape. assumption.
  - intros x Hx. split; [exact Hx|auto].
Qed.

Lemma invariant_fireTimer (i : nat) (w : World) :
  lifecycleInvariant w -> lifecycleInvariant (snd (fireTimer i w)).
Proof.
  intros Hinv. unfold fireTimer. rewrite bind_eq. unfold get. cbn [fst snd].
  destruct (timers w !! i) as [t|]; [|assumption].
  rewrite bind_eq. unfold modify. cbn [fst snd].
  apply invariant_flashRevert.
  apply (invariant_frame w); try assumption; reflexivity.
Qed.

Lemma invariant_bulletHit (l : Listing) (bullet asteroid : nat) (w : World) :
  lifecycleInvariant w ->
  lifecycleInvariant (snd (handleBulletAsteroidCollision l bullet asteroid w)).
Proof.
  intros Hinv.
  destruct (handleBulletAsteroidCollision_cases l bullet asteroid w)
    as [(Hh & Hg & Hn & _)
       |[(a & a' & Hl & Hact & _ & Hh & Hina & Hg & Hn & _)
        |(a & a' & n & Hl & Hact & Hhp & Hgt & Hh & Hact' & Hhp' & Hpts & Hg & Hn)]].
  - apply (invariant_frame w); try assumption. lia.
  - apply (invariant_destroy_object w _ asteroid a'); try assumption. lia.
  - apply (invariant_modify_object w _ asteroid a a'); try assumption; [lia|].
    intros _. split; [assumption|]. intros [_ Hgp]. split.
    + exists (n - 1)%Z. split; [assumption|lia].
    + rewrite Hpts. assumption.
Qed.

Lemma invariant_moveAsteroid (h : nat) px py v spin (w : World) :
  lifecycleInvariant w -> lifecycleInvariant (snd (moveAsteroid h px py v spin w)).
Proof.
  intros Hinv. unfold moveAsteroid. apply invariant_update; [assumption|].
  intros a Ha. split; [exact Ha|auto].
Qed.

Lemma invariant_requestSpawns (env : Env) (i : nat) region (needed : nat) :
  uniformSamples env ->
  forall w, lifecycleInvariant w ->
            lifecycleInvariant (snd (requestSpawns env i region needed w)).
Proof.
  intros Hu. induction needed as [|n IH]; intros w Hinv; [assumption|].
  cbn [requestSpawns]. rewrite !bind_eq. unfold ret. cbn [snd].
  apply IH. apply (invariant_spawnOutcome w); [assumption|].
  apply spawnAsteroidInRegion_spawnOutcome. assumption.
Qed.

Lemma invariant_populate (env : Env) (quadrants : list Quadrant) (counts : list Z) :
  uniformSamples env ->
  forall i w, lifecycleInvariant w ->
              lifecycleInvariant (snd (populateQuadrants env quadrants counts i w)).
Proof.
  intros Hu. induction quadrants as [|q rest IH]; intros i w Hinv; [assumption|].
  cbn [populateQuadrants]. rewrite !bind_eq. unfold ret. cbn [snd].
  apply IH.
  destruct (counts !! i) as [count|]; [|assumption].
  destruct (0 <? _)%Z; [|assumption].
  apply invariant_requestSpawns; assumption.
Qed.

Lemma invariant_density (env : Env) (w : World) :
  uniformSamples env -> lifecycleInvariant w ->
  lifecycleInvariant (snd (checkAndPopulateDistantAreas env w)).
Proof.
  intros Hu Hinv. unfold checkAndPopulateDistantAreas. rewrite bind_eq. unfold get.
  cbn [fst snd].
  destruct (camera w) as [worldView|]; [|assumption].
  destruct (player w) as [pl|]; [|assumption].
  destruct (pl_body pl); [|assumption].
  apply invariant_populate; assumption.
Qed.

Lemma invariant_start (gameWidth gameHeight : R) (worldView : Phaser.Rectangle) :
  lifecycleInvariant (startWorld gameWidth gameHeight worldView).
Proof.
  split; simpl.
  - intros h Hin. inversion Hin.
  - intros h a Hl. rewrite lookup_empty in Hl. discriminate.
Qed.

Lemma invariant_step (env : Env) (w w' : World) :
  uniformSamples env -> lifecycleInvariant w -> step env w w' -> lifecycleInvariant w'.
Proof.
  intros Hu Hinv Hstep. destruct Hstep.
  - apply (invariant_spawnOutcome w); [assumption|].
    apply spawnAsteroidInView_spawnOutcome. assumption.
  - apply (invariant_spawnOutcome w); [assumption|].
    apply spawnAsteroid_spawnOutcome. assumption.
  - apply invariant_density; assumption.
  - apply invariant_bulletHit. assumption.
  - apply invariant_playerHit. assumption.
  - apply invariant_fireTimer. assumption.
  - apply invariant_cleanupAsteroids. assumption.
  - apply invariant_cleanupBullets. assumption.
  - apply invariant_shootBullet. assumption.
  - apply invariant_moveAsteroid. assumption.
  - unfold moveView, modify. cbn [snd].
    apply (invariant_frame w); try assumption; reflexivity.
Qed.

Lemma reachable_invariant (env : Env) (w : World) :
  uniformSamples env -> reachable env w -> lifecycleInvariant w.
Proof.
  intros Hu Hreach. induction Hreach as [gw gh wv|w w' _ IH Hstep].
  - apply invariant_start.
  - apply (invariant_step env w w'); assumption.
Qed.
(** A hit that brings the hit points to zero removes the asteroid in the
    same call. *)
Lemma lethal_hit (l : Listing) (bullet asteroid : nat) (w : World)
    (b : Bullet) (a : Asteroid) (n : Z) :
  bulletHeap w !! bullet = Some b -> heap w !! asteroid = Some a ->
  b_active b = true -> a_active a = true -> is_Some (a_body a) ->
  d_hitPoints a = Some n -> (n - 1 <= 0)%Z ->
  let w' := snd (handleBulletAsteroidCollision l bullet asteroid w) in
  heap w' = <[asteroid := destroyed (with_hitPoints (n - 1) a)]> (heap w)
  /\ asteroidsGroup w' = filter (fun h' => h' <> asteroid) (asteroidsGroup w)
  /\ timers w' = timers w
  /\ explosions w' = (if particleEmitter w then explosions w ++ [(a_x a, a_y a)]
                      else explosions w).
Proof.
  intros Hb Ha Hba Haa Hbody Hhp Hn. cbv zeta.
  unfold handleBulletAsteroidCollision. rewrite bind_eq. unfold get. cbn [fst snd].
  rewrite Hb, Ha, Hba, Haa. rewrite bool_decide_eq_true_2 by assumption. cbn [negb orb].
  rewrite bind_eq, destroyBullet_eq. cbn [fst snd]. rewrite Hhp.
  rewrite bind_eq. erewrite update_hit by (world_cbn; exact Ha). cbn [fst snd].
  replace (n - 1 <=? 0)%Z with true by (symmetry; apply Z.leb_le; lia).
  rewrite bind_eq.
  destruct (particleEmitter w).
  - unfold modify at 1. cbn [snd].
    erewrite destroyAsteroid_hit by solve_lookup. cbn [snd]. world_cbn.
    rewrite insert_insert_eq. repeat split; reflexivity.
  - unfold ret at 1. cbn [snd].
    erewrite destroyAsteroid_hit by solve_lookup. cbn [snd]. world_cbn.
    rewrite insert_insert_eq. repeat split; reflexivity.
Qed.

Lemma not_in_filtered (h : nat) (g : list nat) : h ∉ filter (fun h' => h' <> h) g.
Proof. intros Hin. apply list_elem_of_filter in Hin. destruct Hin as [Hne _]. auto. Qed.

Lemma spawnOutcome_live (w w' : World) (h : nat) (a : Asteroid) :
  lifecycleInvariant w -> spawnOutcome w w' -> live w' h a ->
  live w h a \/ (h = nextHandle w /\ freshlySpawned a).
Proof.
  intros Hinv Hout (Hin & Hl & Hact).
  pose proof (invariant_fresh w Hinv) as Hfresh.
  destruct Hout as [k ->|x k -> Hx Hbody Hf|x k -> Hina]; revert Hin Hl; world_cbn.
  - intros Hin Hl. left. split; [|split]; assumption.
  - intros Hin Hl. destruct (decide (h = nextHandle w)) as [->|Hne].
    + rewrite lookup_insert_eq in Hl. injection Hl as <-. right. split; [reflexivity|assumption].
    + rewrite lookup_insert_ne in Hl by auto. left.
      apply elem_of_app in Hin. destruct Hin as [Hin|Hin].
      * split; [|split]; assumption.
      * apply list_elem_of_singleton in Hin. contradiction.
  - rewrite filter_fresh by assumption. intros Hin Hl.
    destruct (decide (h = nextHandle w)) as [->|Hne]; [contradiction|].
    rewrite lookup_insert_ne in Hl by auto. left. split; [|split]; assumption.
Qed.
(** A hit the asteroid survives while it is not flashing: the flag is set,
    the shape redrawn and a revert scheduled. *)
Lemma flashing_hit (l : Listing) (bullet asteroid : nat) (w : World)
    (b : Bullet) (a : Asteroid) (n : Z) (pts : list Point) :
  bulletHeap w !! bullet = Some b -> heap w !! asteroid = Some a ->
  b_active b = true -> a_active a = true -> is_Some (a_body a) ->
  d_hitPoints a = Some n -> (1 < n)%Z -> d_points a = Some pts ->
  truthy (d_isHit a) = false ->
  exists g,
    handleBulletAsteroidCollision l bullet asteroid w
    = (tt, set_timers (fun ts => ts ++ [mkFlashRevert l asteroid pts])
             (set_heap (insert asteroid
                          (with_gfx g (with_isHit true (with_hitPoints (n - 1) a))))
                (snd (destroyBullet bullet w)))).
Proof.
  intros Hb Ha Hba Haa Hbody Hhp Hn Hpts Hhit.
  unfold handleBulletAsteroidCollision. rewrite bind_eq. unfold get. cbn [fst snd].
  rewrite Hb, Ha, Hba, Haa. rewrite bool_decide_eq_true_2 by assumption. cbn [negb orb].
  rewrite bind_eq, destroyBullet_eq. cbn [fst snd]. rewrite Hhp.
  rewrite bind_eq. erewrite update_hit by (world_cbn; exact Ha). cbn [fst snd].
  replace (n - 1 <=? 0)%Z with false by (symmetry; apply Z.leb_gt; lia).
  rewrite Hpts, Hhit. cbn [negb].
  rewrite bind_eq. erewrite update_hit by solve_lookup. cbn [fst snd].
  rewrite bind_eq.
  match goal with |- context [drawAsteroidShape asteroid (Some pts) ?f ?al ?W] =>
    destruct (drawAsteroidShape_hit asteroid pts f al W
                (with_isHit true (with_hitPoints (n - 1) a)) ltac:(solve_lookup))
      as [g ->] end.
  cbn [fst snd]. unfold modify. exists g. f_equal.
  apply world_eq; world_cbn; rewrite ?insert_insert_eq; reflexivity.
Qed.

Lemma destroyBullet_other (b b' : nat) (w : World) :
  b <> b' -> bulletHeap (snd (destroyBullet b w)) !! b' = bulletHeap w !! b'.
Proof.
  intros Hne. rewrite destroyBullet_eq. cbn [snd]. world_cbn.
  destruct (bulletHeap w !! b); [|reflexivity].
  apply lookup_insert_ne. assumption.
Qed.

(** The scenario of the flash-revert test: a first hit schedules the revert,
    a second hit destroys the asteroid, then the revert fires. *)
Lemma revert_after_destruction (l l2 : Listing) (b1 b2 h : nat) (w : World)
    (bl1 bl2 : Bullet) (a : Asteroid) (pts : list Point) :
  b1 <> b2 ->
  bulletHeap w !! b1 = Some bl1 -> b_active bl1 = true ->
  bulletHeap w !! b2 = Some bl2 -> b_active bl2 = true ->
  heap w !! h = Some a -> a_active a = true -> is_Some (a_body a) ->
  d_hitPoints a = Some 2%Z -> d_points a = Some pts -> truthy (d_isHit a) = false ->
  let w1 := snd (handleBulletAsteroidCollision l b1 h w) in
  let w2 := snd (handleBulletAsteroidCollision l2 b2 h w1) in
  timers w1 = timers w ++ [mkFlashRevert l h pts]
  /\ timers w2 = timers w1
  /\ (h ∉ asteroidsGroup w2)
  /\ (exists a2, heap w2 !! h = Some a2 /\ a_active a2 = false)
  /\ flashRevert (mkFlashRevert l h pts) w2 = (tt, w2).
Proof.
  intros Hne Hb1 Hba1 Hb2 Hba2 Ha Hact Hbody Hhp Hpts Hhit w1 w2.
  destruct (flashing_hit l b1 h w bl1 a 2 pts Hb1 Ha Hba1 Hact Hbody Hhp ltac:(lia) Hpts Hhit)
    as [g Hfirst].
  assert (Hw1 : w1 = set_timers (fun ts => ts ++ [mkFlashRevert l h pts])
             (set_heap (insert h (with_gfx g (with_isHit true (with_hitPoints (2 - 1) a))))
                (snd (destroyBullet b1 w)))).
  { unfold w1. rewrite Hfirst. reflexivity. }
  set (a1 := with_gfx g (with_isHit true (with_hitPoints (2 - 1) a))) in *.
  assert (Hl1 : heap w1 !! h = Some a1) by (rewrite Hw1; solve_lookup).
  assert (Hbl : bulletHeap w1 !! b2 = Some bl2).
  { rewrite Hw1. world_cbn. rewrite destroyBullet_other by assumption. assumption. }
  assert (Ht1 : timers w1 = timers w ++ [mkFlashRevert l h pts]).
  { rewrite Hw1. world_cbn. rewrite destroyBullet_eq. reflexivity. }
  destruct (lethal_hit l2 b2 h w1 bl2 a1 1 Hbl Hl1 Hba2 Hact Hbody eq_refl ltac:(lia))
    as (Hh2 & Hg2 & Ht2 & _).
  fold w2 in Hh2, Hg2, Ht2.
  split; [exact Ht1|]. split; [exact Ht2|].
  split; [rewrite Hg2; apply not_in_filtered|].
  assert (Hl2 : heap w2 !! h = Some (destroyed (with_hitPoints (1 - 1) a1))).
  { rewrite Hh2. apply lookup_insert_eq. }
  split; [eexists; split; [exact Hl2|reflexivity]|].
  apply (flashRevert_guard_fails (mkFlashRevert l h pts) w2
           (destroyed (with_hitPoints (1 - 1) a1)) Hl2).
  apply revertGuard_inactive. reflexivity.
Qed.

Lemma reachable_active_hp (env : Env) (w : World) (h : nat) (a : Asteroid) :
  uniformSamples env -> reachable env w -> heap w !! h = Some a -> a_active a = true ->
  exists n, d_hitPoints a = Some n /\ (0 < n)%Z.
Proof.
  intros Hu Hreach Hl Hact.
  destruct (reachable_invariant env w Hu Hreach) as [_ Hb].
  destruct (Hb h a Hl Hact) as [_ [Hhp _]]. exact Hhp.
Qed.
Lemma countInFirst_lookup (px py : R) (quadrants : list Quadrant) :
  forall (i0 : nat) (counts : list Z) (i : nat),
    countInFirst quadrants i0 px py counts !! i
    = if bool_decide (i0 <= i)%nat && holds quadrants (i - i0) px py
      then Z.succ <$> counts !! i
      else counts !! i.
Proof.
  induction quadrants as [|q rest IH]; intros i0 counts i.
  - cbn [countInFirst]. unfold holds. rewrite lookup_nil. rewrite andb_false_r. reflexivity.
  - cbn [countInFirst].
    destruct (Phaser.Contains (bounds q) px py) eqn:Hq.
    + destruct (decide (i = i0)) as [->|Hne].
      * rewrite list_lookup_alter_eq.
        rewrite bool_decide_eq_true_2 by lia. replace (i0 - i0)%nat with 0%nat by lia.
        unfold holds. cbn. rewrite Hq. reflexivity.
      * rewrite list_lookup_alter_ne by auto.
        destruct (bool_decide (i0 <= i)%nat) eqn:Hle; [|reflexivity].
        apply bool_decide_eq_true in Hle.
        replace (i - i0)%nat with (S (i - S i0)) by lia.
        unfold holds. cbn [lookup list_lookup take forallb].
        destruct (rest !! (i - S i0)%nat); [|reflexivity].
        rewrite Hq. cbn. rewrite andb_false_r. reflexivity.
    + rewrite IH.
      destruct (decide (i = i0)) as [->|Hne].
      * rewrite (bool_decide_eq_false_2 (S i0 <= i0)%nat) by lia.
        rewrite bool_decide_eq_true_2 by lia. replace (i0 - i0)%nat with 0%nat by lia.
        unfold holds. cbn. rewrite Hq. reflexivity.
      * destruct (decide (i0 <= i)%nat) as [Hle|Hgt].
        -- rewrite !bool_decide_eq_true_2 by lia.
           replace (i - i0)%nat with (S (i - S i0)) by lia.
           unfold holds. cbn [lookup list_lookup take forallb].
           destruct (rest !! (i - S i0)%nat); [|reflexivity].
           rewrite Hq. reflexivity.
        -- rewrite !bool_decide_eq_false_2 by lia. reflexivity.
Qed.

Lemma quadrant_in_generation_window (worldView : Phaser.Rectangle) (pl : Player)
    (q : Quadrant) (px py : R) :
  q ∈ quadrantsOf worldView pl -> Phaser.Contains (bounds q) px py = true ->
  Phaser.Contains (genBoundsOf worldView pl) px py = true.
Proof.
  intros Hq Hc. apply Contains_true_inside in Hc.
  unfold quadrantsOf in Hq. cbv zeta in Hq.
  unfold PROACTIVE_GENERATION_RADIUS_MULTIPLIER in *.
  repeat (apply elem_of_cons in Hq; destruct Hq as [->|Hq]);
    try (inversion Hq; fail);
    unfold Phaser.left, Phaser.right, Phaser.top, Phaser.bottom, genBoundsOf in *;
    cbn [bounds Phaser.x Phaser.y Phaser.width Phaser.height] in *;
    unfold PROACTIVE_GENERATION_RADIUS_MULTIPLIER in *;
    apply Contains_inside_true;
    unfold Phaser.left, Phaser.right, Phaser.top, Phaser.bottom;
    cbn [Phaser.x Phaser.y Phaser.width Phaser.height]; lra.
Qed.

Lemma holds_contains (quadrants : list Quadrant) (i : nat) (px py : R) :
  holds quadrants i px py = true ->
  exists q, quadrants !! i = Some q /\ Phaser.Contains (bounds q) px py = true.
Proof.
  unfold holds. destruct (quadrants !! i) as [q|]; [|discriminate].
  intros H. apply andb_true_iff in H. destruct H as [H _]. eauto.
Qed.
Section Counting.
Variables (w : World) (worldView : Phaser.Rectangle) (pl : Player).

Lemma countCallback_lookup (h : nat) (counts : list Z) (i : nat) :
  fst (countCallback w (innerBoundsOf worldView) (genBoundsOf worldView pl)
                     (quadrantsOf worldView pl) h counts) = true
  /\ snd (countCallback w (innerBoundsOf worldView) (genBoundsOf worldView pl)
                        (quadrantsOf worldView pl) h counts) !! i
     = if countsFor w worldView pl i h then Z.succ <$> counts !! i else counts !! i.
Proof.
  unfold countCallback, countsFor.
  destruct (heap w !! h) as [a|]; [|split; reflexivity].
  destruct (a_active a); cbn [negb orb andb]; [|split; reflexivity].
  destruct (bool_decide (is_Some (a_body a))); cbn [negb andb]; [|split; reflexivity].
  destruct (Phaser.Contains (innerBoundsOf worldView) (a_x a) (a_y a));
    cbn [negb andb]; [split; reflexivity|].
  destruct (Phaser.Contains (genBoundsOf worldView pl) (a_x a) (a_y a)) eqn:Hgen.
  - split; [reflexivity|]. cbn [snd]. rewrite countInFirst_lookup.
    rewrite bool_decide_eq_true_2 by lia. replace (i - 0)%nat with i by lia.
    reflexivity.
  - split; [reflexivity|]. cbn [snd].
    destruct (holds (quadrantsOf worldView pl) i (a_x a) (a_y a)) eqn:Hh; [|reflexivity].
    exfalso. apply holds_contains in Hh. destruct Hh as (q & Hq & Hc).
    apply list_elem_of_lookup_2 in Hq.
    rewrite (quadrant_in_generation_window worldView pl q _ _ Hq Hc) in Hgen. discriminate.
Qed.

Lemma iterate_count (l : list nat) :
  forall (counts : list Z) (i : nat),
    iterate (countCallback w (innerBoundsOf worldView) (genBoundsOf worldView pl)
                           (quadrantsOf worldView pl)) l counts !! i
    = (fun c => (c + Z.of_nat (length (filter (fun h => countsFor w worldView pl i h = true) l)))%Z)
        <$> counts !! i.
Proof.
  induction l as [|h l IH]; intros counts i.
  - cbn [iterate]. rewrite filter_nil. cbn [length].
    destruct (counts !! i); cbn; [f_equal; lia|reflexivity].
  - cbn [iterate].
    destruct (countCallback_lookup h counts i) as [Hc Hs].
    destruct (countCallback w (innerBoundsOf worldView) (genBoundsOf worldView pl)
                (quadrantsOf worldView pl) h counts) as [c counts'].
    cbn [fst snd] in Hc, Hs. subst c. rewrite IH, Hs.
    destruct (countsFor w worldView pl i h) eqn:Hcf.
    + rewrite filter_cons_True by assumption. cbn [length].
      destruct (counts !! i); cbn; [f_equal; lia|reflexivity].
    + rewrite filter_cons_False by congruence. reflexivity.
Qed.

Lemma countAsteroids_lookup (i : nat) :
  (i < 4)%nat ->
  countAsteroids w worldView pl !! i = Some (Z.of_nat (quadrantPopulation w worldView pl i)).
Proof.
  intros Hi. unfold countAsteroids, quadrantPopulation. rewrite iterate_count.
  destruct i as [|[|[|[|i]]]]; try lia; reflexivity.
Qed.
End Counting.

Lemma requestSpawns_log (env : Env) (i : nat) (region : Phaser.Rectangle) (needed : nat) :
  forall w, map fst (fst (requestSpawns env i region needed w)) = replicate needed (i, region).
Proof.
  induction needed as [|n IH]; intros w; [reflexivity|].
  cbn [requestSpawns]. rewrite !bind_eq. unfold ret. cbn [fst snd map replicate].
  rewrite IH. reflexivity.
Qed.

Lemma requestsFor_replicate (i i0 : nat) (region : Phaser.Rectangle)
    (log : list (nat * Phaser.Rectangle * option nat)) :
  forall n, map fst log = replicate n (i0, region) ->
            length (requestsFor i log) = if decide (i = i0) then n else 0%nat.
Proof.
  unfold requestsFor.
  induction log as [|c log IH]; intros n Hmap.
  - destruct n; [|discriminate]. destruct (decide (i = i0)); reflexivity.
  - destruct n as [|n]; [discriminate|]. cbn [map replicate] in Hmap.
    injection Hmap as Hc Hrest. specialize (IH n Hrest).
    destruct (decide (i = i0)) as [->|Hne].
    + rewrite filter_cons_True by (rewrite Hc; reflexivity). cbn [length]. rewrite IH.
      reflexivity.
    + rewrite filter_cons_False by (rewrite Hc; cbn; congruence). exact IH.
Qed.

(** The calls the final loop issues: for each quadrant, [target - count]
    of them when that is positive, each with the quadrant's rectangle. *)
Lemma populateQuadrants_log (env : Env) (counts : list Z) (quadrants : list Quadrant) :
  forall (i0 : nat) (w : World),
    (forall i,
        length (requestsFor i (fst (populateQuadrants env quadrants counts i0 w)))
        = if bool_decide (i0 <= i < i0 + length quadrants)%nat
          then match counts !! i with
               | Some count => Z.to_nat (TARGET_ASTEROIDS_PER_QUADRANT - count)
               | None => 0%nat
               end
          else 0%nat)
    /\ (forall c, c ∈ fst (populateQuadrants env quadrants counts i0 w) ->
          exists q, (i0 <= fst (fst c))%nat
                    /\ quadrants !! (fst (fst c) - i0)%nat = Some q
                    /\ snd (fst c) = bounds q).
Proof.
  induction quadrants as [|q rest IH]; intros i0 w.
  - cbn. split.
    + intros i. rewrite bool_decide_eq_false_2 by lia. reflexivity.
    + intros c Hc. inversion Hc.
  - cbn [populateQuadrants].
    set (request := match counts !! i0 with
                    | Some count =>
                        if (0 <? TARGET_ASTEROIDS_PER_QUADRANT - count)%Z
                        then requestSpawns env i0 (bounds q)
                               (Z.to_nat (TARGET_ASTEROIDS_PER_QUADRANT - count))
                        else ret []
                    | None => ret []
                    end).
    rewrite !bind_eq. unfold ret. cbn [fst snd].
    set (here := fst (request w)). set (w1 := snd (request w)).
    assert (Hhere : map fst here
                    = replicate (match counts !! i0 with
                                 | Some count => Z.to_nat (TARGET_ASTEROIDS_PER_QUADRANT - count)
                                 | None => 0%nat
                                 end) (i0, bounds q)).
    { unfold here, request. destruct (counts !! i0) as [count|]; [|reflexivity].
      destruct (0 <? TARGET_ASTEROIDS_PER_QUADRANT - count)%Z eqn:Hpos.
      - apply requestSpawns_log.
      - apply Z.ltb_ge in Hpos.
        replace (Z.to_nat (TARGET_ASTEROIDS_PER_QUADRANT - count)) with 0%nat by lia.
        reflexivity. }
    destruct (IH (S i0) w1) as [IHlen IHmem].
    split.
    + intros i. specialize (IHlen i). unfold requestsFor in *.
      rewrite filter_app, length_app, IHlen.
      fold (requestsFor i here). rewrite (requestsFor_replicate i i0 (bounds q) here _ Hhere).
      destruct (decide (i = i0)) as [->|Hne].
      * rewrite (bool_decide_eq_false_2 (S i0 <= i0 < S i0 + length rest)%nat) by lia.
        rewrite bool_decide_eq_true_2 by (cbn [length]; lia). lia.
      * destruct (decide (S i0 <= i < S i0 + length rest)%nat) as [Hin|Hout].
        -- rewrite !bool_decide_eq_true_2 by (cbn [length]; lia). reflexivity.
        -- rewrite !bool_decide_eq_false_2 by (cbn [length]; lia). reflexivity.
    + intros c Hc. apply elem_of_app in Hc. destruct Hc as [Hc|Hc].
      * assert (Hf : fst c ∈ map fst here) by (apply list_elem_of_fmap_2; exact Hc).
        rewrite Hhere in Hf. apply elem_of_replicate in Hf. destruct Hf as [Hf _].
        exists q. rewrite Hf. cbn [fst snd]. split; [lia|].
        replace (i0 - i0)%nat with 0%nat by lia. split; reflexivity.
      * destruct (IHmem c Hc) as (q' & Hle & Hq' & Hb).
        exists q'. split; [lia|]. split; [|exact Hb].
        replace (fst (fst c) - i0)%nat with (S (fst (fst c) - S i0)) by lia. exact Hq'.
Qed.
(** Away from the two lines through the player that the quadrants share,
    a quadrant holds a point exactly when its rectangle contains it. *)
Lemma holds_off_border (worldView : Phaser.Rectangle) (pl : Player) (i : nat) (q : Quadrant)
    (px py : R) :
  quadrantsOf worldView pl !! i = Some q -> px <> pl_x pl -> py <> pl_y pl ->
  holds (quadrantsOf worldView pl) i px py = Phaser.Contains (bounds q) px py.
Proof.
  intros Hq Hx Hy. unfold holds. rewrite Hq.
  destruct (Phaser.Contains (bounds q) px py) eqn:Hc; [|reflexivity].
  cbn [andb]. apply forallb_forall. intros q' Hin. apply negb_true_iff.
  destruct (Phaser.Contains (bounds q') px py) eqn:Hc'; [exfalso|reflexivity].
  apply Contains_true_inside in Hc, Hc'.
  unfold quadrantsOf in Hq, Hin. cbv zeta in Hq, Hin.
  apply list_elem_of_In in Hin.
  unfold genBoundsOf, Phaser.left, Phaser.right, Phaser.top, Phaser.bottom in *.
  cbn [Phaser.x Phaser.y Phaser.width Phaser.height] in *.
  destruct i as [|[|[|[|i]]]]; cbn in Hq, Hin; try discriminate;
    injection Hq as <-; cbn [bounds Phaser.x Phaser.y Phaser.width Phaser.height] in *.
  - inversion Hin.
  - apply list_elem_of_singleton in Hin. subst q'.
    cbn [bounds Phaser.x Phaser.y Phaser.width Phaser.height] in *. lra.
  - repeat (apply elem_of_cons in Hin; destruct Hin as [->|Hin]);
      try (inversion Hin; fail);
      cbn [bounds Phaser.x Phaser.y Phaser.width Phaser.height] in *; lra.
  - repeat (apply elem_of_cons in Hin; destruct Hin as [->|Hin]);
      try (inversion Hin; fail);
      cbn [bounds Phaser.x Phaser.y Phaser.width Phaser.height] in *; lra.
Qed.

Lemma quadrantsOf_length (worldView : Phaser.Rectangle) (pl : Player) :
  length (quadrantsOf worldView pl) = 4%nat.
Proof. reflexivity. Qed.

Lemma checkAndPopulateDistantAreas_eq (env : Env) (w : World)
    (worldView : Phaser.Rectangle) (pl : Player) :
  camera w = Some worldView -> player w = Some pl -> is_Some (pl_body pl) ->
  checkAndPopulateDistantAreas env w
  = populateQuadrants env (quadrantsOf worldView pl) (countAsteroids w worldView pl) 0 w.
Proof.
  intros Hcam Hpl [v Hbody]. unfold checkAndPopulateDistantAreas.
  rewrite bind_eq. unfold get. cbn [fst snd]. rewrite Hcam, Hpl, Hbody. reflexivity.
Qed.
Lemma halfEnv_uniform : uniformSamples halfEnv.
Proof. intros n. simpl. lra. Qed.

Lemma halfEnv_category (c : nat) : drawnCategory halfEnv c = Some SM.
Proof.
  unfold drawnCategory, Phaser.GetRandom, ACTIVE_ASTEROID_CATEGORIES, halfEnv.
  cbn [random length].
  replace (Zfloor (1 / 2 * INR 3)) with 1%Z; [reflexivity|].
  symmetry. apply Zfloor_eq. simpl. lra.
Qed.

Lemma halfEnv_size (c : nat) : drawnSize halfEnv (ASTEROID_CATEGORIES SM) c = 20.
Proof.
  unfold drawnSize, Phaser.Between, halfEnv. cbn [random ASTEROID_CATEGORIES minSize maxSize].
  replace (Zfloor (1 / 2 * (24 - 16 + 1) + 16)) with 20%Z; [reflexivity|].
  symmetry. apply Zfloor_eq. lra.
Qed.

Lemma halfEnv_edge (u : R) : u = 1 / 2 -> Phaser.Between 0 3 u = 2%Z.
Proof. intros ->. unfold Phaser.Between. apply Zfloor_eq. lra. Qed.

Lemma sqrt_zero_sum : sqrt (0 * 0 + 0 * 0) = 0.
Proof. replace (0 * 0 + 0 * 0) with 0 by ring. apply sqrt_0. Qed.

(** With the stream stuck at 1/2 every in-view candidate is the centre of
    the window, where the player starts: the loop exhausts its budget. *)
Lemma viewRetry_half (category : Category) (budget : nat) :
  forall w,
    viewRetry halfEnv 800 600 (800 / 2) (600 / 2) 20 category budget w
    = (None, advance (2 * budget) w).
Proof.
  induction budget as [|b IH]; intros w.
  - cbn. rewrite advance_0. reflexivity.
  - cbn [viewRetry]. cbv zeta.
    rewrite bind_eq, rand_eq. cbn [fst snd].
    rewrite bind_eq, rand_eq. cbn [fst snd]. rewrite advance_advance.
    unfold halfEnv at 1 2. cbn [random].
    rewrite bool_decide_eq_true_2.
    + rewrite IH, advance_advance. f_equal. f_equal. lia.
    + unfold Phaser.DistanceBetween, Phaser.FloatBetween, PLAYER_INITIAL_SAFE_ZONE_RADIUS.
      cbv zeta.
      replace (1 / 2 * (800 - 20 - 20) + 20 - 800 / 2) with 0 by lra.
      replace (1 / 2 * (600 - 20 - 20) + 20 - 600 / 2) with 0 by lra.
      rewrite sqrt_zero_sum. lra.
Qed.

Lemma chooseEdge_half (w : World) :
  player w = Some (mkPlayer (800 / 2) (600 / 2) true (Some (0, 0))) ->
  chooseEdge halfEnv w = (2%Z, advance 1 w).
Proof.
  intros Hpl. unfold chooseEdge. rewrite bind_eq, rand_eq. cbn [fst snd].
  rewrite bind_eq. unfold get. cbn [fst snd].
  change (player (advance 1 w)) with (player w). rewrite Hpl. cbn [pl_body].
  rewrite bool_decide_eq_false_2.
  - unfold ret. f_equal. apply halfEnv_edge. reflexivity.
  - unfold Phaser.vecLength, PLAYER_SPEED_THRESHOLD_FOR_BIAS. cbn [fst snd].
    rewrite sqrt_zero_sum. lra.
Qed.

Lemma edgeCandidate_half (w : World) :
  edgeCandidate halfEnv window 2 20 w = ((400, 710), advance 2 w).
Proof.
  unfold edgeCandidate. rewrite bind_eq, rand_eq. cbn [fst snd].
  rewrite bind_eq, rand_eq. cbn [fst snd]. unfold ret. rewrite advance_advance.
  f_equal. unfold halfEnv. cbn [random].
  unfold Phaser.FloatBetween, Phaser.left, Phaser.right, Phaser.bottom, window, SPAWN_BUFFER.
  cbn [Phaser.x Phaser.y Phaser.width Phaser.height].
  f_equal; lra.
Qed.

Lemma edgeRetry_half_blocked (category : Category) (budget : nat) :
  forall w, overlaps w 20 category 400 710 = true ->
            edgeRetry halfEnv window 2 20 category budget w = (None, advance (2 * budget) w).
Proof.
  induction budget as [|b IH]; intros w Hov.
  - cbn. rewrite advance_0. reflexivity.
  - cbn [edgeRetry]. rewrite bind_eq, edgeCandidate_half. cbn [fst snd].
    rewrite bind_eq. unfold get. cbn [fst snd].
    change (overlaps (advance 2 w) 20 category 400 710) with (overlaps w 20 category 400 710).
    rewrite Hov. cbn [negb]. rewrite IH by exact Hov.
    rewrite advance_advance. f_equal. f_equal. lia.
Qed.

Lemma edgeRetry_half_free (category : Category) (budget : nat) (w : World) :
  overlaps w 20 category 400 710 = false ->
  edgeRetry halfEnv window 2 20 category (S budget) w = (Some (400, 710), advance 2 w).
Proof.
  intros Hov. cbn [edgeRetry]. rewrite bind_eq, edgeCandidate_half. cbn [fst snd].
  rewrite bind_eq. unfold get. cbn [fst snd].
  change (overlaps (advance 2 w) 20 category 400 710) with (overlaps w 20 category 400 710).
  rewrite Hov. reflexivity.
Qed.
Lemma viewRetry_exhausted (env : Env) sw sh px py visualSize category (budget : nat) :
  forall w,
    fst (viewRetry env sw sh px py visualSize category budget w) = None ->
    snd (viewRetry env sw sh px py visualSize category budget w) = advance (2 * budget) w.
Proof.
  induction budget as [|b IH]; intros w.
  - intros _. cbn. symmetry. apply advance_0.
  - cbn [viewRetry]. cbv zeta.
    rewrite bind_eq, rand_eq. cbn [fst snd].
    rewrite bind_eq, rand_eq. cbn [fst snd]. rewrite advance_advance.
    destruct (bool_decide _).
    + intros Hnone. rewrite (IH _ Hnone), advance_advance. f_equal. lia.
    + rewrite bind_eq. unfold get. cbn [fst snd].
      destruct (negb _).
      * discriminate.
      * intros Hnone. rewrite (IH _ Hnone), advance_advance. f_equal. lia.
Qed.

Lemma startupScene_advance (k : nat) (w : World) : startupScene w -> startupScene (advance k w).
Proof. intros H. exact H. Qed.

(** A startup request under [halfEnv] always falls back to the edge
    spawner, which tries the one spot (400, 710) below the window. *)
Lemma halfEnv_request_falls_back (w : World) :
  startupScene w ->
  spawnAsteroidInView halfEnv w
  = spawnAsteroid halfEnv (advance (3 + 2 * (SPAWN_MAX_RETRIES * 2)) w).
Proof.
  intros (Hcam & Hscale & Hpl).
  rewrite (spawnAsteroidInView_eq halfEnv window w SM Hcam (halfEnv_category _)).
  cbv zeta. rewrite Hscale. cbn [fst snd]. rewrite halfEnv_size.
  rewrite viewRetry_half. cbn [fst snd]. rewrite advance_advance. reflexivity.
Qed.

Lemma halfEnv_spawn_blocked (w : World) :
  startupScene w -> overlaps w 20 (ASTEROID_CATEGORIES SM) 400 710 = true ->
  spawnAsteroid halfEnv w = (tt, advance (3 + 1 + 2 * SPAWN_MAX_RETRIES) w).
Proof.
  intros (Hcam & Hscale & Hpl) Hov.
  rewrite (spawnAsteroid_eq halfEnv window w SM Hcam (halfEnv_category _)).
  cbv zeta. rewrite halfEnv_size.
  rewrite chooseEdge_half by exact Hpl. cbn [fst snd].
  rewrite edgeRetry_half_blocked by exact Hov. cbn [fst snd].
  rewrite !advance_advance. reflexivity.
Qed.

Lemma halfEnv_spawn_free (w : World) :
  startupScene w -> overlaps w 20 (ASTEROID_CATEGORIES SM) 400 710 = false ->
  exists a k,
    snd (spawnAsteroid halfEnv w)
    = set_heap (insert (nextHandle w) a)
        (set_asteroidsGroup (fun g => g ++ [nextHandle w])
           (set_nextHandle S (advance k w)))
    /\ a_x a = 400 /\ a_y a = 710 /\ a_active a = true /\ is_Some (a_body a)
    /\ d_visualSize a = Some 20.
Proof.
  intros (Hcam & Hscale & Hpl) Hov.
  rewrite (spawnAsteroid_eq halfEnv window w SM Hcam (halfEnv_category _)).
  cbv zeta. rewrite halfEnv_size.
  rewrite chooseEdge_half by exact Hpl. cbn [fst snd].
  unfold SPAWN_MAX_RETRIES. rewrite edgeRetry_half_free by exact Hov. cbn [fst snd].
  rewrite !advance_advance.
  destruct (createAsteroid_attached halfEnv (edgeVelocity halfEnv window 400 710) SM 20
              (hp (ASTEROID_CATEGORIES SM)) (drawnVertices halfEnv (cursor w)) 400 710
              (advance (3 + (1 + 2)) w) eq_refl (edgeVelocity_advances halfEnv window 400 710))
    as (a & k & -> & Hx & Hy & Hact & Hbody & _ & _ & Hvs & _).
  cbn [snd]. exists a, (3 + (1 + 2) + k)%nat. rewrite advance_advance.
  repeat split; assumption.
Qed.

Lemma overlaps_same_spot (w : World) (h : nat) (a : Asteroid) (category : Category) :
  h ∈ asteroidsGroup w -> heap w !! h = Some a ->
  a_x a = 400 -> a_y a = 710 -> a_active a = true -> is_Some (a_body a) ->
  d_visualSize a = Some 20 ->
  overlaps w 20 category 400 710 = true.
Proof.
  intros Hin Hl Hx Hy Hact Hbody Hvs. apply overlaps_iff. exists h. split; [assumption|].
  exists a. split; [assumption|]. split; [assumption|]. split; [assumption|].
  rewrite Hx, Hy, Hvs. rewrite orElse_nonzero by lra.
  unfold Phaser.DistanceBetween, SPAWN_CHECK_RADIUS_MULTIPLIER. cbv zeta.
  replace (400 - 400) with 0 by ring. replace (710 - 710) with 0 by ring.
  rewrite sqrt_zero_sum. lra.
Qed.

Lemma halfEnv_requests_blocked (count : nat) :
  forall w, startupScene w -> overlaps w 20 (ASTEROID_CATEGORIES SM) 400 710 = true ->
            exists k, snd (initialSpawning halfEnv count w) = advance k w.
Proof.
  induction count as [|n IH]; intros w Hscene Hov.
  - exists 0%nat. cbn. symmetry. apply advance_0.
  - cbn [initialSpawning]. rewrite bind_eq.
    rewrite (halfEnv_request_falls_back w Hscene).
    rewrite halfEnv_spawn_blocked by assumption. cbn [fst snd].
    rewrite advance_advance.
    destruct (IH (advance (3 + 2 * (SPAWN_MAX_RETRIES * 2) + (3 + 1 + 2 * SPAWN_MAX_RETRIES)) w)
                Hscene Hov) as [k Hk].
    rewrite Hk, advance_advance. eauto.
Qed.

(** Under [halfEnv] the startup loop creates one asteroid, however many
    requests it makes. *)
Lemma halfEnv_startup_group (count : nat) :
  asteroidsGroup (snd (initialSpawning halfEnv (S count) startup)) = [0%nat].
Proof.
  cbn [initialSpawning]. rewrite bind_eq.
  assert (Hscene : startupScene startup) by (repeat split; reflexivity).
  rewrite (halfEnv_request_falls_back startup Hscene).
  destruct (halfEnv_spawn_free (advance (3 + 2 * (SPAWN_MAX_RETRIES * 2)) startup) Hscene)
    as (a & k & Hw & Hx & Hy & Hact & Hbody & Hvs).
  { apply overlaps_false_iff. intros h Hin. inversion Hin. }
  rewrite Hw.
  match goal with |- asteroidsGroup (snd (initialSpawning halfEnv count ?W)) = _ =>
    destruct (halfEnv_requests_blocked count W) as [k' Hk'] end.
  - exact Hscene.
  - apply (overlaps_same_spot _ 0%nat a).
    + world_cbn. apply list_elem_of_singleton. reflexivity.
    + world_cbn. apply lookup_insert_eq.
    + assumption.
    + assumption.
    + assumption.
    + assumption.
    + assumption.
  - rewrite Hk'. reflexivity.
Qed.
(** What the edge spawner does is decided by its retry loop: nothing but
    consuming samples when the loop finds no spot; an asteroid at the spot
    found when it finds one and the engine attaches a body. *)
Lemma spawnAsteroid_by_retry (env : Env) (worldView : Phaser.Rectangle) (w : World)
    (cn : CategoryName) :
  uniformSamples env -> camera w = Some worldView ->
  drawnCategory env (cursor w) = Some cn ->
  let category := ASTEROID_CATEGORIES cn in
  let visualSize := drawnSize env category (cursor w) in
  let e := chooseEdge env (advance 3 w) in
  let r := edgeRetry env worldView (fst e) visualSize category SPAWN_MAX_RETRIES (snd e) in
  match fst r with
  | None =>
      exists k, spawnAsteroid env w = (tt, advance k w)
  | Some p =>
      if attachBody env (nextHandle w) then
        exists a k,
          snd (spawnAsteroid env w)
          = set_heap (insert (nextHandle w) a)
              (set_asteroidsGroup (fun g => g ++ [nextHandle w])
                 (set_nextHandle S (advance k w)))
          /\ (a_x a, a_y a) = p /\ a_active a = true /\ is_Some (a_body a)
          /\ freshlySpawned a
      else
        exists a k,
          snd (spawnAsteroid env w)
          = set_heap (insert (nextHandle w) a)
              (set_asteroidsGroup
                 (fun g => filter (fun h' => h' <> nextHandle w) (g ++ [nextHandle w]))
                 (set_nextHandle S (advance k w)))
          /\ a_active a = false
  end.
Proof.
  intros Hu Hcam Hcn. cbv zeta.
  rewrite (spawnAsteroid_eq env worldView w cn Hcam Hcn). cbv zeta.
  destruct (chooseEdge_advances env (advance 3 w)) as [k1 Hk1].
  destruct (edgeRetry_advances env worldView (fst (chooseEdge env (advance 3 w)))
              (drawnSize env (ASTEROID_CATEGORIES cn) (cursor w))
              (ASTEROID_CATEGORIES cn) SPAWN_MAX_RETRIES (snd (chooseEdge env (advance 3 w))))
    as [k2 Hk2].
  destruct (edgeRetry env worldView (fst (chooseEdge env (advance 3 w)))
              (drawnSize env (ASTEROID_CATEGORIES cn) (cursor w))
              (ASTEROID_CATEGORIES cn) SPAWN_MAX_RETRIES (snd (chooseEdge env (advance 3 w))))
    as [found w'] eqn:Hrun.
  cbn [fst snd] in *. subst w'. rewrite Hk1, !advance_advance.
  destruct found as [[px py]|].
  - destruct (attachBody env (nextHandle w)) eqn:Hatt.
    + destruct (createAsteroid_attached env (edgeVelocity env worldView px py) cn
                  (drawnSize env (ASTEROID_CATEGORIES cn) (cursor w))
                  (hp (ASTEROID_CATEGORIES cn)) (drawnVertices env (cursor w)) px py
                  (advance (3 + (k1 + k2)) w) Hatt (edgeVelocity_advances env worldView px py))
        as (a & k & -> & Hx & Hy & Hact & Hbody & Hc & Hhp & Hvs & Hpts & Hhit).
      cbn [snd]. exists a, (3 + (k1 + k2) + k)%nat. rewrite advance_advance.
      split; [reflexivity|]. split; [rewrite Hx, Hy; reflexivity|].
      split; [assumption|]. split; [assumption|].
      exists cn. eexists. split; [assumption|]. split; [assumption|].
      split; [apply hp_positive|]. split; [exact Hpts|].
      rewrite generateAsteroidPoints_length.
      pose proof (drawnVertices_range env (cursor w) Hu). lia.
    + destruct (createAsteroid_detached env (edgeVelocity env worldView px py) cn
                  (drawnSize env (ASTEROID_CATEGORIES cn) (cursor w))
                  (hp (ASTEROID_CATEGORIES cn)) (drawnVertices env (cursor w)) px py
                  (advance (3 + (k1 + k2)) w) Hatt) as (a & -> & Hina).
      cbn [snd]. exists a. eexists. rewrite advance_advance. split; [reflexivity|assumption].
  - eexists. reflexivity.
Qed.

(** * The claims of the specification *)

(** C4.  The overlap oracle answers [true] for a candidate exactly when some
    active asteroid of the group lies at a Euclidean distance strictly below
    [(candidate size + asteroid size) * 1.2] (an asteroid without a recorded
    size counting with the candidate category's minimum size).  Between two
    circles of non-zero radius the relation is the plain distance test and
    is symmetric, and the circles at (0,0) and (15,0), both of radius 10,
    overlap: their distance 15 is below the required 24. *)
Theorem overlap_oracle_threshold_and_symmetry :
  (forall w visualSize category px py,
      overlaps w visualSize category px py = true
      <-> exists h, h ∈ asteroidsGroup w /\ tooClose w visualSize category px py h)
  /\ (forall A B category, radius B <> 0 ->
        (overlapsCircles A category [B] = true
         <-> centreDistance A B < (radius A + radius B) * 1.2))
  /\ (forall A B categoryA categoryB, radius A <> 0 -> radius B <> 0 ->
        (overlapsCircles A categoryA [B] = true
         <-> overlapsCircles B categoryB [A] = true))
  /\ (forall category,
        overlapsCircles (mkCircle 0 0 10) category [mkCircle 15 0 10] = true)
  /\ centreDistance (mkCircle 0 0 10) (mkCircle 15 0 10) = 15
  /\ (10 + 10) * 1.2 = 24.
Proof.
  assert (Hd : centreDistance (mkCircle 0 0 10) (mkCircle 15 0 10) = 15).
  { unfold centreDistance. simpl.
    replace ((0 - 15) * (0 - 15) + (0 - 0) * (0 - 0)) with (15 * 15) by ring.
    apply sqrt_square. lra. }
  split; [exact overlaps_iff|].
  split.
  { intros A B category HB. rewrite overlapsCircles_single, orElse_nonzero by assumption.
    reflexivity. }
  split.
  { intros A B cA cB HA HB.
    rewrite !overlapsCircles_single, !orElse_nonzero by assumption.
    rewrite (centreDistance_sym B A), (Rplus_comm (radius B)). reflexivity. }
  split.
  { intros category. apply overlapsCircles_single.
    rewrite orElse_nonzero by (simpl; lra). rewrite Hd.
    unfold SPAWN_CHECK_RADIUS_MULTIPLIER. simpl. lra. }
  split; [exact Hd|lra].
Qed.

Lemma overlap_oracle_threshold_and_symmetry_witness :
  overlapsCircles (mkCircle 0 0 10) (ASTEROID_CATEGORIES SM) [mkCircle 15 0 10] = true
  <-> overlapsCircles (mkCircle 15 0 10) (ASTEROID_CATEGORIES MD) [mkCircle 0 0 10] = true.
Proof.
  apply (proj1 (proj2 (proj2 overlap_oracle_threshold_and_symmetry))); simpl; lra.
Defined.

(** C5.  The coarse per-axis test of the overlap check never hides an
    overlap: a pair it skips (x- or y-distance above
    [(candidateSize + existingSize) * 1.2 * 1.5]) is a pair for which the
    exact test [distance < (candidateSize + existingSize) * 1.2] fails, so
    the oracle with the coarse test answers as the oracle with the exact
    test alone. *)
Theorem coarse_filter_has_no_false_negative :
  (forall visualSize existingSize ex ey spawnX spawnY,
      Rabs (ex - spawnX) > (visualSize + existingSize) * SPAWN_CHECK_RADIUS_MULTIPLIER * 1.5
      \/ Rabs (ey - spawnY) > (visualSize + existingSize) * SPAWN_CHECK_RADIUS_MULTIPLIER * 1.5 ->
      ~ Phaser.DistanceBetween spawnX spawnY ex ey
        < (visualSize + existingSize) * SPAWN_CHECK_RADIUS_MULTIPLIER)
  /\ (forall w visualSize category spawnX spawnY h acc,
        overlapCallback w visualSize category spawnX spawnY h acc
        = overlapCallbackExact w visualSize category spawnX spawnY h acc)
  /\ (forall w visualSize category spawnX spawnY,
        overlaps w visualSize category spawnX spawnY
        = overlapsExact w visualSize category spawnX spawnY).
Proof.
  split; [exact coarse_skip_is_clear|].
  split; [exact overlapCallback_exact|exact overlaps_exact].
Qed.

Lemma coarse_filter_has_no_false_negative_witness :
  ~ Phaser.DistanceBetween 0 0 100 0 < (10 + 10) * SPAWN_CHECK_RADIUS_MULTIPLIER.
Proof.
  apply (proj1 coarse_filter_has_no_false_negative 10 10 100 0 0 0).
  left. unfold SPAWN_CHECK_RADIUS_MULTIPLIER.
  replace (100 - 0) with 100 by ring. rewrite Rabs_pos_eq; lra.
Defined.

(** C6.  For a positive average radius and 6 to 11 vertices, in every
    listing, the polygon generator returns exactly [numVertices] points;
    each lies at a distance from the origin within
    [avgRadius * 0.6, avgRadius * 1.4]; vertex [k] sits at an angle within
    [angleVariation * angleStep], less than half a sector, of
    [k * angleStep], so the angles increase strictly and stay within one
    turn; and the closed ring through the points is a simple polygon. *)
Theorem polygon_generator_valid (env : Env) (l : Listing) (avgRadius : R)
    (numVertices : Z) (w : World) :
  uniformSamples env -> 0 < avgRadius -> (6 <= numVertices <= 11)%Z ->
  let pts := fst (generateAsteroidPoints env l avgRadius numVertices w) in
  let theta := vertexAngle env l numVertices (cursor w) in
  let rho := vertexRadius env avgRadius (cursor w) in
  let angleStep := PI * 2 / IZR numVertices in
  length pts = Z.to_nat numVertices
  /\ (forall p, p ∈ pts -> avgRadius * 0.6 <= norm p <= avgRadius * 1.4)
  /\ (forall k, (k < length pts)%nat ->
        pts !! k = Some (polar (theta k) (rho k))
        /\ Rabs (theta k - INR k * angleStep) <= angleVariation l * angleStep
        /\ angleVariation l * angleStep < angleStep / 2)
  /\ (forall i j, (i < j < length pts)%nat -> theta i < theta j)
  /\ theta (length pts - 1)%nat < theta 0%nat + 2 * PI
  /\ simplePolygon pts.
Proof.
  intros Hu Havg Hn pts theta rho angleStep.
  assert (Hlen : length pts = Z.to_nat numVertices)
    by apply generateAsteroidPoints_length.
  assert (Hlook : forall k, (k < length pts)%nat -> pts !! k = Some (polar (theta k) (rho k))).
  { intros k Hk. apply generateAsteroidPoints_lookup. lia. }
  assert (Hrho : forall k, avgRadius * 0.6 <= rho k <= avgRadius * 1.4).
  { intros k. apply vertexRadius_bounds; assumption. }
  assert (Hgap : forall k, theta k < theta (S k) < theta k + PI).
  { intros k. apply theta_gap; assumption. }
  split; [exact Hlen|].
  split.
  { intros p Hp. apply list_elem_of_lookup in Hp. destruct Hp as [k Hk].
    pose proof (lookup_lt_Some _ _ _ Hk) as Hlt.
    rewrite (Hlook k Hlt) in Hk. injection Hk as <-.
    specialize (Hrho k). rewrite norm_polar; lra. }
  split.
  { intros k Hk. split; [exact (Hlook k Hk)|]. split.
    - apply vertexAngle_offset; [assumption|lia].
    - pose proof (angleVariation_bounds l).
      pose proof (angleStep_pos numVertices Hn). fold angleStep in H0. nra. }
  split.
  { intros i j Hij.
    apply (angles_strict theta (length pts)); [|lia|lia].
    intros k _. apply Hgap. }
  split.
  { rewrite Hlen. apply theta_close; assumption. }
  apply (star_ring_simple pts theta rho).
  - exact Hlook.
  - intros k _. specialize (Hrho k). lra.
  - intros k _. apply Hgap.
  - rewrite Hlen. apply theta_close; assumption.
Qed.

Lemma polygon_generator_valid_witness :
  length (fst (generateAsteroidPoints halfEnv Proactive 20 8
                 startup))
  = 8%nat.
Proof.
  refine (proj1 (polygon_generator_valid halfEnv Proactive 20 8
                   startup _ _ _)).
  - exact halfEnv_uniform.
  - lra.
  - lia.
Defined.

(** C10.  When a bullet hits an asteroid that survives the hit
    ([hitPoints - 1 > 0]) and whose [isHit] flag is already true, the damage
    handler destroys the bullet and stores the decremented [hitPoints]; it
    changes no other field of the asteroid (its drawing and its [isHit] flag
    stay as they were) and schedules no revert callback. *)
Theorem hit_while_flashing_only_decrements (l : Listing) (bullet asteroid : nat) (w : World)
    (b : Bullet) (a : Asteroid) (n : Z) :
  bulletHeap w !! bullet = Some b -> heap w !! asteroid = Some a ->
  b_active b = true -> a_active a = true -> is_Some (a_body a) ->
  d_hitPoints a = Some n -> (1 < n)%Z -> d_isHit a = Some true ->
  let w' := snd (handleBulletAsteroidCollision l bullet asteroid w) in
  w' = set_heap (insert asteroid (with_hitPoints (n - 1) a)) (snd (destroyBullet bullet w))
  /\ heap w' = <[asteroid := mkAsteroid (a_x a) (a_y a) (a_active a) (a_body a)
                               (d_category a) (Some (n - 1)%Z) (d_visualSize a)
                               (d_points a) (d_isHit a) (a_gfx a)]> (heap w)
  /\ timers w' = timers w
  /\ asteroidsGroup w' = asteroidsGroup w
  /\ explosions w' = explosions w
  /\ cursor w' = cursor w
  /\ nextHandle w' = nextHandle w.
Proof.
  intros Hb Ha Hba Haa Hbody Hhp Hn Hhit w'.
  unfold w'. rewrite (hit_while_flashing l bullet asteroid w b a n) by assumption.
  cbn [snd]. rewrite destroyBullet_eq. cbn [snd]. world_cbn.
  repeat split; reflexivity.
Qed.

Lemma hit_while_flashing_only_decrements_witness :
  timers (snd (handleBulletAsteroidCollision Proactive 1 0
                 (mkWorld {[0%nat := mkAsteroid 0 0 true (Some groupBody) (Some MD) (Some 3%Z)
                                       (Some 30) (Some []) (Some true) Blank]}
                          [0%nat] {[1%nat := mkBullet 0 0 true true]} [1%nat] 2 [] [] 0
                          None None (0, 0) true)))
  = [].
Proof.
  refine (proj1 (proj2 (proj2 (hit_while_flashing_only_decrements Proactive 1 0
            (mkWorld {[0%nat := mkAsteroid 0 0 true (Some groupBody) (Some MD) (Some 3%Z)
                                  (Some 30) (Some []) (Some true) Blank]}
                     [0%nat] {[1%nat := mkBullet 0 0 true true]} [1%nat] 2 [] [] 0
                     None None (0, 0) true)
            (mkBullet 0 0 true true)
            (mkAsteroid 0 0 true (Some groupBody) (Some MD) (Some 3%Z)
                        (Some 30) (Some []) (Some true) Blank)
            3%Z _ _ _ _ _ _ _ _)))).
  - apply lookup_singleton_eq.
  - apply lookup_singleton_eq.
  - reflexivity.
  - reflexivity.
  - simpl. eauto.
  - reflexivity.
  - lia.
  - reflexivity.
Defined.

(** C3.  In a world where every position of the target rectangle is
    rejected, by the in-view test or by the overlap oracle, for every size
    the spawner can draw, [spawnAsteroidInRegion] samples exactly
    [SPAWN_MAX_RETRIES] candidates, returns [null] (it is a total function:
    nothing is thrown), and leaves the world as it was except for the
    samples it consumed; in particular the asteroid group and every
    asteroid are unchanged. *)
Theorem region_spawn_exhaustion (env : Env) (regionBounds worldView : Phaser.Rectangle)
    (w : World) :
  camera w = Some worldView -> uniformSamples env ->
  0 <= Phaser.width regionBounds -> 0 <= Phaser.height regionBounds ->
  (forall cn visualSize px py,
      minSize (ASTEROID_CATEGORIES cn) <= visualSize <= maxSize (ASTEROID_CATEGORIES cn) ->
      Phaser.left regionBounds <= px <= Phaser.right regionBounds ->
      Phaser.top regionBounds <= py <= Phaser.bottom regionBounds ->
      rejected w worldView visualSize (ASTEROID_CATEGORIES cn) (px, py) = true) ->
  (exists cn,
      drawnCategory env (cursor w) = Some cn
      /\ regionRetry env worldView regionBounds
           (drawnSize env (ASTEROID_CATEGORIES cn) (cursor w)) (ASTEROID_CATEGORIES cn)
           SPAWN_MAX_RETRIES (advance 3 w)
         = ((None, SPAWN_MAX_RETRIES), advance (3 + 2 * SPAWN_MAX_RETRIES) w))
  /\ spawnAsteroidInRegion env regionBounds w
     = (None, advance (3 + 2 * SPAWN_MAX_RETRIES) w)
  /\ asteroidsGroup (snd (spawnAsteroidInRegion env regionBounds w)) = asteroidsGroup w
  /\ heap (snd (spawnAsteroidInRegion env regionBounds w)) = heap w.
Proof.
  intros Hcam Hu Hw Hh Hcover.
  destruct (GetRandom_active (random env (cursor w)) (Hu _)) as [cn Hcn].
  assert (Hrej : forall i, (i < SPAWN_MAX_RETRIES)%nat ->
     rejected w worldView (drawnSize env (ASTEROID_CATEGORIES cn) (cursor w))
              (ASTEROID_CATEGORIES cn)
              (regionCandidate env regionBounds (cursor w + 3) i) = true).
  { intros i _.
    pose proof (regionCandidate_inside env regionBounds (cursor w + 3) i Hu Hw Hh) as [Hx Hy].
    destruct (regionCandidate env regionBounds (cursor w + 3) i) as [px py].
    apply Hcover; [apply drawnSize_range; assumption|exact Hx|exact Hy]. }
  destruct (region_spawn_all_rejected env regionBounds worldView w cn Hcam Hcn Hrej)
    as [Hloop Hrun].
  split; [exists cn; split; assumption|].
  split; [exact Hrun|].
  rewrite Hrun. split; reflexivity.
Qed.

Lemma region_spawn_exhaustion_witness :
  spawnAsteroidInRegion halfEnv
    (Phaser.mkRectangle 100 100 200 200)
    startup
  = (None, advance (3 + 2 * SPAWN_MAX_RETRIES)
             startup).
Proof.
  refine (proj1 (proj2 (region_spawn_exhaustion halfEnv
            (Phaser.mkRectangle 100 100 200 200) window
            startup _ _ _ _ _))).
  - reflexivity.
  - exact halfEnv_uniform.
  - unfold window; simpl; lra.
  - unfold window; simpl; lra.
  - intros cn visualSize px py _ Hx Hy.
    unfold Phaser.left, Phaser.right in Hx. unfold Phaser.top, Phaser.bottom in Hy.
    simpl in Hx, Hy.
    unfold rejected, Phaser.Contains, window. cbn [fst snd Phaser.x Phaser.y Phaser.width Phaser.height].
    rewrite (bool_decide_eq_false_2 (800 <= 0)) by lra.
    rewrite (bool_decide_eq_false_2 (600 <= 0)) by lra.
    rewrite !bool_decide_eq_true_2 by lra. reflexivity.
Defined.

(** C2.  A call of [spawnAsteroidInRegion] with a target rectangle either
    returns the handle of a new, active asteroid that it has added to the
    group, and then the asteroid's position lies inside the target rectangle
    and strictly outside the camera's view; or it returns [null], and then
    the group is unchanged and no active asteroid has appeared.  A candidate
    that falls inside the view is never used: it costs one retry and the
    loop samples the next candidate. *)
Theorem region_spawn_placement (env : Env) (regionBounds worldView : Phaser.Rectangle)
    (w : World) :
  camera w = Some worldView -> uniformSamples env ->
  nextHandle w ∉ asteroidsGroup w ->
  0 <= Phaser.width regionBounds -> 0 <= Phaser.height regionBounds ->
  0 < Phaser.width worldView -> 0 < Phaser.height worldView ->
  let r := spawnAsteroidInRegion env regionBounds w in
  match fst r with
  | Some h =>
      exists a,
        (h ∉ asteroidsGroup w)
        /\ asteroidsGroup (snd r) = asteroidsGroup w ++ [h]
        /\ heap (snd r) !! h = Some a
        /\ a_active a = true
        /\ Phaser.left regionBounds <= a_x a <= Phaser.right regionBounds
        /\ Phaser.top regionBounds <= a_y a <= Phaser.bottom regionBounds
        /\ Phaser.Contains worldView (a_x a) (a_y a) = false
        /\ (a_x a < Phaser.left worldView \/ Phaser.right worldView < a_x a
            \/ a_y a < Phaser.top worldView \/ Phaser.bottom worldView < a_y a)
  | None =>
      asteroidsGroup (snd r) = asteroidsGroup w
      /\ forall h a, heap (snd r) !! h = Some a -> a_active a = true ->
                     heap w !! h = Some a
  end
  /\ forall visualSize category budget w0,
       Phaser.Contains worldView (fst (regionCandidate env regionBounds (cursor w0) 0))
                       (snd (regionCandidate env regionBounds (cursor w0) 0)) = true ->
       regionRetry env worldView regionBounds visualSize category (S budget) w0
       = (fst (fst (regionRetry env worldView regionBounds visualSize category budget
                      (advance 2 w0))),
          S (snd (fst (regionRetry env worldView regionBounds visualSize category budget
                         (advance 2 w0)))),
          snd (regionRetry env worldView regionBounds visualSize category budget
                 (advance 2 w0))).
Proof.
  intros Hcam Hu Hfresh Hrw Hrh Hvw Hvh r.
  split; [|intros; apply regionRetry_in_view; assumption].
  pose proof (spawnAsteroidInRegion_outcome env regionBounds worldView w Hcam Hu Hfresh)
    as [Hout _].
  fold r in Hout. destruct (fst r) as [h|].
  - destruct Hout as (a & cn & i & -> & Hg & Hh & _ & Hact & _ & Hpos & _ & Hrej & _).
    exists a. split; [assumption|]. split; [assumption|].
    split; [rewrite Hh; apply lookup_insert_eq|]. split; [assumption|].
    pose proof (regionCandidate_inside env regionBounds (cursor w + 3) i Hu Hrw Hrh)
      as [Hx Hy].
    rewrite <- Hpos in Hx, Hy. cbn [fst snd] in Hx, Hy.
    split; [assumption|]. split; [assumption|].
    unfold rejected in Hrej. cbn [fst snd] in Hrej.
    apply orb_false_iff in Hrej. destruct Hrej as [Hview _].
    split; [assumption|]. apply Contains_false_outside; assumption.
  - destruct Hout as (Hg & _ & Hh). split; assumption.
Qed.

Lemma region_spawn_placement_witness :
  match fst (spawnAsteroidInRegion halfEnv
               (Phaser.mkRectangle 1000 1000 500 500)
               startup) with
  | Some h =>
      exists a,
        (h ∉ asteroidsGroup startup)
        /\ asteroidsGroup (snd (spawnAsteroidInRegion halfEnv
                                  (Phaser.mkRectangle 1000 1000 500 500)
                                  startup))
           = asteroidsGroup startup ++ [h]
        /\ heap (snd (spawnAsteroidInRegion halfEnv
                        (Phaser.mkRectangle 1000 1000 500 500)
                        startup)) !! h = Some a
        /\ a_active a = true
        /\ Phaser.left (Phaser.mkRectangle 1000 1000 500 500) <= a_x a
           <= Phaser.right (Phaser.mkRectangle 1000 1000 500 500)
        /\ Phaser.top (Phaser.mkRectangle 1000 1000 500 500) <= a_y a
           <= Phaser.bottom (Phaser.mkRectangle 1000 1000 500 500)
        /\ Phaser.Contains window (a_x a) (a_y a) = false
        /\ (a_x a < Phaser.left window
            \/ Phaser.right window < a_x a
            \/ a_y a < Phaser.top window
            \/ Phaser.bottom window < a_y a)
  | None =>
      asteroidsGroup (snd (spawnAsteroidInRegion halfEnv
                             (Phaser.mkRectangle 1000 1000 500 500)
                             startup))
      = asteroidsGroup startup
      /\ forall h a,
           heap (snd (spawnAsteroidInRegion halfEnv
                        (Phaser.mkRectangle 1000 1000 500 500)
                        startup)) !! h = Some a ->
           a_active a = true ->
           heap startup !! h = Some a
  end.
Proof.
  refine (proj1 (region_spawn_placement halfEnv
            (Phaser.mkRectangle 1000 1000 500 500) window
            startup _ _ _ _ _ _ _)).
  - reflexivity.
  - exact halfEnv_uniform.
  - simpl. apply not_elem_of_nil.
  - unfold window; simpl; lra.
  - unfold window; simpl; lra.
  - unfold window; simpl; lra.
  - unfold window; simpl; lra.
Defined.

(** C8.  In every reachable state every live asteroid (an active child of
    the group) has [hitPoints > 0] and a stored outline of at least 3
    points, in fact of 6 to 11.  This rests on two facts proved alongside:
    an asteroid that is live after a call of one of the three spawners was
    live before or carries the hit points of its category (1, 2 or 3) and
    a generated outline of 6 to 11 points; and the bullet-damage handler
    removes an asteroid from the group, and deactivates it, in the very call
    in which its decremented hit points reach 0. *)
Theorem live_asteroids_keep_hp_and_outline (env : Env) :
  uniformSamples env ->
  (forall w h a,
      reachable env w -> live w h a ->
      (exists n, d_hitPoints a = Some n /\ (0 < n)%Z)
      /\ (exists pts, d_points a = Some pts /\ (3 <= length pts)%nat
                      /\ (6 <= length pts <= 11)%nat))
  /\ (forall w regionBounds h a,
        reachable env w ->
        live (snd (spawnAsteroidInView env w)) h a
        \/ live (snd (spawnAsteroid env w)) h a
        \/ live (snd (spawnAsteroidInRegion env regionBounds w)) h a ->
        live w h a \/ freshlySpawned a)
  /\ (forall l bullet asteroid w b a n,
        bulletHeap w !! bullet = Some b -> heap w !! asteroid = Some a ->
        b_active b = true -> a_active a = true -> is_Some (a_body a) ->
        d_hitPoints a = Some n -> (n - 1 <= 0)%Z ->
        (asteroid ∉ asteroidsGroup (snd (handleBulletAsteroidCollision l bullet asteroid w)))
        /\ exists a',
             heap (snd (handleBulletAsteroidCollision l bullet asteroid w)) !! asteroid
             = Some a'
             /\ a_active a' = false).
Proof.
  intros Hu. split; [|split].
  - intros w h a Hreach (Hin & Hl & Hact).
    destruct (reachable_invariant env w Hu Hreach) as [_ Hb].
    destruct (Hb h a Hl Hact) as [_ [Hhp (pts & Hpts & Hlen)]].
    split; [exact Hhp|]. exists pts. split; [assumption|]. split; [lia|assumption].
  - intros w regionBounds h a Hreach Hlive.
    pose proof (reachable_invariant env w Hu Hreach) as Hinv.
    destruct Hlive as [Hlive|[Hlive|Hlive]].
    + destruct (spawnOutcome_live w _ h a Hinv
                  (spawnAsteroidInView_spawnOutcome env w Hu) Hlive) as [?|[_ ?]]; auto.
    + destruct (spawnOutcome_live w _ h a Hinv
                  (spawnAsteroid_spawnOutcome env w Hu) Hlive) as [?|[_ ?]]; auto.
    + destruct (spawnOutcome_live w _ h a Hinv
                  (spawnAsteroidInRegion_spawnOutcome env regionBounds w Hu) Hlive)
        as [?|[_ ?]]; auto.
  - intros l bullet asteroid w b a n Hb Ha Hba Haa Hbody Hhp Hn.
    destruct (lethal_hit l bullet asteroid w b a n Hb Ha Hba Haa Hbody Hhp Hn)
      as (Hheap & Hgroup & _).
    split.
    + rewrite Hgroup. apply not_in_filtered.
    + eexists. split; [rewrite Hheap; apply lookup_insert_eq|reflexivity].
Qed.

Lemma live_asteroids_keep_hp_and_outline_witness :
  (0%nat ∉ asteroidsGroup
      (snd (handleBulletAsteroidCollision Proactive 1 0
              (mkWorld {[0%nat := mkAsteroid 0 0 true (Some groupBody) (Some XS) (Some 1%Z)
                                    (Some 12) (Some []) (Some false) Blank]}
                       [0%nat] {[1%nat := mkBullet 0 0 true true]} [1%nat] 2 [] [] 0
                       None None (0, 0) true))))
  /\ exists a',
       heap (snd (handleBulletAsteroidCollision Proactive 1 0
                    (mkWorld {[0%nat := mkAsteroid 0 0 true (Some groupBody) (Some XS)
                                          (Some 1%Z) (Some 12) (Some []) (Some false) Blank]}
                             [0%nat] {[1%nat := mkBullet 0 0 true true]} [1%nat] 2 [] [] 0
                             None None (0, 0) true))) !! 0%nat
       = Some a'
       /\ a_active a' = false.
Proof.
  refine (proj2 (proj2 (live_asteroids_keep_hp_and_outline
                          halfEnv _))
            Proactive 1%nat 0%nat _ (mkBullet 0 0 true true)
            (mkAsteroid 0 0 true (Some groupBody) (Some XS) (Some 1%Z)
                        (Some 12) (Some []) (Some false) Blank)
            1%Z _ _ _ _ _ _ _).
  - exact halfEnv_uniform.
  - apply lookup_singleton_eq.
  - apply lookup_singleton_eq.
  - reflexivity.
  - reflexivity.
  - simpl. eauto.
  - reflexivity.
  - lia.
Defined.

(** C9.  The flash-revert callback touches nothing when its guard fails.
    In every listing it does nothing when the asteroid object is no longer
    active.  In the three listings whose guard also reads the hit points it
    does nothing when they are missing or not positive.  In the first
    listing of src/main.js the guard reads [active] only; there, too, the
    callback does nothing in any reachable state in which the asteroid is
    inactive or without positive hit points, since in a reachable state an
    active asteroid has positive hit points.  In particular, when a first
    hit has scheduled the revert and a second hit has destroyed the
    asteroid, firing the revert leaves the world exactly as it was.  (The
    callback is a total function of the world: nothing is thrown.) *)
Theorem flash_revert_is_guarded :
  (forall t w a,
      heap w !! fr_asteroid t = Some a -> a_active a = false ->
      flashRevert t w = (tt, w))
  /\ (forall t w a,
        heap w !! fr_asteroid t = Some a -> revertChecksHp (fr_listing t) = true ->
        (forall n, d_hitPoints a = Some n -> (n <= 0)%Z) ->
        flashRevert t w = (tt, w))
  /\ (forall env t w a,
        uniformSamples env -> reachable env w ->
        heap w !! fr_asteroid t = Some a ->
        a_active a = false \/ (forall n, d_hitPoints a = Some n -> (n <= 0)%Z) ->
        flashRevert t w = (tt, w))
  /\ (forall l l2 b1 b2 h w bl1 bl2 a pts,
        b1 <> b2 ->
        bulletHeap w !! b1 = Some bl1 -> b_active bl1 = true ->
        bulletHeap w !! b2 = Some bl2 -> b_active bl2 = true ->
        heap w !! h = Some a -> a_active a = true -> is_Some (a_body a) ->
        d_hitPoints a = Some 2%Z -> d_points a = Some pts -> truthy (d_isHit a) = false ->
        let w1 := snd (handleBulletAsteroidCollision l b1 h w) in
        let w2 := snd (handleBulletAsteroidCollision l2 b2 h w1) in
        timers w1 = timers w ++ [mkFlashRevert l h pts]
        /\ timers w2 = timers w1
        /\ (h ∉ asteroidsGroup w2)
        /\ (exists a2, heap w2 !! h = Some a2 /\ a_active a2 = false)
        /\ flashRevert (mkFlashRevert l h pts) w2 = (tt, w2)).
Proof.
  split; [|split; [|split]].
  - intros t w a Hl Hina. apply (flashRevert_guard_fails t w a Hl).
    apply revertGuard_inactive. assumption.
  - intros t w a Hl Hchk Hhp. apply (flashRevert_guard_fails t w a Hl).
    apply revertGuard_no_hp; assumption.
  - intros env t w a Hu Hreach Hl Hfail. apply (flashRevert_guard_fails t w a Hl).
    destruct (a_active a) eqn:Hact; [|apply revertGuard_inactive; assumption].
    exfalso. destruct Hfail as [Hina|Hhp]; [discriminate|].
    destruct (reachable_active_hp env w _ a Hu Hreach Hl Hact) as (n & Hn & Hpos).
    specialize (Hhp n Hn). lia.
  - intros. apply (revert_after_destruction l l2 b1 b2 h w bl1 bl2 a pts); assumption.
Qed.

Lemma flash_revert_is_guarded_witness :
  flashRevert (mkFlashRevert MainFirst 0 [])
    (mkWorld {[0%nat := destroyed newGraphics]} [] ∅ [] 1 [] [] 0 None None (0, 0) true)
  = (tt, mkWorld {[0%nat := destroyed newGraphics]} [] ∅ [] 1 [] [] 0 None None (0, 0) true).
Proof.
  refine (proj1 flash_revert_is_guarded (mkFlashRevert MainFirst 0 [])
            (mkWorld {[0%nat := destroyed newGraphics]} [] ∅ [] 1 [] [] 0 None None (0, 0) true)
            (destroyed newGraphics) _ _).
  - apply lookup_singleton_eq.
  - reflexivity.
Defined.

(** C1.  In a density-controller tick (camera and player present), for each
    of the four quadrants: if the quadrant contains [k] live asteroids
    outside the inner-exclusion rectangle, the count the tick computes for
    it is [k], and the tick issues [target - k] calls of
    [spawnAsteroidInRegion] for it, clamped at 0: exactly [4 - k] calls when
    [k < 4] and none when [k >= 4]; every one of them is issued with the
    quadrant's own rectangle.  A point on a border shared by two quadrants
    belongs to the first of them; elsewhere a quadrant contains a point
    exactly when its rectangle does. *)
Theorem density_tick_requests (env : Env) (w : World) (worldView : Phaser.Rectangle)
    (pl : Player) (i : nat) (q : Quadrant) :
  camera w = Some worldView -> player w = Some pl -> is_Some (pl_body pl) ->
  quadrantsOf worldView pl !! i = Some q ->
  let log := fst (checkAndPopulateDistantAreas env w) in
  let k := quadrantPopulation w worldView pl i in
  countAsteroids w worldView pl !! i = Some (Z.of_nat k)
  /\ length (requestsFor i log) = Z.to_nat (TARGET_ASTEROIDS_PER_QUADRANT - Z.of_nat k)
  /\ ((k < 4)%nat -> length (requestsFor i log) = (4 - k)%nat)
  /\ ((4 <= k)%nat -> requestsFor i log = [])
  /\ (forall c, c ∈ requestsFor i log -> snd (fst c) = bounds q)
  /\ (forall px py, px <> pl_x pl -> py <> pl_y pl ->
        holds (quadrantsOf worldView pl) i px py = Phaser.Contains (bounds q) px py).
Proof.
  intros Hcam Hpl Hbody Hq log k.
  assert (Hi : (i < 4)%nat).
  { apply lookup_lt_Some in Hq. rewrite quadrantsOf_length in Hq. exact Hq. }
  pose proof (countAsteroids_lookup w worldView pl i Hi) as Hcount. fold k in Hcount.
  destruct (populateQuadrants_log env (countAsteroids w worldView pl)
              (quadrantsOf worldView pl) 0 w) as [Hlen Hmem].
  rewrite <- (checkAndPopulateDistantAreas_eq env w worldView pl Hcam Hpl Hbody) in Hlen, Hmem.
  fold log in Hlen, Hmem.
  assert (Hreq : length (requestsFor i log)
                 = Z.to_nat (TARGET_ASTEROIDS_PER_QUADRANT - Z.of_nat k)).
  { rewrite Hlen, Hcount. rewrite bool_decide_eq_true_2; [reflexivity|].
    rewrite quadrantsOf_length. lia. }
  split; [exact Hcount|]. split; [exact Hreq|].
  split; [intros Hk; rewrite Hreq; unfold TARGET_ASTEROIDS_PER_QUADRANT; lia|].
  split.
  { intros Hk. apply length_zero_iff_nil. rewrite Hreq.
    unfold TARGET_ASTEROIDS_PER_QUADRANT. lia. }
  split.
  - intros c Hc. unfold requestsFor in Hc. apply list_elem_of_filter in Hc.
    destruct Hc as [Hci Hc]. destruct (Hmem c Hc) as (q' & _ & Hq' & Hb).
    rewrite Hci in Hq'. replace (i - 0)%nat with i in Hq' by lia.
    rewrite Hq in Hq'. injection Hq' as <-. exact Hb.
  - intros px py Hx Hy. apply holds_off_border; assumption.
Qed.

Lemma density_tick_requests_witness :
  length (requestsFor 0 (fst (checkAndPopulateDistantAreas
                                halfEnv
                                startup)))
  = Z.to_nat (TARGET_ASTEROIDS_PER_QUADRANT
              - Z.of_nat (quadrantPopulation
                            startup
                            window
                            (mkPlayer (800 / 2) (600 / 2) true (Some (0, 0))) 0)).
Proof.
  refine (proj1 (proj2 (density_tick_requests halfEnv
            startup
            window
            (mkPlayer (800 / 2) (600 / 2) true (Some (0, 0))) 0
            (mkQuadrant TopLeft
               (Phaser.mkRectangle
                  (Phaser.left (genBoundsOf window
                                  (mkPlayer (800 / 2) (600 / 2) true (Some (0, 0)))))
                  (Phaser.top (genBoundsOf window
                                 (mkPlayer (800 / 2) (600 / 2) true (Some (0, 0)))))
                  (800 * PROACTIVE_GENERATION_RADIUS_MULTIPLIER * 0.5)
                  (600 * PROACTIVE_GENERATION_RADIUS_MULTIPLIER * 0.5)))
            _ _ _ _))).
  - reflexivity.
  - reflexivity.
  - simpl. eauto.
  - reflexivity.
Defined.

(** C7, as the code has it.  When the in-view scatter loop of a startup
    request exhausts its [SPAWN_MAX_RETRIES * 2] attempts, the request falls
    back to the off-screen edge spawner: [spawnAsteroidInView] does exactly
    what [spawnAsteroid] does on the world after those attempts.  The
    fallback creates the asteroid when its own retry loop finds a free spot
    (and the engine attaches a body); when that loop exhausts its
    [SPAWN_MAX_RETRIES] attempts as well, the request ends with no asteroid
    created. *)
Theorem startup_request_falls_back (env : Env) (w : World) (worldView : Phaser.Rectangle)
    (cn : CategoryName) :
  uniformSamples env -> camera w = Some worldView ->
  drawnCategory env (cursor w) = Some cn ->
  fst (viewRetry env (fst (scale w)) (snd (scale w)) (fst (scale w) / 2) (snd (scale w) / 2)
         (drawnSize env (ASTEROID_CATEGORIES cn) (cursor w)) (ASTEROID_CATEGORIES cn)
         (SPAWN_MAX_RETRIES * 2) (advance 3 w)) = None ->
  let w1 := advance (3 + 2 * (SPAWN_MAX_RETRIES * 2)) w in
  spawnAsteroidInView env w = spawnAsteroid env w1
  /\ forall cn1,
       drawnCategory env (cursor w1) = Some cn1 ->
       let category := ASTEROID_CATEGORIES cn1 in
       let visualSize := drawnSize env category (cursor w1) in
       let e := chooseEdge env (advance 3 w1) in
       let r := edgeRetry env worldView (fst e) visualSize category SPAWN_MAX_RETRIES
                  (snd e) in
       match fst r with
       | None =>
           exists k, spawnAsteroidInView env w = (tt, advance k w)
       | Some p =>
           if attachBody env (nextHandle w) then
             exists a k,
               snd (spawnAsteroidInView env w)
               = set_heap (insert (nextHandle w) a)
                   (set_asteroidsGroup (fun g => g ++ [nextHandle w])
                      (set_nextHandle S (advance k w)))
               /\ (a_x a, a_y a) = p /\ a_active a = true /\ is_Some (a_body a)
               /\ freshlySpawned a
           else
             exists a k,
               snd (spawnAsteroidInView env w)
               = set_heap (insert (nextHandle w) a)
                   (set_asteroidsGroup
                      (fun g => filter (fun h' => h' <> nextHandle w) (g ++ [nextHandle w]))
                      (set_nextHandle S (advance k w)))
               /\ a_active a = false
       end.
Proof.
  intros Hu Hcam Hcn Hnone w1.
  assert (Hfall : spawnAsteroidInView env w = spawnAsteroid env w1).
  { rewrite (spawnAsteroidInView_eq env worldView w cn Hcam Hcn). cbv zeta.
    rewrite Hnone. rewrite (viewRetry_exhausted _ _ _ _ _ _ _ _ _ Hnone).
    rewrite advance_advance. reflexivity. }
  split; [exact Hfall|].
  intros cn1 Hcn1. cbv zeta. rewrite Hfall.
  pose proof (spawnAsteroid_by_retry env worldView w1 cn1 Hu Hcam Hcn1) as Hby.
  cbv zeta in Hby.
  destruct (fst (edgeRetry env worldView (fst (chooseEdge env (advance 3 w1)))
                   (drawnSize env (ASTEROID_CATEGORIES cn1) (cursor w1))
                   (ASTEROID_CATEGORIES cn1) SPAWN_MAX_RETRIES
                   (snd (chooseEdge env (advance 3 w1))))) as [p|].
  - change (nextHandle w1) with (nextHandle w) in Hby.
    destruct (attachBody env (nextHandle w)).
    + destruct Hby as (a & k & Hw & Hrest). exists a. eexists.
      split; [|exact Hrest]. rewrite Hw. unfold w1. rewrite advance_advance. reflexivity.
    + destruct Hby as (a & k & Hw & Hrest). exists a. eexists.
      split; [|exact Hrest]. rewrite Hw. unfold w1. rewrite advance_advance. reflexivity.
  - destruct Hby as (k & Hw). eexists. rewrite Hw. unfold w1. rewrite advance_advance.
    reflexivity.
Qed.

Lemma startup_request_falls_back_witness :
  spawnAsteroidInView halfEnv startup
  = spawnAsteroid halfEnv (advance (3 + 2 * (SPAWN_MAX_RETRIES * 2)) startup).
Proof.
  refine (proj1 (startup_request_falls_back halfEnv startup window SM _ _ _ _)).
  - exact halfEnv_uniform.
  - reflexivity.
  - apply halfEnv_category.
  - rewrite halfEnv_size. cbn [scale startup startWorld fst snd].
    rewrite viewRetry_half. reflexivity.
Defined.

(** C7 as stated fails: with the sample stream stuck at 1/2 (all samples in
    [0, 1)), the 20 startup requests of an 800 x 600 game leave a single
    asteroid.  Each request exhausts the in-view loop and falls back; the
    first fallback places an asteroid below the window, and every later
    fallback, tried at that same spot, exhausts its retries and returns
    without creating anything. *)
Lemma startup_requests_can_be_dropped :
  uniformSamples halfEnv
  /\ asteroidsGroup (snd (initialSpawning halfEnv ASTEROID_INITIAL_COUNT startup)) = [0%nat]
  /\ length (asteroidsGroup (snd (initialSpawning halfEnv ASTEROID_INITIAL_COUNT startup)))
     <> ASTEROID_INITIAL_COUNT.
Proof.
  split; [exact halfEnv_uniform|].
  unfold ASTEROID_INITIAL_COUNT. rewrite halfEnv_startup_group.
  split; [reflexivity|]. cbn. lia.
Qed.

(** * Further properties: the spawners *)

Ltac world_cbn_in H :=
  cbn [heap asteroidsGroup bulletHeap bulletsGroup nextHandle timers explosions cursor
       player camera scale particleEmitter
       set_heap set_asteroidsGroup set_bulletHeap set_bulletsGroup set_nextHandle
       set_timers set_explosions set_cursor advance fst snd] in H.

Lemma overlaps_advance (k : nat) (w : World) visualSize category px py :
  overlaps (advance k w) visualSize category px py = overlaps w visualSize category px py.
Proof. reflexivity. Qed.

Lemma overlapsExact_advance (k : nat) (w : World) visualSize category px py :
  overlapsExact (advance k w) visualSize category px py
  = overlapsExact w visualSize category px py.
Proof. reflexivity. Qed.

Lemma spawnedBy_advance (k : nat) (w w' : World) (a : Asteroid) :
  spawnedBy (advance k w) w' a <-> spawnedBy w w' a.
Proof. reflexivity. Qed.

(** A world that only consumed samples, or that created and destroyed an
    object again, has spawned nothing. *)
Lemma spawnedBy_advance_absurd (k : nat) (w : World) (a : Asteroid) :
  ~ spawnedBy w (advance k w) a.
Proof.
  intros [Hg _]. cbn in Hg. apply (f_equal length) in Hg.
  rewrite length_app in Hg. simpl in Hg. lia.
Qed.

Lemma spawnedBy_detached_absurd (w w0 : World) (a a0 : Asteroid) :
  asteroidsGroup w0 = asteroidsGroup w -> nextHandle w0 = nextHandle w ->
  ~ spawnedBy w
      (set_heap (insert (nextHandle w0) a0)
         (set_asteroidsGroup (fun g => filter (fun h' => h' <> nextHandle w0) (g ++ [nextHandle w0]))
            (set_nextHandle S w0))) a.
Proof.
  intros Hg0 Hn0 [Hg _]. world_cbn_in Hg. rewrite Hg0, Hn0 in Hg.
  assert (Hin : nextHandle w ∈ asteroidsGroup w ++ [nextHandle w]).
  { apply elem_of_app. right. apply list_elem_of_singleton. reflexivity. }
  rewrite <- Hg in Hin. apply list_elem_of_filter in Hin. destruct Hin as [Hne _].
  apply Hne. reflexivity.
Qed.

(** [createAsteroid] when the engine attaches a body: the new object in
    full. *)
Lemma createAsteroid_made env dv cn vs ihp nv x y w :
  attachBody env (nextHandle w) = true ->
  (forall w0, exists v k, dv w0 = (v, advance k w0)) ->
  exists W c k,
    createAsteroid env dv cn vs ihp nv x y w
    = (Some (nextHandle w),
       set_heap (insert (nextHandle w)
                   (mkAsteroid x y true
                      (Some (mkBody (fst (dv W))
                               (Phaser.FloatBetween (- ASTEROID_MAX_ROTATION_SPEED)
                                  ASTEROID_MAX_ROTATION_SPEED (random env c))
                               (vs * 0.9) (- (vs * 0.9), - (vs * 0.9)) ASTEROID_BOUNCE))
                      (Some cn) (Some ihp) (Some vs)
                      (Some (fst (generateAsteroidPoints env Proactive vs nv w)))
                      (Some false)
                      (if (length (fst (generateAsteroidPoints env Proactive vs nv w)) <? 3)%nat
                       then Blank
                       else Drawn (fst (generateAsteroidPoints env Proactive vs nv w)) None)))
         (set_asteroidsGroup (fun g => g ++ [nextHandle w])
            (set_nextHandle S (advance k w)))).
Proof.
  intros Hatt Hdv. unfold createAsteroid.
  rewrite bind_eq, !generateAsteroidPoints_eq. cbn [fst snd].
  set (pts := map _ _).
  rewrite bind_eq. unfold addGraphics. cbn [fst snd].
  set (h := nextHandle w) in *.
  replace (nextHandle (advance (2 * Z.to_nat nv) w)) with h by reflexivity.
  rewrite bind_eq.
  set (g := if (length pts <? 3)%nat then Blank else Drawn pts None).
  assert (Hdraw :
    drawAsteroidShape h (Some pts) None 1
      (set_nextHandle S (set_heap (insert h newGraphics) (advance (2 * Z.to_nat nv) w)))
    = (tt, set_heap (insert h (with_gfx g newGraphics))
             (set_nextHandle S (set_heap (insert h newGraphics) (advance (2 * Z.to_nat nv) w))))).
  { unfold drawAsteroidShape, g. destruct (length pts <? 3)%nat.
    - unfold ret. f_equal. solve_world_eq.
    - erewrite update_hit by solve_lookup. reflexivity. }
  rewrite Hdraw. cbn [fst snd].
  rewrite bind_eq. erewrite groupAdd_eq by solve_lookup. rewrite Hatt. cbn [fst snd].
  step_update.
  rewrite bind_eq. unfold get. cbn [fst snd].
  unfold bodyOf.
  match goal with |- context [heap ?W !! h] =>
    replace (heap W !! h) with (Some (with_position x y (with_body (Some groupBody) (with_gfx g newGraphics))))
      by (symmetry; solve_lookup) end.
  cbn [a_body with_position with_body].
  rewrite bind_eq.
  match goal with |- context [dv ?W] =>
    exists W; destruct (Hdv W) as (v & k & Hv); rewrite Hv end.
  cbn [fst snd]. rewrite bind_eq, rand_eq. cbn [fst snd].
  step_update.
  rewrite bind_eq. erewrite storeData_eq by solve_lookup. cbn [fst snd].
  unfold ret.
  eexists. exists (2 * Z.to_nat nv + k + 1)%nat.
  f_equal. solve_world_eq.
Qed.

(** ** What the retry loops return *)

Lemma edgeRetry_found (env : Env) worldView edge visualSize category (budget : nat) :
  forall w p,
    fst (edgeRetry env worldView edge visualSize category budget w) = Some p ->
    exists c,
      p = fst (edgeCandidate env worldView edge visualSize (advance c w))
      /\ overlaps w visualSize category (fst p) (snd p) = false.
Proof.
  induction budget as [|b IH]; intros w p Hp.
  - discriminate.
  - cbn [edgeRetry] in Hp. rewrite bind_eq in Hp.
    destruct (edgeCandidate_advances env worldView edge visualSize w) as [k Hk].
    rewrite Hk in Hp. rewrite bind_eq in Hp. unfold get in Hp. cbn [fst snd] in Hp.
    rewrite overlaps_advance in Hp.
    destruct (overlaps w visualSize category _ _) eqn:Hov; cbn [negb] in Hp.
    + apply IH in Hp. destruct Hp as (c & Hc & Hfree).
      exists (k + c)%nat. rewrite advance_advance in Hc. split; assumption.
    + unfold ret in Hp. cbn [fst] in Hp. injection Hp as <-.
      exists 0%nat. rewrite advance_0. split; [reflexivity|assumption].
Qed.

Lemma viewRetry_found (env : Env) sw sh px py visualSize category (budget : nat) :
  forall w p,
    fst (viewRetry env sw sh px py visualSize category budget w) = Some p ->
    exists c,
      p = (Phaser.FloatBetween visualSize (sw - visualSize) (random env c),
           Phaser.FloatBetween visualSize (sh - visualSize) (random env (c + 1)))
      /\ ~ Phaser.DistanceBetween (fst p) (snd p) px py < PLAYER_INITIAL_SAFE_ZONE_RADIUS
      /\ overlapsExact w visualSize category (fst p) (snd p) = false.
Proof.
  induction budget as [|b IH]; intros w p Hp.
  - discriminate.
  - cbn [viewRetry] in Hp. cbv zeta in Hp.
    rewrite bind_eq, rand_eq in Hp. cbn [fst snd] in Hp.
    rewrite bind_eq, rand_eq in Hp. cbn [fst snd] in Hp.
    rewrite advance_advance in Hp.
    replace (cursor (advance 1 w)) with (cursor w + 1)%nat in Hp by reflexivity.
    destruct (bool_decide _) eqn:Hsafe in Hp.
    + apply IH in Hp. destruct Hp as (c & Hc & Hrest). exists c. split; assumption.
    + rewrite bind_eq in Hp. unfold get in Hp. cbn [fst snd] in Hp.
      rewrite overlapsExact_advance in Hp.
      destruct (overlapsExact w visualSize category _ _) eqn:Hov; cbn [negb] in Hp.
      * apply IH in Hp. destruct Hp as (c & Hc & Hrest). exists c. split; assumption.
      * unfold ret in Hp. cbn [fst] in Hp. injection Hp as <-.
        exists (cursor w). split; [reflexivity|]. cbn [fst snd].
        apply bool_decide_eq_false in Hsafe. split; assumption.
Qed.

(** ** The edge the off-screen spawner picks *)

Lemma pickWeighted_range (weights : list R) (i : Z) (randomThreshold : R) (edge : Z) :
  pickWeighted weights i randomThreshold edge = edge
  \/ (i <= pickWeighted weights i randomThreshold edge < i + Z.of_nat (length weights))%Z.
Proof.
  revert i randomThreshold. induction weights as [|wt rest IH]; intros i t.
  - left. reflexivity.
  - cbn [pickWeighted]. destruct (bool_decide (t < wt)).
    + right. cbn [length]. lia.
    + destruct (IH (i + 1)%Z (t - wt)) as [->|H]; [left; reflexivity|].
      right. cbn [length]. lia.
Qed.

Lemma chooseEdge_range (env : Env) (w : World) :
  uniformSamples env -> (0 <= fst (chooseEdge env w) <= 3)%Z.
Proof.
  intros Hu.
  assert (Hedge : (0 <= Phaser.Between 0 3 (random env (cursor w)) <= 3)%Z).
  { apply (Between_range 0 3); [apply Hu|lia]. }
  unfold chooseEdge. rewrite bind_eq, rand_eq. cbn [fst snd].
  rewrite bind_eq. unfold get. cbn [fst snd].
  change (player (advance 1 w)) with (player w).
  destruct (player w) as [pl|]; [|exact Hedge].
  destruct (pl_body pl) as [v|]; [|exact Hedge].
  destruct (bool_decide _); [|exact Hedge].
  rewrite bind_eq, rand_eq. cbn [fst snd]. unfold ret. cbn [fst].
  match goal with |- context [pickWeighted ?ws 0%Z ?t ?e] =>
    destruct (pickWeighted_range ws 0%Z t e) as [->|H]; [exact Hedge|];
    change (length ws) with 4%nat in H end.
  lia.
Qed.

(** Every one of the four cases of the [switch] puts the candidate beyond
    the chosen edge. *)
Lemma edgeCandidate_beyondEdge (env : Env) worldView (edge : Z) visualSize (w : World) :
  uniformSamples env -> (0 <= edge <= 3)%Z -> 0 < visualSize ->
  0 <= Phaser.width worldView -> 0 <= Phaser.height worldView ->
  beyondEdge worldView visualSize
    (fst (fst (edgeCandidate env worldView edge visualSize w)))
    (snd (fst (edgeCandidate env worldView edge visualSize w))).
Proof.
  intros Hu Hedge Hvs Hw Hh.
  pose proof (Hu (cursor w)) as Hu0. pose proof (Hu (cursor w + 1)%nat) as Hu1.
  assert (Hx : forall u, 0 <= u < 1 ->
            Phaser.left worldView - SPAWN_BUFFER
            <= Phaser.FloatBetween (Phaser.left worldView - SPAWN_BUFFER)
                 (Phaser.right worldView + SPAWN_BUFFER) u
            <= Phaser.right worldView + SPAWN_BUFFER).
  { intros u Hu'. apply FloatBetween_bounds; [assumption|].
    unfold Phaser.left, Phaser.right, SPAWN_BUFFER. lra. }
  assert (Hy : forall u, 0 <= u < 1 ->
            Phaser.top worldView - SPAWN_BUFFER
            <= Phaser.FloatBetween (Phaser.top worldView - SPAWN_BUFFER)
                 (Phaser.bottom worldView + SPAWN_BUFFER) u
            <= Phaser.bottom worldView + SPAWN_BUFFER).
  { intros u Hu'. apply FloatBetween_bounds; [assumption|].
    unfold Phaser.top, Phaser.bottom, SPAWN_BUFFER. lra. }
  assert (Hcases : edge = 0%Z \/ edge = 1%Z \/ edge = 2%Z \/ edge = 3%Z) by lia.
  unfold beyondEdge.
  destruct Hcases as [-> | [-> | [-> | ->]]]; cbn [edgeCandidate];
    rewrite bind_eq, rand_eq; cbn [fst snd];
    rewrite bind_eq, rand_eq; cbn [fst snd]; unfold ret; cbn [fst snd];
    replace (cursor (advance 1 w)) with (cursor w + 1)%nat by reflexivity.
  - left. split; [nra|apply Hx; assumption].
  - right. left. split; [nra|apply Hy; assumption].
  - right. right. left. split; [nra|apply Hx; assumption].
  - right. right. right. split; [nra|apply Hy; assumption].
Qed.

(** ** The asteroid a spawner creates *)

Lemma createAsteroid_spawned env dv cn vs ihp nv x y (w0 : World) (k0 : nat) (a : Asteroid) :
  (forall w, exists v k, dv w = (v, advance k w)) ->
  spawnedBy w0 (snd (createAsteroid env dv cn vs ihp nv x y (advance k0 w0))) a ->
  exists W c,
    a = mkAsteroid x y true
          (Some (mkBody (fst (dv W))
                   (Phaser.FloatBetween (- ASTEROID_MAX_ROTATION_SPEED)
                      ASTEROID_MAX_ROTATION_SPEED (random env c))
                   (vs * 0.9) (- (vs * 0.9), - (vs * 0.9)) ASTEROID_BOUNCE))
          (Some cn) (Some ihp) (Some vs)
          (Some (fst (generateAsteroidPoints env Proactive vs nv (advance k0 w0))))
          (Some false)
          (if (length (fst (generateAsteroidPoints env Proactive vs nv (advance k0 w0))) <? 3)%nat
           then Blank
           else Drawn (fst (generateAsteroidPoints env Proactive vs nv (advance k0 w0))) None).
Proof.
  intros Hdv Hsp.
  destruct (attachBody env (nextHandle w0)) eqn:Hatt.
  - destruct (createAsteroid_made env dv cn vs ihp nv x y (advance k0 w0) Hatt Hdv)
      as (W & c & k & Hrun).
    rewrite Hrun in Hsp. destruct Hsp as [_ Hl]. cbn [snd] in Hl. world_cbn_in Hl.
    rewrite lookup_insert_eq in Hl. injection Hl as <-.
    exists W, c. reflexivity.
  - destruct (createAsteroid_detached env dv cn vs ihp nv x y (advance k0 w0) Hatt)
      as (a0 & Hrun & _).
    rewrite Hrun in Hsp. cbn [snd] in Hsp.
    exfalso. revert Hsp.
    apply (spawnedBy_detached_absurd w0 (advance (2 * Z.to_nat nv) (advance k0 w0)));
      reflexivity.
Qed.

Lemma spawnedBy_same_absurd (w : World) (a : Asteroid) : ~ spawnedBy w w a.
Proof.
  intros H. apply (spawnedBy_advance_absurd 0 w a). rewrite advance_0. exact H.
Qed.

Lemma uniform_spin (env : Env) (c : nat) :
  uniformSamples env ->
  - ASTEROID_MAX_ROTATION_SPEED
  <= Phaser.FloatBetween (- ASTEROID_MAX_ROTATION_SPEED) ASTEROID_MAX_ROTATION_SPEED
       (random env c)
  <= ASTEROID_MAX_ROTATION_SPEED.
Proof.
  intros Hu. apply FloatBetween_bounds; [apply Hu|].
  unfold ASTEROID_MAX_ROTATION_SPEED. lra.
Qed.

Lemma spawnAsteroid_spawned (env : Env) (w : World) (a : Asteroid) :
  uniformSamples env -> spawnedBy w (snd (spawnAsteroid env w)) a ->
  exists worldView cn edge c W u,
    camera w = Some worldView
    /\ drawnCategory env (cursor w) = Some cn
    /\ (0 <= edge <= 3)%Z
    /\ (a_x a, a_y a)
       = fst (edgeCandidate env worldView edge
                (drawnSize env (ASTEROID_CATEGORIES cn) (cursor w)) (advance c w))
    /\ overlaps w (drawnSize env (ASTEROID_CATEGORIES cn) (cursor w))
         (ASTEROID_CATEGORIES cn) (a_x a) (a_y a) = false
    /\ a = mkAsteroid (a_x a) (a_y a) true
             (Some (mkBody (fst (edgeVelocity env worldView (a_x a) (a_y a) W))
                      (Phaser.FloatBetween (- ASTEROID_MAX_ROTATION_SPEED)
                         ASTEROID_MAX_ROTATION_SPEED (random env u))
                      (drawnSize env (ASTEROID_CATEGORIES cn) (cursor w) * 0.9)
                      (- (drawnSize env (ASTEROID_CATEGORIES cn) (cursor w) * 0.9),
                       - (drawnSize env (ASTEROID_CATEGORIES cn) (cursor w) * 0.9))
                      ASTEROID_BOUNCE))
             (Some cn) (Some (hp (ASTEROID_CATEGORIES cn)))
             (Some (drawnSize env (ASTEROID_CATEGORIES cn) (cursor w)))
             (d_points a) (Some false) (a_gfx a)
    /\ madeOutline env (drawnSize env (ASTEROID_CATEGORIES cn) (cursor w))
         (drawnVertices env (cursor w)) a.
Proof.
  intros Hu Hsp.
  destruct (camera w) as [worldView|] eqn:Hcam.
  2:{ exfalso. revert Hsp. unfold spawnAsteroid. rewrite bind_eq. unfold get. cbn [fst snd].
      rewrite Hcam. unfold ret. cbn [snd]. apply spawnedBy_same_absurd. }
  destruct (GetRandom_active (random env (cursor w)) (Hu _)) as [cn Hcn].
  rewrite (spawnAsteroid_eq env worldView w cn Hcam Hcn) in Hsp. cbv zeta in Hsp.
  pose proof (chooseEdge_range env (advance 3 w) Hu) as Hedge.
  destruct (chooseEdge_advances env (advance 3 w)) as [k1 Hk1].
  set (edge := fst (chooseEdge env (advance 3 w))) in *.
  rewrite Hk1 in Hsp. rewrite advance_advance in Hsp.
  set (vs := drawnSize env (ASTEROID_CATEGORIES cn) (cursor w)) in *.
  destruct (edgeRetry_advances env worldView edge vs (ASTEROID_CATEGORIES cn)
              SPAWN_MAX_RETRIES (advance (3 + k1) w)) as [k2 Hk2].
  pose proof (edgeRetry_found env worldView edge vs (ASTEROID_CATEGORIES cn)
                SPAWN_MAX_RETRIES (advance (3 + k1) w)) as Hfound.
  destruct (edgeRetry env worldView edge vs (ASTEROID_CATEGORIES cn)
              SPAWN_MAX_RETRIES (advance (3 + k1) w)) as [found w'] eqn:Hrun.
  cbn [fst snd] in *. subst w'. rewrite advance_advance in Hsp.
  destruct found as [[px py]|]; cbn [snd] in Hsp.
  2:{ exfalso. revert Hsp. apply spawnedBy_advance_absurd. }
  destruct (Hfound _ eq_refl) as (c & Hc & Hfree). cbn [fst snd] in Hfree.
  rewrite advance_advance in Hc.
  apply createAsteroid_spawned in Hsp; [|apply edgeVelocity_advances].
  destruct Hsp as (W & u & Ha).
  exists worldView, cn, edge, (3 + k1 + c)%nat, W, u.
  rewrite Ha. cbn [a_x a_y d_points a_gfx].
  split; [reflexivity|]. split; [assumption|]. split; [assumption|].
  split; [assumption|]. split; [exact Hfree|]. split; [reflexivity|].
  eexists. split; reflexivity.
Qed.

Lemma spawnAsteroidInView_spawned (env : Env) (w : World) (a : Asteroid) :
  uniformSamples env -> spawnedBy w (snd (spawnAsteroidInView env w)) a ->
  (exists cn c W u,
      drawnCategory env (cursor w) = Some cn
      /\ a_x a = Phaser.FloatBetween (drawnSize env (ASTEROID_CATEGORIES cn) (cursor w))
                   (fst (scale w) - drawnSize env (ASTEROID_CATEGORIES cn) (cursor w))
                   (random env c)
      /\ a_y a = Phaser.FloatBetween (drawnSize env (ASTEROID_CATEGORIES cn) (cursor w))
                   (snd (scale w) - drawnSize env (ASTEROID_CATEGORIES cn) (cursor w))
                   (random env (c + 1))
      /\ ~ Phaser.DistanceBetween (a_x a) (a_y a) (fst (scale w) / 2) (snd (scale w) / 2)
           < PLAYER_INITIAL_SAFE_ZONE_RADIUS
      /\ overlapsExact w (drawnSize env (ASTEROID_CATEGORIES cn) (cursor w))
           (ASTEROID_CATEGORIES cn) (a_x a) (a_y a) = false
      /\ a = mkAsteroid (a_x a) (a_y a) true
               (Some (mkBody (fst (viewVelocity env W))
                        (Phaser.FloatBetween (- ASTEROID_MAX_ROTATION_SPEED)
                           ASTEROID_MAX_ROTATION_SPEED (random env u))
                        (drawnSize env (ASTEROID_CATEGORIES cn) (cursor w) * 0.9)
                        (- (drawnSize env (ASTEROID_CATEGORIES cn) (cursor w) * 0.9),
                         - (drawnSize env (ASTEROID_CATEGORIES cn) (cursor w) * 0.9))
                        ASTEROID_BOUNCE))
               (Some cn) (Some (hp (ASTEROID_CATEGORIES cn)))
               (Some (drawnSize env (ASTEROID_CATEGORIES cn) (cursor w)))
               (d_points a) (Some false) (a_gfx a)
      /\ madeOutline env (drawnSize env (ASTEROID_CATEGORIES cn) (cursor w))
           (drawnVertices env (cursor w)) a)
  \/ (exists k, spawnedBy (advance k w) (snd (spawnAsteroid env (advance k w))) a).
Proof.
  intros Hu Hsp.
  destruct (camera w) as [worldView|] eqn:Hcam.
  2:{ exfalso. revert Hsp. unfold spawnAsteroidInView. rewrite bind_eq. unfold get.
      cbn [fst snd]. rewrite Hcam. unfold ret. cbn [snd]. apply spawnedBy_same_absurd. }
  destruct (GetRandom_active (random env (cursor w)) (Hu _)) as [cn Hcn].
  rewrite (spawnAsteroidInView_eq env worldView w cn Hcam Hcn) in Hsp. cbv zeta in Hsp.
  set (vs := drawnSize env (ASTEROID_CATEGORIES cn) (cursor w)) in *.
  destruct (viewRetry_advances env (fst (scale w)) (snd (scale w)) (fst (scale w) / 2)
              (snd (scale w) / 2) vs (ASTEROID_CATEGORIES cn) (SPAWN_MAX_RETRIES * 2)
              (advance 3 w)) as [k Hk].
  pose proof (viewRetry_found env (fst (scale w)) (snd (scale w)) (fst (scale w) / 2)
                (snd (scale w) / 2) vs (ASTEROID_CATEGORIES cn) (SPAWN_MAX_RETRIES * 2)
                (advance 3 w)) as Hfound.
  destruct (viewRetry env (fst (scale w)) (snd (scale w)) (fst (scale w) / 2)
              (snd (scale w) / 2) vs (ASTEROID_CATEGORIES cn) (SPAWN_MAX_RETRIES * 2)
              (advance 3 w)) as [found w'] eqn:Hrun.
  cbn [fst snd] in *. subst w'. rewrite advance_advance in Hsp.
  destruct found as [[px py]|]; cbn [snd] in Hsp.
  - left. destruct (Hfound _ eq_refl) as (c & Hc & Hsafe & Hfree). cbn [fst snd] in *.
    injection Hc as Hpx Hpy.
    apply createAsteroid_spawned in Hsp; [|apply viewVelocity_advances].
    destruct Hsp as (W & u & Ha).
    exists cn, c, W, u. rewrite Ha. cbn [a_x a_y d_points a_gfx].
    split; [assumption|]. split; [assumption|]. split; [assumption|].
    split; [assumption|]. split; [exact Hfree|]. split; [reflexivity|].
    eexists. split; reflexivity.
  - right. exists (3 + k)%nat. apply spawnedBy_advance. exact Hsp.
Qed.

Lemma spawnAsteroidInRegion_spawned (env : Env) (regionBounds : Phaser.Rectangle)
    (w : World) (a : Asteroid) :
  uniformSamples env -> spawnedBy w (snd (spawnAsteroidInRegion env regionBounds w)) a ->
  exists worldView cn i W u,
    camera w = Some worldView
    /\ drawnCategory env (cursor w) = Some cn
    /\ (a_x a, a_y a) = regionCandidate env regionBounds (cursor w + 3) i
    /\ rejected w worldView (drawnSize env (ASTEROID_CATEGORIES cn) (cursor w))
         (ASTEROID_CATEGORIES cn) (a_x a, a_y a) = false
    /\ fst (spawnAsteroidInRegion env regionBounds w) = Some (nextHandle w)
    /\ a = mkAsteroid (a_x a) (a_y a) true
             (Some (mkBody (fst (regionVelocity env W))
                      (Phaser.FloatBetween (- ASTEROID_MAX_ROTATION_SPEED)
                         ASTEROID_MAX_ROTATION_SPEED (random env u))
                      (drawnSize env (ASTEROID_CATEGORIES cn) (cursor w) * 0.9)
                      (- (drawnSize env (ASTEROID_CATEGORIES cn) (cursor w) * 0.9),
                       - (drawnSize env (ASTEROID_CATEGORIES cn) (cursor w) * 0.9))
                      ASTEROID_BOUNCE))
             (Some cn) (Some (hp (ASTEROID_CATEGORIES cn)))
             (Some (drawnSize env (ASTEROID_CATEGORIES cn) (cursor w)))
             (d_points a) (Some false) (a_gfx a)
    /\ madeOutline env (drawnSize env (ASTEROID_CATEGORIES cn) (cursor w))
         (drawnVertices env (cursor w)) a.
Proof.
  intros Hu Hsp.
  destruct (camera w) as [worldView|] eqn:Hcam.
  2:{ exfalso. revert Hsp. unfold spawnAsteroidInRegion. rewrite bind_eq. unfold get.
      cbn [fst snd]. rewrite Hcam. unfold ret. cbn [snd]. apply spawnedBy_same_absurd. }
  destruct (GetRandom_active (random env (cursor w)) (Hu _)) as [cn Hcn].
  rewrite (spawnAsteroidInRegion_eq env regionBounds worldView w cn Hcam Hcn) in Hsp |- *.
  cbv zeta in Hsp |- *.
  set (vs := drawnSize env (ASTEROID_CATEGORIES cn) (cursor w)) in *.
  pose proof (regionRetry_spec env worldView regionBounds vs (ASTEROID_CATEGORIES cn)
                SPAWN_MAX_RETRIES (advance 3 w)) as Hspec.
  cbv zeta in Hspec. destruct Hspec as (Hw & Hle & Hres).
  destruct (regionRetry env worldView regionBounds vs (ASTEROID_CATEGORIES cn)
              SPAWN_MAX_RETRIES (advance 3 w)) as [[found tried] w'] eqn:Hrun.
  cbn [fst snd] in *. subst w'. rewrite advance_advance in Hsp |- *.
  destruct found as [[px py]|]; cbn [snd] in Hsp.
  2:{ exfalso. revert Hsp. apply spawnedBy_advance_absurd. }
  destruct Hres as (H1 & Hp & Hok).
  assert (Hatt : attachBody env (nextHandle w) = true).
  { destruct (attachBody env (nextHandle w)) eqn:Hatt; [reflexivity|exfalso].
    destruct (createAsteroid_detached env (regionVelocity env) cn vs
                (hp (ASTEROID_CATEGORIES cn)) (drawnVertices env (cursor w)) px py
                (advance (3 + 2 * tried) w) Hatt) as (a0 & Hrun' & _).
    rewrite Hrun' in Hsp. cbn [snd] in Hsp. revert Hsp.
    apply (spawnedBy_detached_absurd w
             (advance (2 * Z.to_nat (drawnVertices env (cursor w)))
                (advance (3 + 2 * tried) w))); reflexivity. }
  destruct (createAsteroid_made env (regionVelocity env) cn vs
              (hp (ASTEROID_CATEGORIES cn)) (drawnVertices env (cursor w)) px py
              (advance (3 + 2 * tried) w) Hatt (regionVelocity_advances env))
    as (W0 & c0 & k0 & Hmade).
  apply createAsteroid_spawned in Hsp; [|apply regionVelocity_advances].
  destruct Hsp as (W & u & Ha).
  exists worldView, cn, (tried - 1)%nat, W, u. rewrite Ha. cbn [a_x a_y d_points a_gfx].
  split; [reflexivity|]. split; [assumption|].
  split; [rewrite Hp; unfold regionCandidate; rewrite cursor_advance; reflexivity|].
  split; [rewrite <- Hok; reflexivity|].
  split; [rewrite Hmade; reflexivity|]. split; [reflexivity|].
  eexists. split; reflexivity.
Qed.

(** ** Speeds *)

Lemma vecLength_velocityFromRotation (rotation speed : R) :
  0 <= speed -> Phaser.vecLength (Phaser.velocityFromRotation rotation speed) = speed.
Proof.
  intros Hs. unfold Phaser.vecLength, Phaser.velocityFromRotation. cbn [fst snd].
  replace (cos rotation * speed * (cos rotation * speed)
           + sin rotation * speed * (sin rotation * speed))
    with (speed * speed * ((sin rotation)² + (cos rotation)²)) by (unfold Rsqr; ring).
  rewrite sin2_cos2, Rmult_1_r. apply sqrt_square. assumption.
Qed.

Lemma Between_speed (lo hi : Z) (min max u : R) (rotation : R) :
  min = IZR lo -> max = IZR hi -> (0 <= lo <= hi)%Z -> 0 <= u < 1 ->
  IZR lo
  <= Phaser.vecLength (Phaser.velocityFromRotation rotation (IZR (Phaser.Between min max u)))
  <= IZR hi.
Proof.
  intros -> -> Hle Hu.
  pose proof (Between_range lo hi u Hu ltac:(lia)) as [H1 H2].
  rewrite vecLength_velocityFromRotation by (apply IZR_le; lia).
  split; apply IZR_le; assumption.
Qed.

Lemma edgeVelocity_speed (env : Env) worldView px py (w : World) :
  uniformSamples env ->
  ASTEROID_MIN_SPEED <= Phaser.vecLength (fst (edgeVelocity env worldView px py w))
  <= ASTEROID_MAX_SPEED.
Proof.
  intros Hu. unfold edgeVelocity.
  rewrite bind_eq, rand_eq. cbn [fst snd]. rewrite bind_eq, rand_eq. cbn [fst snd].
  rewrite bind_eq, rand_eq. cbn [fst snd]. unfold ret. cbn [fst].
  unfold ASTEROID_MIN_SPEED, ASTEROID_MAX_SPEED.
  apply (Between_speed 30 80); [reflexivity|reflexivity|lia|apply Hu].
Qed.

Lemma regionVelocity_speed (env : Env) (w : World) :
  uniformSamples env ->
  ASTEROID_MIN_SPEED * 0.8 <= Phaser.vecLength (fst (regionVelocity env w))
  <= ASTEROID_MAX_SPEED * 1.1.
Proof.
  intros Hu. unfold regionVelocity.
  rewrite bind_eq, rand_eq. cbn [fst snd]. rewrite bind_eq, rand_eq. cbn [fst snd].
  unfold ret. cbn [fst].
  replace (ASTEROID_MIN_SPEED * 0.8) with (IZR 24) by (unfold ASTEROID_MIN_SPEED; lra).
  replace (ASTEROID_MAX_SPEED * 1.1) with (IZR 88) by (unfold ASTEROID_MAX_SPEED; lra).
  apply (Between_speed 24 88); [reflexivity|reflexivity|lia|apply Hu].
Qed.

Lemma viewVelocity_speed (env : Env) (w : World) :
  uniformSamples env ->
  ASTEROID_MIN_SPEED * 0.5 <= Phaser.vecLength (fst (viewVelocity env w))
  <= ASTEROID_MAX_SPEED * 0.8.
Proof.
  intros Hu. unfold viewVelocity.
  rewrite bind_eq, rand_eq. cbn [fst snd]. rewrite bind_eq, rand_eq. cbn [fst snd].
  unfold ret. cbn [fst].
  replace (ASTEROID_MIN_SPEED * 0.5) with (IZR 15) by (unfold ASTEROID_MIN_SPEED; lra).
  replace (ASTEROID_MAX_SPEED * 0.8) with (IZR 64) by (unfold ASTEROID_MAX_SPEED; lra).
  apply (Between_speed 15 64); [reflexivity|reflexivity|lia|apply Hu].
Qed.

Lemma drawnSize_all (env : Env) (cn : CategoryName) (c : nat) :
  uniformSamples env -> 10 <= drawnSize env (ASTEROID_CATEGORIES cn) c <= 40.
Proof.
  intros Hu. pose proof (drawnSize_range env cn c Hu) as H.
  set (d := drawnSize env (ASTEROID_CATEGORIES cn) c) in *.
  destruct cn; cbn [ASTEROID_CATEGORIES minSize maxSize] in H; lra.
Qed.

Lemma beyondEdge_outside (worldView : Phaser.Rectangle) (size px py : R) :
  beyondEdge worldView size px py ->
  Phaser.Contains worldView px py = false.
Proof.
  unfold beyondEdge, Phaser.Contains, Phaser.left, Phaser.right, Phaser.top, Phaser.bottom,
    SPAWN_BUFFER.
  intros H. destruct (_ || _); [reflexivity|].
  destruct H as [H|[H|[H|H]]].
  - rewrite (bool_decide_eq_false_2 (Phaser.y worldView <= py)) by lra.
    rewrite andb_false_r. reflexivity.
  - rewrite (bool_decide_eq_false_2 (Phaser.x worldView + Phaser.width worldView >= px)) by lra.
    rewrite andb_false_r. reflexivity.
  - rewrite (bool_decide_eq_false_2 (Phaser.y worldView + Phaser.height worldView >= py)) by lra.
    rewrite andb_false_r. reflexivity.
  - rewrite (bool_decide_eq_false_2 (Phaser.x worldView <= px)) by lra. reflexivity.
Qed.

Lemma beyondEdge_in_cleanupBounds (worldView : Phaser.Rectangle) (size px py : R) :
  0 <= Phaser.width worldView -> 0 <= Phaser.height worldView -> size <= 40 ->
  beyondEdge worldView size px py ->
  Phaser.Contains (cleanupBoundsOf worldView CLEANUP_BUFFER) px py = true.
Proof.
  unfold beyondEdge, cleanupBoundsOf, Phaser.Contains, Phaser.left, Phaser.right, Phaser.top,
    Phaser.bottom, SPAWN_BUFFER, CLEANUP_BUFFER.
  intros Hw Hh Hs H. cbn [Phaser.x Phaser.y Phaser.width Phaser.height].
  rewrite (bool_decide_eq_false_2 (Phaser.width worldView + 400 * 2 <= 0)) by lra.
  rewrite (bool_decide_eq_false_2 (Phaser.height worldView + 400 * 2 <= 0)) by lra.
  cbn [orb].
  rewrite !bool_decide_eq_true_2; [reflexivity| | | |];
    destruct H as [H|[H|[H|H]]]; lra.
Qed.

(** ** Directions *)

Lemma cos_minus_PI (x : R) : cos (x - PI) = - cos x.
Proof.
  pose proof (neg_cos (x - PI)) as H. replace (x - PI + PI) with x in H by ring. lra.
Qed.

Lemma sin_minus_PI (x : R) : sin (x - PI) = - sin x.
Proof.
  pose proof (neg_sin (x - PI)) as H. replace (x - PI + PI) with x in H by ring. lra.
Qed.

(** [Math.atan2(dy, dx)] is the direction of the vector [(dx, dy)]. *)
Lemma atan2_direction (dx dy : R) :
  dx <> 0 \/ dy <> 0 ->
  cos (Phaser.atan2 dy dx) * sqrt (dx * dx + dy * dy) = dx
  /\ sin (Phaser.atan2 dy dx) * sqrt (dx * dx + dy * dy) = dy.
Proof.
  intros Hnz. unfold Phaser.atan2.
  assert (Hside : forall t, 0 < sqrt (1 + t²)).
  { intros t. apply sqrt_lt_R0. pose proof (Rle_0_sqr t). lra. }
  destruct (bool_decide (0 < dx)) eqn:Hpos.
  - apply bool_decide_eq_true in Hpos.
    assert (Hr : sqrt (dx * dx + dy * dy) = dx * sqrt (1 + (dy / dx)²)).
    { rewrite <- (sqrt_square dx) at 3 by lra. rewrite <- sqrt_mult_alt by nra.
      f_equal. unfold Rsqr. field. lra. }
    rewrite Hr, cos_atan, sin_atan. pose proof (Hside (dy / dx)).
    split; field; lra.
  - apply bool_decide_eq_false in Hpos.
    destruct (bool_decide (dx < 0)) eqn:Hneg.
    + apply bool_decide_eq_true in Hneg.
      assert (Hr : sqrt (dx * dx + dy * dy) = - dx * sqrt (1 + (dy / dx)²)).
      { rewrite <- (sqrt_square (- dx)) at 1 by lra. rewrite <- sqrt_mult_alt by nra.
        f_equal. unfold Rsqr. field. lra. }
      pose proof (Hside (dy / dx)).
      destruct (bool_decide (0 <= dy)).
      * rewrite Hr, neg_cos, neg_sin, cos_atan, sin_atan. split; field; lra.
      * rewrite Hr, cos_minus_PI, sin_minus_PI, cos_atan, sin_atan. split; field; lra.
    + apply bool_decide_eq_false in Hneg.
      assert (Hdx : dx = 0) by lra. subst dx.
      replace (0 * 0 + dy * dy) with (dy * dy) by ring.
      destruct (bool_decide (0 < dy)) eqn:Hdy.
      * apply bool_decide_eq_true in Hdy.
        rewrite sqrt_square by lra. rewrite cos_PI2, sin_PI2. lra.
      * apply bool_decide_eq_false in Hdy.
        destruct (bool_decide (dy < 0)) eqn:Hdy'.
        -- apply bool_decide_eq_true in Hdy'.
           replace (dy * dy) with (- dy * - dy) by ring. rewrite sqrt_square by lra.
           replace (- PI / 2) with (- (PI / 2)) by lra.
           rewrite cos_neg, sin_neg, cos_PI2, sin_PI2. lra.
        -- apply bool_decide_eq_false in Hdy'. exfalso. destruct Hnz; lra.
Qed.

(** The velocity [edgeVelocity] draws points from the spawn point to a
    point of the view. *)
Lemma edgeVelocity_heading (env : Env) (worldView : Phaser.Rectangle) (px py : R) (w : World) :
  uniformSamples env ->
  0 <= Phaser.width worldView -> 0 <= Phaser.height worldView ->
  px < Phaser.left worldView \/ Phaser.right worldView < px
  \/ py < Phaser.top worldView \/ Phaser.bottom worldView < py ->
  exists targetX targetY factor,
    Phaser.left worldView <= targetX <= Phaser.right worldView
    /\ Phaser.top worldView <= targetY <= Phaser.bottom worldView
    /\ 0 < factor
    /\ fst (edgeVelocity env worldView px py w)
       = (factor * (targetX - px), factor * (targetY - py)).
Proof.
  intros Hu Hw Hh Hout. unfold edgeVelocity.
  rewrite bind_eq, rand_eq. cbn [fst snd]. rewrite bind_eq, rand_eq. cbn [fst snd].
  rewrite bind_eq, rand_eq. cbn [fst snd]. unfold ret. cbn [fst].
  set (targetX := Phaser.FloatBetween (Phaser.left worldView) (Phaser.right worldView) _).
  set (targetY := Phaser.FloatBetween (Phaser.top worldView) (Phaser.bottom worldView) _).
  set (speed := IZR (Phaser.Between _ _ _)).
  assert (HX : Phaser.left worldView <= targetX <= Phaser.right worldView).
  { apply FloatBetween_bounds; [apply Hu|]. unfold Phaser.left, Phaser.right. lra. }
  assert (HY : Phaser.top worldView <= targetY <= Phaser.bottom worldView).
  { apply FloatBetween_bounds; [apply Hu|]. unfold Phaser.top, Phaser.bottom. lra. }
  assert (Hspeed : 30 <= speed).
  { unfold speed, ASTEROID_MIN_SPEED, ASTEROID_MAX_SPEED.
    pose proof (Between_range 30 80 (random env (cursor (advance 1 (advance 1 w)))) (Hu _)
                  ltac:(lia)) as [H1 _].
    apply IZR_le in H1. exact H1. }
  assert (Hnz : targetX - px <> 0 \/ targetY - py <> 0).
  { destruct Hout as [H|[H|[H|H]]]; [left|left|right|right]; lra. }
  unfold Phaser.AngleBetween, Phaser.velocityFromRotation.
  destruct (atan2_direction (targetX - px) (targetY - py) Hnz) as [Hc Hs].
  set (r := sqrt ((targetX - px) * (targetX - px) + (targetY - py) * (targetY - py))) in *.
  assert (Hr : 0 < r).
  { apply sqrt_lt_R0. destruct Hnz as [H|H]; nra. }
  exists targetX, targetY, (speed / r).
  split; [assumption|]. split; [assumption|].
  split; [apply Rdiv_lt_0_compat; lra|].
  f_equal.
  - transitivity (speed / r * (cos (Phaser.atan2 (targetY - py) (targetX - px)) * r));
      [field; lra|rewrite Hc; reflexivity].
  - transitivity (speed / r * (sin (Phaser.atan2 (targetY - py) (targetX - px)) * r));
      [field; lra|rewrite Hs; reflexivity].
Qed.

(** ** Concrete spawns *)

Lemma createAsteroid_spawnedBy env dv cn vs ihp nv x y (w0 : World) (k0 : nat) :
  attachBody env (nextHandle w0) = true ->
  (forall w, exists v k, dv w = (v, advance k w)) ->
  exists a, spawnedBy w0 (snd (createAsteroid env dv cn vs ihp nv x y (advance k0 w0))) a.
Proof.
  intros Hatt Hdv.
  destruct (createAsteroid_made env dv cn vs ihp nv x y (advance k0 w0) Hatt Hdv)
    as (W & c & k & Hrun).
  rewrite Hrun. cbn [snd]. eexists. split.
  - reflexivity.
  - world_cbn. apply lookup_insert_eq.
Qed.

Lemma empty_group_overlaps (w : World) visualSize category px py :
  asteroidsGroup w = [] -> overlaps w visualSize category px py = false.
Proof. intros Hg. unfold overlaps. rewrite Hg. reflexivity. Qed.

Lemma halfEnv_edge_spawn (w : World) :
  startupScene w -> asteroidsGroup w = [] ->
  exists a, spawnedBy w (snd (spawnAsteroid halfEnv w)) a.
Proof.
  intros (Hcam & Hscale & Hpl) Hg.
  rewrite (spawnAsteroid_eq halfEnv window w SM Hcam (halfEnv_category _)).
  cbv zeta. rewrite halfEnv_size.
  rewrite chooseEdge_half by exact Hpl. cbn [fst snd].
  unfold SPAWN_MAX_RETRIES.
  rewrite edgeRetry_half_free by (apply empty_group_overlaps; exact Hg).
  cbn [fst snd]. rewrite !advance_advance.
  apply createAsteroid_spawnedBy; [reflexivity|apply edgeVelocity_advances].
Qed.

Lemma halfEnv_edge_spawnedBy :
  exists a, spawnedBy startup (snd (spawnAsteroid halfEnv startup)) a.
Proof. apply halfEnv_edge_spawn; [repeat split; reflexivity|reflexivity]. Qed.

Lemma zeroEnv_uniform : uniformSamples zeroEnv.
Proof. intros n. simpl. lra. Qed.

Lemma zeroEnv_category (c : nat) : drawnCategory zeroEnv c = Some XS.
Proof.
  unfold drawnCategory, Phaser.GetRandom, ACTIVE_ASTEROID_CATEGORIES, zeroEnv.
  cbn [random length].
  replace (Zfloor (0 * INR 3)) with 0%Z; [reflexivity|].
  symmetry. apply Zfloor_eq. simpl. lra.
Qed.

Lemma zeroEnv_size (c : nat) : drawnSize zeroEnv (ASTEROID_CATEGORIES XS) c = 10.
Proof.
  unfold drawnSize, Phaser.Between, zeroEnv. cbn [random ASTEROID_CATEGORIES minSize maxSize].
  replace (Zfloor (0 * (15 - 10 + 1) + 10)) with 10%Z; [reflexivity|].
  symmetry. apply Zfloor_eq. lra.
Qed.

(** With the stream stuck at 0 the first in-view candidate is the corner
    (10, 10) of the window, far from the player. *)
Lemma zeroEnv_viewRetry (category : Category) (budget : nat) (w : World) :
  asteroidsGroup w = [] ->
  viewRetry zeroEnv 800 600 (800 / 2) (600 / 2) 10 category (S budget) w
  = (Some (10, 10), advance 2 w).
Proof.
  intros Hg. cbn [viewRetry]. cbv zeta.
  rewrite bind_eq, rand_eq. cbn [fst snd].
  rewrite bind_eq, rand_eq. cbn [fst snd]. rewrite advance_advance.
  replace (random zeroEnv (cursor w)) with 0 by reflexivity.
  replace (random zeroEnv (cursor (advance 1 w))) with 0 by reflexivity.
  replace (Phaser.FloatBetween 10 (800 - 10) 0) with 10 by (unfold Phaser.FloatBetween; lra).
  replace (Phaser.FloatBetween 10 (600 - 10) 0) with 10 by (unfold Phaser.FloatBetween; lra).
  rewrite bool_decide_eq_false_2.
  - rewrite bind_eq. unfold get. cbn [fst snd].
    unfold overlapsExact. change (asteroidsGroup (advance (1 + 1) w)) with (asteroidsGroup w).
    rewrite Hg. reflexivity.
  - unfold Phaser.DistanceBetween, PLAYER_INITIAL_SAFE_ZONE_RADIUS. cbv zeta.
    intros Hlt.
    assert (H150 : sqrt (150 * 150) <= sqrt ((10 - 800 / 2) * (10 - 800 / 2)
                                             + (10 - 600 / 2) * (10 - 600 / 2))).
    { apply sqrt_le_1_alt. lra. }
    rewrite sqrt_square in H150 by lra. lra.
Qed.

Lemma zeroEnv_view_spawnedBy :
  exists a, spawnedBy startup (snd (spawnAsteroidInView zeroEnv startup)) a.
Proof.
  rewrite (spawnAsteroidInView_eq zeroEnv window startup XS eq_refl (zeroEnv_category _)).
  cbv zeta. rewrite zeroEnv_size.
  change (scale startup) with (800, 600). cbn [fst snd].
  change (SPAWN_MAX_RETRIES * 2)%nat with (S 29).
  rewrite zeroEnv_viewRetry by reflexivity. cbn [fst snd]. rewrite advance_advance.
  apply createAsteroid_spawnedBy; [reflexivity|apply viewVelocity_advances].
Qed.

(** A region to the right of the startup window, out of view. *)
Lemma halfEnv_region_spawnedBy :
  exists a,
    spawnedBy startup
      (snd (spawnAsteroidInRegion halfEnv (Phaser.mkRectangle 1000 1000 200 200) startup)) a.
Proof.
  rewrite (spawnAsteroidInRegion_eq halfEnv (Phaser.mkRectangle 1000 1000 200 200) window
             startup SM eq_refl (halfEnv_category _)).
  cbv zeta. rewrite halfEnv_size.
  pose proof (regionRetry_spec halfEnv window (Phaser.mkRectangle 1000 1000 200 200) 20
                (ASTEROID_CATEGORIES SM) SPAWN_MAX_RETRIES (advance 3 startup)) as Hspec.
  cbv zeta in Hspec. destruct Hspec as (Hw & _ & Hres).
  destruct (regionRetry halfEnv window (Phaser.mkRectangle 1000 1000 200 200) 20
              (ASTEROID_CATEGORIES SM) SPAWN_MAX_RETRIES (advance 3 startup))
    as [[found tried] w'] eqn:Hrun.
  cbn [fst snd] in *. subst w'.
  destruct found as [[px py]|].
  - rewrite advance_advance.
    apply createAsteroid_spawnedBy; [reflexivity|apply regionVelocity_advances].
  - exfalso. destruct Hres as [_ Hrej].
    specialize (Hrej 0%nat ltac:(unfold SPAWN_MAX_RETRIES; lia)).
    unfold rejected in Hrej. rewrite empty_group_overlaps in Hrej by reflexivity.
    rewrite orb_false_r in Hrej.
    apply Contains_true_inside in Hrej. destruct Hrej as (_ & _ & Hx & _).
    unfold regionCandidate, Phaser.FloatBetween, Phaser.left, Phaser.right, window in Hx.
    cbn [fst Phaser.x Phaser.y Phaser.width Phaser.height halfEnv random] in Hx. lra.
Qed.

(** * Further properties of the spawners *)

(** X1.  An asteroid created by the off-screen edge spawner [spawnAsteroid]
    lies beyond one edge of the camera's view: at least [SPAWN_BUFFER] and
    less than [SPAWN_BUFFER] plus its own size away from that edge, and
    along the edge within the view grown by [SPAWN_BUFFER].  It is therefore
    out of view, and inside the rectangle that
    [cleanupOutOfBoundsAsteroids] keeps. *)
Theorem edge_spawn_lands_off_screen (env : Env) (w : World) (worldView : Phaser.Rectangle)
    (a : Asteroid) :
  uniformSamples env -> camera w = Some worldView ->
  0 <= Phaser.width worldView -> 0 <= Phaser.height worldView ->
  spawnedBy w (snd (spawnAsteroid env w)) a ->
  exists s,
    d_visualSize a = Some s /\ 10 <= s <= 40
    /\ beyondEdge worldView s (a_x a) (a_y a)
    /\ Phaser.Contains worldView (a_x a) (a_y a) = false
    /\ Phaser.Contains (cleanupBoundsOf worldView CLEANUP_BUFFER) (a_x a) (a_y a) = true.
Proof.
  intros Hu Hcam Hw Hh Hsp.
  destruct (spawnAsteroid_spawned env w a Hu Hsp)
    as (worldView' & cn & edge & c & W & u & Hcam' & Hcn & Hedge & Hpos & Hfree & Ha & _).
  rewrite Hcam in Hcam'. injection Hcam' as <-.
  pose proof (drawnSize_all env cn (cursor w) Hu) as Hs.
  set (s := drawnSize env (ASTEROID_CATEGORIES cn) (cursor w)) in *.
  assert (Hbeyond : beyondEdge worldView s (a_x a) (a_y a)).
  { pose proof (edgeCandidate_beyondEdge env worldView edge s (advance c w) Hu Hedge
                  ltac:(lra) Hw Hh) as Hb.
    rewrite <- Hpos in Hb. exact Hb. }
  exists s. split; [rewrite Ha; reflexivity|]. split; [assumption|].
  split; [assumption|]. split.
  - apply (beyondEdge_outside worldView s). assumption.
  - apply (beyondEdge_in_cleanupBounds worldView s); [assumption|assumption|lra|assumption].
Qed.

Lemma edge_spawn_lands_off_screen_witness :
  exists a,
    spawnedBy startup (snd (spawnAsteroid halfEnv startup)) a
    /\ exists s,
         d_visualSize a = Some s /\ 10 <= s <= 40
         /\ beyondEdge window s (a_x a) (a_y a)
         /\ Phaser.Contains window (a_x a) (a_y a) = false
         /\ Phaser.Contains (cleanupBoundsOf window CLEANUP_BUFFER) (a_x a) (a_y a) = true.
Proof.
  destruct halfEnv_edge_spawnedBy as [a Ha]. exists a. split; [exact Ha|].
  apply (edge_spawn_lands_off_screen halfEnv startup window a).
  - exact halfEnv_uniform.
  - reflexivity.
  - unfold window; simpl; lra.
  - unfold window; simpl; lra.
  - exact Ha.
Defined.

(** X2.  An asteroid created by a startup request [spawnAsteroidInView] is
    either placed by the in-view loop, and then its centre is at least
    [PLAYER_INITIAL_SAFE_ZONE_RADIUS] away from the middle of the window,
    where the player starts, and at least its own size away from the
    window's borders (on each axis on which the window is at least twice
    the size wide); or it comes from the fallback to the edge spawner, and
    then it lies beyond an edge of the view. *)
Theorem view_spawn_respects_safe_zone (env : Env) (w : World) (worldView : Phaser.Rectangle)
    (a : Asteroid) :
  uniformSamples env -> camera w = Some worldView ->
  0 <= Phaser.width worldView -> 0 <= Phaser.height worldView ->
  spawnedBy w (snd (spawnAsteroidInView env w)) a ->
  exists s,
    d_visualSize a = Some s /\ 10 <= s <= 40
    /\ ((PLAYER_INITIAL_SAFE_ZONE_RADIUS
         <= Phaser.DistanceBetween (a_x a) (a_y a) (fst (scale w) / 2) (snd (scale w) / 2)
         /\ (2 * s <= fst (scale w) -> s <= a_x a <= fst (scale w) - s)
         /\ (2 * s <= snd (scale w) -> s <= a_y a <= snd (scale w) - s))
        \/ beyondEdge worldView s (a_x a) (a_y a)).
Proof.
  intros Hu Hcam Hw Hh Hsp.
  destruct (spawnAsteroidInView_spawned env w a Hu Hsp)
    as [(cn & c & W & u & Hcn & Hx & Hy & Hsafe & Hfree & Ha & _)|(k & Hfb)].
  - pose proof (drawnSize_all env cn (cursor w) Hu) as Hs.
    set (s := drawnSize env (ASTEROID_CATEGORIES cn) (cursor w)) in *.
    exists s. split; [rewrite Ha; reflexivity|]. split; [assumption|]. left.
    split; [apply Rnot_lt_le; exact Hsafe|]. split.
    + intros Hwide. rewrite Hx. apply FloatBetween_bounds; [apply Hu|lra].
    + intros Hwide. rewrite Hy. apply FloatBetween_bounds; [apply Hu|lra].
  - destruct (spawnAsteroid_spawned env (advance k w) a Hu Hfb)
      as (worldView' & cn & edge & c & W & u & Hcam' & Hcn & Hedge & Hpos & Hfree & Ha & _).
    change (camera (advance k w)) with (camera w) in Hcam'.
    rewrite Hcam in Hcam'. injection Hcam' as <-.
    pose proof (drawnSize_all env cn (cursor (advance k w)) Hu) as Hs.
    set (s := drawnSize env (ASTEROID_CATEGORIES cn) (cursor (advance k w))) in *.
    exists s. split; [rewrite Ha; reflexivity|]. split; [assumption|]. right.
    pose proof (edgeCandidate_beyondEdge env worldView edge s (advance c (advance k w)) Hu
                  Hedge ltac:(lra) Hw Hh) as Hb.
    rewrite <- Hpos in Hb. exact Hb.
Qed.

Lemma view_spawn_respects_safe_zone_witness :
  exists a,
    spawnedBy startup (snd (spawnAsteroidInView zeroEnv startup)) a
    /\ exists s,
         d_visualSize a = Some s /\ 10 <= s <= 40
         /\ ((PLAYER_INITIAL_SAFE_ZONE_RADIUS
              <= Phaser.DistanceBetween (a_x a) (a_y a) (fst (scale startup) / 2)
                   (snd (scale startup) / 2)
              /\ (2 * s <= fst (scale startup) -> s <= a_x a <= fst (scale startup) - s)
              /\ (2 * s <= snd (scale startup) -> s <= a_y a <= snd (scale startup) - s))
             \/ beyondEdge window s (a_x a) (a_y a)).
Proof.
  destruct zeroEnv_view_spawnedBy as [a Ha]. exists a. split; [exact Ha|].
  apply (view_spawn_respects_safe_zone zeroEnv startup window a).
  - exact zeroEnv_uniform.
  - reflexivity.
  - unfold window; simpl; lra.
  - unfold window; simpl; lra.
  - exact Ha.
Defined.



(** X4.  Every spawner gives its asteroid the same kind of body: a circle
    collider of 0.9 times the visual size, centred on the object, the
    group's bounce, a spin between [-ASTEROID_MAX_ROTATION_SPEED] and
    [ASTEROID_MAX_ROTATION_SPEED], and a speed that is between
    [ASTEROID_MIN_SPEED] and [ASTEROID_MAX_SPEED] for the edge spawner,
    between 0.8 and 1.1 times these for the region spawner, and between
    half of [ASTEROID_MIN_SPEED] and [ASTEROID_MAX_SPEED] for a startup
    request (0.8 times [ASTEROID_MAX_SPEED] at most unless the request fell
    back to the edge spawner). *)
Theorem spawned_asteroid_body (env : Env) (w : World) (regionBounds : Phaser.Rectangle)
    (a : Asteroid) :
  uniformSamples env ->
  (spawnedBy w (snd (spawnAsteroid env w)) a ->
   spawnBody a ASTEROID_MIN_SPEED ASTEROID_MAX_SPEED)
  /\ (spawnedBy w (snd (spawnAsteroidInRegion env regionBounds w)) a ->
      spawnBody a (ASTEROID_MIN_SPEED * 0.8) (ASTEROID_MAX_SPEED * 1.1))
  /\ (spawnedBy w (snd (spawnAsteroidInView env w)) a ->
      spawnBody a (ASTEROID_MIN_SPEED * 0.5) (ASTEROID_MAX_SPEED * 0.8)
      \/ spawnBody a ASTEROID_MIN_SPEED ASTEROID_MAX_SPEED).
Proof.
  intros Hu.
  assert (Hedge : forall k, spawnedBy (advance k w) (snd (spawnAsteroid env (advance k w))) a ->
                            spawnBody a ASTEROID_MIN_SPEED ASTEROID_MAX_SPEED).
  { intros k Hk.
    destruct (spawnAsteroid_spawned env (advance k w) a Hu Hk)
      as (worldView & cn & edge & c & W & u & _ & _ & _ & _ & _ & Ha & _).
    rewrite Ha. eexists. eexists. cbn [a_body d_visualSize].
    split; [reflexivity|]. split; [reflexivity|]. cbn [circle offset bounce angularVelocity velocity].
    split; [reflexivity|]. split; [reflexivity|]. split; [reflexivity|].
    split; [apply uniform_spin; assumption|apply edgeVelocity_speed; assumption]. }
  split; [|split].
  - intros Hsp. apply (Hedge 0%nat). rewrite advance_0. exact Hsp.
  - intros Hsp.
    destruct (spawnAsteroidInRegion_spawned env regionBounds w a Hu Hsp)
      as (worldView & cn & i & W & u & _ & _ & _ & _ & _ & Ha & _).
    rewrite Ha. eexists. eexists. cbn [a_body d_visualSize].
    split; [reflexivity|]. split; [reflexivity|]. cbn [circle offset bounce angularVelocity velocity].
    split; [reflexivity|]. split; [reflexivity|]. split; [reflexivity|].
    split; [apply uniform_spin; assumption|apply regionVelocity_speed; assumption].
  - intros Hsp.
    destruct (spawnAsteroidInView_spawned env w a Hu Hsp)
      as [(cn & c & W & u & _ & _ & _ & _ & _ & Ha & _)|(k & Hfb)].
    + left. rewrite Ha. eexists. eexists. cbn [a_body d_visualSize].
      split; [reflexivity|]. split; [reflexivity|].
      cbn [circle offset bounce angularVelocity velocity].
      split; [reflexivity|]. split; [reflexivity|]. split; [reflexivity|].
      split; [apply uniform_spin; assumption|apply viewVelocity_speed; assumption].
    + right. exact (Hedge k Hfb).
Qed.

Lemma spawned_asteroid_body_witness :
  exists a,
    spawnedBy startup
      (snd (spawnAsteroidInRegion halfEnv (Phaser.mkRectangle 1000 1000 200 200) startup)) a
    /\ spawnBody a (ASTEROID_MIN_SPEED * 0.8) (ASTEROID_MAX_SPEED * 1.1).
Proof.
  destruct halfEnv_region_spawnedBy as [a Ha]. exists a. split; [exact Ha|].
  apply (proj1 (proj2 (spawned_asteroid_body halfEnv startup
                         (Phaser.mkRectangle 1000 1000 200 200) a halfEnv_uniform))).
  exact Ha.
Defined.

(** X5.  An asteroid created by the edge spawner heads into the view: its
    velocity is a positive multiple of the vector from its position to some
    point of the camera's view. *)
Theorem edge_spawn_heads_into_view (env : Env) (w : World) (worldView : Phaser.Rectangle)
    (a : Asteroid) :
  uniformSamples env -> camera w = Some worldView ->
  0 <= Phaser.width worldView -> 0 <= Phaser.height worldView ->
  spawnedBy w (snd (spawnAsteroid env w)) a ->
  exists b targetX targetY factor,
    a_body a = Some b
    /\ Phaser.left worldView <= targetX <= Phaser.right worldView
    /\ Phaser.top worldView <= targetY <= Phaser.bottom worldView
    /\ 0 < factor
    /\ velocity b = (factor * (targetX - a_x a), factor * (targetY - a_y a)).
Proof.
  intros Hu Hcam Hw Hh Hsp.
  destruct (spawnAsteroid_spawned env w a Hu Hsp)
    as (worldView' & cn & edge & c & W & u & Hcam' & Hcn & Hedge & Hpos & Hfree & Ha & _).
  rewrite Hcam in Hcam'. injection Hcam' as <-.
  pose proof (drawnSize_all env cn (cursor w) Hu) as Hs.
  set (s := drawnSize env (ASTEROID_CATEGORIES cn) (cursor w)) in *.
  assert (Hbeyond : beyondEdge worldView s (a_x a) (a_y a)).
  { pose proof (edgeCandidate_beyondEdge env worldView edge s (advance c w) Hu Hedge
                  ltac:(lra) Hw Hh) as Hb.
    rewrite <- Hpos in Hb. exact Hb. }
  assert (Hout : a_x a < Phaser.left worldView \/ Phaser.right worldView < a_x a
                 \/ a_y a < Phaser.top worldView \/ Phaser.bottom worldView < a_y a).
  { unfold beyondEdge, SPAWN_BUFFER in Hbeyond.
    destruct Hbeyond as [H|[H|[H|H]]];
      [right; right; left|right; left|right; right; right|left]; lra. }
  destruct (edgeVelocity_heading env worldView (a_x a) (a_y a) W Hu Hw Hh Hout)
    as (targetX & targetY & factor & HX & HY & Hf & Hv).
  exists (mkBody (fst (edgeVelocity env worldView (a_x a) (a_y a) W))
            (Phaser.FloatBetween (- ASTEROID_MAX_ROTATION_SPEED) ASTEROID_MAX_ROTATION_SPEED
               (random env u))
            (s * 0.9) (- (s * 0.9), - (s * 0.9)) ASTEROID_BOUNCE), targetX, targetY, factor.
  split; [rewrite Ha; reflexivity|]. cbn [velocity]. auto.
Qed.

Lemma edge_spawn_heads_into_view_witness :
  exists a,
    spawnedBy startup (snd (spawnAsteroid halfEnv startup)) a
    /\ exists b targetX targetY factor,
         a_body a = Some b
         /\ Phaser.left window <= targetX <= Phaser.right window
         /\ Phaser.top window <= targetY <= Phaser.bottom window
         /\ 0 < factor
         /\ velocity b = (factor * (targetX - a_x a), factor * (targetY - a_y a)).
Proof.
  destruct halfEnv_edge_spawnedBy as [a Ha]. exists a. split; [exact Ha|].
  apply (edge_spawn_heads_into_view halfEnv startup window a).
  - exact halfEnv_uniform.
  - reflexivity.
  - unfold window; simpl; lra.
  - unfold window; simpl; lra.
  - exact Ha.
Defined.

(** * Further properties: damage and timers *)

Lemma destroyBullet_hit (b : nat) (w : World) (bl : Bullet) :
  bulletHeap w !! b = Some bl ->
  destroyBullet b w
  = (tt, set_bulletHeap (insert b (mkBullet (b_x bl) (b_y bl) false false))
           (set_bulletsGroup (filter (fun b' => b' <> b)) w)).
Proof.
  intros Hl. rewrite destroyBullet_eq. f_equal.
  apply world_eq; world_cbn; try reflexivity. rewrite Hl. reflexivity.
Qed.

(** Past its guard the handler destroys the bullet and touches no other
    bullet afterwards. *)
Lemma handleBulletAsteroidCollision_bullets (l : Listing) (bullet asteroid : nat) (w : World)
    (b : Bullet) (a : Asteroid) :
  bulletHeap w !! bullet = Some b -> heap w !! asteroid = Some a ->
  b_active b = true -> a_active a = true -> is_Some (a_body a) ->
  let w' := snd (handleBulletAsteroidCollision l bullet asteroid w) in
  bulletHeap w' = <[bullet := mkBullet (b_x b) (b_y b) false false]> (bulletHeap w)
  /\ bulletsGroup w' = filter (fun b' => b' <> bullet) (bulletsGroup w)
  /\ player w' = player w /\ camera w' = camera w /\ scale w' = scale w
  /\ cursor w' = cursor w /\ nextHandle w' = nextHandle w
  /\ particleEmitter w' = particleEmitter w.
Proof.
  intros Hb Ha Hba Haa Hbody. cbv zeta.
  unfold handleBulletAsteroidCollision. rewrite bind_eq. unfold get. cbn [fst snd].
  rewrite Hb, Ha, Hba, Haa. rewrite bool_decide_eq_true_2 by assumption. cbn [negb orb].
  rewrite bind_eq, (destroyBullet_hit bullet w b Hb). cbn [fst snd].
  destruct (d_hitPoints a) as [n|].
  - rewrite bind_eq. erewrite update_hit by (world_cbn; exact Ha). cbn [fst snd].
    destruct (n - 1 <=? 0)%Z.
    + rewrite bind_eq. erewrite destroyAsteroid_hit.
      * destruct (particleEmitter w) eqn:Hpe; cbn; rewrite ?Hpe; repeat split; reflexivity.
      * destruct (particleEmitter w); cbn; apply lookup_insert_eq.
    + destruct (d_points a) as [pts|]; [|cbn; repeat split; reflexivity].
      destruct (negb (truthy (d_isHit a))); [|cbn; repeat split; reflexivity].
      rewrite bind_eq. erewrite update_hit by solve_lookup. cbn [fst snd].
      rewrite bind_eq.
      match goal with |- context [drawAsteroidShape asteroid (Some pts) ?f ?al ?W] =>
        destruct (drawAsteroidShape_hit asteroid pts f al W
                    (with_isHit true (with_hitPoints (n - 1) a)) ltac:(solve_lookup))
          as [g ->] end.
      cbn. repeat split; reflexivity.
  - erewrite destroyAsteroid_hit by (world_cbn; exact Ha). cbn. repeat split; reflexivity.
Qed.

(** The handler does nothing when its guard fails. *)
Lemma handleBulletAsteroidCollision_guard (l : Listing) (bullet asteroid : nat) (w : World) :
  (forall b, bulletHeap w !! bullet = Some b -> b_active b = false)
  \/ (forall a, heap w !! asteroid = Some a -> a_active a = false \/ a_body a = None) ->
  handleBulletAsteroidCollision l bullet asteroid w = (tt, w).
Proof.
  intros Hguard. unfold handleBulletAsteroidCollision. rewrite bind_eq. unfold get.
  cbn [fst snd].
  destruct (bulletHeap w !! bullet) as [b|]; [|reflexivity].
  destruct (heap w !! asteroid) as [a|]; [|reflexivity].
  destruct Hguard as [Hb|Ha].
  - rewrite (Hb b eq_refl). reflexivity.
  - destruct (Ha a eq_refl) as [H|H]; rewrite H.
    + rewrite orb_true_r. reflexivity.
    + rewrite bool_decide_eq_false_2 by (intros [x Hx]; discriminate).
      rewrite orb_true_r. reflexivity.
Qed.

(** A hit the asteroid survives leaves it where it is, active, with its
    body and its outline data, and one hit point less. *)
Lemma surviving_hit (l : Listing) (bullet asteroid : nat) (w : World)
    (b : Bullet) (a : Asteroid) (n : Z) :
  bulletHeap w !! bullet = Some b -> heap w !! asteroid = Some a ->
  b_active b = true -> a_active a = true -> is_Some (a_body a) ->
  d_hitPoints a = Some n -> (1 < n)%Z ->
  let w' := snd (handleBulletAsteroidCollision l bullet asteroid w) in
  exists a',
    heap w' = <[asteroid := a']> (heap w)
    /\ a_active a' = true /\ a_body a' = a_body a
    /\ a_x a' = a_x a /\ a_y a' = a_y a
    /\ d_hitPoints a' = Some (n - 1)%Z /\ d_points a' = d_points a
    /\ d_category a' = d_category a /\ d_visualSize a' = d_visualSize a
    /\ asteroidsGroup w' = asteroidsGroup w
    /\ explosions w' = explosions w.
Proof.
  intros Hb Ha Hba Haa Hbody Hhp Hn. cbv zeta.
  destruct (d_points a) as [pts|] eqn:Hpts.
  - destruct (truthy (d_isHit a)) eqn:Hhit.
    + assert (Hflag : d_isHit a = Some true).
      { destruct (d_isHit a) as [[|]|]; try discriminate. reflexivity. }
      rewrite (hit_while_flashing l bullet asteroid w b a n Hb Ha Hba Haa Hbody Hhp Hn Hflag).
      cbn [snd]. rewrite destroyBullet_eq. cbn [snd]. world_cbn.
      eexists. split; [reflexivity|]. cbn. repeat split; auto.
    + destruct (flashing_hit l bullet asteroid w b a n pts Hb Ha Hba Haa Hbody Hhp Hn Hpts
                  Hhit) as [g ->].
      cbn [snd]. rewrite destroyBullet_eq. cbn [snd]. world_cbn.
      eexists. split; [reflexivity|]. cbn. repeat split; auto.
  - unfold handleBulletAsteroidCollision. rewrite bind_eq. unfold get. cbn [fst snd].
    rewrite Hb, Ha, Hba, Haa. rewrite bool_decide_eq_true_2 by assumption. cbn [negb orb].
    rewrite bind_eq, destroyBullet_eq. cbn [fst snd]. rewrite Hhp.
    rewrite bind_eq. erewrite update_hit by (world_cbn; exact Ha). cbn [fst snd].
    replace (n - 1 <=? 0)%Z with false by (symmetry; apply Z.leb_gt; lia).
    rewrite Hpts. unfold ret. cbn [snd]. world_cbn.
    eexists. split; [reflexivity|]. cbn. repeat split; auto.
Qed.

(** The first hit on an asteroid that is not flashing, with the drawing the
    hit leaves. *)
Lemma flashing_hit_drawn (l : Listing) (bullet asteroid : nat) (w : World)
    (b : Bullet) (a : Asteroid) (n : Z) (pts : list Point) :
  bulletHeap w !! bullet = Some b -> heap w !! asteroid = Some a ->
  b_active b = true -> a_active a = true -> is_Some (a_body a) ->
  d_hitPoints a = Some n -> (1 < n)%Z -> d_points a = Some pts ->
  (3 <= length pts)%nat -> truthy (d_isHit a) = false ->
  handleBulletAsteroidCollision l bullet asteroid w
  = (tt, set_timers (fun ts => ts ++ [mkFlashRevert l asteroid pts])
           (set_heap (insert asteroid
                        (with_gfx (Drawn pts (Some (ASTEROID_HIT_FILL_COLOR,
                                                    ASTEROID_HIT_FILL_ALPHA)))
                           (with_isHit true (with_hitPoints (n - 1) a))))
              (snd (destroyBullet bullet w)))).
Proof.
  intros Hb Ha Hba Haa Hbody Hhp Hn Hpts Hlen Hhit.
  unfold handleBulletAsteroidCollision. rewrite bind_eq. unfold get. cbn [fst snd].
  rewrite Hb, Ha, Hba, Haa. rewrite bool_decide_eq_true_2 by assumption. cbn [negb orb].
  rewrite bind_eq, destroyBullet_eq. cbn [fst snd]. rewrite Hhp.
  rewrite bind_eq. erewrite update_hit by (world_cbn; exact Ha). cbn [fst snd].
  replace (n - 1 <=? 0)%Z with false by (symmetry; apply Z.leb_gt; lia).
  rewrite Hpts, Hhit. cbn [negb].
  rewrite bind_eq. erewrite update_hit by solve_lookup. cbn [fst snd].
  rewrite bind_eq. unfold drawAsteroidShape.
  replace (length pts <? 3)%nat with false by (symmetry; apply Nat.ltb_ge; lia).
  erewrite update_hit by solve_lookup. cbn [fst snd]. unfold modify. f_equal.
  apply world_eq; world_cbn; rewrite ?insert_insert_eq; reflexivity.
Qed.

(** The revert closure when its guard holds. *)
Lemma flashRevert_runs (t : FlashRevert) (w : World) (a : Asteroid) :
  heap w !! fr_asteroid t = Some a -> revertGuard (fr_listing t) a = true ->
  (3 <= length (fr_points t))%nat ->
  flashRevert t w
  = (tt, set_heap (insert (fr_asteroid t)
                     (with_isHit false (with_gfx (Drawn (fr_points t) None) a))) w).
Proof.
  intros Hl Hg Hlen. unfold flashRevert. rewrite bind_eq. unfold get. cbn [fst snd].
  rewrite Hl, Hg. rewrite bind_eq. unfold drawAsteroidShape.
  replace (length (fr_points t) <? 3)%nat with false by (symmetry; apply Nat.ltb_ge; lia).
  rewrite (update_hit (fr_asteroid t) _ w a Hl). cbn [fst snd].
  erewrite update_hit by solve_lookup. f_equal.
  apply world_eq; world_cbn; rewrite ?insert_insert_eq; reflexivity.
Qed.

Lemma revertGuard_alive (l : Listing) (a : Asteroid) (n : Z) :
  a_active a = true -> d_hitPoints a = Some n -> (0 < n)%Z -> revertGuard l a = true.
Proof.
  intros Hact Hhp Hn. unfold revertGuard. rewrite Hact, Hhp.
  replace (0 <? n)%Z with true by (symmetry; apply Z.ltb_lt; lia).
  destruct (revertChecksHp l); reflexivity.
Qed.

(** * Further properties of the damage handler *)

(** X6.  The hit flash is a round trip.  A hit that an asteroid survives
    while it is not flashing redraws it filled with the hit colour, sets
    [isHit] and schedules one revert callback; when that callback fires, the
    asteroid is drawn as a plain outline again, [isHit] is false and the
    callback is gone.  After both, the asteroid differs from what it was
    before the hit only by its hit points, one fewer, and by showing its
    stored outline; no other asteroid has changed. *)
Theorem flash_round_trip (l : Listing) (bullet h : nat) (w : World) (b : Bullet)
    (a : Asteroid) (n : Z) (pts : list Point) :
  bulletHeap w !! bullet = Some b -> heap w !! h = Some a ->
  b_active b = true -> a_active a = true -> is_Some (a_body a) ->
  d_hitPoints a = Some n -> (1 < n)%Z -> d_points a = Some pts ->
  (3 <= length pts)%nat -> truthy (d_isHit a) = false ->
  let w1 := snd (handleBulletAsteroidCollision l bullet h w) in
  let w2 := snd (fireTimer (length (timers w)) w1) in
  heap w1 !! h
  = Some (with_gfx (Drawn pts (Some (ASTEROID_HIT_FILL_COLOR, ASTEROID_HIT_FILL_ALPHA)))
            (with_isHit true (with_hitPoints (n - 1) a)))
  /\ timers w1 = timers w ++ [mkFlashRevert l h pts]
  /\ heap w2 !! h
     = Some (with_gfx (Drawn pts None) (with_isHit false (with_hitPoints (n - 1) a)))
  /\ timers w2 = timers w
  /\ (forall h', h' <> h -> heap w2 !! h' = heap w !! h')
  /\ asteroidsGroup w2 = asteroidsGroup w.
Proof.
  intros Hb Ha Hba Haa Hbody Hhp Hn Hpts Hlen Hhit w1 w2.
  assert (Hw1 : w1 = set_timers (fun ts => ts ++ [mkFlashRevert l h pts])
             (set_heap (insert h
                          (with_gfx (Drawn pts (Some (ASTEROID_HIT_FILL_COLOR,
                                                      ASTEROID_HIT_FILL_ALPHA)))
                             (with_isHit true (with_hitPoints (n - 1) a))))
                (snd (destroyBullet bullet w)))).
  { unfold w1. rewrite (flashing_hit_drawn l bullet h w b a n pts); auto. }
  set (a1 := with_gfx _ (with_isHit true (with_hitPoints (n - 1) a))) in *.
  assert (Ht1 : timers w1 = timers w ++ [mkFlashRevert l h pts]).
  { rewrite Hw1. world_cbn. rewrite destroyBullet_eq. reflexivity. }
  assert (Hh1 : heap w1 = <[h := a1]> (heap w)).
  { rewrite Hw1. world_cbn. rewrite destroyBullet_eq. reflexivity. }
  assert (Hg1 : asteroidsGroup w1 = asteroidsGroup w).
  { rewrite Hw1. world_cbn. rewrite destroyBullet_eq. reflexivity. }
  assert (Hfire : w2 = set_heap (insert h (with_isHit false (with_gfx (Drawn pts None) a1)))
                         (set_timers (delete (length (timers w))) w1)).
  { unfold w2, fireTimer. rewrite bind_eq. unfold get. cbn [fst snd].
    rewrite Ht1. rewrite lookup_app_r by lia. rewrite Nat.sub_diag. cbn [lookup list_lookup].
    rewrite bind_eq. unfold modify. cbn [fst snd].
    erewrite (flashRevert_runs (mkFlashRevert l h pts)).
    - reflexivity.
    - cbn [fr_asteroid]. world_cbn. rewrite Hh1. apply lookup_insert_eq.
    - cbn [fr_listing]. apply (revertGuard_alive l a1 (n - 1)); [assumption|reflexivity|lia].
    - exact Hlen. }
  split; [rewrite Hh1; apply lookup_insert_eq|]. split; [exact Ht1|].
  split; [rewrite Hfire; world_cbn; rewrite lookup_insert_eq; reflexivity|].
  split.
  - rewrite Hfire. world_cbn. rewrite Ht1.
    rewrite delete_middle. apply app_nil_r.
  - split.
    + intros h' Hne. rewrite Hfire. world_cbn. rewrite lookup_insert_ne by auto.
      rewrite Hh1. apply lookup_insert_ne. auto.
    + rewrite Hfire. world_cbn. exact Hg1.
Qed.

Lemma flash_round_trip_witness :
  heap (snd (fireTimer (length (timers firingRange))
               (snd (handleBulletAsteroidCollision Proactive 1 0 firingRange)))) !! 0%nat
  = Some (with_gfx (Drawn hexagon None) (with_isHit false (with_hitPoints (3 - 1) rock))).
Proof.
  refine (proj1 (proj2 (proj2
    (flash_round_trip Proactive 1 0 firingRange shot rock 3 hexagon _ _ _ _ _ _ _ _ _ _)))).
  - reflexivity.
  - reflexivity.
  - reflexivity.
  - reflexivity.
  - eexists. reflexivity.
  - reflexivity.
  - lia.
  - reflexivity.
  - simpl. lia.
  - reflexivity.
Defined.

(** X7.  A bullet damages at most once.  When a bullet hits an active
    asteroid that has a body, the handler destroys the bullet (it leaves
    [bulletsGroup] and becomes inactive) whatever happens to the asteroid;
    any later call of the handler with the same bullet, against any
    asteroid, changes nothing. *)
Theorem bullet_hits_only_once (l l' : Listing) (bullet h h' : nat) (w : World)
    (b : Bullet) (a : Asteroid) :
  bulletHeap w !! bullet = Some b -> heap w !! h = Some a ->
  b_active b = true -> a_active a = true -> is_Some (a_body a) ->
  let w1 := snd (handleBulletAsteroidCollision l bullet h w) in
  (bullet ∉ bulletsGroup w1)
  /\ bulletHeap w1 !! bullet = Some (mkBullet (b_x b) (b_y b) false false)
  /\ (forall b', b' <> bullet -> bulletHeap w1 !! b' = bulletHeap w !! b')
  /\ handleBulletAsteroidCollision l' bullet h' w1 = (tt, w1).
Proof.
  intros Hb Ha Hba Haa Hbody w1.
  destruct (handleBulletAsteroidCollision_bullets l bullet h w b a Hb Ha Hba Haa Hbody)
    as (Hbh & Hbg & _).
  fold w1 in Hbh, Hbg.
  assert (Hl1 : bulletHeap w1 !! bullet = Some (mkBullet (b_x b) (b_y b) false false)).
  { rewrite Hbh. apply lookup_insert_eq. }
  split.
  { rewrite Hbg. intros Hin. apply list_elem_of_filter in Hin. destruct Hin as [Hne _].
    apply Hne. reflexivity. }
  split; [exact Hl1|]. split.
  - intros b' Hne. rewrite Hbh. apply lookup_insert_ne. auto.
  - apply handleBulletAsteroidCollision_guard. left.
    intros b0 Hb0. rewrite Hl1 in Hb0. injection Hb0 as <-. reflexivity.
Qed.

Lemma bullet_hits_only_once_witness :
  handleBulletAsteroidCollision Proactive 1 0
    (snd (handleBulletAsteroidCollision Proactive 1 0 firingRange))
  = (tt, snd (handleBulletAsteroidCollision Proactive 1 0 firingRange)).
Proof.
  refine (proj2 (proj2 (proj2
    (bullet_hits_only_once Proactive Proactive 1 0 0 firingRange shot rock _ _ _ _ _)))).
  - reflexivity.
  - reflexivity.
  - reflexivity.
  - reflexivity.
  - eexists. reflexivity.
Defined.

(** X8.  An asteroid that is hit while it carries no [hitPoints] entry is
    removed as invalid: it leaves the group and is destroyed, the bullet is
    destroyed too, and, unlike a kill, no explosion is emitted and no revert
    is scheduled. *)
Theorem hit_without_hit_points_removes (l : Listing) (bullet h : nat) (w : World)
    (b : Bullet) (a : Asteroid) :
  bulletHeap w !! bullet = Some b -> heap w !! h = Some a ->
  b_active b = true -> a_active a = true -> is_Some (a_body a) ->
  d_hitPoints a = None ->
  let w' := snd (handleBulletAsteroidCollision l bullet h w) in
  heap w' = <[h := destroyed a]> (heap w)
  /\ asteroidsGroup w' = filter (fun h' => h' <> h) (asteroidsGroup w)
  /\ (bullet ∉ bulletsGroup w')
  /\ explosions w' = explosions w
  /\ timers w' = timers w.
Proof.
  intros Hb Ha Hba Haa Hbody Hhp w'.
  destruct (handleBulletAsteroidCollision_bullets l bullet h w b a Hb Ha Hba Haa Hbody)
    as (_ & Hbg & _).
  fold w' in Hbg.
  assert (Hw' : w' = set_heap (insert h (destroyed a))
                       (set_asteroidsGroup (filter (fun h' => h' <> h))
                          (snd (destroyBullet bullet w)))).
  { unfold w', handleBulletAsteroidCollision. rewrite bind_eq. unfold get. cbn [fst snd].
    rewrite Hb, Ha, Hba, Haa. rewrite bool_decide_eq_true_2 by assumption. cbn [negb orb].
    rewrite bind_eq, destroyBullet_eq. cbn [fst snd]. rewrite Hhp.
    erewrite destroyAsteroid_hit by (world_cbn; exact Ha). reflexivity. }
  split; [rewrite Hw'; world_cbn; rewrite destroyBullet_eq; reflexivity|].
  split; [rewrite Hw'; world_cbn; rewrite destroyBullet_eq; reflexivity|].
  split.
  { rewrite Hbg. intros Hin. apply list_elem_of_filter in Hin. destruct Hin as [Hne _].
    apply Hne. reflexivity. }
  split; rewrite Hw'; world_cbn; rewrite destroyBullet_eq; reflexivity.
Qed.

Lemma hit_without_hit_points_removes_witness :
  asteroidsGroup
    (snd (handleBulletAsteroidCollision Proactive 1 0
            (set_heap (fun _ => {[0%nat := with_body (Some groupBody) newGraphics]})
               firingRange)))
  = filter (fun h' => h' <> 0%nat) [0%nat].
Proof.
  refine (proj1 (proj2
    (hit_without_hit_points_removes Proactive 1 0
       (set_heap (fun _ => {[0%nat := with_body (Some groupBody) newGraphics]}) firingRange)
       shot (with_body (Some groupBody) newGraphics) _ _ _ _ _ _))).
  - reflexivity.
  - reflexivity.
  - reflexivity.
  - reflexivity.
  - eexists. reflexivity.
  - reflexivity.
Defined.

Lemma volley_inert (l : Listing) (h : nat) (bullets : list nat) (w : World) :
  (forall a, heap w !! h = Some a -> a_active a = false \/ a_body a = None) ->
  volley l h bullets w = w.
Proof.
  intros Hdead. unfold volley. induction bullets as [|b rest IH]; [reflexivity|].
  cbn [foldl]. rewrite handleBulletAsteroidCollision_guard by (right; exact Hdead).
  exact IH.
Qed.

(** X9.  It takes as many hits as it has hit points to destroy an asteroid.
    When distinct live bullets hit, one after the other, an active asteroid
    with [n > 0] hit points, the asteroid stays in the group, active, with
    [n - k] hit points after [k < n] hits; the [n]-th hit removes it from
    the group and deactivates it, and hits after that change nothing. *)
Theorem hits_to_destroy (l : Listing) (h : nat) (bullets : list nat) (w : World)
    (a : Asteroid) (n : Z) :
  NoDup bullets ->
  (forall b, b ∈ bullets -> exists bl, bulletHeap w !! b = Some bl /\ b_active bl = true) ->
  heap w !! h = Some a -> a_active a = true -> is_Some (a_body a) ->
  d_hitPoints a = Some n -> (0 < n)%Z ->
  let w' := volley l h bullets w in
  (Z.of_nat (length bullets) < n ->
   asteroidsGroup w' = asteroidsGroup w
   /\ exists a', heap w' !! h = Some a' /\ a_active a' = true
                 /\ d_hitPoints a' = Some (n - Z.of_nat (length bullets)))%Z
  /\ (n <= Z.of_nat (length bullets) ->
      asteroidsGroup w' = filter (fun h' => h' <> h) (asteroidsGroup w)
      /\ exists a', heap w' !! h = Some a' /\ a_active a' = false)%Z.
Proof.
  revert w a n. induction bullets as [|b rest IH]; intros w a n Hnd Hlive Ha Hact Hbody Hhp Hn.
  - cbn. split.
    + intros _. split; [reflexivity|]. exists a. rewrite Z.sub_0_r. auto.
    + intros Hle. lia.
  - apply NoDup_cons in Hnd. destruct Hnd as [Hnotin Hnd].
    destruct (Hlive b ltac:(left)) as (bl & Hbl & Hbla).
    cbv zeta. unfold volley. cbn [foldl].
    set (w1 := snd (handleBulletAsteroidCollision l b h w)).
    change (foldl _ w1 rest) with (volley l h rest w1).
    destruct (handleBulletAsteroidCollision_bullets l b h w bl a Hbl Ha Hbla Hact Hbody)
      as (Hbh & _).
    fold w1 in Hbh.
    assert (Hlive1 : forall b', b' ∈ rest ->
              exists bl', bulletHeap w1 !! b' = Some bl' /\ b_active bl' = true).
    { intros b' Hin. destruct (Hlive b' ltac:(right; exact Hin)) as (bl' & Hl' & Ha').
      exists bl'. split; [|assumption]. rewrite Hbh. rewrite lookup_insert_ne; [assumption|].
      intros ->. contradiction. }
    destruct (Z_le_gt_dec n 1) as [Hlast|Hmore].
    + destruct (lethal_hit l b h w bl a n Hbl Ha Hbla Hact Hbody Hhp ltac:(lia))
        as (Hh1 & Hg1 & _).
      fold w1 in Hh1, Hg1.
      rewrite volley_inert.
      * cbn [length]. split; [intros Hlt; lia|]. intros _.
        split; [exact Hg1|]. eexists. split; [rewrite Hh1; apply lookup_insert_eq|reflexivity].
      * intros a0 Ha0. rewrite Hh1, lookup_insert_eq in Ha0. injection Ha0 as <-.
        left. reflexivity.
    + destruct (surviving_hit l b h w bl a n Hbl Ha Hbla Hact Hbody Hhp ltac:(lia))
        as (a1 & Hh1 & Hact1 & Hbody1 & _ & _ & Hhp1 & _ & _ & _ & Hg1 & _).
      fold w1 in Hh1, Hg1.
      assert (Ha1 : heap w1 !! h = Some a1) by (rewrite Hh1; apply lookup_insert_eq).
      assert (Hb1 : is_Some (a_body a1)) by (rewrite Hbody1; assumption).
      specialize (IH w1 a1 (n - 1)%Z Hnd Hlive1 Ha1 Hact1 Hb1 Hhp1 ltac:(lia)).
      cbv zeta in IH. destruct IH as [IHlt IHge]. cbn [length]. split.
      * intros Hlt. destruct (IHlt ltac:(lia)) as (Hg & a' & Hl' & Hact' & Hhp').
        split; [rewrite Hg; exact Hg1|]. exists a'. split; [assumption|].
        split; [assumption|]. rewrite Hhp'. f_equal. lia.
      * intros Hge. destruct (IHge ltac:(lia)) as (Hg & a' & Hl' & Hact').
        split; [rewrite Hg, Hg1; reflexivity|]. exists a'. auto.
Qed.

Lemma hits_to_destroy_witness :
  asteroidsGroup (volley Proactive 0 [1%nat; 2%nat; 3%nat] firingRange)
  = filter (fun h' => h' <> 0%nat) (asteroidsGroup firingRange).
Proof.
  refine (proj1 (proj2
    (hits_to_destroy Proactive 0 [1%nat; 2%nat; 3%nat] firingRange rock 3 _ _ _ _ _ _ _) _)).
  - repeat constructor; rewrite ?elem_of_cons, ?elem_of_nil; lia.
  - intros b Hb. exists shot. split; [|reflexivity].
    repeat (apply elem_of_cons in Hb; destruct Hb as [->|Hb]; [reflexivity|]).
    inversion Hb.
  - reflexivity.
  - reflexivity.
  - eexists. reflexivity.
  - reflexivity.
  - lia.
  - simpl. lia.
Defined.

(** X10.  A destroyed asteroid is inert.  Once an asteroid object is
    inactive, no entry point of the game acts on it any more: a bullet
    overlapping it is not consumed and does no damage, a collision with the
    player does nothing, a pending revert callback for it does nothing, the
    overlap oracle does not see it, and the density controller does not
    count it. *)
Theorem destroyed_asteroid_is_inert (w : World) (h : nat) (a : Asteroid) :
  heap w !! h = Some a -> a_active a = false ->
  (forall l bullet, handleBulletAsteroidCollision l bullet h w = (tt, w))
  /\ handlePlayerAsteroidCollision h w = (tt, w)
  /\ (forall t, fr_asteroid t = h -> flashRevert t w = (tt, w))
  /\ (forall visualSize category px py, ~ tooClose w visualSize category px py h)
  /\ (forall worldView pl i, countsFor w worldView pl i h = false).
Proof.
  intros Hl Hina. split; [|split; [|split; [|split]]].
  - intros l bullet. apply handleBulletAsteroidCollision_guard. right.
    intros a0 Ha0. rewrite Hl in Ha0. injection Ha0 as <-. left. assumption.
  - unfold handlePlayerAsteroidCollision. rewrite bind_eq. unfold get. cbn [fst snd].
    rewrite Hl, Hina. destruct (player w) as [pl|]; [|reflexivity].
    cbn [negb]. rewrite orb_true_r. reflexivity.
  - intros t <-. apply (flashRevert_guard_fails t w a Hl).
    apply revertGuard_inactive. assumption.
  - intros visualSize category px py (a0 & Ha0 & Hact & _).
    rewrite Hl in Ha0. injection Ha0 as <-. congruence.
  - intros worldView pl i. unfold countsFor. rewrite Hl, Hina. reflexivity.
Qed.

Lemma destroyed_asteroid_is_inert_witness :
  handlePlayerAsteroidCollision 0 (set_heap (fun _ => {[0%nat := destroyed rock]}) firingRange)
  = (tt, set_heap (fun _ => {[0%nat := destroyed rock]}) firingRange).
Proof.
  refine (proj1 (proj2
    (destroyed_asteroid_is_inert
       (set_heap (fun _ => {[0%nat := destroyed rock]}) firingRange) 0 (destroyed rock) _ _))).
  - reflexivity.
  - reflexivity.
Defined.

(** X11.  A collision of the active player with an active asteroid that has
    a body destroys the asteroid whatever its hit points: it leaves the
    group and is deactivated, one explosion is emitted at its position (when
    the emitter exists), and nothing else changes: not the player, not the
    bullets, not the pending reverts, not any other asteroid. *)
Theorem player_collision_destroys (w : World) (h : nat) (pl : Player) (a : Asteroid) :
  player w = Some pl -> pl_active pl = true ->
  heap w !! h = Some a -> a_active a = true -> is_Some (a_body a) ->
  handlePlayerAsteroidCollision h w
  = (tt, set_heap (insert h (destroyed a))
           (set_asteroidsGroup (filter (fun h' => h' <> h))
              (set_explosions (fun e => if particleEmitter w then e ++ [(a_x a, a_y a)] else e)
                 w))).
Proof.
  intros Hpl Hpa Ha Hact Hbody.
  unfold handlePlayerAsteroidCollision. rewrite bind_eq. unfold get. cbn [fst snd].
  rewrite Hpl, Ha, Hpa, Hact. rewrite bool_decide_eq_true_2 by assumption. cbn [negb orb].
  rewrite bind_eq. destruct (particleEmitter w) eqn:Hpe.
  - unfold modify at 1. cbn [fst snd].
    erewrite destroyAsteroid_hit by (world_cbn; exact Ha). reflexivity.
  - unfold ret at 1. cbn [fst snd].
    erewrite destroyAsteroid_hit by exact Ha. reflexivity.
Qed.

Lemma player_collision_destroys_witness :
  handlePlayerAsteroidCollision 0 firingRange
  = (tt, set_heap (insert 0%nat (destroyed rock))
           (set_asteroidsGroup (filter (fun h' => h' <> 0%nat))
              (set_explosions
                 (fun e => if particleEmitter firingRange then e ++ [(a_x rock, a_y rock)]
                           else e)
                 firingRange))).
Proof.
  refine (player_collision_destroys firingRange 0 (mkPlayer 400 300 true (Some (0, 0))) rock
            _ _ _ _ _).
  - reflexivity.
  - reflexivity.
  - reflexivity.
  - reflexivity.
  - eexists. reflexivity.
Defined.

(** * Further properties: cleanup *)












(** * Further properties of the cleanup *)





(** ** A proactive spawn at the rim of the generation window *)

Lemma startupTopLeft_is_quadrant :
  quadrantsOf window (mkPlayer (800 / 2) (600 / 2) true (Some (0, 0))) !! 0%nat
  = Some (mkQuadrant TopLeft startupTopLeft).
Proof.
  unfold quadrantsOf, genBoundsOf, startupTopLeft, window, Phaser.left, Phaser.top,
    PROACTIVE_GENERATION_RADIUS_MULTIPLIER.
  cbn [lookup list_lookup Phaser.x Phaser.y Phaser.width Phaser.height pl_x pl_y].
  f_equal. f_equal. f_equal; lra.
Qed.



Lemma spawnOutcome_camera (w w' : World) : spawnOutcome w w' -> camera w' = camera w.
Proof. intros [k ->|a k -> _ _ _|a k -> _]; reflexivity. Qed.



(** * Further properties: shooting and the grid *)

Lemma shootBullet_group (env : Env) (tip : R * R) (w : World) :
  (length (bulletsGroup (snd (shootBullet env tip w))) <= length (bulletsGroup w) + 1)%nat.
Proof.
  unfold shootBullet. rewrite bind_eq. unfold get. cbn [fst snd].
  destruct (player w) as [pl|]; [|cbn; lia].
  destruct (negb (pl_active pl) || negb (bool_decide (is_Some (pl_body pl)))); [cbn; lia|].
  rewrite !bind_eq. unfold modify. cbn [fst snd].
  destruct (attachBody env (nextHandle w)).
  - cbn. rewrite length_app. cbn. lia.
  - rewrite destroyBullet_eq. cbn [snd]. world_cbn.
    etransitivity; [apply length_filter|]. rewrite length_app. cbn. lia.
Qed.

(** While the clock has not passed [lastFiredTime + BULLET_COOLDOWN],
    nothing is fired, whatever the space key does. *)
Lemma shootingOver_cooling (env : Env) (frames : list Frame) (lastFiredTime : R) (w : World) :
  (forall f, f ∈ frames -> f_time f <= lastFiredTime + BULLET_COOLDOWN) ->
  shootingOver env frames lastFiredTime w = (lastFiredTime, w).
Proof.
  induction frames as [|f rest IH]; intros Hcool; [reflexivity|].
  cbn [shootingOver]. rewrite bind_eq. unfold handleShooting.
  rewrite (bool_decide_eq_false_2 (f_time f > lastFiredTime + BULLET_COOLDOWN)).
  - rewrite andb_false_r. unfold ret at 1. cbn [fst snd].
    apply IH. intros f' Hin. apply Hcool. right. assumption.
  - pose proof (Hcool f ltac:(left)). lra.
Qed.

Lemma gridLoop_done (fuel : nat) (x endX : R) (line : R -> Line) :
  endX <= x -> gridLoop fuel x endX line = [].
Proof.
  intros Hle. destruct fuel; [reflexivity|]. cbn [gridLoop].
  rewrite bool_decide_eq_false_2 by lra. reflexivity.
Qed.

(** With enough fuel the loop draws one line per multiple of [GRID_SIZE]
    from the start up to, but not including, the end. *)
Lemma gridLoop_lines (line : R -> Line) (n : nat) :
  forall (fuel : nat) (a : Z),
    (n <= fuel)%nat ->
    gridLoop fuel (IZR a * GRID_SIZE) (IZR (a + Z.of_nat n) * GRID_SIZE) line
    = (fun k => line (IZR k * GRID_SIZE)) <$> seqZ a (Z.of_nat n).
Proof.
  induction n as [|n IH]; intros fuel a Hfuel.
  - rewrite gridLoop_done; [reflexivity|]. rewrite Z.add_0_r. lra.
  - destruct fuel as [|fuel]; [lia|]. cbn [gridLoop].
    rewrite bool_decide_eq_true_2.
    + rewrite seqZ_cons by lia. cbn [fmap list_fmap]. f_equal.
      replace (IZR a * GRID_SIZE + GRID_SIZE) with (IZR (Z.succ a) * GRID_SIZE)
        by (rewrite succ_IZR; ring).
      replace (a + Z.of_nat (S n))%Z with (Z.succ a + Z.of_nat n)%Z by lia.
      replace (Z.pred (Z.of_nat (S n))) with (Z.of_nat n) by lia.
      apply IH. lia.
    + rewrite plus_IZR. rewrite <- INR_IZR_INZ.
      pose proof (pos_INR n). rewrite S_INR. unfold GRID_SIZE. nra.
Qed.

Lemma gridLoop_range (line : R -> Line) (fuel : nat) (lo hi : R) :
  (gridSteps lo hi <= fuel)%nat ->
  gridLoop fuel (IZR (Zfloor (lo / GRID_SIZE)) * GRID_SIZE)
    (IZR (Zceil (hi / GRID_SIZE)) * GRID_SIZE) line
  = (fun k => line (IZR k * GRID_SIZE))
    <$> seqZ (Zfloor (lo / GRID_SIZE)) (Zceil (hi / GRID_SIZE) - Zfloor (lo / GRID_SIZE)).
Proof.
  unfold gridSteps. intros Hfuel.
  set (a := Zfloor (lo / GRID_SIZE)) in *. set (c := Zceil (hi / GRID_SIZE)) in *.
  destruct (Z_le_gt_dec a c) as [Hle|Hgt].
  - replace c with (a + Z.of_nat (Z.to_nat (c - a)))%Z at 1 by lia.
    rewrite gridLoop_lines by assumption. rewrite Z2Nat.id by lia. reflexivity.
  - rewrite seqZ_nil by lia. apply gridLoop_done.
    apply Rmult_le_compat_r; [unfold GRID_SIZE; lra|]. apply IZR_le. lia.
Qed.

(** The multiples of [GRID_SIZE] the loop visits between [lo] and [hi]. *)
Lemma grid_index_range (lo hi : R) (k : Z) :
  (Zfloor (lo / GRID_SIZE) <= k < Zfloor (lo / GRID_SIZE)
                                  + (Zceil (hi / GRID_SIZE) - Zfloor (lo / GRID_SIZE)))%Z
  <-> lo - GRID_SIZE < IZR k * GRID_SIZE < hi.
Proof.
  pose proof (Zfloor_bound (lo / GRID_SIZE)) as [Hf1 Hf2].
  pose proof (Zceil_bound (hi / GRID_SIZE)) as [Hc1 Hc2].
  set (a := Zfloor (lo / GRID_SIZE)) in *. set (c := Zceil (hi / GRID_SIZE)) in *.
  assert (Hlo : lo = lo / GRID_SIZE * GRID_SIZE) by (unfold GRID_SIZE; field).
  assert (Hhi : hi = hi / GRID_SIZE * GRID_SIZE) by (unfold GRID_SIZE; field).
  set (x := lo / GRID_SIZE) in *. set (y := hi / GRID_SIZE) in *.
  rewrite Hlo, Hhi. unfold GRID_SIZE. split.
  - intros [Hak Hkc].
    assert (H1 : IZR a <= IZR k) by (apply IZR_le; lia).
    assert (H2 : IZR k <= IZR c - 1) by (rewrite <- minus_IZR; apply IZR_le; lia).
    lra.
  - intros [Hl Hh].
    assert (H1 : IZR a < IZR (k + 1)) by (rewrite plus_IZR; lra).
    assert (H2 : IZR k < IZR c) by lra.
    apply lt_IZR in H1, H2. lia.
Qed.

(** * Further properties of shooting and of the grid *)

(** X15.  The fire rate is limited.  Over any run of frames whose clock
    values all lie within one [BULLET_COOLDOWN] of each other,
    [handleShooting] adds at most one bullet to [bulletsGroup], however long
    the space key is held and whatever [lastFiredTime] was before. *)
Theorem at_most_one_shot_per_cooldown (env : Env) (frames : list Frame) (start : R)
    (lastFiredTime : R) (w : World) :
  (forall f, f ∈ frames -> start <= f_time f <= start + BULLET_COOLDOWN) ->
  (length (bulletsGroup (snd (shootingOver env frames lastFiredTime w)))
   <= length (bulletsGroup w) + 1)%nat.
Proof.
  revert lastFiredTime w. induction frames as [|f rest IH]; intros lastFiredTime w Hwin.
  - cbn. lia.
  - cbn [shootingOver]. rewrite bind_eq. unfold handleShooting.
    destruct (f_spaceKeyIsDown f && bool_decide (f_time f > lastFiredTime + BULLET_COOLDOWN))
      eqn:Hfire.
    + rewrite bind_eq. unfold ret at 1. cbn [fst snd].
      rewrite shootingOver_cooling.
      * cbn [snd]. apply shootBullet_group.
      * intros f' Hin. pose proof (Hwin f ltac:(left)).
        pose proof (Hwin f' ltac:(right; exact Hin)). lra.
    + unfold ret at 1. cbn [fst snd]. apply IH.
      intros f' Hin. apply Hwin. right. assumption.
Qed.

Lemma at_most_one_shot_per_cooldown_witness :
  (length (bulletsGroup
             (snd (shootingOver halfEnv
                     [mkFrame 301%R true (400, 280)%R; mkFrame 317%R true (400, 280)%R;
                      mkFrame 600%R true (400, 280)%R]
                     0%R startup)))
   <= length (bulletsGroup startup) + 1)%nat.
Proof.
  refine (at_most_one_shot_per_cooldown halfEnv _ 301 0 startup _).
  intros f Hf. unfold BULLET_COOLDOWN.
  repeat (apply elem_of_cons in Hf; destruct Hf as [->|Hf]; [cbn [f_time]; lra|]).
  inversion Hf.
Defined.

(** X16.  [drawVisibleGrid] draws exactly the grid lines that cross the
    view.  After clearing, it draws one vertical line, from the top to the
    bottom of the view, at every multiple of [GRID_SIZE] that lies less than
    one [GRID_SIZE] to the left of the view's left side or inside the view
    left of its right side, and likewise one horizontal line at every such
    multiple between top and bottom; it draws nothing else, and each line
    once.  The loops end after [gridSteps] iterations, and running them
    longer draws nothing more. *)
Theorem grid_lines_are_the_visible_multiples (fuel : nat) (worldView : Phaser.Rectangle) :
  (gridSteps (Phaser.left worldView) (Phaser.right worldView) <= fuel)%nat ->
  (gridSteps (Phaser.top worldView) (Phaser.bottom worldView) <= fuel)%nat ->
  exists lines,
    drawVisibleGrid fuel true (Some worldView) = Some lines
    /\ (forall ln,
          ln ∈ lines
          <-> (exists k : Z,
                 Phaser.left worldView - GRID_SIZE < IZR k * GRID_SIZE
                   < Phaser.right worldView
                 /\ ln = mkLine (IZR k * GRID_SIZE) (Phaser.top worldView)
                                (IZR k * GRID_SIZE) (Phaser.bottom worldView))
              \/ (exists k : Z,
                    Phaser.top worldView - GRID_SIZE < IZR k * GRID_SIZE
                      < Phaser.bottom worldView
                    /\ ln = mkLine (Phaser.left worldView) (IZR k * GRID_SIZE)
                                   (Phaser.right worldView) (IZR k * GRID_SIZE)))
    /\ length lines
       = (gridSteps (Phaser.left worldView) (Phaser.right worldView)
          + gridSteps (Phaser.top worldView) (Phaser.bottom worldView))%nat.
Proof.
  intros Hfx Hfy. unfold drawVisibleGrid. cbn [negb]. cbv zeta.
  rewrite !gridLoop_range by assumption.
  eexists. split; [reflexivity|]. split.
  - intros ln. rewrite elem_of_app, !list_elem_of_fmap. split.
    + intros [(k & -> & Hk)|(k & -> & Hk)]; [left|right]; exists k;
        (split; [|reflexivity]); apply grid_index_range, elem_of_seqZ; exact Hk.
    + intros [(k & Hk & ->)|(k & Hk & ->)]; [left|right]; exists k;
        (split; [reflexivity|]); apply elem_of_seqZ, grid_index_range; exact Hk.
  - rewrite length_app, !length_fmap, !length_seqZ. reflexivity.
Qed.

Lemma grid_lines_are_the_visible_multiples_witness :
  exists lines,
    drawVisibleGrid 16 true (Some window) = Some lines
    /\ (forall ln,
          ln ∈ lines
          <-> (exists k : Z,
                 Phaser.left window - GRID_SIZE < IZR k * GRID_SIZE < Phaser.right window
                 /\ ln = mkLine (IZR k * GRID_SIZE) (Phaser.top window)
                                (IZR k * GRID_SIZE) (Phaser.bottom window))
              \/ (exists k : Z,
                    Phaser.top window - GRID_SIZE < IZR k * GRID_SIZE < Phaser.bottom window
                    /\ ln = mkLine (Phaser.left window) (IZR k * GRID_SIZE)
                                   (Phaser.right window) (IZR k * GRID_SIZE)))
    /\ length lines
       = (gridSteps (Phaser.left window) (Phaser.right window)
          + gridSteps (Phaser.top window) (Phaser.bottom window))%nat.
Proof.
  assert (Hfloor : Zfloor (0 / GRID_SIZE) = 0%Z).
  { apply Zfloor_eq. unfold GRID_SIZE. lra. }
  apply (grid_lines_are_the_visible_multiples 16 window).
  - unfold gridSteps, window, Phaser.left, Phaser.right.
    cbn [Phaser.x Phaser.y Phaser.width Phaser.height]. rewrite Hfloor.
    replace (Zceil ((0 + 800) / GRID_SIZE)) with 16%Z; [simpl; lia|].
    symmetry. apply Zceil_eq. unfold GRID_SIZE. lra.
  - unfold gridSteps, window, Phaser.top, Phaser.bottom.
    cbn [Phaser.x Phaser.y Phaser.width Phaser.height]. rewrite Hfloor.
    replace (Zceil ((0 + 600) / GRID_SIZE)) with 12%Z; [simpl; lia|].
    symmetry. apply Zceil_eq. unfold GRID_SIZE. lra.
Defined.

(** X17.  A ready shot.  When the space key is down and the clock has passed
    [lastFiredTime + BULLET_COOLDOWN], [handleShooting] restarts the
    cooldown at the current time in every case.  If the player is active and
    has a body, [shootBullet] puts a new active bullet at the ship's nose
    and appends it to [bulletsGroup] (provided the engine attaches a body to
    it); if there is no player, or the player is inactive or has no body,
    the world is left as it was, although the cooldown has restarted.  The
    asteroids are never touched. *)
Theorem ready_shot_fires (env : Env) (tip : R * R) (time lastFiredTime : R) (w : World) :
  time > lastFiredTime + BULLET_COOLDOWN ->
  let r := handleShooting env tip true time lastFiredTime w in
  fst r = time
  /\ (forall pl,
        player w = Some pl -> pl_active pl = true -> is_Some (pl_body pl) ->
        attachBody env (nextHandle w) = true ->
        bulletsGroup (snd r) = bulletsGroup w ++ [nextHandle w]
        /\ bulletHeap (snd r) !! nextHandle w = Some (mkBullet (fst tip) (snd tip) true true)
        /\ nextHandle (snd r) = S (nextHandle w))
  /\ (player w = None
      \/ (exists pl, player w = Some pl /\ (pl_active pl = false \/ pl_body pl = None)) ->
      snd r = w)
  /\ heap (snd r) = heap w /\ asteroidsGroup (snd r) = asteroidsGroup w.
Proof.
  intros Hready. cbv zeta. unfold handleShooting.
  rewrite bool_decide_eq_true_2 by assumption. cbn [andb].
  rewrite bind_eq. unfold ret. cbn [fst snd].
  split; [reflexivity|].
  unfold shootBullet. rewrite bind_eq. unfold get. cbn [fst snd].
  split; [|split].
  - intros pl Hpl Hact Hbody Hatt. rewrite Hpl, Hact.
    rewrite bool_decide_eq_true_2 by assumption. cbn [negb orb].
    rewrite !bind_eq. unfold modify. cbn [fst snd]. rewrite Hatt.
    unfold ret. cbn [snd]. world_cbn.
    split; [reflexivity|]. split; [apply lookup_insert_eq|reflexivity].
  - intros [Hnone|(pl & Hpl & [Hina|Hnob])].
    + rewrite Hnone. reflexivity.
    + rewrite Hpl, Hina. reflexivity.
    + rewrite Hpl, Hnob. rewrite bool_decide_eq_false_2 by (intros [x Hx]; discriminate).
      rewrite orb_true_r. reflexivity.
  - destruct (player w) as [pl|]; [|split; reflexivity].
    destruct (negb (pl_active pl) || negb (bool_decide (is_Some (pl_body pl))));
      [split; reflexivity|].
    rewrite !bind_eq. unfold modify. cbn [fst snd].
    destruct (attachBody env (nextHandle w)).
    + split; reflexivity.
    + rewrite destroyBullet_eq. split; reflexivity.
Qed.

Lemma ready_shot_fires_witness :
  fst (handleShooting halfEnv (400, 280) true 301 0 startup) = 301.
Proof.
  refine (proj1 (ready_shot_fires halfEnv (400, 280) 301 0 startup _)).
  unfold BULLET_COOLDOWN. lra.
Defined.

(** * Further properties: the density controller *)

Lemma grownBy_refl (worldView : Phaser.Rectangle) (n : nat) (w : World) :
  grownBy worldView n w w.
Proof.
  exists []. rewrite app_nil_r. split; [reflexivity|]. split; [cbn; lia|].
  split; [reflexivity|]. split; [lia|]. split; [intros h Hin; inversion Hin|].
  repeat split; reflexivity.
Qed.

Lemma grownBy_trans (worldView : Phaser.Rectangle) (n1 n2 : nat) (w w1 w2 : World) :
  grownBy worldView n1 w w1 -> grownBy worldView n2 w1 w2 ->
  grownBy worldView (n1 + n2) w w2.
Proof.
  intros (new1 & Hg1 & Hl1 & Hh1 & Hn1 & Hnew1 & Ht1 & He1 & Hbh1 & Hbg1 & Hp1 & Hc1 & Hs1 & Hpe1)
         (new2 & Hg2 & Hl2 & Hh2 & Hn2 & Hnew2 & Ht2 & He2 & Hbh2 & Hbg2 & Hp2 & Hc2 & Hs2 & Hpe2).
  exists (new1 ++ new2).
  split; [rewrite Hg2, Hg1, app_assoc; reflexivity|].
  split; [rewrite length_app; lia|].
  split; [intros h Hh; rewrite Hh2 by lia; apply Hh1; assumption|].
  split; [lia|].
  split.
  { intros h Hin. apply elem_of_app in Hin. destruct Hin as [Hin|Hin].
    - destruct (Hnew1 h Hin) as (Hr & a & Ha & Hrest).
      split; [lia|]. exists a. split; [|assumption]. rewrite Hh2 by lia. assumption.
    - destruct (Hnew2 h Hin) as (Hr & Hex). split; [lia|assumption]. }
  repeat split; congruence.
Qed.

Lemma grownBy_weaken (worldView : Phaser.Rectangle) (n m : nat) (w w' : World) :
  (n <= m)%nat -> grownBy worldView n w w' -> grownBy worldView m w w'.
Proof.
  intros Hle (new & Hg & Hl & Hrest). exists new.
  split; [assumption|]. split; [lia|assumption].
Qed.

(** One call of the region spawner adds at most one asteroid, out of view,
    and leaves what was there as it was. *)
Lemma spawnAsteroidInRegion_grownBy (env : Env) (regionBounds worldView : Phaser.Rectangle)
    (w : World) :
  uniformSamples env -> lifecycleInvariant w -> camera w = Some worldView ->
  grownBy worldView 1 w (snd (spawnAsteroidInRegion env regionBounds w)).
Proof.
  intros Hu Hinv Hcam.
  pose proof (invariant_fresh w Hinv) as Hfresh.
  pose proof (spawnAsteroidInRegion_spawnOutcome env regionBounds w Hu) as Hout.
  pose proof (spawnAsteroidInRegion_spawned env regionBounds w) as Hsp.
  destruct Hout as [k Hw'|a k Hw' Hact Hbody Hf|a k Hw' Hina]; rewrite Hw' in Hsp |- *.
  - exists []. world_cbn. rewrite app_nil_r.
    split; [reflexivity|]. split; [cbn; lia|]. split; [reflexivity|]. split; [lia|].
    split; [intros h Hin; inversion Hin|]. repeat split; reflexivity.
  - exists [nextHandle w]. world_cbn.
    split; [reflexivity|]. split; [cbn; lia|].
    split; [intros h Hh; apply lookup_insert_ne; lia|]. split; [lia|].
    split; [|repeat split; reflexivity].
    intros h Hin. apply list_elem_of_singleton in Hin. subst h. split; [lia|].
    exists a. split; [apply lookup_insert_eq|]. split; [assumption|]. split; [assumption|].
    destruct (Hsp a Hu) as (worldView' & cn & i & W & u & Hcam' & _ & _ & Hok & _).
    { split; world_cbn; [reflexivity|apply lookup_insert_eq]. }
    rewrite Hcam in Hcam'. injection Hcam' as <-.
    unfold rejected in Hok. apply orb_false_iff in Hok. destruct Hok as [Hview _].
    exact Hview.
  - exists []. world_cbn. rewrite app_nil_r.
    split; [apply filter_fresh; assumption|]. split; [cbn; lia|].
    split; [intros h Hh; apply lookup_insert_ne; lia|]. split; [lia|].
    split; [intros h Hin; inversion Hin|]. repeat split; reflexivity.
Qed.

Lemma requestSpawns_grownBy (env : Env) (worldView : Phaser.Rectangle) (i : nat)
    (region : Phaser.Rectangle) (needed : nat) :
  uniformSamples env ->
  forall w, lifecycleInvariant w -> camera w = Some worldView ->
            grownBy worldView needed w (snd (requestSpawns env i region needed w)).
Proof.
  intros Hu. induction needed as [|n IH]; intros w Hinv Hcam.
  - apply grownBy_refl.
  - cbn [requestSpawns]. rewrite !bind_eq. unfold ret. cbn [snd].
    pose proof (spawnAsteroidInRegion_grownBy env region worldView w Hu Hinv Hcam) as Hstep.
    set (w1 := snd (spawnAsteroidInRegion env region w)) in *.
    assert (Hinv1 : lifecycleInvariant w1).
    { apply (invariant_spawnOutcome w); [assumption|].
      apply spawnAsteroidInRegion_spawnOutcome. assumption. }
    assert (Hcam1 : camera w1 = Some worldView).
    { unfold w1. rewrite (spawnOutcome_camera w); [assumption|].
      apply spawnAsteroidInRegion_spawnOutcome. assumption. }
    change (S n) with (1 + n)%nat.
    apply (grownBy_trans worldView 1 n w w1); [assumption|]. apply IH; assumption.
Qed.

Lemma populateQuadrants_grownBy (env : Env) (worldView : Phaser.Rectangle)
    (counts : list Z) (quadrants : list Quadrant) :
  uniformSamples env -> (forall i count, counts !! i = Some count -> (0 <= count)%Z) ->
  forall i w, lifecycleInvariant w -> camera w = Some worldView ->
              grownBy worldView (4 * length quadrants) w
                (snd (populateQuadrants env quadrants counts i w)).
Proof.
  intros Hu Hpos. induction quadrants as [|q rest IH]; intros i w Hinv Hcam.
  - apply grownBy_refl.
  - cbn [populateQuadrants]. rewrite !bind_eq. unfold ret. cbn [snd].
    set (request := match counts !! i with
                    | Some count =>
                        if (0 <? TARGET_ASTEROIDS_PER_QUADRANT - count)%Z
                        then requestSpawns env i (bounds q)
                               (Z.to_nat (TARGET_ASTEROIDS_PER_QUADRANT - count))
                        else ret []
                    | None => ret []
                    end).
    assert (Hhere : grownBy worldView 4 w (snd (request w))
                    /\ lifecycleInvariant (snd (request w))
                    /\ camera (snd (request w)) = Some worldView).
    { unfold request. destruct (counts !! i) as [count|] eqn:Hc.
      - destruct (0 <? TARGET_ASTEROIDS_PER_QUADRANT - count)%Z.
        + pose proof (Hpos i count Hc) as Hge.
          pose proof (requestSpawns_grownBy env worldView i (bounds q)
                        (Z.to_nat (TARGET_ASTEROIDS_PER_QUADRANT - count)) Hu w Hinv Hcam)
            as Hg.
          split; [|split].
          * apply (grownBy_weaken worldView
                     (Z.to_nat (TARGET_ASTEROIDS_PER_QUADRANT - count))); [|assumption].
            unfold TARGET_ASTEROIDS_PER_QUADRANT. lia.
          * apply invariant_requestSpawns; assumption.
          * destruct Hg as (new & _ & _ & _ & _ & _ & _ & _ & _ & _ & _ & Hc' & _).
            rewrite Hc'. assumption.
        + split; [apply grownBy_refl|split; assumption].
      - split; [apply grownBy_refl|split; assumption]. }
    destruct Hhere as (Hg & Hinv1 & Hcam1).
    cbn [length]. replace (4 * S (length rest))%nat with (4 + 4 * length rest)%nat by lia.
    apply (grownBy_trans worldView 4 _ w (snd (request w))); [assumption|].
    apply IH; assumption.
Qed.

Lemma countAsteroids_nonneg (w : World) (worldView : Phaser.Rectangle) (pl : Player) :
  forall i count, countAsteroids w worldView pl !! i = Some count -> (0 <= count)%Z.
Proof.
  intros i count Hc. unfold countAsteroids in Hc. rewrite iterate_count in Hc.
  destruct i as [|[|[|[|i]]]]; cbn in Hc; try discriminate; injection Hc as <-; lia.
Qed.

(** * Further properties of the density controller *)

(** X18.  A density tick only adds.  In a reachable state,
    [checkAndPopulateDistantAreas] removes no asteroid and changes none: it
    appends at most 16 new asteroids to the group (four quadrants, at most
    the target of four each), every one of them active, with a body, and
    outside the camera's view; the asteroids that were active before are
    exactly as they were, and bullets, pending reverts and explosions are
    untouched. *)
Theorem density_tick_only_adds (env : Env) (w : World) (worldView : Phaser.Rectangle) :
  uniformSamples env -> reachable env w -> camera w = Some worldView ->
  let w' := snd (checkAndPopulateDistantAreas env w) in
  exists new,
    asteroidsGroup w' = asteroidsGroup w ++ new
    /\ (length new <= 16)%nat
    /\ (forall h a, heap w !! h = Some a -> a_active a = true -> heap w' !! h = Some a)
    /\ (forall h, h ∈ new ->
          exists a, heap w' !! h = Some a /\ a_active a = true /\ is_Some (a_body a)
                    /\ Phaser.Contains worldView (a_x a) (a_y a) = false)
    /\ timers w' = timers w /\ explosions w' = explosions w
    /\ bulletHeap w' = bulletHeap w /\ bulletsGroup w' = bulletsGroup w.
Proof.
  intros Hu Hreach Hcam w'.
  pose proof (reachable_invariant env w Hu Hreach) as Hinv.
  assert (Hgrown : grownBy worldView 16 w w').
  { unfold w', checkAndPopulateDistantAreas. rewrite bind_eq. unfold get. cbn [fst snd].
    rewrite Hcam.
    destruct (player w) as [pl|]; [|apply grownBy_refl].
    destruct (pl_body pl); [|apply grownBy_refl].
    apply (populateQuadrants_grownBy env worldView (countAsteroids w worldView pl)
             (quadrantsOf worldView pl) Hu (countAsteroids_nonneg w worldView pl) 0%nat w
             Hinv Hcam). }
  destruct Hgrown as (new & Hg & Hl & Hh & Hn & Hnew & Ht & He & Hbh & Hbg & _).
  exists new. split; [assumption|]. split; [assumption|]. split.
  { intros h a Ha Hact. rewrite Hh; [assumption|].
    destruct Hinv as [Halloc Hlive]. apply Halloc. apply (Hlive h a Ha Hact). }
  split.
  { intros h Hin. destruct (Hnew h Hin) as [_ Hex]. exact Hex. }
  repeat split; assumption.
Qed.

Lemma density_tick_only_adds_witness :
  exists new,
    asteroidsGroup (snd (checkAndPopulateDistantAreas halfEnv startup))
    = asteroidsGroup startup ++ new
    /\ (length new <= 16)%nat
    /\ (forall h a, heap startup !! h = Some a -> a_active a = true ->
                    heap (snd (checkAndPopulateDistantAreas halfEnv startup)) !! h = Some a)
    /\ (forall h, h ∈ new ->
          exists a, heap (snd (checkAndPopulateDistantAreas halfEnv startup)) !! h = Some a
                    /\ a_active a = true /\ is_Some (a_body a)
                    /\ Phaser.Contains window (a_x a) (a_y a) = false)
    /\ timers (snd (checkAndPopulateDistantAreas halfEnv startup)) = timers startup
    /\ explosions (snd (checkAndPopulateDistantAreas halfEnv startup)) = explosions startup
    /\ bulletHeap (snd (checkAndPopulateDistantAreas halfEnv startup)) = bulletHeap startup
    /\ bulletsGroup (snd (checkAndPopulateDistantAreas halfEnv startup))
       = bulletsGroup startup.
Proof.
  apply (density_tick_only_adds halfEnv startup window).
  - exact halfEnv_uniform.
  - apply reachable_start.
  - reflexivity.
Defined.


(** ** The quadrants tile the generation window *)

Lemma holds_first (quadrants : list Quadrant) (px py : R) :
  (exists q, q ∈ quadrants /\ Phaser.Contains (bounds q) px py = true) ->
  exists i, holds quadrants i px py = true.
Proof.
  induction quadrants as [|q0 rest IH]; intros (q & Hin & Hc); [inversion Hin|].
  destruct (Phaser.Contains (bounds q0) px py) eqn:Hc0.
  - exists 0%nat. unfold holds. cbn. rewrite Hc0. reflexivity.
  - apply elem_of_cons in Hin. destruct Hin as [->|Hin]; [congruence|].
    destruct IH as [i Hi]; [eauto|]. exists (S i).
    unfold holds in *. cbn [lookup list_lookup take forallb].
    destruct (rest !! i); [|discriminate]. rewrite Hc0. cbn [negb andb]. exact Hi.
Qed.

Lemma holds_unique (quadrants : list Quadrant) (px py : R) :
  forall i j, holds quadrants i px py = true -> holds quadrants j px py = true -> i = j.
Proof.
  induction quadrants as [|q0 rest IH]; intros i j Hi Hj.
  - unfold holds in Hi. rewrite lookup_nil in Hi. discriminate.
  - destruct (Phaser.Contains (bounds q0) px py) eqn:Hc0.
    + assert (Hzero : forall k, holds (q0 :: rest) k px py = true -> k = 0%nat).
      { intros [|k] Hk; [reflexivity|]. unfold holds in Hk.
        cbn [lookup list_lookup take forallb] in Hk.
        destruct (rest !! k); [|discriminate]. rewrite Hc0 in Hk. cbn [negb andb] in Hk.
        rewrite andb_false_r in Hk. discriminate. }
      rewrite (Hzero i Hi), (Hzero j Hj). reflexivity.
    + assert (Hsucc : forall k, holds (q0 :: rest) k px py = true ->
                                exists k', k = S k' /\ holds rest k' px py = true).
      { intros [|k] Hk.
        - unfold holds in Hk. cbn in Hk. rewrite Hc0 in Hk. discriminate.
        - exists k. split; [reflexivity|]. unfold holds in *.
          cbn [lookup list_lookup take forallb] in Hk.
          destruct (rest !! k); [|discriminate]. rewrite Hc0 in Hk. exact Hk. }
      destruct (Hsucc i Hi) as (i' & -> & Hi'). destruct (Hsucc j Hj) as (j' & -> & Hj').
      f_equal. apply IH; assumption.
Qed.

(** Every point of the generation window lies in one of the four
    quadrants. *)
Lemma generation_window_tiled (worldView : Phaser.Rectangle) (pl : Player) (px py : R) :
  Phaser.Contains (genBoundsOf worldView pl) px py = true ->
  exists q, q ∈ quadrantsOf worldView pl /\ Phaser.Contains (bounds q) px py = true.
Proof.
  intros Hc. apply Contains_true_inside in Hc. destruct Hc as (Hw & Hh & Hx & Hy).
  unfold genBoundsOf, Phaser.left, Phaser.right, Phaser.top, Phaser.bottom,
    PROACTIVE_GENERATION_RADIUS_MULTIPLIER in *.
  cbn [Phaser.x Phaser.y Phaser.width Phaser.height] in *.
  unfold quadrantsOf. cbv zeta.
  unfold genBoundsOf, Phaser.left, Phaser.right, Phaser.top, Phaser.bottom,
    PROACTIVE_GENERATION_RADIUS_MULTIPLIER.
  cbn [Phaser.x Phaser.y Phaser.width Phaser.height].
  destruct (Rle_dec px (pl_x pl)) as [Hpx|Hpx]; destruct (Rle_dec py (pl_y pl)) as [Hpy|Hpy].
  - eexists. split; [left|].
    apply Contains_inside_true;
      unfold Phaser.left, Phaser.right, Phaser.top, Phaser.bottom;
      cbn [bounds Phaser.x Phaser.y Phaser.width Phaser.height]; lra.
  - eexists. split; [right; right; left|].
    apply Contains_inside_true;
      unfold Phaser.left, Phaser.right, Phaser.top, Phaser.bottom;
      cbn [bounds Phaser.x Phaser.y Phaser.width Phaser.height]; lra.
  - eexists. split; [right; left|].
    apply Contains_inside_true;
      unfold Phaser.left, Phaser.right, Phaser.top, Phaser.bottom;
      cbn [bounds Phaser.x Phaser.y Phaser.width Phaser.height]; lra.
  - eexists. split; [right; right; right; left|].
    apply Contains_inside_true;
      unfold Phaser.left, Phaser.right, Phaser.top, Phaser.bottom;
      cbn [bounds Phaser.x Phaser.y Phaser.width Phaser.height]; lra.
Qed.

Lemma holds_in_range (worldView : Phaser.Rectangle) (pl : Player) (i : nat) (px py : R) :
  holds (quadrantsOf worldView pl) i px py = true -> (i < 4)%nat.
Proof.
  intros H. apply holds_contains in H. destruct H as (q & Hq & _).
  apply lookup_lt_Some in Hq. rewrite quadrantsOf_length in Hq. exact Hq.
Qed.

(** An asteroid counts for exactly one quadrant when it is in the ring, and
    for none otherwise. *)
Lemma countsFor_total (w : World) (worldView : Phaser.Rectangle) (pl : Player) (h : nat) :
  ((if countsFor w worldView pl 0 h then 1 else 0)
   + (if countsFor w worldView pl 1 h then 1 else 0)
   + (if countsFor w worldView pl 2 h then 1 else 0)
   + (if countsFor w worldView pl 3 h then 1 else 0))%nat
  = if inRing w worldView pl h then 1%nat else 0%nat.
Proof.
  unfold countsFor, inRing. destruct (heap w !! h) as [a|]; [|reflexivity].
  destruct (a_active a && bool_decide (is_Some (a_body a))
            && negb (Phaser.Contains (innerBoundsOf worldView) (a_x a) (a_y a)));
    [|reflexivity].
  cbn [andb].
  destruct (Phaser.Contains (genBoundsOf worldView pl) (a_x a) (a_y a)) eqn:Hgen.
  - destruct (holds_first (quadrantsOf worldView pl) (a_x a) (a_y a)
                (generation_window_tiled worldView pl _ _ Hgen)) as [i Hi].
    pose proof (holds_in_range worldView pl i _ _ Hi) as Hlt.
    pose proof (holds_unique (quadrantsOf worldView pl) (a_x a) (a_y a) i) as Huniq.
    destruct (holds (quadrantsOf worldView pl) 0 (a_x a) (a_y a)) eqn:H0;
      destruct (holds (quadrantsOf worldView pl) 1 (a_x a) (a_y a)) eqn:H1;
      destruct (holds (quadrantsOf worldView pl) 2 (a_x a) (a_y a)) eqn:H2;
      destruct (holds (quadrantsOf worldView pl) 3 (a_x a) (a_y a)) eqn:H3;
      try reflexivity;
      try (pose proof (Huniq _ Hi H0); pose proof (Huniq _ Hi H1); lia);
      try (pose proof (Huniq _ Hi H0); pose proof (Huniq _ Hi H2); lia);
      try (pose proof (Huniq _ Hi H0); pose proof (Huniq _ Hi H3); lia);
      try (pose proof (Huniq _ Hi H1); pose proof (Huniq _ Hi H2); lia);
      try (pose proof (Huniq _ Hi H1); pose proof (Huniq _ Hi H3); lia);
      try (pose proof (Huniq _ Hi H2); pose proof (Huniq _ Hi H3); lia).
    exfalso. destruct i as [|[|[|[|i]]]]; try lia; congruence.
  - assert (Hnone : forall i, holds (quadrantsOf worldView pl) i (a_x a) (a_y a) = false).
    { intros i. destruct (holds _ i _ _) eqn:Hh; [|reflexivity]. exfalso.
      apply holds_contains in Hh. destruct Hh as (q & Hq & Hc).
      apply list_elem_of_lookup_2 in Hq.
      rewrite (quadrant_in_generation_window worldView pl q _ _ Hq Hc) in Hgen.
      discriminate. }
    rewrite !Hnone. reflexivity.
Qed.

Lemma quadrantPopulation_total (w : World) (worldView : Phaser.Rectangle) (pl : Player) :
  (quadrantPopulation w worldView pl 0 + quadrantPopulation w worldView pl 1
   + quadrantPopulation w worldView pl 2 + quadrantPopulation w worldView pl 3)%nat
  = length (filter (fun h => inRing w worldView pl h = true) (asteroidsGroup w)).
Proof.
  unfold quadrantPopulation. induction (asteroidsGroup w) as [|h l IH]; [reflexivity|].
  pose proof (countsFor_total w worldView pl h) as Hh.
  destruct (countsFor w worldView pl 0 h) eqn:H0;
    destruct (countsFor w worldView pl 1 h) eqn:H1;
    destruct (countsFor w worldView pl 2 h) eqn:H2;
    destruct (countsFor w worldView pl 3 h) eqn:H3;
    destruct (inRing w worldView pl h) eqn:Hr; cbn in Hh; try lia;
    rewrite ?(filter_cons_True (fun h => countsFor w worldView pl 0 h = true)) by assumption;
    rewrite ?(filter_cons_True (fun h => countsFor w worldView pl 1 h = true)) by assumption;
    rewrite ?(filter_cons_True (fun h => countsFor w worldView pl 2 h = true)) by assumption;
    rewrite ?(filter_cons_True (fun h => countsFor w worldView pl 3 h = true)) by assumption;
    rewrite ?(filter_cons_True (fun h => inRing w worldView pl h = true)) by assumption;
    rewrite ?(filter_cons_False (fun h => countsFor w worldView pl 0 h = true)) by congruence;
    rewrite ?(filter_cons_False (fun h => countsFor w worldView pl 1 h = true)) by congruence;
    rewrite ?(filter_cons_False (fun h => countsFor w worldView pl 2 h = true)) by congruence;
    rewrite ?(filter_cons_False (fun h => countsFor w worldView pl 3 h = true)) by congruence;
    rewrite ?(filter_cons_False (fun h => inRing w worldView pl h = true)) by congruence;
    cbn [length]; lia.
Qed.

(** X19.  The density controller counts every asteroid of the ring once.
    The four counts a tick computes add up to the number of children of the
    group that are active, have a body, lie outside the inner-exclusion
    rectangle and inside the generation window: each of them is counted for
    exactly one quadrant (one on a border shared by two quadrants for the
    first of them only), and no other asteroid is counted at all. *)
Theorem density_counts_each_asteroid_once (w : World) (worldView : Phaser.Rectangle)
    (pl : Player) :
  countAsteroids w worldView pl
  = [Z.of_nat (quadrantPopulation w worldView pl 0);
     Z.of_nat (quadrantPopulation w worldView pl 1);
     Z.of_nat (quadrantPopulation w worldView pl 2);
     Z.of_nat (quadrantPopulation w worldView pl 3)]
  /\ foldr Z.add 0%Z (countAsteroids w worldView pl)
     = Z.of_nat (length (filter (fun h => inRing w worldView pl h = true)
                           (asteroidsGroup w)))
  /\ (forall h i j,
        countsFor w worldView pl i h = true -> countsFor w worldView pl j h = true -> i = j)
  /\ (forall h,
        inRing w worldView pl h = true <-> exists i, countsFor w worldView pl i h = true).
Proof.
  assert (Hlist : countAsteroids w worldView pl
                  = [Z.of_nat (quadrantPopulation w worldView pl 0);
                     Z.of_nat (quadrantPopulation w worldView pl 1);
                     Z.of_nat (quadrantPopulation w worldView pl 2);
                     Z.of_nat (quadrantPopulation w worldView pl 3)]).
  { apply list_eq. intros i. destruct (decide (i < 4)%nat) as [Hlt|Hge].
    - rewrite countAsteroids_lookup by assumption.
      destruct i as [|[|[|[|i]]]]; try lia; reflexivity.
    - unfold countAsteroids. rewrite iterate_count.
      destruct i as [|[|[|[|i]]]]; try lia. reflexivity. }
  split; [exact Hlist|]. split.
  { rewrite Hlist. cbn [foldr]. rewrite <- quadrantPopulation_total. lia. }
  split.
  - intros h i j Hi Hj. unfold countsFor in Hi, Hj.
    destruct (heap w !! h) as [a|]; [|discriminate].
    apply andb_true_iff in Hi, Hj. destruct Hi as [_ Hi]. destruct Hj as [_ Hj].
    apply (holds_unique (quadrantsOf worldView pl) (a_x a) (a_y a)); assumption.
  - intros h. pose proof (countsFor_total w worldView pl h) as Ht. split.
    + intros Hr. rewrite Hr in Ht.
      destruct (countsFor w worldView pl 0 h) eqn:H0; [exists 0%nat; assumption|].
      destruct (countsFor w worldView pl 1 h) eqn:H1; [exists 1%nat; assumption|].
      destruct (countsFor w worldView pl 2 h) eqn:H2; [exists 2%nat; assumption|].
      destruct (countsFor w worldView pl 3 h) eqn:H3; [exists 3%nat; assumption|].
      cbn in Ht. lia.
    + intros [i Hi]. unfold countsFor in Hi. unfold inRing.
      destruct (heap w !! h) as [a|]; [|discriminate].
      apply andb_true_iff in Hi. destruct Hi as [Hpre Hh]. rewrite Hpre. cbn [andb].
      apply holds_contains in Hh. destruct Hh as (q & Hq & Hc).
      apply list_elem_of_lookup_2 in Hq.
      apply (quadrant_in_generation_window worldView pl q _ _ Hq Hc).
Qed.

(** ** The outline of a spawned asteroid *)

Lemma generated_outline (env : Env) (l : Listing) (avgRadius : R) (numVertices : Z)
    (w : World) :
  uniformSamples env -> 0 < avgRadius -> (6 <= numVertices <= 11)%Z ->
  let pts := fst (generateAsteroidPoints env l avgRadius numVertices w) in
  length pts = Z.to_nat numVertices
  /\ (forall p, p ∈ pts -> avgRadius * 0.6 <= norm p <= avgRadius * 1.4)
  /\ simplePolygon pts.
Proof.
  intros Hu Havg Hn pts.
  set (theta := vertexAngle env l numVertices (cursor w)).
  set (rho := vertexRadius env avgRadius (cursor w)).
  assert (Hlen : length pts = Z.to_nat numVertices)
    by apply generateAsteroidPoints_length.
  assert (Hlook : forall k, (k < length pts)%nat -> pts !! k = Some (polar (theta k) (rho k))).
  { intros k Hk. apply generateAsteroidPoints_lookup. lia. }
  assert (Hrho : forall k, avgRadius * 0.6 <= rho k <= avgRadius * 1.4).
  { intros k. apply vertexRadius_bounds; assumption. }
  assert (Hgap : forall k, theta k < theta (S k) < theta k + PI).
  { intros k. apply theta_gap; assumption. }
  split; [exact Hlen|]. split.
  { intros p Hp. apply list_elem_of_lookup in Hp. destruct Hp as [k Hk].
    pose proof (lookup_lt_Some _ _ _ Hk) as Hlt.
    rewrite (Hlook k Hlt) in Hk. injection Hk as <-.
    specialize (Hrho k). rewrite norm_polar; lra. }
  apply (star_ring_simple pts theta rho).
  - exact Hlook.
  - intros k _. specialize (Hrho k). lra.
  - intros k _. apply Hgap.
  - rewrite Hlen. apply theta_close; assumption.
Qed.

Lemma drawnSize_integer (env : Env) (category : Category) (c : nat) :
  exists z : Z, drawnSize env category c = IZR z.
Proof. unfold drawnSize. eexists. reflexivity. Qed.

(** What the stored data of a created asteroid are, given the category, the
    size and the vertex count its spawner drew at sample number [c]. *)
Lemma spawned_data (env : Env) (cn : CategoryName) (c : nat) (a : Asteroid) :
  uniformSamples env ->
  d_category a = Some cn ->
  d_visualSize a = Some (drawnSize env (ASTEROID_CATEGORIES cn) c) ->
  d_hitPoints a = Some (hp (ASTEROID_CATEGORIES cn)) ->
  d_isHit a = Some false -> a_active a = true ->
  madeOutline env (drawnSize env (ASTEROID_CATEGORIES cn) c) (drawnVertices env c) a ->
  exists cn s pts,
    d_category a = Some cn /\ d_visualSize a = Some s
    /\ (exists z : Z, s = IZR z)
    /\ minSize (ASTEROID_CATEGORIES cn) <= s <= maxSize (ASTEROID_CATEGORIES cn)
    /\ d_hitPoints a = Some (hp (ASTEROID_CATEGORIES cn))
    /\ d_isHit a = Some false /\ a_active a = true
    /\ d_points a = Some pts /\ (6 <= length pts <= 11)%nat
    /\ (forall p, p ∈ pts -> s * 0.6 <= norm p <= s * 1.4)
    /\ simplePolygon pts
    /\ a_gfx a = Drawn pts None.
Proof.
  intros Hu Hc Hs Hhp Hhit Hact (W & Hpts & Hgfx).
  pose proof (drawnSize_range env cn c Hu) as Hrange.
  pose proof (drawnSize_all env cn c Hu) as Hall.
  pose proof (drawnVertices_range env c Hu) as Hnv.
  destruct (generated_outline env Proactive (drawnSize env (ASTEROID_CATEGORIES cn) c)
              (drawnVertices env c) W Hu ltac:(lra) Hnv) as (Hlen & Hnorm & Hsimple).
  exists cn, (drawnSize env (ASTEROID_CATEGORIES cn) c). eexists.
  split; [assumption|]. split; [assumption|]. split; [apply drawnSize_integer|].
  split; [assumption|]. split; [assumption|]. split; [assumption|]. split; [assumption|].
  split; [exact Hpts|]. split; [rewrite Hlen; lia|]. split; [exact Hnorm|].
  split; [exact Hsimple|].
  rewrite Hgfx. replace (_ <? 3)%nat with false; [reflexivity|].
  symmetry. apply Nat.ltb_ge. rewrite Hlen. lia.
Qed.

(** The data the three spawners store on the asteroid they create, by the
    category and the sample number of its size and vertex count. *)
Lemma spawned_fields (env : Env) (w : World) (regionBounds : Phaser.Rectangle)
    (a : Asteroid) :
  uniformSamples env ->
  spawnedBy w (snd (spawnAsteroidInView env w)) a
  \/ spawnedBy w (snd (spawnAsteroid env w)) a
  \/ spawnedBy w (snd (spawnAsteroidInRegion env regionBounds w)) a ->
  exists cn c,
    d_category a = Some cn
    /\ d_visualSize a = Some (drawnSize env (ASTEROID_CATEGORIES cn) c)
    /\ d_hitPoints a = Some (hp (ASTEROID_CATEGORIES cn))
    /\ d_isHit a = Some false /\ a_active a = true
    /\ madeOutline env (drawnSize env (ASTEROID_CATEGORIES cn) c) (drawnVertices env c) a.
Proof.
  intros Hu Hsp.
  assert (Hedge : forall k, spawnedBy (advance k w) (snd (spawnAsteroid env (advance k w))) a ->
            exists cn c,
              d_category a = Some cn
              /\ d_visualSize a = Some (drawnSize env (ASTEROID_CATEGORIES cn) c)
              /\ d_hitPoints a = Some (hp (ASTEROID_CATEGORIES cn))
              /\ d_isHit a = Some false /\ a_active a = true
              /\ madeOutline env (drawnSize env (ASTEROID_CATEGORIES cn) c)
                   (drawnVertices env c) a).
  { intros k Hk.
    destruct (spawnAsteroid_spawned env (advance k w) a Hu Hk)
      as (worldView & cn & edge & c & W & u & _ & _ & _ & _ & _ & Ha & Hout).
    exists cn, (cursor (advance k w)).
    rewrite Ha at 1 2 3 4 5. cbn [d_category d_visualSize d_hitPoints d_isHit a_active].
    repeat (split; [reflexivity|]). exact Hout. }
  destruct Hsp as [Hsp|[Hsp|Hsp]].
  - destruct (spawnAsteroidInView_spawned env w a Hu Hsp)
      as [(cn & c & W & u & _ & _ & _ & _ & _ & Ha & Hout)|(k & Hfb)].
    + exists cn, (cursor w).
      rewrite Ha at 1 2 3 4 5. cbn [d_category d_visualSize d_hitPoints d_isHit a_active].
      repeat (split; [reflexivity|]). exact Hout.
    + exact (Hedge k Hfb).
  - apply (Hedge 0%nat). rewrite advance_0. exact Hsp.
  - destruct (spawnAsteroidInRegion_spawned env regionBounds w a Hu Hsp)
      as (worldView & cn & i & W & u & _ & _ & _ & _ & _ & Ha & Hout).
    exists cn, (cursor w).
    rewrite Ha at 1 2 3 4 5. cbn [d_category d_visualSize d_hitPoints d_isHit a_active].
    repeat (split; [reflexivity|]). exact Hout.
Qed.

(** X20.  The data of a spawned asteroid are consistent.  Whichever of the
    three spawners creates an asteroid, the asteroid is active and carries:
    one of the three active categories; a whole-number [visualSize] within
    that category's size range; the category's [hp] as [hitPoints]; [isHit]
    false; and under [points] an outline of 6 to 11 vertices, each between
    0.6 and 1.4 times the size away from the centre, that forms a simple
    polygon and is what the object shows, stroked and not filled. *)
Theorem spawned_asteroid_data (env : Env) (w : World) (regionBounds : Phaser.Rectangle)
    (a : Asteroid) :
  uniformSamples env ->
  spawnedBy w (snd (spawnAsteroidInView env w)) a
  \/ spawnedBy w (snd (spawnAsteroid env w)) a
  \/ spawnedBy w (snd (spawnAsteroidInRegion env regionBounds w)) a ->
  exists cn s pts,
    d_category a = Some cn /\ d_visualSize a = Some s
    /\ (exists z : Z, s = IZR z)
    /\ minSize (ASTEROID_CATEGORIES cn) <= s <= maxSize (ASTEROID_CATEGORIES cn)
    /\ d_hitPoints a = Some (hp (ASTEROID_CATEGORIES cn))
    /\ d_isHit a = Some false /\ a_active a = true
    /\ d_points a = Some pts /\ (6 <= length pts <= 11)%nat
    /\ (forall p, p ∈ pts -> s * 0.6 <= norm p <= s * 1.4)
    /\ simplePolygon pts
    /\ a_gfx a = Drawn pts None.
Proof.
  intros Hu Hsp.
  destruct (spawned_fields env w regionBounds a Hu Hsp)
    as (cn & c & Hc & Hs & Hhp & Hhit & Hact & Hout).
  apply (spawned_data env cn c a); assumption.
Qed.

Lemma spawned_asteroid_data_witness :
  exists a,
    spawnedBy startup (snd (spawnAsteroidInView zeroEnv startup)) a
    /\ exists cn s pts,
         d_category a = Some cn /\ d_visualSize a = Some s
         /\ (exists z : Z, s = IZR z)
         /\ minSize (ASTEROID_CATEGORIES cn) <= s <= maxSize (ASTEROID_CATEGORIES cn)
         /\ d_hitPoints a = Some (hp (ASTEROID_CATEGORIES cn))
         /\ d_isHit a = Some false /\ a_active a = true
         /\ d_points a = Some pts /\ (6 <= length pts <= 11)%nat
         /\ (forall p, p ∈ pts -> s * 0.6 <= norm p <= s * 1.4)
         /\ simplePolygon pts
         /\ a_gfx a = Drawn pts None.
Proof.
  destruct zeroEnv_view_spawnedBy as [a Ha]. exists a. split; [exact Ha|].
  apply (spawned_asteroid_data zeroEnv startup window a).
  - exact zeroEnv_uniform.
  - left. exact Ha.
Defined.

(** ** The field after the startup loop *)












(** ** Hit flags and pending reverts *)

Lemma pendingReverts_frame (w w' : World) (h : nat) :
  timers w' = timers w -> pendingReverts w' h = pendingReverts w h.
Proof. intros H. unfold pendingReverts. rewrite H. reflexivity. Qed.

Lemma pendingReverts_added (w w' : World) (h : nat) (t : FlashRevert) :
  timers w' = timers w ++ [t] ->
  pendingReverts w' h
  = (pendingReverts w h + if decide (fr_asteroid t = h) then 1 else 0)%nat.
Proof.
  intros H. unfold pendingReverts. rewrite H, filter_app, length_app. f_equal.
  destruct (decide (fr_asteroid t = h)) as [He|He].
  - rewrite filter_cons_True by exact He. reflexivity.
  - rewrite filter_cons_False by exact He. reflexivity.
Qed.

Lemma pendingReverts_fired (w w' : World) (h i : nat) (t : FlashRevert) :
  timers w !! i = Some t -> timers w' = delete i (timers w) ->
  pendingReverts w h
  = (pendingReverts w' h + if decide (fr_asteroid t = h) then 1 else 0)%nat.
Proof.
  intros Hl H. unfold pendingReverts. rewrite H, delete_take_drop.
  rewrite <- (take_drop_middle (timers w) i t Hl) at 1.
  rewrite !filter_app, !length_app.
  destruct (decide (fr_asteroid t = h)) as [He|He].
  - rewrite filter_cons_True by exact He. simpl. lia.
  - rewrite filter_cons_False by exact He. lia.
Qed.

Lemma pendingReverts_none (w : World) (h : nat) :
  (forall t, t ∈ timers w -> fr_asteroid t <> h) -> pendingReverts w h = 0%nat.
Proof.
  intros H. unfold pendingReverts.
  destruct (filter (fun t => fr_asteroid t = h) (timers w)) as [|t l] eqn:Hf; [reflexivity|].
  assert (Hin : t ∈ filter (fun t => fr_asteroid t = h) (timers w))
    by (rewrite Hf; apply list_elem_of_here).
  apply list_elem_of_filter in Hin. destruct Hin as [He Hin].
  destruct (H t Hin He).
Qed.

Lemma pendingReverts_some (w : World) (h : nat) (t : FlashRevert) :
  t ∈ timers w -> fr_asteroid t = h -> (1 <= pendingReverts w h)%nat.
Proof.
  intros Hin He. unfold pendingReverts.
  assert (Hf : t ∈ filter (fun t => fr_asteroid t = h) (timers w))
    by (apply list_elem_of_filter; split; assumption).
  destruct (filter (fun t => fr_asteroid t = h) (timers w)); [inversion Hf|simpl; lia].
Qed.

(** Code that leaves the timers alone and neither revives an object nor
    changes a hit flag keeps the invariant. *)
Lemma flash_frame (w w' : World) :
  flashInvariant w -> timers w' = timers w -> (nextHandle w <= nextHandle w')%nat ->
  (forall h a', heap w' !! h = Some a' -> a_active a' = true ->
                exists a, heap w !! h = Some a /\ a_active a = true
                          /\ truthy (d_isHit a') = truthy (d_isHit a)) ->
  flashInvariant w'.
Proof.
  intros (H1 & H2 & H3) Ht Hn Hheap. split; [|split].
  - intros t Hin. rewrite Ht in Hin. specialize (H1 t Hin). lia.
  - intros h. rewrite (pendingReverts_frame w w' h Ht). apply H2.
  - intros h a' Hl Hact. rewrite (pendingReverts_frame w w' h Ht).
    destruct (Hheap h a' Hl Hact) as (a & Hla & Ha & Hhit). rewrite Hhit.
    apply (H3 h a Hla Ha).
Qed.

Lemma flash_frame_heap (w w' : World) :
  flashInvariant w -> timers w' = timers w -> (nextHandle w <= nextHandle w')%nat ->
  heap w' = heap w -> flashInvariant w'.
Proof.
  intros Hinv Ht Hn Hh. apply (flash_frame w w' Hinv Ht Hn).
  intros h a' Hl Hact. rewrite Hh in Hl. exists a'. auto.
Qed.

Lemma flash_update (h : nat) (f : Asteroid -> Asteroid) (w : World) :
  flashInvariant w ->
  (forall a, a_active (f a) = true ->
             a_active a = true /\ truthy (d_isHit (f a)) = truthy (d_isHit a)) ->
  flashInvariant (snd (update h f w)).
Proof.
  intros Hinv Hf. destruct (heap w !! h) as [a|] eqn:Hl.
  - rewrite (update_hit h f w a Hl). cbn [snd].
    apply (flash_frame w); try assumption; try reflexivity.
    world_cbn. intros h' a' Hl' Hact.
    destruct (decide (h' = h)) as [->|Hne].
    + rewrite lookup_insert_eq in Hl'. injection Hl' as <-.
      destruct (Hf a Hact) as [Ha Hhit]. exists a. auto.
    + rewrite lookup_insert_ne in Hl' by auto. exists a'. auto.
  - rewrite (update_miss h f w Hl). assumption.
Qed.

Lemma flash_destroyAsteroid (h : nat) (w : World) :
  flashInvariant w -> flashInvariant (snd (destroyAsteroid h w)).
Proof.
  intros Hinv. unfold destroyAsteroid. rewrite bind_eq. unfold modify at 1. cbn [fst snd].
  apply flash_update.
  - apply (flash_frame_heap w); try assumption; reflexivity.
  - intros a Ha. discriminate.
Qed.

Lemma flash_drawAsteroidShape (h : nat) points fillStyle fillAlpha (w : World) :
  flashInvariant w -> flashInvariant (snd (drawAsteroidShape h points fillStyle fillAlpha w)).
Proof.
  intros Hinv. unfold drawAsteroidShape. destruct points as [ps|]; [|assumption].
  destruct (length ps <? 3)%nat; [assumption|].
  apply flash_update; [assumption|]. intros a Ha. split; [exact Ha|reflexivity].
Qed.

Lemma flash_destroyBullet (b : nat) (w : World) :
  flashInvariant w -> flashInvariant (snd (destroyBullet b w)).
Proof.
  intros Hinv. rewrite destroyBullet_eq. cbn [snd].
  apply (flash_frame_heap w); try assumption; reflexivity.
Qed.

(** What [drawAsteroidShape] leaves of the object it draws on. *)
Lemma drawAsteroidShape_object (h : nat) points fillStyle fillAlpha (w : World) (a : Asteroid) :
  heap w !! h = Some a ->
  exists a1,
    snd (drawAsteroidShape h points fillStyle fillAlpha w) = set_heap (insert h a1) w
    /\ a_active a1 = a_active a /\ d_isHit a1 = d_isHit a
    /\ d_hitPoints a1 = d_hitPoints a.
Proof.
  intros Hl.
  assert (Hsame : w = set_heap (insert h a) w).
  { apply world_eq; world_cbn; try reflexivity. symmetry. apply insert_id. exact Hl. }
  unfold drawAsteroidShape. destruct points as [ps|].
  - destruct (length ps <? 3)%nat.
    + exists a. cbn [ret snd]. split; [exact Hsame|]. auto.
    + rewrite (update_hit h _ w a Hl). cbn [snd]. eexists. split; [reflexivity|].
      cbn. auto.
  - exists a. cbn [ret snd]. split; [exact Hsame|]. auto.
Qed.

(** Marking an asteroid hit and scheduling its revert. *)
Lemma flash_marked (w w' : World) (h : nat) (a a' : Asteroid) (t : FlashRevert) :
  flashInvariant w -> (h < nextHandle w)%nat ->
  heap w !! h = Some a -> a_active a = true -> truthy (d_isHit a) = false ->
  fr_asteroid t = h -> timers w' = timers w ++ [t] ->
  heap w' = <[h := a']> (heap w) -> truthy (d_isHit a') = true ->
  (nextHandle w <= nextHandle w')%nat ->
  flashInvariant w'.
Proof.
  intros (H1 & H2 & H3) Hlt Hl Hact Hhit Ht Htimers Hheap Hhit' Hn.
  assert (Hzero : pendingReverts w h = 0%nat).
  { specialize (H2 h). pose proof (H3 h a Hl Hact) as [_ Hback].
    destruct (pendingReverts w h) as [|[|k]]; [reflexivity| |lia].
    specialize (Hback eq_refl). congruence. }
  split; [|split].
  - intros t' Hin. rewrite Htimers in Hin. apply elem_of_app in Hin.
    destruct Hin as [Hin|Hin].
    + specialize (H1 t' Hin). lia.
    + apply list_elem_of_singleton in Hin. subst t'. lia.
  - intros h'. rewrite (pendingReverts_added w w' h' t Htimers).
    destruct (decide (fr_asteroid t = h')) as [He|He].
    + rewrite <- He, Ht, Hzero. lia.
    + specialize (H2 h'). lia.
  - intros h' x Hlx Hx. rewrite (pendingReverts_added w w' h' t Htimers).
    rewrite Hheap in Hlx.
    destruct (decide (h' = h)) as [->|Hne].
    + rewrite lookup_insert_eq in Hlx. injection Hlx as <-.
      rewrite decide_True by exact Ht. rewrite Hzero, Hhit'. split; auto.
    + rewrite lookup_insert_ne in Hlx by auto.
      rewrite decide_False by congruence. rewrite Nat.add_0_r. apply (H3 h' x Hlx Hx).
Qed.

(** A revert leaving the pending list, with the flag of its asteroid
    cleared if the asteroid is still active. *)
Lemma flash_fired (w w' : World) (i : nat) (t : FlashRevert) :
  flashInvariant w -> timers w !! i = Some t -> timers w' = delete i (timers w) ->
  (nextHandle w <= nextHandle w')%nat ->
  (forall h a', heap w' !! h = Some a' -> a_active a' = true ->
                (h = fr_asteroid t /\ truthy (d_isHit a') = false)
                \/ (h <> fr_asteroid t
                    /\ exists a, heap w !! h = Some a /\ a_active a = true
                                 /\ truthy (d_isHit a') = truthy (d_isHit a))) ->
  flashInvariant w'.
Proof.
  intros (H1 & H2 & H3) Hl Htimers Hn Hheap.
  assert (Hin : t ∈ timers w) by (apply list_elem_of_lookup; exists i; exact Hl).
  split; [|split].
  - intros t' Hin'. rewrite Htimers in Hin'. apply list_elem_of_delete_inv in Hin'.
    specialize (H1 t' Hin'). lia.
  - intros h. pose proof (pendingReverts_fired w w' h i t Hl Htimers). specialize (H2 h). lia.
  - intros h a' Hla Hact.
    pose proof (pendingReverts_fired w w' h i t Hl Htimers) as Hcount.
    destruct (Hheap h a' Hla Hact) as [[-> Hhit]|[Hne (a & Hlw & Ha & Hhit)]].
    + rewrite decide_True in Hcount by reflexivity.
      specialize (H2 (fr_asteroid t)). rewrite Hhit. split; [discriminate|intros Hone; exfalso; lia].
    + rewrite decide_False in Hcount by congruence. rewrite Nat.add_0_r in Hcount.
      rewrite <- Hcount, Hhit. apply (H3 h a Hlw Ha).
Qed.

Lemma flash_fireTimer (i : nat) (w : World) :
  lifecycleInvariant w -> flashInvariant w -> flashInvariant (snd (fireTimer i w)).
Proof.
  intros Hlife Hinv. unfold fireTimer. rewrite bind_eq. unfold get. cbn [fst snd].
  destruct (timers w !! i) as [t|] eqn:Ht; [|assumption].
  rewrite bind_eq. unfold modify. cbn [fst snd].
  set (w0 := set_timers (delete i) w).
  unfold flashRevert. rewrite bind_eq. unfold get. cbn [fst snd].
  change (heap w0) with (heap w).
  destruct (heap w !! fr_asteroid t) as [a|] eqn:Hl.
  - destruct (revertGuard (fr_listing t) a) eqn:Hg.
    + rewrite bind_eq.
      destruct (drawAsteroidShape_object (fr_asteroid t) (Some (fr_points t)) None 1 w0 a Hl)
        as (a1 & -> & Hact1 & Hhit1 & _).
      erewrite update_hit by solve_lookup. cbn [snd].
      apply (flash_fired w _ i t Hinv Ht); [reflexivity|unfold w0; world_cbn; lia|].
      unfold w0. world_cbn. rewrite insert_insert_eq. intros h a' Hla Hact.
      destruct (decide (h = fr_asteroid t)) as [->|Hne].
      * left. split; [reflexivity|].
        rewrite lookup_insert_eq in Hla. injection Hla as <-. reflexivity.
      * right. split; [assumption|]. rewrite lookup_insert_ne in Hla by auto.
        exists a'. auto.
    + cbn [ret snd]. apply (flash_fired w _ i t Hinv Ht); [reflexivity|unfold w0; world_cbn; lia|].
      unfold w0. world_cbn. intros h a' Hla Hact.
      destruct (decide (h = fr_asteroid t)) as [->|Hne].
      * rewrite Hl in Hla. injection Hla as <-.
        destruct Hlife as [_ Hgood]. destruct (Hgood _ _ Hl Hact) as [_ [(n & Hhp & Hn) _]].
        rewrite (revertGuard_alive (fr_listing t) a n Hact Hhp Hn) in Hg. discriminate.
      * right. split; [assumption|]. exists a'. auto.
  - cbn [ret snd]. apply (flash_fired w _ i t Hinv Ht); [reflexivity|unfold w0; world_cbn; lia|].
    unfold w0. world_cbn. intros h a' Hla Hact.
    destruct (decide (h = fr_asteroid t)) as [->|Hne].
    + rewrite Hl in Hla. discriminate.
    + right. split; [assumption|]. exists a'. auto.
Qed.

Lemma flash_bulletHit (l : Listing) (bullet asteroid : nat) (w : World) :
  lifecycleInvariant w -> flashInvariant w ->
  flashInvariant (snd (handleBulletAsteroidCollision l bullet asteroid w)).
Proof.
  intros Hlife Hinv.
  unfold handleBulletAsteroidCollision. rewrite bind_eq. unfold get. cbn [fst snd].
  destruct (bulletHeap w !! bullet) as [b|] eqn:Hb; [|assumption].
  destruct (heap w !! asteroid) as [a|] eqn:Ha; [|assumption].
  destruct (a_active a) eqn:Hact;
    [|rewrite orb_true_r; assumption].
  destruct (negb (b_active b) || negb true || _); [assumption|].
  rewrite bind_eq. cbn [fst].
  pose proof (flash_destroyBullet bullet w Hinv) as Hinv0.
  assert (Ha0 : heap (snd (destroyBullet bullet w)) !! asteroid = Some a)
    by (rewrite destroyBullet_eq; exact Ha).
  assert (Hn0 : nextHandle (snd (destroyBullet bullet w)) = nextHandle w)
    by (rewrite destroyBullet_eq; reflexivity).
  assert (Hlt : (asteroid < nextHandle w)%nat).
  { destruct Hlife as [Hgroup Hgood]. apply Hgroup. apply (Hgood asteroid a Ha Hact). }
  set (w0 := snd (destroyBullet bullet w)) in *.
  destruct (d_hitPoints a) as [n|] eqn:Hhp.
  - rewrite bind_eq. cbn [fst].
    pose proof (flash_update asteroid (with_hitPoints (n - 1)) w0 Hinv0
                  ltac:(intros x Hx; split; [exact Hx|reflexivity])) as Hinv1.
    rewrite (update_hit asteroid _ w0 a Ha0) in *. cbn [snd] in *.
    set (w1 := set_heap _ w0) in *.
    destruct (n - 1 <=? 0)%Z.
    + rewrite bind_eq. apply flash_destroyAsteroid.
      destruct (particleEmitter w); [|assumption].
      unfold modify. cbn [snd]. apply (flash_frame_heap w1); try assumption; reflexivity.
    + destruct (d_points a) as [pts|]; [|assumption].
      destruct (truthy (d_isHit a)) eqn:Hhit; [assumption|]. cbn [negb].
      rewrite bind_eq. erewrite update_hit by (unfold w1; solve_lookup). cbn [fst snd].
      rewrite bind_eq. cbn [fst].
      match goal with
      | |- context [drawAsteroidShape ?h ?p ?fs ?fa ?W] =>
          destruct (drawAsteroidShape_object h p fs fa W
                      (with_isHit true (with_hitPoints (n - 1) a)))
            as (a1 & -> & Hact1 & Hhit1 & _);
          [unfold w1; solve_lookup|]
      end.
      unfold modify. cbn [snd].
      apply (flash_marked w1 _ asteroid (with_hitPoints (n - 1) a) a1
               (mkFlashRevert l asteroid pts) Hinv1).
      * unfold w1. world_cbn. rewrite Hn0. exact Hlt.
      * unfold w1. solve_lookup.
      * exact Hact.
      * exact Hhit.
      * reflexivity.
      * reflexivity.
      * unfold w1. world_cbn. rewrite !insert_insert_eq. reflexivity.
      * rewrite Hhit1. reflexivity.
      * world_cbn. lia.
  - apply flash_destroyAsteroid. assumption.
Qed.

Lemma flash_spawnOutcome (w w' : World) :
  flashInvariant w -> spawnOutcome w w' ->
  (forall a, spawnedBy w w' a -> truthy (d_isHit a) = false) ->
  flashInvariant w'.
Proof.
  intros Hinv Hout Hnew. pose proof Hinv as (H1 & H2 & H3).
  destruct Hout as [k ->|a k -> Ha Hb Hf|a k -> Hina].
  - apply (flash_frame_heap w); try assumption; reflexivity.
  - assert (Hflag : truthy (d_isHit a) = false).
    { apply Hnew. split; world_cbn; [reflexivity|apply lookup_insert_eq]. }
    split; [|split]; world_cbn.
    + intros t Hin. specialize (H1 t Hin). lia.
    + exact H2.
    + intros h x Hl Hx. change (pendingReverts _ h) with (pendingReverts w h).
      destruct (decide (h = nextHandle w)) as [->|Hne].
      * rewrite lookup_insert_eq in Hl. injection Hl as <-. rewrite Hflag.
        rewrite pendingReverts_none; [split; discriminate|].
        intros t Hin He. specialize (H1 t Hin). lia.
      * rewrite lookup_insert_ne in Hl by auto. apply (H3 h x Hl Hx).
  - apply (flash_frame w); try assumption; try reflexivity; [world_cbn; lia|].
    world_cbn. intros h x Hl Hx.
    destruct (decide (h = nextHandle w)) as [->|Hne].
    + rewrite lookup_insert_eq in Hl. injection Hl as <-. congruence.
    + rewrite lookup_insert_ne in Hl by auto. exists x. auto.
Qed.

Lemma flash_spawner (env : Env) (w : World) (regionBounds : Phaser.Rectangle) (w' : World) :
  uniformSamples env ->
  w' = snd (spawnAsteroidInView env w) \/ w' = snd (spawnAsteroid env w)
  \/ w' = snd (spawnAsteroidInRegion env regionBounds w) ->
  spawnOutcome w w' -> flashInvariant w -> flashInvariant w'.
Proof.
  intros Hu Hw' Hout Hinv. apply (flash_spawnOutcome w w' Hinv Hout).
  intros a Ha.
  destruct (spawned_fields env w regionBounds a Hu) as (cn & c & _ & _ & _ & Hhit & _).
  { destruct Hw' as [->|[->| ->]]; auto. }
  rewrite Hhit. reflexivity.
Qed.

(** An invariant that the region spawner keeps, on worlds that satisfy the
    lifecycle invariant, is kept by the density controller. *)
Lemma density_preserves (I : World -> Prop) (env : Env) :
  uniformSamples env ->
  (forall w regionBounds,
      lifecycleInvariant w -> I w -> I (snd (spawnAsteroidInRegion env regionBounds w))) ->
  forall w, lifecycleInvariant w -> I w -> I (snd (checkAndPopulateDistantAreas env w)).
Proof.
  intros Hu Hspawn.
  assert (Hreq : forall i region needed w,
            lifecycleInvariant w /\ I w ->
            lifecycleInvariant (snd (requestSpawns env i region needed w))
            /\ I (snd (requestSpawns env i region needed w))).
  { intros i region needed. induction needed as [|n IH]; intros w Hw; [assumption|].
    cbn [requestSpawns]. rewrite !bind_eq. unfold ret. cbn [snd].
    apply IH. destruct Hw as [Hl Hi]. split.
    - apply (invariant_spawnOutcome w); [assumption|].
      apply spawnAsteroidInRegion_spawnOutcome. assumption.
    - apply Hspawn; assumption. }
  assert (Hpop : forall quadrants counts i w,
            lifecycleInvariant w /\ I w ->
            lifecycleInvariant (snd (populateQuadrants env quadrants counts i w))
            /\ I (snd (populateQuadrants env quadrants counts i w))).
  { intros quadrants counts. induction quadrants as [|q rest IH]; intros i w Hw; [assumption|].
    cbn [populateQuadrants]. rewrite !bind_eq. unfold ret. cbn [snd].
    apply IH.
    destruct (counts !! i) as [count|]; [|assumption].
    destruct (0 <? _)%Z; [|assumption].
    apply Hreq. assumption. }
  intros w Hl Hi. unfold checkAndPopulateDistantAreas. rewrite bind_eq. unfold get.
  cbn [fst snd].
  destruct (camera w) as [worldView|]; [|assumption].
  destruct (player w) as [pl|]; [|assumption].
  destruct (pl_body pl); [|assumption].
  apply Hpop. split; assumption.
Qed.

Lemma flash_step (env : Env) (w w' : World) :
  uniformSamples env -> lifecycleInvariant w -> flashInvariant w -> step env w w' ->
  flashInvariant w'.
Proof.
  intros Hu Hlife Hinv Hstep. destruct Hstep.
  - apply (flash_spawner env w window _ Hu); auto.
    apply spawnAsteroidInView_spawnOutcome. assumption.
  - apply (flash_spawner env w window _ Hu); auto.
    apply spawnAsteroid_spawnOutcome. assumption.
  - apply (density_preserves flashInvariant env Hu); try assumption.
    intros W region HlW HiW. apply (flash_spawner env W region _ Hu); auto.
    apply spawnAsteroidInRegion_spawnOutcome. assumption.
  - apply flash_bulletHit; assumption.
  - unfold handlePlayerAsteroidCollision. rewrite bind_eq. unfold get. cbn [fst snd].
    destruct (player w) as [pl|]; [|assumption].
    destruct (heap w !! asteroid) as [a|]; [|assumption].
    destruct (_ || _); [assumption|].
    rewrite bind_eq. apply flash_destroyAsteroid.
    destruct (particleEmitter w); [|assumption].
    unfold modify. cbn [snd]. apply (flash_frame_heap w); try assumption; reflexivity.
  - apply flash_fireTimer; assumption.
  - unfold cleanupOutOfBoundsAsteroids. rewrite bind_eq. unfold get. cbn [fst snd].
    destruct (camera w) as [worldView|]; [|assumption].
    unfold modify. cbn [snd]. apply iterate_preserves; [|assumption].
    intros h s Hs. destruct (heap s !! h) as [a|]; [|assumption].
    destruct (_ && _); [|assumption]. cbn [snd].
    apply flash_destroyAsteroid. assumption.
  - unfold cleanupOutOfBoundsBullets. rewrite bind_eq. unfold get. cbn [fst snd].
    destruct (camera w) as [worldView|]; [|assumption].
    unfold modify. cbn [snd]. apply iterate_preserves; [|assumption].
    intros b s Hs. destruct (bulletHeap s !! b) as [bl|]; [|assumption].
    destruct (_ && _); [|assumption]. cbn [snd].
    apply flash_destroyBullet. assumption.
  - unfold shootBullet. rewrite bind_eq. unfold get. cbn [fst snd].
    destruct (player w) as [pl|]; [|assumption].
    destruct (_ || _); [assumption|].
    rewrite !bind_eq. unfold modify. cbn [fst snd].
    destruct (attachBody env (nextHandle w)).
    + unfold ret. cbn [snd]. apply (flash_frame_heap w); try assumption; try reflexivity.
      world_cbn. lia.
    + apply flash_destroyBullet.
      apply (flash_frame_heap w); try assumption; try reflexivity. world_cbn. lia.
  - unfold moveAsteroid. apply flash_update; [assumption|].
    intros a Ha. split; [exact Ha|reflexivity].
  - unfold moveView, modify. cbn [snd].
    apply (flash_frame_heap w); try assumption; reflexivity.
Qed.

Lemma reachable_flash (env : Env) (w : World) :
  uniformSamples env -> reachable env w -> flashInvariant w.
Proof.
  intros Hu Hreach. induction Hreach as [gw gh wv|w w' Hr IH Hstep].
  - split; [|split]; simpl.
    + intros t Hin. inversion Hin.
    + intros h. unfold pendingReverts. simpl. lia.
    + intros h a Hl. rewrite lookup_empty in Hl. discriminate.
  - apply (flash_step env w w' Hu); try assumption.
    apply (reachable_invariant env w Hu Hr).
Qed.



(** ** The groups hold the live objects *)

Lemma ag_frame (w w' : World) :
  heap w' = heap w -> asteroidsGroup w' = asteroidsGroup w ->
  asteroidGroupInvariant w -> asteroidGroupInvariant w'.
Proof. intros Hh Hg [H1 H2]. split; rewrite Hg; [assumption|]. rewrite Hh. assumption. Qed.

Lemma ag_update (h : nat) (f : Asteroid -> Asteroid) (w : World) :
  (forall a, a_active a = true -> a_active (f a) = true) ->
  asteroidGroupInvariant w -> asteroidGroupInvariant (snd (update h f w)).
Proof.
  intros Hf [H1 H2]. destruct (heap w !! h) as [a|] eqn:Hl.
  - rewrite (update_hit h f w a Hl). cbn [snd]. split; world_cbn; [assumption|].
    intros h' Hin. destruct (H2 h' Hin) as (x & Hx & Hact).
    destruct (decide (h' = h)) as [->|Hne].
    + rewrite lookup_insert_eq. exists (f a). split; [reflexivity|].
      apply Hf. congruence.
    + rewrite lookup_insert_ne by auto. exists x. auto.
  - rewrite (update_miss h f w Hl). split; assumption.
Qed.

Lemma ag_destroyAsteroid (h : nat) (w : World) :
  asteroidGroupInvariant w -> asteroidGroupInvariant (snd (destroyAsteroid h w)).
Proof.
  intros [H1 H2]. destruct (heap w !! h) as [a|] eqn:Hl.
  - rewrite (destroyAsteroid_hit h w a Hl). cbn [snd]. split; world_cbn.
    + apply NoDup_filter. assumption.
    + intros h' Hin. apply list_elem_of_filter in Hin. destruct Hin as [Hne Hin].
      rewrite lookup_insert_ne by auto. apply H2. assumption.
  - unfold destroyAsteroid. rewrite bind_eq. unfold modify at 1. cbn [fst snd].
    rewrite update_miss by exact Hl. cbn [snd]. split; world_cbn.
    + apply NoDup_filter. assumption.
    + intros h' Hin. apply list_elem_of_filter in Hin. destruct Hin as [_ Hin].
      apply H2. assumption.
Qed.

Lemma ag_drawAsteroidShape (h : nat) points fillStyle fillAlpha (w : World) :
  asteroidGroupInvariant w ->
  asteroidGroupInvariant (snd (drawAsteroidShape h points fillStyle fillAlpha w)).
Proof.
  intros Hinv. unfold drawAsteroidShape. destruct points as [ps|]; [|assumption].
  destruct (length ps <? 3)%nat; [assumption|].
  apply ag_update; [|assumption]. intros a Ha. exact Ha.
Qed.

Lemma ag_spawnOutcome (w w' : World) :
  lifecycleInvariant w -> spawnOutcome w w' ->
  asteroidGroupInvariant w -> asteroidGroupInvariant w'.
Proof.
  intros Hlife Hout [H1 H2]. pose proof (invariant_fresh w Hlife) as Hfresh.
  destruct Hout as [k ->|a k -> Ha Hb Hf|a k -> Hina].
  - split; assumption.
  - split; world_cbn.
    + apply NoDup_app. split; [assumption|]. split.
      * intros x Hx Hx'. apply list_elem_of_singleton in Hx'. subst x. contradiction.
      * apply NoDup_singleton.
    + intros h Hin. apply elem_of_app in Hin. destruct Hin as [Hin|Hin].
      * rewrite lookup_insert_ne by (intros <-; contradiction). apply H2. assumption.
      * apply list_elem_of_singleton in Hin. subst h. rewrite lookup_insert_eq.
        exists a. auto.
  - split; world_cbn.
    + apply NoDup_filter. apply NoDup_app. split; [assumption|]. split.
      * intros x Hx Hx'. apply list_elem_of_singleton in Hx'. subst x. contradiction.
      * apply NoDup_singleton.
    + intros h Hin. apply list_elem_of_filter in Hin. destruct Hin as [Hne Hin].
      rewrite lookup_insert_ne by auto.
      apply elem_of_app in Hin. destruct Hin as [Hin|Hin]; [apply H2; assumption|].
      apply list_elem_of_singleton in Hin. contradiction.
Qed.

Lemma ag_bulletHit (l : Listing) (bullet asteroid : nat) (w : World) :
  asteroidGroupInvariant w ->
  asteroidGroupInvariant (snd (handleBulletAsteroidCollision l bullet asteroid w)).
Proof.
  intros [H1 H2].
  destruct (handleBulletAsteroidCollision_cases l bullet asteroid w)
    as [(Hh & Hg & _)
       |[(a & a' & Hl & Hact & _ & Hh & Hina & Hg & _)
        |(a & a' & n & Hl & Hact & Hhp & Hgt & Hh & Hact' & _ & _ & Hg & _)]].
  - apply (ag_frame w); [assumption|assumption|split; assumption].
  - split; rewrite Hg.
    + apply NoDup_filter. assumption.
    + intros h Hin. apply list_elem_of_filter in Hin. destruct Hin as [Hne Hin].
      rewrite Hh, lookup_insert_ne by auto. apply H2. assumption.
  - split; rewrite Hg; [assumption|].
    intros h Hin. rewrite Hh. destruct (decide (h = asteroid)) as [->|Hne].
    + rewrite lookup_insert_eq. exists a'. auto.
    + rewrite lookup_insert_ne by auto. apply H2. assumption.
Qed.

Lemma ag_step (env : Env) (w w' : World) :
  uniformSamples env -> lifecycleInvariant w -> asteroidGroupInvariant w -> step env w w' ->
  asteroidGroupInvariant w'.
Proof.
  intros Hu Hlife Hinv Hstep. destruct Hstep.
  - apply (ag_spawnOutcome w); try assumption.
    apply spawnAsteroidInView_spawnOutcome. assumption.
  - apply (ag_spawnOutcome w); try assumption.
    apply spawnAsteroid_spawnOutcome. assumption.
  - apply (density_preserves asteroidGroupInvariant env Hu); try assumption.
    intros W region HlW HiW. apply (ag_spawnOutcome W); try assumption.
    apply spawnAsteroidInRegion_spawnOutcome. assumption.
  - apply ag_bulletHit. assumption.
  - unfold handlePlayerAsteroidCollision. rewrite bind_eq. unfold get. cbn [fst snd].
    destruct (player w) as [pl|]; [|assumption].
    destruct (heap w !! asteroid) as [a|]; [|assumption].
    destruct (_ || _); [assumption|].
    rewrite bind_eq. apply ag_destroyAsteroid.
    destruct (particleEmitter w); [|assumption].
    unfold modify. cbn [snd]. apply (ag_frame w); try assumption; reflexivity.
  - unfold fireTimer. rewrite bind_eq. unfold get. cbn [fst snd].
    destruct (timers w !! i) as [t|]; [|assumption].
    rewrite bind_eq. unfold modify. cbn [fst snd].
    unfold flashRevert. rewrite bind_eq. unfold get. cbn [fst snd].
    assert (Hinv0 : asteroidGroupInvariant (set_timers (delete i) w))
      by (apply (ag_frame w); try assumption; reflexivity).
    destruct (heap _ !! fr_asteroid t) as [a|]; [|assumption].
    destruct (revertGuard (fr_listing t) a); [|assumption].
    rewrite bind_eq. apply ag_update; [intros x Hx; exact Hx|].
    apply ag_drawAsteroidShape. assumption.
  - unfold cleanupOutOfBoundsAsteroids. rewrite bind_eq. unfold get. cbn [fst snd].
    destruct (camera w) as [worldView|]; [|assumption].
    unfold modify. cbn [snd]. apply iterate_preserves; [|assumption].
    intros h s Hs. destruct (heap s !! h) as [a|]; [|assumption].
    destruct (_ && _); [|assumption]. cbn [snd].
    apply ag_destroyAsteroid. assumption.
  - unfold cleanupOutOfBoundsBullets. rewrite bind_eq. unfold get. cbn [fst snd].
    destruct (camera w) as [worldView|]; [|assumption].
    unfold modify. cbn [snd]. apply iterate_preserves; [|assumption].
    intros b s Hs. destruct (bulletHeap s !! b) as [bl|]; [|assumption].
    destruct (_ && _); [|assumption]. cbn [snd].
    destruct (destroyBullet_frame b s) as (Hh & Hg & _).
    apply (ag_frame s); assumption.
  - unfold shootBullet. rewrite bind_eq. unfold get. cbn [fst snd].
    destruct (player w) as [pl|]; [|assumption].
    destruct (_ || _); [assumption|].
    rewrite !bind_eq. unfold modify. cbn [fst snd].
    destruct (attachBody env (nextHandle w)).
    + unfold ret. cbn [snd]. apply (ag_frame w); try assumption; reflexivity.
    + match goal with |- asteroidGroupInvariant (snd (destroyBullet ?b ?W)) =>
        destruct (destroyBullet_frame b W) as (Hh & Hg & _) end.
      apply (ag_frame w); assumption.
  - unfold moveAsteroid. apply ag_update; [|assumption]. intros a Ha. exact Ha.
  - unfold moveView, modify. cbn [snd]. apply (ag_frame w); try assumption; reflexivity.
Qed.

Lemma bg_kept (w w' : World) :
  bulletsKept w w' -> bulletGroupInvariant w -> bulletGroupInvariant w'.
Proof.
  intros (Hh & Hg & Hn) (H1 & H2 & H3). split; [|split]; rewrite ?Hg, ?Hh.
  - assumption.
  - intros b Hin. destruct (H2 b Hin) as [Hlt Hex]. split; [lia|assumption].
  - assumption.
Qed.

Lemma bulletsKept_refl (w : World) : bulletsKept w w.
Proof. repeat split. lia. Qed.

Lemma bulletsKept_trans (w1 w2 w3 : World) :
  bulletsKept w1 w2 -> bulletsKept w2 w3 -> bulletsKept w1 w3.
Proof.
  intros (Hh & Hg & Hn) (Hh' & Hg' & Hn'). split; [congruence|]. split; [congruence|lia].
Qed.

Lemma bulletsKept_update (h : nat) (f : Asteroid -> Asteroid) (w : World) :
  bulletsKept w (snd (update h f w)).
Proof.
  unfold update, modify. cbn [snd]. repeat split. world_cbn. lia.
Qed.

Lemma bulletsKept_destroyAsteroid (h : nat) (w : World) :
  bulletsKept w (snd (destroyAsteroid h w)).
Proof.
  unfold destroyAsteroid. rewrite bind_eq. unfold modify at 1. cbn [fst snd].
  apply (bulletsKept_trans _ (set_asteroidsGroup (filter (fun h' => h' <> h)) w)).
  - repeat split. world_cbn. lia.
  - apply bulletsKept_update.
Qed.

Lemma bulletsKept_drawAsteroidShape (h : nat) points fillStyle fillAlpha (w : World) :
  bulletsKept w (snd (drawAsteroidShape h points fillStyle fillAlpha w)).
Proof.
  unfold drawAsteroidShape. destruct points as [ps|]; [|apply bulletsKept_refl].
  destruct (length ps <? 3)%nat; [apply bulletsKept_refl|apply bulletsKept_update].
Qed.

Lemma bulletsKept_spawnOutcome (w w' : World) : spawnOutcome w w' -> bulletsKept w w'.
Proof.
  intros [k ->|a k -> _ _ _|a k -> _]; repeat split; world_cbn; lia.
Qed.

Lemma bg_destroyBullet (b : nat) (w : World) :
  bulletGroupInvariant w -> bulletGroupInvariant (snd (destroyBullet b w)).
Proof.
  intros (H1 & H2 & H3). rewrite destroyBullet_eq. cbn [snd]. split; [|split]; world_cbn.
  - apply NoDup_filter. assumption.
  - intros b' Hin. apply list_elem_of_filter in Hin. destruct Hin as [Hne Hin].
    destruct (H2 b' Hin) as [Hlt (bl & Hl & Hact)]. split; [assumption|].
    exists bl. split; [|assumption].
    destruct (bulletHeap w !! b); [rewrite lookup_insert_ne by auto|]; assumption.
  - intros b' bl Hl Hact. apply list_elem_of_filter.
    destruct (decide (b' = b)) as [->|Hne].
    + destruct (bulletHeap w !! b) as [x|] eqn:Hx.
      * rewrite lookup_insert_eq in Hl. injection Hl as <-. discriminate.
      * congruence.
    + split; [assumption|]. apply (H3 b' bl); [|assumption].
      destruct (bulletHeap w !! b); [rewrite lookup_insert_ne in Hl by auto|]; assumption.
Qed.

Lemma bg_bulletHit (l : Listing) (bullet asteroid : nat) (w : World) :
  bulletGroupInvariant w ->
  bulletGroupInvariant (snd (handleBulletAsteroidCollision l bullet asteroid w)).
Proof.
  intros Hinv.
  unfold handleBulletAsteroidCollision. rewrite bind_eq. unfold get. cbn [fst snd].
  destruct (bulletHeap w !! bullet) as [b|] eqn:Hb; [|assumption].
  destruct (heap w !! asteroid) as [a|] eqn:Ha; [|assumption].
  destruct (_ || _); [assumption|].
  rewrite bind_eq. cbn [fst].
  pose proof (bg_destroyBullet bullet w Hinv) as Hinv0.
  set (w0 := snd (destroyBullet bullet w)) in *.
  apply (bg_kept w0); [|assumption].
  destruct (d_hitPoints a) as [n|].
  - rewrite bind_eq. cbn [fst].
    apply (bulletsKept_trans _ _ _ (bulletsKept_update asteroid (with_hitPoints (n - 1)) w0)).
    set (w1 := snd (update asteroid (with_hitPoints (n - 1)) w0)).
    destruct (n - 1 <=? 0)%Z.
    + rewrite bind_eq. cbn [fst].
      refine (bulletsKept_trans _ _ _ _ (bulletsKept_destroyAsteroid _ _)).
      destruct (particleEmitter w); [|apply bulletsKept_refl].
      unfold modify. cbn [snd]. repeat split. world_cbn. lia.
    + destruct (d_points a) as [pts|]; [|apply bulletsKept_refl].
      destruct (negb (truthy (d_isHit a))); [|apply bulletsKept_refl].
      rewrite bind_eq. cbn [fst].
      refine (bulletsKept_trans _ _ _ (bulletsKept_update _ _ _) _).
      rewrite bind_eq. cbn [fst].
      refine (bulletsKept_trans _ _ _ (bulletsKept_drawAsteroidShape _ _ _ _ _) _).
      unfold modify. cbn [snd]. repeat split. world_cbn. lia.
  - apply bulletsKept_destroyAsteroid.
Qed.

Lemma bg_step (env : Env) (w w' : World) :
  uniformSamples env -> lifecycleInvariant w -> bulletGroupInvariant w -> step env w w' ->
  bulletGroupInvariant w'.
Proof.
  intros Hu Hlife Hinv Hstep. destruct Hstep.
  - apply (bg_kept w); [|assumption]. apply bulletsKept_spawnOutcome.
    apply spawnAsteroidInView_spawnOutcome. assumption.
  - apply (bg_kept w); [|assumption]. apply bulletsKept_spawnOutcome.
    apply spawnAsteroid_spawnOutcome. assumption.
  - apply (density_preserves bulletGroupInvariant env Hu); try assumption.
    intros W region HlW HiW. apply (bg_kept W); [|assumption].
    apply bulletsKept_spawnOutcome. apply spawnAsteroidInRegion_spawnOutcome. assumption.
  - apply bg_bulletHit. assumption.
  - apply (bg_kept w); [|assumption].
    unfold handlePlayerAsteroidCollision. rewrite bind_eq. unfold get. cbn [fst snd].
    destruct (player w) as [pl|]; [|apply bulletsKept_refl].
    destruct (heap w !! asteroid) as [a|]; [|apply bulletsKept_refl].
    destruct (_ || _); [apply bulletsKept_refl|].
    rewrite bind_eq. cbn [fst].
    refine (bulletsKept_trans _ _ _ _ (bulletsKept_destroyAsteroid _ _)).
    destruct (particleEmitter w); [|apply bulletsKept_refl].
    unfold modify. cbn [snd]. repeat split. world_cbn. lia.
  - apply (bg_kept w); [|assumption].
    unfold fireTimer. rewrite bind_eq. unfold get. cbn [fst snd].
    destruct (timers w !! i) as [t|]; [|apply bulletsKept_refl].
    rewrite bind_eq. unfold modify. cbn [fst snd].
    apply (bulletsKept_trans _ (set_timers (delete i) w)).
    { repeat split. world_cbn. lia. }
    unfold flashRevert. rewrite bind_eq. unfold get. cbn [fst snd].
    destruct (heap _ !! fr_asteroid t) as [a|]; [|apply bulletsKept_refl].
    destruct (revertGuard (fr_listing t) a); [|apply bulletsKept_refl].
    rewrite bind_eq. cbn [fst].
    refine (bulletsKept_trans _ _ _ (bulletsKept_drawAsteroidShape _ _ _ _ _)
              (bulletsKept_update _ _ _)).
  - unfold cleanupOutOfBoundsAsteroids. rewrite bind_eq. unfold get. cbn [fst snd].
    destruct (camera w) as [worldView|]; [|assumption].
    unfold modify. cbn [snd]. apply iterate_preserves; [|assumption].
    intros h s Hs. destruct (heap s !! h) as [a|]; [|assumption].
    destruct (_ && _); [|assumption]. cbn [snd].
    apply (bg_kept s); [|assumption]. apply bulletsKept_destroyAsteroid.
  - unfold cleanupOutOfBoundsBullets. rewrite bind_eq. unfold get. cbn [fst snd].
    destruct (camera w) as [worldView|]; [|assumption].
    unfold modify. cbn [snd]. apply iterate_preserves; [|assumption].
    intros b s Hs. destruct (bulletHeap s !! b) as [bl|]; [|assumption].
    destruct (_ && _); [|assumption]. cbn [snd].
    apply bg_destroyBullet. assumption.
  - unfold shootBullet. rewrite bind_eq. unfold get. cbn [fst snd].
    destruct (player w) as [pl|]; [|assumption].
    destruct (_ || _); [assumption|].
    rewrite !bind_eq. unfold modify. cbn [fst snd].
    assert (Hadded : bulletGroupInvariant
              (set_bulletHeap
                 (insert (nextHandle w)
                    (mkBullet (fst tip) (snd tip) true (attachBody env (nextHandle w))))
                 (set_bulletsGroup (fun g => g ++ [nextHandle w]) (set_nextHandle S w)))).
    { destruct Hinv as (H1 & H2 & H3). split; [|split]; world_cbn.
      - apply NoDup_app. split; [assumption|]. split; [|apply NoDup_singleton].
        intros x Hx Hx'. apply list_elem_of_singleton in Hx'. subst x.
        destruct (H2 _ Hx) as [Hlt _]. lia.
      - intros b Hin. apply elem_of_app in Hin. destruct Hin as [Hin|Hin].
        + destruct (H2 b Hin) as [Hlt (bl & Hl & Hact)]. split; [lia|].
          exists bl. split; [|assumption]. rewrite lookup_insert_ne by lia. assumption.
        + apply list_elem_of_singleton in Hin. subst b. split; [lia|].
          rewrite lookup_insert_eq. eexists. split; reflexivity.
      - intros b bl Hl Hact. apply elem_of_app.
        destruct (decide (b = nextHandle w)) as [->|Hne].
        + right. apply list_elem_of_singleton. reflexivity.
        + left. rewrite lookup_insert_ne in Hl by auto. apply (H3 b bl Hl Hact). }
    destruct (attachBody env (nextHandle w)).
    + exact Hadded.
    + apply bg_destroyBullet. exact Hadded.
  - apply (bg_kept w); [|assumption]. unfold moveAsteroid. apply bulletsKept_update.
  - apply (bg_kept w); [|assumption]. unfold moveView, modify. cbn [snd].
    repeat split. world_cbn. lia.
Qed.

Lemma reachable_groups (env : Env) (w : World) :
  uniformSamples env -> reachable env w ->
  asteroidGroupInvariant w /\ bulletGroupInvariant w.
Proof.
  intros Hu Hreach. induction Hreach as [gw gh wv|w w' Hr [IHa IHb] Hstep].
  - split; [split|split; [|split]]; simpl.
    + apply NoDup_nil. constructor.
    + intros h Hin. inversion Hin.
    + apply NoDup_nil. constructor.
    + intros b Hin. inversion Hin.
    + intros b bl Hl. rewrite lookup_empty in Hl. discriminate.
  - pose proof (reachable_invariant env w Hu Hr) as Hlife. split.
    + apply (ag_step env w w' Hu); assumption.
    + apply (bg_step env w w' Hu); assumption.
Qed.

(** X23.  The groups hold exactly the live objects.  In every world the
    game reaches, the children of [asteroidsGroup] are exactly the active
    asteroid objects and the children of [bulletsGroup] exactly the active
    bullets, and no object is in its group twice: a destroyed object never
    stays behind in a group, and a live one is never missing from it. *)
Theorem groups_hold_the_live_objects (env : Env) (w : World) :
  uniformSamples env -> reachable env w ->
  NoDup (asteroidsGroup w)
  /\ (forall h, h ∈ asteroidsGroup w
                <-> exists a, heap w !! h = Some a /\ a_active a = true)
  /\ NoDup (bulletsGroup w)
  /\ (forall b, b ∈ bulletsGroup w
                <-> exists bl, bulletHeap w !! b = Some bl /\ b_active bl = true).
Proof.
  intros Hu Hreach.
  destruct (reachable_groups env w Hu Hreach) as [[Ha1 Ha2] (Hb1 & Hb2 & Hb3)].
  destruct (reachable_invariant env w Hu Hreach) as [_ Hlive].
  split; [exact Ha1|]. split; [|split; [exact Hb1|]].
  - intros h. split; [apply Ha2|].
    intros (a & Hl & Hact). apply (Hlive h a Hl Hact).
  - intros b. split.
    + intros Hin. apply (Hb2 b Hin).
    + intros (bl & Hl & Hact). apply (Hb3 b bl Hl Hact).
Qed.

Lemma groups_hold_the_live_objects_witness :
  uniformSamples halfEnv
  /\ reachable halfEnv (snd (shootBullet halfEnv (400, 280) (snd (spawnAsteroid halfEnv startup))))
  /\ NoDup (asteroidsGroup
              (snd (shootBullet halfEnv (400, 280) (snd (spawnAsteroid halfEnv startup)))))
  /\ (forall h,
        h ∈ asteroidsGroup
              (snd (shootBullet halfEnv (400, 280) (snd (spawnAsteroid halfEnv startup))))
        <-> exists a,
              heap (snd (shootBullet halfEnv (400, 280) (snd (spawnAsteroid halfEnv startup))))
                !! h = Some a /\ a_active a = true)
  /\ NoDup (bulletsGroup
              (snd (shootBullet halfEnv (400, 280) (snd (spawnAsteroid halfEnv startup)))))
  /\ (forall b,
        b ∈ bulletsGroup
              (snd (shootBullet halfEnv (400, 280) (snd (spawnAsteroid halfEnv startup))))
        <-> exists bl,
              bulletHeap
                (snd (shootBullet halfEnv (400, 280) (snd (spawnAsteroid halfEnv startup))))
                !! b = Some bl /\ b_active bl = true).
Proof.
  assert (Hreach : reachable halfEnv
            (snd (shootBullet halfEnv (400, 280) (snd (spawnAsteroid halfEnv startup))))).
  { apply (reachable_step halfEnv (snd (spawnAsteroid halfEnv startup))); [|apply step_shoot].
    apply (reachable_step halfEnv startup); [apply reachable_start|apply step_spawn]. }
  split; [exact halfEnv_uniform|]. split; [exact Hreach|].
  exact (groups_hold_the_live_objects halfEnv _ halfEnv_uniform Hreach).
Defined.

(** ** One frame *)









(** ** The edge bias *)

Lemma RadToDeg_plus (a b : R) :
  Phaser.RadToDeg (a + b) = Phaser.RadToDeg a + Phaser.RadToDeg b.
Proof. unfold Phaser.RadToDeg. ring. Qed.

Lemma RadToDeg_PI (q : R) : Phaser.RadToDeg (q * PI) = q * 180.
Proof. unfold Phaser.RadToDeg. field. pose proof PI_RGT_0. lra. Qed.

Lemma RadToDeg_PI1 : Phaser.RadToDeg PI = 180.
Proof. unfold Phaser.RadToDeg. field. pose proof PI_RGT_0. lra. Qed.

Lemma RadToDeg_minus (a b : R) :
  Phaser.RadToDeg (a - b) = Phaser.RadToDeg a - Phaser.RadToDeg b.
Proof. unfold Phaser.RadToDeg. ring. Qed.

Lemma RadToDeg_halfPI : Phaser.RadToDeg (PI / 2) = 90.
Proof. unfold Phaser.RadToDeg. field. pose proof PI_RGT_0. lra. Qed.

Lemma RadToDeg_mhalfPI : Phaser.RadToDeg (- PI / 2) = -90.
Proof. unfold Phaser.RadToDeg. field. pose proof PI_RGT_0. lra. Qed.

Lemma RadToDeg_lt (a b : R) : a < b -> Phaser.RadToDeg a < Phaser.RadToDeg b.
Proof.
  intros H. unfold Phaser.RadToDeg.
  assert (0 < 180 / PI) by (apply Rdiv_lt_0_compat; [lra|apply PI_RGT_0]).
  nra.
Qed.

Lemma atanDeg_bound (t : R) : -90 < Phaser.RadToDeg (atan t) < 90.
Proof.
  pose proof (atan_bound t) as [Hlo Hhi].
  apply RadToDeg_lt in Hlo. apply RadToDeg_lt in Hhi.
  replace (- PI / 2) with (- (1 / 2) * PI) in Hlo by field.
  replace (PI / 2) with (1 / 2 * PI) in Hhi by field.
  rewrite RadToDeg_PI in Hlo, Hhi. lra.
Qed.

Lemma atanDeg_lt (t s : R) : t < s -> Phaser.RadToDeg (atan t) < Phaser.RadToDeg (atan s).
Proof. intros H. apply RadToDeg_lt, atan_increasing, H. Qed.

Lemma atanDeg_le_iff (t s : R) :
  t <= s <-> Phaser.RadToDeg (atan t) <= Phaser.RadToDeg (atan s).
Proof.
  split; intros H.
  - destruct (Rle_lt_or_eq_dec t s H) as [Hlt| ->]; [|lra].
    pose proof (atanDeg_lt t s Hlt). lra.
  - apply Rnot_lt_le. intros Hlt. pose proof (atanDeg_lt s t Hlt). lra.
Qed.

Lemma atanDeg_1 : Phaser.RadToDeg (atan 1) = 45.
Proof.
  rewrite atan_1. replace (PI / 4) with (1 / 4 * PI) by field. rewrite RadToDeg_PI. lra.
Qed.

Lemma atanDeg_m1 : Phaser.RadToDeg (atan (-1)) = -45.
Proof.
  replace (atan (-1)) with (atan (Ropp 1)) by (f_equal; lra).
  rewrite atan_opp, atan_1. replace (- (PI / 4)) with (- (1 / 4) * PI) by field.
  rewrite RadToDeg_PI. lra.
Qed.

Lemma atanDeg_0 : Phaser.RadToDeg (atan 0) = 0.
Proof. rewrite atan_0. unfold Phaser.RadToDeg. ring. Qed.

Lemma Rabs_le_iff (a b : R) : Rabs a <= b <-> - b <= a <= b.
Proof. unfold Rabs. destruct (Rcase_abs a); split; intros; lra. Qed.

Lemma headsFor_spec (v : R * R) :
  (headsFor v 0 = true <-> snd v < 0 /\ snd v <= fst v <= - snd v)
  /\ (headsFor v 1 = true <-> 0 < fst v /\ - fst v <= snd v <= fst v)
  /\ (headsFor v 2 = true <-> 0 < snd v /\ - snd v <= fst v <= snd v)
  /\ (headsFor v 3 = true <-> fst v < 0 /\ fst v <= snd v <= - fst v).
Proof.
  unfold headsFor.
  repeat split; rewrite ?andb_true_iff, ?bool_decide_eq_true, ?Rabs_le_iff in *;
    try lra; try tauto; intuition lra.
Qed.

(** The direction of a non-zero velocity in degrees, and the edge it heads
    for. *)
Lemma heading_degrees (v : R * R) :
  fst v <> 0 \/ snd v <> 0 ->
  let x := Phaser.RadToDeg (Phaser.atan2 (snd v) (fst v)) in
  -180 < x <= 180
  /\ (headsFor v 0 = true <-> -135 <= x <= -45)
  /\ (headsFor v 1 = true <-> -45 <= x <= 45)
  /\ (headsFor v 2 = true <-> 45 <= x <= 135)
  /\ (headsFor v 3 = true <-> x >= 135 \/ x <= -135).
Proof.
  intros Hnz. destruct v as [vx vy]. cbn [fst snd] in *.
  destruct (headsFor_spec (vx, vy)) as (S0 & S1 & S2 & S3). cbn [fst snd] in *.
  rewrite S0, S1, S2, S3. clear S0 S1 S2 S3.
  unfold Phaser.atan2. cbv zeta.
  pose proof (atanDeg_bound (vy / vx)) as Hb.
  pose proof (atanDeg_le_iff (vy / vx) 1) as Hle1. rewrite atanDeg_1 in Hle1.
  pose proof (atanDeg_le_iff 1 (vy / vx)) as Hge1. rewrite atanDeg_1 in Hge1.
  pose proof (atanDeg_le_iff (vy / vx) (-1)) as Hlem. rewrite atanDeg_m1 in Hlem.
  pose proof (atanDeg_le_iff (-1) (vy / vx)) as Hgem. rewrite atanDeg_m1 in Hgem.
  pose proof (atanDeg_le_iff (vy / vx) 0) as Hle0. rewrite atanDeg_0 in Hle0.
  pose proof (atanDeg_le_iff 0 (vy / vx)) as Hge0. rewrite atanDeg_0 in Hge0.
  destruct (bool_decide (0 < vx)) eqn:Hpos.
  - apply bool_decide_eq_true in Hpos.
    set (A := Phaser.RadToDeg (atan (vy / vx))) in *.
    assert (Ht : vy = vy / vx * vx) by (field; lra).
    set (t := vy / vx) in *.
    assert (E1 : t <= 1 <-> vy <= vx) by (split; intros; nra).
    assert (E2 : 1 <= t <-> vx <= vy) by (split; intros; nra).
    assert (E3 : t <= -1 <-> vy <= - vx) by (split; intros; nra).
    assert (E4 : -1 <= t <-> - vx <= vy) by (split; intros; nra).
    split; [lra|]. repeat split; try lra; try tauto; intros; try tauto; try lra.
    all: try (intuition lra).
  - apply bool_decide_eq_false in Hpos.
    destruct (bool_decide (vx < 0)) eqn:Hneg.
    + apply bool_decide_eq_true in Hneg.
      assert (Ht : vy = vy / vx * vx) by (field; lra).
      set (t := vy / vx) in *.
      assert (E1 : t <= 1 <-> vx <= vy) by (split; intros; nra).
      assert (E2 : 1 <= t <-> vy <= vx) by (split; intros; nra).
      assert (E3 : t <= -1 <-> - vx <= vy) by (split; intros; nra).
      assert (E4 : -1 <= t <-> vy <= - vx) by (split; intros; nra).
      assert (E5 : t <= 0 <-> 0 <= vy) by (split; intros; nra).
      assert (E6 : 0 <= t <-> vy <= 0) by (split; intros; nra).
      destruct (bool_decide (0 <= vy)) eqn:Hy.
      * apply bool_decide_eq_true in Hy.
        rewrite !RadToDeg_plus, !RadToDeg_PI1.
        set (A := Phaser.RadToDeg (atan t)) in *.
        split; [intuition lra|]. repeat split; intros; intuition lra.
      * apply bool_decide_eq_false in Hy.
        rewrite !RadToDeg_minus, !RadToDeg_PI1.
        set (A := Phaser.RadToDeg (atan t)) in *.
        split; [intuition lra|]. repeat split; intros; intuition lra.
    + apply bool_decide_eq_false in Hneg.
      assert (Hx : vx = 0) by lra.
      destruct (bool_decide (0 < vy)) eqn:Hy.
      * apply bool_decide_eq_true in Hy.
        rewrite !RadToDeg_halfPI.
        split; [lra|]. repeat split; intros; intuition lra.
      * apply bool_decide_eq_false in Hy.
        destruct (bool_decide (vy < 0)) eqn:Hy'.
        -- apply bool_decide_eq_true in Hy'.
           rewrite !RadToDeg_mhalfPI.
           split; [lra|]. repeat split; intros; intuition lra.
        -- apply bool_decide_eq_false in Hy'. exfalso. destruct Hnz; lra.
Qed.

(** [ShortestBetween] is the difference brought into [-180, 180). *)
Lemma ShortestBetween_shift (angle1 angle2 : R) (k : Z) :
  -180 <= angle2 - angle1 - IZR k * 360 < 180 ->
  Phaser.ShortestBetween angle1 angle2 = angle2 - angle1 - IZR k * 360.
Proof.
  intros Hk. unfold Phaser.ShortestBetween. cbv zeta.
  destruct (bool_decide (angle2 - angle1 = 0)) eqn:Hz.
  - apply bool_decide_eq_true in Hz. rewrite Hz in *.
    assert (k = 0%Z).
    { assert (-1 < IZR k < 1) by lra.
      destruct H as [H1 H2]. apply lt_IZR in H1, H2. lia. }
    subst k. lra.
  - rewrite (Zfloor_eq k); [reflexivity|]. lra.
Qed.

(** The four tests of the bias code on the heading of a non-zero velocity. *)
Lemma bias_tests (v : R * R) :
  fst v <> 0 \/ snd v <> 0 ->
  let degPlayerAngle := Phaser.RadToDeg (Phaser.vecAngle v) in
  (Rabs (Phaser.ShortestBetween degPlayerAngle (-90)) <= 45 <-> headsFor v 0 = true)
  /\ (Rabs (Phaser.ShortestBetween degPlayerAngle 0) <= 45 <-> headsFor v 1 = true)
  /\ (Rabs (Phaser.ShortestBetween degPlayerAngle 90) <= 45 <-> headsFor v 2 = true)
  /\ (Rabs (Phaser.ShortestBetween degPlayerAngle 180) <= 45 <-> headsFor v 3 = true).
Proof.
  intros Hnz. cbv zeta.
  destruct (heading_degrees v Hnz) as (Hx & H0 & H1 & H2 & H3).
  rewrite H0, H1, H2, H3. clear H0 H1 H2 H3.
  unfold Phaser.vecAngle. cbv zeta.
  set (alpha := Phaser.atan2 (snd v) (fst v)) in *.
  assert (Hsign : alpha < 0 <-> Phaser.RadToDeg alpha < 0).
  { unfold Phaser.RadToDeg.
    assert (0 < 180 / PI) by (apply Rdiv_lt_0_compat; [lra|apply PI_RGT_0]).
    split; intros; nra. }
  assert (Hturn : Phaser.RadToDeg (2 * PI) = 360) by (rewrite RadToDeg_PI; lra).
  destruct (bool_decide (alpha < 0)) eqn:Hneg.
  - apply bool_decide_eq_true in Hneg. apply Hsign in Hneg.
    rewrite RadToDeg_plus, Hturn.
    set (x := Phaser.RadToDeg alpha) in *.
    (* the heading is x + 360, in [180, 360) *)
    rewrite (ShortestBetween_shift (x + 360) (-90) (-1)) by lra.
    rewrite (ShortestBetween_shift (x + 360) 0 (-1)) by lra.
    rewrite !Rabs_le_iff.
    destruct (Rle_dec (x + 360) 270) as [Hq|Hq].
    + rewrite (ShortestBetween_shift (x + 360) 90 0) by lra.
      rewrite (ShortestBetween_shift (x + 360) 180 0) by lra.
      repeat split; intros; intuition lra.
    + rewrite (ShortestBetween_shift (x + 360) 90 (-1)) by lra.
      rewrite (ShortestBetween_shift (x + 360) 180 0) by lra.
      repeat split; intros; intuition lra.
  - apply bool_decide_eq_false in Hneg.
    assert (Hpos : 0 <= Phaser.RadToDeg alpha).
    { apply Rnot_lt_le. intros H. apply Hneg, Hsign, H. }
    set (x := Phaser.RadToDeg alpha) in *.
    rewrite !Rabs_le_iff.
    rewrite (ShortestBetween_shift x 90 0) by lra.
    rewrite (ShortestBetween_shift x 0 0) by lra.
    destruct (Rle_dec x 0) as [Hz|Hz].
    + rewrite (ShortestBetween_shift x 180 1) by lra.
      rewrite (ShortestBetween_shift x (-90) 0) by lra.
      repeat split; intros; intuition lra.
    + rewrite (ShortestBetween_shift x 180 0) by lra.
      destruct (Rle_dec x 90) as [Hq|Hq].
      * rewrite (ShortestBetween_shift x (-90) 0) by lra.
        repeat split; intros; intuition lra.
      * rewrite (ShortestBetween_shift x (-90) (-1)) by lra.
        repeat split; intros; intuition lra.
Qed.

Lemma bool_decide_as (P : Prop) `{Decision P} (b : bool) :
  (P <-> b = true) -> bool_decide P = b.
Proof.
  intros Hiff. destruct b.
  - apply bool_decide_eq_true. apply Hiff. reflexivity.
  - apply bool_decide_eq_false. intros HP. apply Hiff in HP. discriminate.
Qed.

(** The weights of the bias code: the edges the player heads for count
    [1 + SPAWN_BIAS_STRENGTH * 4], the others 1. *)
Lemma edgeWeights_heading (v : R * R) :
  fst v <> 0 \/ snd v <> 0 ->
  edgeWeights (Phaser.RadToDeg (Phaser.vecAngle v)) = edgeWeight v <$> seq 0 4.
Proof.
  intros Hnz. destruct (bias_tests v Hnz) as (T0 & T1 & T2 & T3).
  unfold edgeWeights. cbv zeta.
  rewrite (bool_decide_as _ _ T0), (bool_decide_as _ _ T1),
          (bool_decide_as _ _ T2), (bool_decide_as _ _ T3).
  cbn [seq fmap list_fmap]. unfold edgeWeight.
  destruct (headsFor v 0), (headsFor v 1), (headsFor v 2), (headsFor v 3);
    repeat f_equal; lra.
Qed.

(** The selection loop returns the index whose slot of the cumulated
    weights holds the threshold. *)
Lemma pickWeighted_slot (weights : list R) :
  forall (i : Z) (randomThreshold : R) (edge : Z),
    (forall wt, wt ∈ weights -> 0 < wt) ->
    0 <= randomThreshold < foldr Rplus 0 weights ->
    exists k : nat,
      pickWeighted weights i randomThreshold edge = (i + Z.of_nat k)%Z
      /\ (k < length weights)%nat
      /\ foldr Rplus 0 (take k weights) <= randomThreshold
         < foldr Rplus 0 (take (S k) weights).
Proof.
  induction weights as [|wt rest IH]; intros i t edge Hpos Ht.
  - cbn in Ht. lra.
  - cbn [pickWeighted]. cbn [foldr] in Ht.
    destruct (bool_decide (t < wt)) eqn:Hd.
    + apply bool_decide_eq_true in Hd. exists 0%nat.
      split; [lia|]. split; [cbn; lia|]. cbn. rewrite take_0. cbn. lra.
    + apply bool_decide_eq_false in Hd.
      destruct (IH (i + 1)%Z (t - wt) edge) as (k & Hk & Hlen & Hslot).
      * intros x Hx. apply Hpos. right. assumption.
      * lra.
      * exists (S k). split; [rewrite Hk; lia|]. split; [cbn; lia|].
        cbn [take foldr]. cbn [take] in Hslot. lra.
Qed.

Lemma take_fmap_seq {A} (f : nat -> A) (k n : nat) :
  (k <= n)%nat -> take k (f <$> seq 0 n) = f <$> seq 0 k.
Proof.
  intros Hk. rewrite <- fmap_take. f_equal. rewrite take_seq. f_equal. lia.
Qed.

Lemma moving_nonzero (v : R * R) :
  Phaser.vecLength v > PLAYER_SPEED_THRESHOLD_FOR_BIAS -> fst v <> 0 \/ snd v <> 0.
Proof.
  intros Hfast. destruct (Req_dec (fst v) 0) as [Hx|Hx]; [|left; assumption].
  destruct (Req_dec (snd v) 0) as [Hy|Hy]; [|right; assumption].
  exfalso. unfold Phaser.vecLength, PLAYER_SPEED_THRESHOLD_FOR_BIAS in Hfast.
  rewrite Hx, Hy in Hfast. replace (0 * 0 + 0 * 0) with 0 in Hfast by ring.
  rewrite sqrt_0 in Hfast. lra.
Qed.

(** X25.  The edge bias favours the edges ahead of the player.  When the
    player moves faster than [PLAYER_SPEED_THRESHOLD_FOR_BIAS], the edge
    spawner gives weight [1 + SPAWN_BIAS_STRENGTH * 4] to every edge the
    velocity points to within 45 degrees (top for upward motion, right,
    bottom, left) and weight 1 to the others, and picks the edge in whose
    slot of the cumulated weights the second sample, scaled by the total
    weight, falls: so every edge can be chosen, and an edge ahead is 3.4
    times as likely as one that is not.  At least one edge is ahead. *)
Theorem spawn_edge_is_biased_ahead (env : Env) (w : World) (pl : Player) (v : R * R) :
  uniformSamples env -> player w = Some pl -> pl_body pl = Some v ->
  Phaser.vecLength v > PLAYER_SPEED_THRESHOLD_FOR_BIAS ->
  (exists ahead, (ahead <= 3)%nat /\ headsFor v ahead = true)
  /\ exists edge : nat,
       fst (chooseEdge env w) = Z.of_nat edge /\ (edge <= 3)%nat
       /\ weightBefore v edge
          <= random env (cursor w + 1) * weightBefore v 4
          < weightBefore v (S edge).
Proof.
  intros Hu Hpl Hbody Hfast.
  pose proof (moving_nonzero v Hfast) as Hnz.
  split.
  { destruct (heading_degrees v Hnz) as (Hx & H0 & H1 & H2 & H3).
    set (x := Phaser.RadToDeg (Phaser.atan2 (snd v) (fst v))) in *.
    destruct (Rle_dec x (-135)) as [Ha|Ha]; [exists 3%nat; split; [lia|apply H3; lra]|].
    destruct (Rle_dec x (-45)) as [Hb|Hb]; [exists 0%nat; split; [lia|apply H0; lra]|].
    destruct (Rle_dec x 45) as [Hc|Hc]; [exists 1%nat; split; [lia|apply H1; lra]|].
    destruct (Rle_dec x 135) as [Hd|Hd]; [exists 2%nat; split; [lia|apply H2; lra]|].
    exists 3%nat. split; [lia|apply H3; lra]. }
  assert (Hwt : forall e, 1 <= edgeWeight v e).
  { intros e. unfold edgeWeight, SPAWN_BIAS_STRENGTH. destruct (headsFor v e); lra. }
  assert (Htotal : foldl Rplus 0 (edgeWeight v <$> seq 0 4)
                   = foldr Rplus 0 (edgeWeight v <$> seq 0 4)) by (cbn; ring).
  unfold chooseEdge. rewrite bind_eq, rand_eq. cbn [fst snd].
  rewrite bind_eq. unfold get. cbn [fst snd].
  change (player (advance 1 w)) with (player w). rewrite Hpl, Hbody.
  rewrite bool_decide_eq_true_2 by exact Hfast.
  rewrite bind_eq, rand_eq. cbn [fst snd]. unfold ret. cbn [fst].
  rewrite (edgeWeights_heading v Hnz), Htotal.
  change (cursor (advance 1 w)) with (cursor w + 1)%nat.
  pose proof (Hu (cursor w + 1)%nat) as [Hu0 Hu1].
  set (u := random env (cursor w + 1)) in *.
  set (total := foldr Rplus 0 (edgeWeight v <$> seq 0 4)).
  assert (Hpos : 4 <= total).
  { unfold total. cbn.
    pose proof (Hwt 0%nat). pose proof (Hwt 1%nat). pose proof (Hwt 2%nat).
    pose proof (Hwt 3%nat). lra. }
  destruct (pickWeighted_slot (edgeWeight v <$> seq 0 4) 0 (u * total)
              (Phaser.Between 0 3 (random env (cursor w)))) as (k & Hk & Hlen & Hslot).
  - intros wt Hin. apply list_elem_of_fmap in Hin. destruct Hin as (e & -> & _).
    pose proof (Hwt e). lra.
  - fold total. split; nra.
  - rewrite length_fmap, length_seq in Hlen.
    rewrite !take_fmap_seq in Hslot by lia.
    exists k. split; [rewrite Hk; lia|]. split; [lia|]. exact Hslot.
Qed.

Lemma spawn_edge_is_biased_ahead_witness :
  uniformSamples halfEnv
  /\ player cruising = Some (mkPlayer 400 300 true (Some (100, 0)))
  /\ Phaser.vecLength (100, 0) > PLAYER_SPEED_THRESHOLD_FOR_BIAS
  /\ (exists ahead, (ahead <= 3)%nat /\ headsFor (100, 0) ahead = true)
  /\ exists edge : nat,
       fst (chooseEdge halfEnv cruising) = Z.of_nat edge /\ (edge <= 3)%nat
       /\ weightBefore (100, 0) edge
          <= random halfEnv (cursor cruising + 1) * weightBefore (100, 0) 4
          < weightBefore (100, 0) (S edge).
Proof.
  assert (Hfast : Phaser.vecLength (100, 0) > PLAYER_SPEED_THRESHOLD_FOR_BIAS).
  { unfold Phaser.vecLength, PLAYER_SPEED_THRESHOLD_FOR_BIAS. cbn [fst snd].
    replace (100 * 100 + 0 * 0) with (100 * 100) by ring.
    rewrite sqrt_square by lra. lra. }
  split; [exact halfEnv_uniform|]. split; [reflexivity|]. split; [exact Hfast|].
  exact (spawn_edge_is_biased_ahead halfEnv cruising (mkPlayer 400 300 true (Some (100, 0)))
           (100, 0) halfEnv_uniform eq_refl eq_refl Hfast).
Defined.

(** ** Live asteroids stay well formed *)

Lemma data_modified (w w' : World) (h : nat) (a a' : Asteroid) :
  dataInvariant w -> heap w !! h = Some a ->
  heap w' = <[h := a']> (heap w) ->
  (forall t, t ∈ timers w' ->
             t ∈ timers w \/ (fr_asteroid t = h /\ d_points a' = Some (fr_points t))) ->
  (a_active a' = true ->
   a_active a = true /\ (wellFormed a -> wellFormed a') /\ d_points a' = d_points a) ->
  dataInvariant w'.
Proof.
  intros [Hwf Htm] Hl Hheap Htimers Hkeep. split.
  - intros h' x Hlx Hact. rewrite Hheap in Hlx.
    destruct (decide (h' = h)) as [->|Hne].
    + rewrite lookup_insert_eq in Hlx. injection Hlx as <-.
      destruct (Hkeep Hact) as (Ha & Hw & _). apply Hw. apply (Hwf h a Hl Ha).
    + rewrite lookup_insert_ne in Hlx by auto. apply (Hwf h' x Hlx Hact).
  - intros t x Hin Hlx Hact. rewrite Hheap in Hlx.
    destruct (Htimers t Hin) as [Hold|[Hh Hpts]].
    + destruct (decide (fr_asteroid t = h)) as [He|Hne].
      * rewrite He, lookup_insert_eq in Hlx. injection Hlx as <-.
        destruct (Hkeep Hact) as (Ha & _ & Hp). rewrite Hp.
        apply (Htm t a Hold); [rewrite He; exact Hl|exact Ha].
      * rewrite lookup_insert_ne in Hlx by auto. apply (Htm t x Hold Hlx Hact).
    + rewrite Hh, lookup_insert_eq in Hlx. injection Hlx as <-. exact Hpts.
Qed.

Lemma data_frame (w w' : World) :
  dataInvariant w -> heap w' = heap w ->
  (forall t, t ∈ timers w' -> t ∈ timers w) -> dataInvariant w'.
Proof.
  intros [Hwf Htm] Hh Ht. split.
  - intros h a Hl. rewrite Hh in Hl. apply (Hwf h a Hl).
  - intros t a Hin Hl. rewrite Hh in Hl. apply (Htm t a (Ht t Hin) Hl).
Qed.

Lemma data_update (h : nat) (f : Asteroid -> Asteroid) (w : World) :
  (forall a, a_active (f a) = true ->
             a_active a = true /\ (wellFormed a -> wellFormed (f a))
             /\ d_points (f a) = d_points a) ->
  dataInvariant w -> dataInvariant (snd (update h f w)).
Proof.
  intros Hf Hinv. destruct (heap w !! h) as [a|] eqn:Hl.
  - rewrite (update_hit h f w a Hl). cbn [snd].
    apply (data_modified w _ h a (f a) Hinv Hl); [reflexivity| |apply Hf].
    intros t Hin. left. exact Hin.
  - rewrite (update_miss h f w Hl). assumption.
Qed.

Lemma data_destroyAsteroid (h : nat) (w : World) :
  dataInvariant w -> dataInvariant (snd (destroyAsteroid h w)).
Proof.
  intros Hinv. unfold destroyAsteroid. rewrite bind_eq. unfold modify at 1. cbn [fst snd].
  apply data_update.
  - intros a Ha. discriminate.
  - apply (data_frame w); [assumption|reflexivity|]. intros t Hin. exact Hin.
Qed.

Lemma wellFormed_moved px py v spin (a : Asteroid) :
  wellFormed a -> wellFormed (moved px py v spin a).
Proof.
  intros [Hbody Hdata]. split.
  - destruct Hbody as [b Hb]. cbn. rewrite Hb. eexists. reflexivity.
  - exact Hdata.
Qed.

Lemma wellFormed_with_hitPoints (a : Asteroid) (n : Z) :
  wellFormed a -> d_hitPoints a = Some n -> (1 < n)%Z ->
  wellFormed (with_hitPoints (n - 1) a).
Proof.
  intros [Hbody (cn & s & m & pts & flag & Hc & Hs & Hr & Hhp & Hn & Hp & Hl & Hf & Hg)]
         Hn' Hgt.
  split; [exact Hbody|]. exists cn, s, (n - 1)%Z, pts, flag. cbn.
  rewrite Hn' in Hhp. injection Hhp as <-.
  repeat (split; [first [assumption|reflexivity|lia]|]). assumption.
Qed.

(** The asteroid a spawner creates is well formed. *)
Lemma spawned_wellFormed (env : Env) (w : World) (regionBounds : Phaser.Rectangle)
    (a : Asteroid) :
  uniformSamples env ->
  spawnedBy w (snd (spawnAsteroidInView env w)) a
  \/ spawnedBy w (snd (spawnAsteroid env w)) a
  \/ spawnedBy w (snd (spawnAsteroidInRegion env regionBounds w)) a ->
  is_Some (a_body a) -> wellFormed a.
Proof.
  intros Hu Hsp Hbody. split; [exact Hbody|].
  destruct (spawned_fields env w regionBounds a Hu Hsp)
    as (cn & c & Hc & Hs & Hhp & Hhit & Hact & Hout).
  destruct (spawned_data env cn c a Hu Hc Hs Hhp Hhit Hact Hout)
    as (cn' & s & pts & Hc' & Hs' & _ & Hr & Hhp' & Hhit' & _ & Hp & Hl & _ & _ & Hg).
  exists cn', s, (hp (ASTEROID_CATEGORIES cn')), pts, false.
  repeat (split; [first [assumption|destruct cn'; cbn; lia]|]). exact Hg.
Qed.

Lemma data_spawnOutcome (w w' : World) :
  flashInvariant w -> spawnOutcome w w' ->
  (forall a, spawnedBy w w' a -> is_Some (a_body a) -> wellFormed a) ->
  dataInvariant w -> dataInvariant w'.
Proof.
  intros (Hlt & _) Hout Hnew Hinv. pose proof Hinv as [Hwf Htm].
  destruct Hout as [k ->|a k -> Ha Hb Hf|a k -> Hina].
  - apply (data_frame w); [assumption|reflexivity|]. intros t Hin. exact Hin.
  - assert (Hwfa : wellFormed a).
    { apply Hnew; [|exact Hb]. split; world_cbn; [reflexivity|apply lookup_insert_eq]. }
    split; world_cbn.
    + intros h x Hl Hx. destruct (decide (h = nextHandle w)) as [->|Hne].
      * rewrite lookup_insert_eq in Hl. injection Hl as <-. exact Hwfa.
      * rewrite lookup_insert_ne in Hl by auto. apply (Hwf h x Hl Hx).
    + intros t x Hin Hl Hx. specialize (Hlt t Hin).
      rewrite lookup_insert_ne in Hl by lia. apply (Htm t x Hin Hl Hx).
  - split; world_cbn.
    + intros h x Hl Hx. destruct (decide (h = nextHandle w)) as [->|Hne].
      * rewrite lookup_insert_eq in Hl. injection Hl as <-. congruence.
      * rewrite lookup_insert_ne in Hl by auto. apply (Hwf h x Hl Hx).
    + intros t x Hin Hl Hx. specialize (Hlt t Hin).
      rewrite lookup_insert_ne in Hl by lia. apply (Htm t x Hin Hl Hx).
Qed.

Lemma data_spawner (env : Env) (w : World) (regionBounds : Phaser.Rectangle) (w' : World) :
  uniformSamples env ->
  w' = snd (spawnAsteroidInView env w) \/ w' = snd (spawnAsteroid env w)
  \/ w' = snd (spawnAsteroidInRegion env regionBounds w) ->
  spawnOutcome w w' -> flashInvariant w -> dataInvariant w -> dataInvariant w'.
Proof.
  intros Hu Hw' Hout Hflash Hinv. apply (data_spawnOutcome w w' Hflash Hout); [|exact Hinv].
  intros a Ha Hbody. apply (spawned_wellFormed env w regionBounds a Hu); [|exact Hbody].
  destruct Hw' as [->|[->| ->]]; auto.
Qed.

Lemma data_bulletHit (l : Listing) (bullet asteroid : nat) (w : World) :
  dataInvariant w ->
  dataInvariant (snd (handleBulletAsteroidCollision l bullet asteroid w)).
Proof.
  intros Hinv.
  destruct (bulletHeap w !! bullet) as [b|] eqn:Hb;
    [|rewrite handleBulletAsteroidCollision_guard;
      [assumption|left; intros x Hx; congruence]].
  destruct (heap w !! asteroid) as [a|] eqn:Ha;
    [|rewrite handleBulletAsteroidCollision_guard;
      [assumption|right; intros x Hx; congruence]].
  destruct (b_active b) eqn:Hba;
    [|rewrite handleBulletAsteroidCollision_guard;
      [assumption|left; intros x Hx; congruence]].
  destruct (a_active a) eqn:Haa;
    [|rewrite handleBulletAsteroidCollision_guard;
      [assumption|right; intros x Hx; left; congruence]].
  destruct (a_body a) as [body|] eqn:Hbody;
    [|rewrite handleBulletAsteroidCollision_guard;
      [assumption|right; intros x Hx; right; congruence]].
  assert (Hsome : is_Some (a_body a)) by (rewrite Hbody; eexists; reflexivity).
  pose proof Hinv as [Hwf Htm].
  pose proof (Hwf asteroid a Ha Haa) as Hwfa.
  destruct Hwfa as [_ (cn & s & n & pts & flag & Hc & Hs & Hr & Hhp & Hn & Hp & Hl & Hf & Hg)].
  destruct (Z_le_gt_dec (n - 1) 0) as [Hkill|Hlive].
  - destruct (lethal_hit l bullet asteroid w b a n Hb Ha Hba Haa Hsome Hhp Hkill)
      as (Hheap & _ & Htimers & _).
    apply (data_modified w _ asteroid a _ Hinv Ha Hheap).
    + intros t Hin. left. rewrite Htimers in Hin. exact Hin.
    + intros Hx. discriminate.
  - destruct flag.
    + rewrite (hit_while_flashing l bullet asteroid w b a n Hb Ha Hba Haa Hsome Hhp
                 ltac:(lia) Hf).
      cbn [snd]. rewrite destroyBullet_eq. cbn [snd].
      eapply (data_modified w _ asteroid a); [exact Hinv|exact Ha|reflexivity| |].
      * intros t Hin. left. exact Hin.
      * intros _. split; [exact Haa|]. split; [|reflexivity].
        intros Hw. apply wellFormed_with_hitPoints; [assumption|assumption|lia].
    + rewrite (flashing_hit_drawn l bullet asteroid w b a n pts Hb Ha Hba Haa Hsome Hhp
                 ltac:(lia) Hp ltac:(lia) ltac:(rewrite Hf; reflexivity)).
      cbn [snd]. rewrite destroyBullet_eq. cbn [snd].
      eapply (data_modified w _ asteroid a); [exact Hinv|exact Ha|reflexivity| |].
      * world_cbn. intros t Hin. apply elem_of_app in Hin. destruct Hin as [Hin|Hin].
        -- left. exact Hin.
        -- apply list_elem_of_singleton in Hin. subst t. right. cbn.
           split; [reflexivity|exact Hp].
      * intros _. split; [exact Haa|]. split; [|reflexivity].
        intros _. split; [exact Hsome|].
        exists cn, s, (n - 1)%Z, pts, true. cbn.
        repeat (split; [first [assumption|reflexivity|lia]|]). reflexivity.
Qed.

Lemma data_fireTimer (i : nat) (w : World) :
  dataInvariant w -> dataInvariant (snd (fireTimer i w)).
Proof.
  intros Hinv. unfold fireTimer. rewrite bind_eq. unfold get. cbn [fst snd].
  destruct (timers w !! i) as [t|] eqn:Ht; [|assumption].
  rewrite bind_eq. unfold modify. cbn [fst snd].
  assert (Hin : t ∈ timers w) by (apply list_elem_of_lookup; exists i; exact Ht).
  assert (Hinv0 : dataInvariant (set_timers (delete i) w)).
  { apply (data_frame w); [assumption|reflexivity|].
    world_cbn. intros t' Hin'. apply list_elem_of_delete_inv in Hin'. exact Hin'. }
  destruct (heap w !! fr_asteroid t) as [a|] eqn:Hl.
  - destruct (revertGuard (fr_listing t) a) eqn:Hg.
    + assert (Hact : a_active a = true).
      { unfold revertGuard in Hg. apply andb_true_iff in Hg. apply Hg. }
      pose proof Hinv as [Hwf Htm].
      pose proof (Htm t a Hin Hl Hact) as Hpts.
      destruct (Hwf _ a Hl Hact)
        as [Hbody (cn & s & n & pts & flag & Hc & Hs & Hr & Hhp & Hn & Hp & Hlen & Hf & Hgfx)].
      rewrite Hpts in Hp. injection Hp as <-.
      rewrite (flashRevert_runs t (set_timers (delete i) w) a Hl Hg ltac:(lia)). cbn [snd].
      eapply (data_modified _ _ (fr_asteroid t) a); [exact Hinv0|exact Hl|reflexivity| |].
      * intros t' Hin'. left. exact Hin'.
      * intros _. split; [exact Hact|]. split; [|exact eq_refl].
        intros _. split; [exact Hbody|].
        exists cn, s, n, (fr_points t), false. cbn.
        repeat (split; [first [assumption|reflexivity|lia]|]). reflexivity.
    + rewrite (flashRevert_guard_fails t (set_timers (delete i) w) a Hl Hg). exact Hinv0.
  - rewrite (flashRevert_no_object t (set_timers (delete i) w) Hl). exact Hinv0.
Qed.

Lemma data_step (env : Env) (w w' : World) :
  uniformSamples env -> lifecycleInvariant w -> flashInvariant w -> dataInvariant w ->
  step env w w' -> dataInvariant w'.
Proof.
  intros Hu Hlife Hflash Hinv Hstep. destruct Hstep.
  - apply (data_spawner env w window _ Hu); auto.
    apply spawnAsteroidInView_spawnOutcome. assumption.
  - apply (data_spawner env w window _ Hu); auto.
    apply spawnAsteroid_spawnOutcome. assumption.
  - apply (density_preserves (fun W => flashInvariant W /\ dataInvariant W) env Hu);
      [|assumption|split; assumption].
    intros W region HlW [HfW HdW]. split.
    + apply (flash_spawner env W region _ Hu); auto.
      apply spawnAsteroidInRegion_spawnOutcome. assumption.
    + apply (data_spawner env W region _ Hu); auto.
      apply spawnAsteroidInRegion_spawnOutcome. assumption.
  - apply data_bulletHit. assumption.
  - unfold handlePlayerAsteroidCollision. rewrite bind_eq. unfold get. cbn [fst snd].
    destruct (player w) as [pl|]; [|assumption].
    destruct (heap w !! asteroid) as [a|]; [|assumption].
    destruct (_ || _); [assumption|].
    rewrite bind_eq. apply data_destroyAsteroid.
    destruct (particleEmitter w); [|assumption].
    unfold modify. cbn [snd].
    apply (data_frame w); [assumption|reflexivity|]. intros t Hin. exact Hin.
  - apply data_fireTimer. assumption.
  - unfold cleanupOutOfBoundsAsteroids. rewrite bind_eq. unfold get. cbn [fst snd].
    destruct (camera w) as [worldView|]; [|assumption].
    unfold modify. cbn [snd]. apply iterate_preserves; [|assumption].
    intros h s Hs. destruct (heap s !! h) as [a|]; [|assumption].
    destruct (_ && _); [|assumption]. cbn [snd].
    apply data_destroyAsteroid. assumption.
  - unfold cleanupOutOfBoundsBullets. rewrite bind_eq. unfold get. cbn [fst snd].
    destruct (camera w) as [worldView|]; [|assumption].
    unfold modify. cbn [snd]. apply iterate_preserves; [|assumption].
    intros b s Hs. destruct (bulletHeap s !! b) as [bl|]; [|assumption].
    destruct (_ && _); [|assumption]. cbn [snd].
    rewrite destroyBullet_eq. cbn [snd].
    apply (data_frame s); [assumption|reflexivity|]. intros t Hin. exact Hin.
  - unfold shootBullet. rewrite bind_eq. unfold get. cbn [fst snd].
    destruct (player w) as [pl|]; [|assumption].
    destruct (_ || _); [assumption|].
    rewrite !bind_eq. unfold modify. cbn [fst snd].
    destruct (attachBody env (nextHandle w)).
    + unfold ret. cbn [snd].
      apply (data_frame w); [assumption|reflexivity|]. intros t Hin. exact Hin.
    + rewrite destroyBullet_eq. cbn [snd].
      apply (data_frame w); [assumption|reflexivity|]. intros t Hin. exact Hin.
  - unfold moveAsteroid. apply data_update; [|assumption].
    intros a Ha. split; [exact Ha|]. split; [apply wellFormed_moved|reflexivity].
  - unfold moveView, modify. cbn [snd].
    apply (data_frame w); [assumption|reflexivity|]. intros t Hin. exact Hin.
Qed.

Lemma reachable_data (env : Env) (w : World) :
  uniformSamples env -> reachable env w -> dataInvariant w.
Proof.
  intros Hu Hreach. induction Hreach as [gw gh wv|w w' Hr IH Hstep].
  - split; simpl.
    + intros h a Hl. rewrite lookup_empty in Hl. discriminate.
    + intros t a Hin. inversion Hin.
  - apply (data_step env w w' Hu); try assumption.
    + apply (reachable_invariant env w Hu Hr).
    + apply (reachable_flash env w Hu Hr).
Qed.

(** X26.  A live asteroid is well formed at all times.  In every world the
    game reaches, an active asteroid object has a body; it carries its
    category, a size within the category's range, between 1 and the
    category's [hp] hit points, and an outline of 6 to 11 points; and it
    shows exactly that outline, filled with the hit colour when [isHit] is
    set and not filled when it is not.  The outline a pending revert of it
    would redraw is the stored one. *)
Theorem live_asteroid_is_well_formed (env : Env) (w : World) (h : nat) (a : Asteroid) :
  uniformSamples env -> reachable env w ->
  heap w !! h = Some a -> a_active a = true ->
  wellFormed a
  /\ forall t, t ∈ timers w -> fr_asteroid t = h -> d_points a = Some (fr_points t).
Proof.
  intros Hu Hreach Hl Hact.
  destruct (reachable_data env w Hu Hreach) as [Hwf Htm].
  split; [apply (Hwf h a Hl Hact)|].
  intros t Hin He. apply (Htm t a Hin); [rewrite He; exact Hl|exact Hact].
Qed.

Lemma live_asteroid_is_well_formed_witness :
  exists a,
    uniformSamples halfEnv
    /\ reachable halfEnv (snd (spawnAsteroid halfEnv startup))
    /\ heap (snd (spawnAsteroid halfEnv startup)) !! 0%nat = Some a
    /\ a_active a = true
    /\ wellFormed a
    /\ forall t, t ∈ timers (snd (spawnAsteroid halfEnv startup)) -> fr_asteroid t = 0%nat ->
                 d_points a = Some (fr_points t).
Proof.
  destruct halfEnv_edge_spawnedBy as [a Ha]. exists a.
  assert (Hreach : reachable halfEnv (snd (spawnAsteroid halfEnv startup))).
  { apply (reachable_step halfEnv startup); [apply reachable_start|apply step_spawn]. }
  assert (Hl : heap (snd (spawnAsteroid halfEnv startup)) !! 0%nat = Some a)
    by exact (proj2 Ha).
  assert (Hact : a_active a = true).
  { destruct (spawned_fields halfEnv startup window a halfEnv_uniform (or_intror (or_introl Ha)))
      as (cn & c & _ & _ & _ & _ & Hact & _). exact Hact. }
  split; [exact halfEnv_uniform|]. split; [exact Hreach|]. split; [exact Hl|].
  split; [exact Hact|].
  exact (live_asteroid_is_well_formed halfEnv (snd (spawnAsteroid halfEnv startup)) 0 a
           halfEnv_uniform Hreach Hl Hact).
Defined.

(** ** Spawning on a clear field *)

Lemma clear_overlaps (w : World) visualSize category px py :
  (forall h b, ~ solid w h b) -> overlaps w visualSize category px py = false.
Proof.
  intros Hclear. apply overlaps_false_iff. intros h Hin (a & Hl & Hact & Hbody & _).
  apply (Hclear h a). split; [assumption|]. split; [assumption|]. split; assumption.
Qed.

Lemma edgeRetry_clear (env : Env) worldView edge visualSize category (budget : nat)
    (w : World) :
  (forall h b, ~ solid w h b) -> (0 < budget)%nat ->
  exists p k,
    edgeRetry env worldView edge visualSize category budget w = (Some p, advance k w).
Proof.
  intros Hclear Hb. destruct budget as [|budget]; [lia|].
  cbn [edgeRetry]. rewrite bind_eq.
  destruct (edgeCandidate_advances env worldView edge visualSize w) as [k Hk].
  rewrite bind_eq. unfold get. cbn [fst snd]. rewrite Hk.
  rewrite overlaps_advance, clear_overlaps by exact Hclear. cbn [negb].
  eexists. exists k. reflexivity.
Qed.

Lemma edge_spawn_clear (env : Env) (w : World) (worldView : Phaser.Rectangle) :
  uniformSamples env -> camera w = Some worldView ->
  (forall h b, ~ solid w h b) -> attachBody env (nextHandle w) = true ->
  exists a, spawnedBy w (snd (spawnAsteroid env w)) a.
Proof.
  intros Hu Hcam Hclear Hatt.
  destruct (GetRandom_active (random env (cursor w)) (Hu _)) as [cn Hcn].
  rewrite (spawnAsteroid_eq env worldView w cn Hcam Hcn). cbv zeta.
  destruct (chooseEdge_advances env (advance 3 w)) as [k1 Hk1]. rewrite Hk1.
  rewrite advance_advance.
  destruct (edgeRetry_clear env worldView (fst (chooseEdge env (advance 3 w)))
              (drawnSize env (ASTEROID_CATEGORIES cn) (cursor w)) (ASTEROID_CATEGORIES cn)
              SPAWN_MAX_RETRIES (advance (3 + k1) w)) as ([px py] & k2 & Hr).
  { exact Hclear. }
  { unfold SPAWN_MAX_RETRIES. lia. }
  rewrite Hr. cbn [fst snd]. rewrite advance_advance.
  apply createAsteroid_spawnedBy; [exact Hatt|].
  intros W. apply edgeVelocity_advances.
Qed.

(** X27.  The spawners do not give up on a clear field.  When the group
    holds no active asteroid with a body (it is empty, say), there is a
    camera and the engine attaches a body to the new object, a timed spawn
    always creates an asteroid, and so does a startup request, in view or
    through its fallback to the edge spawner. *)
Theorem spawn_succeeds_on_clear_field (env : Env) (w : World) (worldView : Phaser.Rectangle) :
  uniformSamples env -> camera w = Some worldView ->
  (forall h b, ~ solid w h b) -> attachBody env (nextHandle w) = true ->
  (exists a, spawnedBy w (snd (spawnAsteroid env w)) a)
  /\ (exists a, spawnedBy w (snd (spawnAsteroidInView env w)) a).
Proof.
  intros Hu Hcam Hclear Hatt.
  split; [apply (edge_spawn_clear env w worldView); assumption|].
  destruct (GetRandom_active (random env (cursor w)) (Hu _)) as [cn Hcn].
  rewrite (spawnAsteroidInView_eq env worldView w cn Hcam Hcn). cbv zeta.
  match goal with |- context [viewRetry ?e ?sw ?sh ?px ?py ?vs ?cat ?b ?W] =>
    destruct (viewRetry_advances e sw sh px py vs cat b W) as [k Hk];
    destruct (fst (viewRetry e sw sh px py vs cat b W)) as [[spawnX spawnY]|]
  end.
  - cbn [snd]. rewrite Hk, advance_advance.
    apply createAsteroid_spawnedBy; [exact Hatt|]. apply viewVelocity_advances.
  - rewrite Hk, advance_advance.
    destruct (edge_spawn_clear env (advance (3 + k) w) worldView Hu Hcam Hclear Hatt)
      as [a Ha].
    exists a. apply (spawnedBy_advance (3 + k)). exact Ha.
Qed.

Lemma spawn_succeeds_on_clear_field_witness :
  uniformSamples halfEnv /\ camera startup = Some window
  /\ (forall h b, ~ solid startup h b)
  /\ attachBody halfEnv (nextHandle startup) = true
  /\ (exists a, spawnedBy startup (snd (spawnAsteroid halfEnv startup)) a)
  /\ (exists a, spawnedBy startup (snd (spawnAsteroidInView halfEnv startup)) a).
Proof.
  assert (Hclear : forall h b, ~ solid startup h b).
  { intros h b (Hin & _). inversion Hin. }
  split; [exact halfEnv_uniform|]. split; [reflexivity|]. split; [exact Hclear|].
  split; [reflexivity|].
  exact (spawn_succeeds_on_clear_field halfEnv startup window halfEnv_uniform eq_refl
           Hclear eq_refl).
Defined.
